(** * The object-model kernel of GAP ([src/objects.c]), shallowly embedded

    The development follows the C file from top to bottom: the heap of bags
    with its type tags, the mutability and copyability tests, the structural
    copy with forwarding records ([CopyObj], [COPY_OBJ], [CLEAN_OBJ]), the
    recursive printer with its ancestor stack ([PrintObj], [ViewObj]), the
    save and load bodies of the three structural kinds, and the handlers
    [SET_TYPE_COMOBJ], [CLONE_OBJ], [SWITCH_OBJ] and [FORCE_SWITCH_OBJ].

    C words ([Obj], [UInt], [Int]) are integers of [Z]; a bag is a record of
    its tag, its byte size and its words; the heap is a finite map from
    handles to bags.  Recursion through the dispatch tables is bounded by a
    fuel argument, and separate lemmas show how much fuel is enough. *)

From stdpp Require Import gmap strings list fin_maps.
From Stdlib Require Import ZArith Lia.

Open Scope Z_scope.

(** ** Outcomes of kernel functions *)

(** A kernel function either returns, leaves through [ErrorQuit] (a long
    jump to the main loop), runs into behaviour that C leaves undefined
    (a null or unallocated handle, a slot outside the bag, an empty cell of
    a dispatch table), or exhausts the fuel of the embedding.  The messages
    of [ErrorQuit] are the format strings of the source. *)
Inductive outcome (A : Type) : Type :=
| Ret (a : A)
| ErrorQuit (msg : string)
| Undef
| OutOfFuel.

Arguments Ret {A} a.
Arguments ErrorQuit {A} msg.
Arguments Undef {A}.
Arguments OutOfFuel {A}.

#[export] Instance outcome_ret : MRet outcome := @Ret.
#[export] Instance outcome_bind : MBind outcome := λ A B f m,
  match m with
  | Ret a => f a
  | ErrorQuit msg => ErrorQuit msg
  | Undef => Undef
  | OutOfFuel => OutOfFuel
  end.

(** ** Type tags *)

(** The tag numbers come from [objects.h], which is not part of the file at
    hand; they are kept abstract and only their order is assumed (see
    [TnumsOK]). *)
Class Tnums : Type := {
  FIRST_REAL_TNUM : Z;
  FIRST_CONSTANT_TNUM : Z;
  T_INT : Z;
  T_FFE : Z;
  LAST_CONSTANT_TNUM : Z;
  FIRST_RECORD_TNUM : Z;
  T_PREC : Z;
  LAST_RECORD_TNUM : Z;
  FIRST_LIST_TNUM : Z;
  T_PLIST : Z;
  LAST_LIST_TNUM : Z;
  FIRST_EXTERNAL_TNUM : Z;
  T_COMOBJ : Z;
  T_POSOBJ : Z;
  T_DATOBJ : Z;
  T_ACOMOBJ : Z;
  T_AREC : Z;
  LAST_EXTERNAL_TNUM : Z;
  LAST_REAL_TNUM : Z;
  COPYING : Z
}.

(** The ranges are ordered as the header orders them: constants, records,
    lists, external objects; the three structural tags are distinct external
    tags, and adding [COPYING] to a tag from [FIRST_RECORD_TNUM] on leaves
    the range of real tags. *)
Class TnumsOK `{Tnums} : Prop := {
  tnums_real_first : FIRST_REAL_TNUM ≤ FIRST_CONSTANT_TNUM;
  tnums_int_const : FIRST_CONSTANT_TNUM ≤ T_INT ≤ LAST_CONSTANT_TNUM;
  tnums_ffe_const : FIRST_CONSTANT_TNUM ≤ T_FFE ≤ LAST_CONSTANT_TNUM;
  tnums_const_record : LAST_CONSTANT_TNUM < FIRST_RECORD_TNUM;
  tnums_record_list : FIRST_RECORD_TNUM ≤ FIRST_LIST_TNUM;
  tnums_plist_list : FIRST_LIST_TNUM ≤ T_PLIST ≤ LAST_LIST_TNUM;
  tnums_list_external : LAST_LIST_TNUM < FIRST_EXTERNAL_TNUM;
  tnums_comobj_ext : FIRST_EXTERNAL_TNUM ≤ T_COMOBJ ≤ LAST_EXTERNAL_TNUM;
  tnums_posobj_ext : FIRST_EXTERNAL_TNUM ≤ T_POSOBJ ≤ LAST_EXTERNAL_TNUM;
  tnums_datobj_ext : FIRST_EXTERNAL_TNUM ≤ T_DATOBJ ≤ LAST_EXTERNAL_TNUM;
  tnums_com_pos : T_COMOBJ ≠ T_POSOBJ;
  tnums_com_dat : T_COMOBJ ≠ T_DATOBJ;
  tnums_pos_dat : T_POSOBJ ≠ T_DATOBJ;
  tnums_real_last : LAST_EXTERNAL_TNUM ≤ LAST_REAL_TNUM;
  tnums_copying : LAST_REAL_TNUM < FIRST_RECORD_TNUM + COPYING
}.

(** ** Collaborators outside the file *)

(** The filters [IsMutableObjFilt] and [IsCopyableObjFilt] are flags of the
    kind (type descriptor) of an external object; [DoFilter] reads them from
    the kind, and the library function [RESET_FILTER_OBJ] replaces the kind
    of an object by the kind without the flag. *)
Class Kinds : Type := {
  KindIsMutable : Z → bool;
  KindIsCopyable : Z → bool;
  KindResetMutable : Z → Z
}.

(** The calling thread: [TLS] identifies it, [region_owner ds] is
    [ds->owner], and [currentRegion] is the region new bags are put in. *)
Class Threads : Type := {
  TLS : Z;
  region_owner : Z → Z;
  currentRegion : Z
}.

(** ** Bags and the heap *)

(** A handle is a machine word, as are the raw words of a bag. *)
Abbreviation Obj := Z (only parsing).

(** Modelled from the spec: [objects.h] is missing; the two immediate kinds
    (small integers, finite field elements) are recognised by the two low
    bits of the handle word, and every other non-null word is a bag
    reference. *)
Definition IS_INTOBJ (o : Obj) : bool := Z.testbit o 0.
Definition IS_FFE (o : Obj) : bool := Z.testbit o 1.
Definition IS_BAG_REF (o : Obj) : bool :=
  negb (o =? 0) && negb (IS_INTOBJ o) && negb (IS_FFE o).
Definition is_immediate (o : Obj) : bool := IS_INTOBJ o || IS_FFE o.

(** Words are 8 bytes ([sizeof(Obj) = sizeof(UInt) = sizeof(Int)]). *)
Definition sizeof_Obj : Z := 8.
Definition wrap64 (z : Z) : Z := z mod 2 ^ 64.

(** The body of a bag: tag, size in bytes, and the words of its data. *)
Record Body : Type := mkBody {
  tnum : Z;
  size : Z;
  data : list Z
}.

(** A handle refers to a body ([PTR_BAG]) and to a region ([DS_BAG]). *)
Record Bag : Type := mkBag {
  PTR_BAG : Body;
  DS_BAG : Z
}.

(** The heap: the bags by handle, and the next free handle. *)
Record Heap : Type := mkHeap {
  bags : gmap Z Bag;
  brk : Z
}.

Definition nwords (sz : Z) : nat := Z.to_nat ((sz + sizeof_Obj - 1) / sizeof_Obj).

Definition get_bag (h : Heap) (o : Obj) : outcome Bag :=
  match bags h !! o with
  | Some b => Ret b
  | None => Undef
  end.

Definition put_bag (h : Heap) (o : Obj) (b : Bag) : Heap :=
  mkHeap (<[o := b]> (bags h)) (brk h).

(** Handles are handed out in steps of 4. *)
Definition next_handle (h : Heap) : Heap := mkHeap (bags h) (brk h + 4).

Definition TNUM_BAG (h : Heap) (o : Obj) : outcome Z :=
  b ← get_bag h o; Ret (tnum (PTR_BAG b)).

Section WithTnums.
Context `{Tnums}.

Definition TNUM_OBJ (h : Heap) (o : Obj) : outcome Z :=
  if IS_INTOBJ o then Ret T_INT
  else if IS_FFE o then Ret T_FFE
  else TNUM_BAG h o.

End WithTnums.

Definition SIZE_OBJ (h : Heap) (o : Obj) : outcome Z :=
  b ← get_bag h o; Ret (size (PTR_BAG b)).

(** [ADDR_OBJ(o)[i]] as an rvalue. *)
Definition ADDR_OBJ_get (h : Heap) (o : Obj) (i : nat) : outcome Z :=
  b ← get_bag h o;
  match data (PTR_BAG b) !! i with
  | Some v => Ret v
  | None => Undef
  end.

(** [ADDR_OBJ(o)[i] = v]. *)
Definition set_word (b : Bag) (i : nat) (v : Z) : Bag :=
  let p := PTR_BAG b in
  mkBag (mkBody (tnum p) (size p) (<[i := v]> (data p))) (DS_BAG b).

Definition set_tnum (b : Bag) (t : Z) : Bag :=
  let p := PTR_BAG b in
  mkBag (mkBody t (size p) (data p)) (DS_BAG b).

Definition ADDR_OBJ_set (h : Heap) (o : Obj) (i : nat) (v : Z) : outcome Heap :=
  b ← get_bag h o;
  if decide (i < length (data (PTR_BAG b)))%nat
  then Ret (put_bag h o (set_word b i v))
  else Undef.

Definition RetypeBag (h : Heap) (o : Obj) (t : Z) : outcome Heap :=
  b ← get_bag h o;
  Ret (put_bag h o (set_tnum b t)).

(** [ResizeBag] keeps the words that fit and clears the new ones. *)
Definition ResizeBag (h : Heap) (o : Obj) (sz : Z) : outcome Heap :=
  b ← get_bag h o;
  let p := PTR_BAG b in
  Ret (put_bag h o (mkBag (mkBody (tnum p) sz
                             (take (nwords sz) (data p ++ replicate (nwords sz) 0)))
                          (DS_BAG b))).

Section WithThreads.
Context `{Threads}.

(** A cleared bag in the region of the thread. *)
Definition fresh_bag (t : Z) (sz : Z) : Bag :=
  mkBag (mkBody t sz (replicate (nwords sz) 0)) currentRegion.

(** [NewBag] hands out the next free handle; the body is cleared. *)
Definition NewBag (h : Heap) (t : Z) (sz : Z) : Obj * Heap :=
  (brk h, put_bag (next_handle h) (brk h) (fresh_bag t sz)).

End WithThreads.

(** Plain lists, as far as the forwarding record needs them: the length is
    word 0 and the elements follow. *)
Definition SET_LEN_PLIST (h : Heap) (l : Obj) (len : Z) : outcome Heap :=
  ADDR_OBJ_set h l 0 len.
Definition SET_ELM_PLIST (h : Heap) (l : Obj) (pos : nat) (v : Obj) : outcome Heap :=
  ADDR_OBJ_set h l pos v.
Definition ELM_PLIST (h : Heap) (l : Obj) (pos : nat) : outcome Obj :=
  ADDR_OBJ_get h l pos.

(** Component objects share the layout of plain records: the kind is word
    0, the number of components word 1, and component [i] has its name in
    word [2i] and its value in word [2i+1]. *)
Definition LEN_PREC (h : Heap) (r : Obj) : outcome Z := ADDR_OBJ_get h r 1.
Definition SET_LEN_PREC (h : Heap) (r : Obj) (n : Z) : outcome Heap := ADDR_OBJ_set h r 1 n.
Definition GET_RNAM_PREC (h : Heap) (r : Obj) (i : nat) : outcome Z :=
  ADDR_OBJ_get h r (2 * i).
Definition SET_RNAM_PREC (h : Heap) (r : Obj) (i : nat) (n : Z) : outcome Heap :=
  ADDR_OBJ_set h r (2 * i) n.
Definition GET_ELM_PREC (h : Heap) (r : Obj) (i : nat) : outcome Obj :=
  ADDR_OBJ_get h r (2 * i + 1).
Definition SET_ELM_PREC (h : Heap) (r : Obj) (i : nat) (v : Obj) : outcome Heap :=
  ADDR_OBJ_set h r (2 * i + 1) v.

(** ** Dispatch tables, as [InitKernel] leaves them *)

(** A table cell is read as the last assignment [InitKernel] makes to it;
    [None] is a cell outside every initialised range. *)
Inductive type_fn : Type := TypeObjError_fn | TypeComObj_fn | TypePosObj_fn | TypeDatObj_fn.
Inductive test_fn : Type := TestError_fn | TestNot_fn | TestObject_fn.
Inductive copy_fn : Type :=
| CopyObjError_fn | CopyObjConstant_fn
| CopyObjPosObj_fn | CopyObjPosObjCopy_fn
| CopyObjComObj_fn | CopyObjComObjCopy_fn
| CopyObjDatObj_fn | CopyObjDatObjCopy_fn.
Inductive clean_fn : Type :=
| CleanObjError_fn | CleanObjConstant_fn
| CleanObjPosObj_fn | CleanObjPosObjCopy_fn
| CleanObjComObj_fn | CleanObjComObjCopy_fn
| CleanObjDatObj_fn | CleanObjDatObjCopy_fn.

Section Tables.
Context `{Tnums}.

Definition in_range (lo hi t : Z) : bool := (lo <=? t) && (t <=? hi).

Definition TypeObjFuncs (t : Z) : option type_fn :=
  if decide (t = T_DATOBJ) then Some TypeDatObj_fn
  else if decide (t = T_POSOBJ) then Some TypePosObj_fn
  else if decide (t = T_COMOBJ) then Some TypeComObj_fn
  else if in_range FIRST_REAL_TNUM LAST_REAL_TNUM t then Some TypeObjError_fn
  else None.

(** [SetTypeObjFuncs] is filled cell for cell like [TypeObjFuncs]. *)
Definition SetTypeObjFuncs (t : Z) : option type_fn := TypeObjFuncs t.

Definition IsMutableObjFuncs (t : Z) : option test_fn :=
  if in_range FIRST_EXTERNAL_TNUM LAST_EXTERNAL_TNUM t then Some TestObject_fn
  else if in_range FIRST_CONSTANT_TNUM LAST_CONSTANT_TNUM t then Some TestNot_fn
  else if in_range FIRST_REAL_TNUM LAST_REAL_TNUM t then Some TestError_fn
  else None.

Definition IsCopyableObjFuncs (t : Z) : option test_fn :=
  if in_range FIRST_EXTERNAL_TNUM LAST_EXTERNAL_TNUM t then Some TestObject_fn
  else if in_range FIRST_CONSTANT_TNUM LAST_CONSTANT_TNUM t then Some TestNot_fn
  else if in_range FIRST_REAL_TNUM LAST_REAL_TNUM t then Some TestError_fn
  else None.

Definition CopyObjFuncs (t : Z) : option copy_fn :=
  if decide (t = T_DATOBJ + COPYING) then Some CopyObjDatObjCopy_fn
  else if decide (t = T_DATOBJ) then Some CopyObjDatObj_fn
  else if decide (t = T_COMOBJ + COPYING) then Some CopyObjComObjCopy_fn
  else if decide (t = T_COMOBJ) then Some CopyObjComObj_fn
  else if decide (t = T_POSOBJ + COPYING) then Some CopyObjPosObjCopy_fn
  else if decide (t = T_POSOBJ) then Some CopyObjPosObj_fn
  else if in_range FIRST_CONSTANT_TNUM LAST_CONSTANT_TNUM t then Some CopyObjConstant_fn
  else if in_range FIRST_REAL_TNUM LAST_REAL_TNUM t then Some CopyObjError_fn
  else None.

Definition CleanObjFuncs (t : Z) : option clean_fn :=
  if decide (t = T_DATOBJ + COPYING) then Some CleanObjDatObjCopy_fn
  else if decide (t = T_DATOBJ) then Some CleanObjDatObj_fn
  else if decide (t = T_COMOBJ + COPYING) then Some CleanObjComObjCopy_fn
  else if decide (t = T_COMOBJ) then Some CleanObjComObj_fn
  else if decide (t = T_POSOBJ + COPYING) then Some CleanObjPosObjCopy_fn
  else if decide (t = T_POSOBJ) then Some CleanObjPosObj_fn
  else if in_range FIRST_CONSTANT_TNUM LAST_CONSTANT_TNUM t then Some CleanObjConstant_fn
  else if in_range FIRST_REAL_TNUM LAST_REAL_TNUM t then Some CleanObjError_fn
  else None.

End Tables.

(** ** Kind, mutability and copyability of an object *)

Section Filters.
Context `{Tnums} `{Kinds}.

(** [TYPE_COMOBJ], [TYPE_POSOBJ] and [TYPE_DATOBJ] are all word 0. *)
Definition TYPE_COMOBJ (h : Heap) (o : Obj) : outcome Obj := ADDR_OBJ_get h o 0.
Definition TYPE_POSOBJ (h : Heap) (o : Obj) : outcome Obj := ADDR_OBJ_get h o 0.
Definition TYPE_DATOBJ (h : Heap) (o : Obj) : outcome Obj := ADDR_OBJ_get h o 0.

Definition TYPE_OBJ (h : Heap) (o : Obj) : outcome Obj :=
  t ← TNUM_OBJ h o;
  match TypeObjFuncs t with
  | Some TypeObjError_fn => ErrorQuit "Panic: basic object of type '%s' is unkind"
  | Some TypeComObj_fn => TYPE_COMOBJ h o
  | Some TypePosObj_fn => TYPE_POSOBJ h o
  | Some TypeDatObj_fn => TYPE_DATOBJ h o
  | None => Undef
  end.

Definition SET_TYPE_OBJ (h : Heap) (o : Obj) (kind : Obj) : outcome Heap :=
  t ← TNUM_OBJ h o;
  match SetTypeObjFuncs t with
  | Some TypeObjError_fn => ErrorQuit "Panic: cannot change kind of object of type '%s'"
  | Some _ => ADDR_OBJ_set h o 0 kind
  | None => Undef
  end.

Definition IS_MUTABLE_OBJ (h : Heap) (o : Obj) : outcome bool :=
  t ← TNUM_OBJ h o;
  match IsMutableObjFuncs t with
  | Some TestError_fn => ErrorQuit "Panic: tried to test mutability of unknown type '%d'"
  | Some TestNot_fn => Ret false
  | Some TestObject_fn => k ← TYPE_OBJ h o; Ret (KindIsMutable k)
  | None => Undef
  end.

Definition IS_COPYABLE_OBJ (h : Heap) (o : Obj) : outcome bool :=
  t ← TNUM_OBJ h o;
  match IsCopyableObjFuncs t with
  | Some TestError_fn => ErrorQuit "Panic: tried to test copyability of unknown type '%d'"
  | Some TestNot_fn => Ret false
  | Some TestObject_fn => k ← TYPE_OBJ h o; Ret (KindIsCopyable k)
  | None => Undef
  end.

(** [CALL_2ARGS( RESET_FILTER_OBJ, obj, IsMutableObjFilt )]. *)
Definition RESET_FILTER_OBJ_IsMutable (h : Heap) (o : Obj) : outcome Heap :=
  k ← TYPE_OBJ h o; SET_TYPE_OBJ h o (KindResetMutable k).

End Filters.

(** ** Structural copy *)

Section CopyEngine.
Context `{Tnums} `{Kinds} `{Threads}.

Definition CopyObjConstant (obj : Obj) (mut : bool) (h : Heap) : outcome (Obj * Heap) :=
  Ret (obj, h).

Definition CleanObjConstant (obj : Obj) (h : Heap) : outcome Heap := Ret h.

(** The allocation that opens the three copy bodies; both branches of
    [if ( mut )] allocate and copy word 0, the second one also resets the
    mutability filter of the copy. *)
Definition make_copy (obj : Obj) (mut : bool) (with_len : bool) (h : Heap)
  : outcome (Obj * Heap) :=
  t ← TNUM_OBJ h obj;
  sz ← SIZE_OBJ h obj;
  let '(copy, h) := NewBag h t sz in
  k ← ADDR_OBJ_get h obj 0;
  h ← ADDR_OBJ_set h copy 0 k;
  h ← (if with_len then n ← LEN_PREC h obj; SET_LEN_PREC h copy n else Ret h);
  h ← (if mut then Ret h else RESET_FILTER_OBJ_IsMutable h copy);
  Ret (copy, h).

(** "leave a forwarding pointer", then "now it is copied". *)
Definition leave_forwarding (obj copy : Obj) (h : Heap) : outcome Heap :=
  let '(tmp, h) := NewBag h T_PLIST (3 * sizeof_Obj) in
  h ← SET_LEN_PLIST h tmp 2;
  k ← ADDR_OBJ_get h obj 0;
  h ← SET_ELM_PLIST h tmp 1 k;
  h ← SET_ELM_PLIST h tmp 2 copy;
  h ← ADDR_OBJ_set h obj 0 tmp;
  t ← TNUM_OBJ h obj;
  RetypeBag h obj (t + COPYING).

(** "remove the forwarding pointer", then "now it is cleaned". *)
Definition remove_forwarding (obj : Obj) (h : Heap) : outcome Heap :=
  f ← ADDR_OBJ_get h obj 0;
  k ← ELM_PLIST h f 1;
  h ← ADDR_OBJ_set h obj 0 k;
  t ← TNUM_OBJ h obj;
  RetypeBag h obj (t - COPYING).

Section Bodies.
(** The bodies call back into the dispatcher through [COPY] and [CLEAN]. *)
Variable COPY : Obj → bool → Heap → outcome (Obj * Heap).
Variable CLEAN : Obj → Heap → outcome Heap.

Fixpoint CopyObjPosObj_loop (obj copy : Obj) (mut : bool) (idx : list nat) (h : Heap)
  : outcome Heap :=
  match idx with
  | [] => Ret h
  | i :: idx =>
      v ← ADDR_OBJ_get h obj i;
      h ← (if decide (v = 0) then Ret h
           else '(tmp, h) ← COPY v mut h; ADDR_OBJ_set h copy i tmp);
      CopyObjPosObj_loop obj copy mut idx h
  end.

Definition CopyObjPosObj (obj : Obj) (mut : bool) (h : Heap) : outcome (Obj * Heap) :=
  m ← IS_MUTABLE_OBJ h obj;
  if negb m then Ret (obj, h) else
  c ← IS_COPYABLE_OBJ h obj;
  if negb c then ErrorQuit "Panic: encountered mutable, non-copyable object" else
  '(copy, h) ← make_copy obj mut false h;
  h ← leave_forwarding obj copy h;
  sz ← SIZE_OBJ h obj;
  h ← CopyObjPosObj_loop obj copy mut (seq 1 (Z.to_nat (sz / sizeof_Obj) - 1)) h;
  Ret (copy, h).

Definition CleanObjPosObj (obj : Obj) (h : Heap) : outcome Heap := Ret h.

Definition CopyObjPosObjCopy (obj : Obj) (mut : bool) (h : Heap) : outcome (Obj * Heap) :=
  f ← ADDR_OBJ_get h obj 0;
  c ← ELM_PLIST h f 2;
  Ret (c, h).

Fixpoint CleanObjPosObjCopy_loop (obj : Obj) (idx : list nat) (h : Heap) : outcome Heap :=
  match idx with
  | [] => Ret h
  | i :: idx =>
      v ← ADDR_OBJ_get h obj i;
      h ← (if decide (v = 0) then Ret h else CLEAN v h);
      CleanObjPosObjCopy_loop obj idx h
  end.

Definition CleanObjPosObjCopy (obj : Obj) (h : Heap) : outcome Heap :=
  h ← remove_forwarding obj h;
  sz ← SIZE_OBJ h obj;
  CleanObjPosObjCopy_loop obj (seq 1 (Z.to_nat (sz / sizeof_Obj) - 1)) h.

Fixpoint CopyObjComObj_loop (obj copy : Obj) (mut : bool) (idx : list nat) (h : Heap)
  : outcome Heap :=
  match idx with
  | [] => Ret h
  | i :: idx =>
      n ← GET_RNAM_PREC h obj i;
      h ← SET_RNAM_PREC h copy i n;
      v ← GET_ELM_PREC h obj i;
      '(tmp, h) ← COPY v mut h;
      h ← SET_ELM_PREC h copy i tmp;
      CopyObjComObj_loop obj copy mut idx h
  end.

Definition CopyObjComObj (obj : Obj) (mut : bool) (h : Heap) : outcome (Obj * Heap) :=
  m ← IS_MUTABLE_OBJ h obj;
  if negb m then Ret (obj, h) else
  c ← IS_COPYABLE_OBJ h obj;
  if negb c then ErrorQuit "Panic: encountered mutable, non-copyable object" else
  '(copy, h) ← make_copy obj mut true h;
  h ← leave_forwarding obj copy h;
  len ← LEN_PREC h obj;
  h ← CopyObjComObj_loop obj copy mut (seq 1 (Z.to_nat len)) h;
  Ret (copy, h).

Definition CleanObjComObj (obj : Obj) (h : Heap) : outcome Heap := Ret h.

Definition CopyObjComObjCopy (obj : Obj) (mut : bool) (h : Heap) : outcome (Obj * Heap) :=
  f ← ADDR_OBJ_get h obj 0;
  c ← ELM_PLIST h f 2;
  Ret (c, h).

Fixpoint CleanObjComObjCopy_loop (obj : Obj) (idx : list nat) (h : Heap) : outcome Heap :=
  match idx with
  | [] => Ret h
  | i :: idx =>
      v ← GET_ELM_PREC h obj i;
      h ← CLEAN v h;
      CleanObjComObjCopy_loop obj idx h
  end.

Definition CleanObjComObjCopy (obj : Obj) (h : Heap) : outcome Heap :=
  h ← remove_forwarding obj h;
  len ← LEN_PREC h obj;
  CleanObjComObjCopy_loop obj (seq 1 (Z.to_nat len)) h.

(** The raw words after word 0 are copied as they are. *)
Fixpoint CopyObjDatObj_loop (obj copy : Obj) (idx : list nat) (h : Heap) : outcome Heap :=
  match idx with
  | [] => Ret h
  | i :: idx =>
      w ← ADDR_OBJ_get h obj i;
      h ← ADDR_OBJ_set h copy i w;
      CopyObjDatObj_loop obj copy idx h
  end.

Definition CopyObjDatObj (obj : Obj) (mut : bool) (h : Heap) : outcome (Obj * Heap) :=
  m ← IS_MUTABLE_OBJ h obj;
  if negb m then Ret (obj, h) else
  c ← IS_COPYABLE_OBJ h obj;
  if negb c then ErrorQuit "Panic: encountered mutable, non-copyable object" else
  '(copy, h) ← make_copy obj mut false h;
  h ← leave_forwarding obj copy h;
  sz ← SIZE_OBJ h obj;
  let n := wrap64 (sz - sizeof_Obj + sizeof_Obj - 1) / sizeof_Obj in
  h ← CopyObjDatObj_loop obj copy (seq 1 (Z.to_nat n)) h;
  Ret (copy, h).

Definition CleanObjDatObj (obj : Obj) (h : Heap) : outcome Heap := Ret h.

Definition CopyObjDatObjCopy (obj : Obj) (mut : bool) (h : Heap) : outcome (Obj * Heap) :=
  f ← ADDR_OBJ_get h obj 0;
  c ← ELM_PLIST h f 2;
  Ret (c, h).

Definition CleanObjDatObjCopy (obj : Obj) (h : Heap) : outcome Heap :=
  remove_forwarding obj h.

End Bodies.

(** [COPY_OBJ] and [CLEAN_OBJ] call the cell of the object's tag. *)
Fixpoint COPY_OBJ (fuel : nat) (obj : Obj) (mut : bool) (h : Heap) : outcome (Obj * Heap) :=
  match fuel with
  | O => OutOfFuel
  | S fuel =>
      t ← TNUM_OBJ h obj;
      match CopyObjFuncs t with
      | None => Undef
      | Some CopyObjError_fn => ErrorQuit "Panic: tried to copy object of unknown type '%d'"
      | Some CopyObjConstant_fn => CopyObjConstant obj mut h
      | Some CopyObjPosObj_fn => CopyObjPosObj (COPY_OBJ fuel) obj mut h
      | Some CopyObjPosObjCopy_fn => CopyObjPosObjCopy obj mut h
      | Some CopyObjComObj_fn => CopyObjComObj (COPY_OBJ fuel) obj mut h
      | Some CopyObjComObjCopy_fn => CopyObjComObjCopy obj mut h
      | Some CopyObjDatObj_fn => CopyObjDatObj obj mut h
      | Some CopyObjDatObjCopy_fn => CopyObjDatObjCopy obj mut h
      end
  end.

Fixpoint CLEAN_OBJ (fuel : nat) (obj : Obj) (h : Heap) : outcome Heap :=
  match fuel with
  | O => OutOfFuel
  | S fuel =>
      t ← TNUM_OBJ h obj;
      match CleanObjFuncs t with
      | None => Undef
      | Some CleanObjError_fn => ErrorQuit "Panic: tried to clean object of unknown type '%d'"
      | Some CleanObjConstant_fn => CleanObjConstant obj h
      | Some CleanObjPosObj_fn => CleanObjPosObj obj h
      | Some CleanObjPosObjCopy_fn => CleanObjPosObjCopy (CLEAN_OBJ fuel) obj h
      | Some CleanObjComObj_fn => CleanObjComObj obj h
      | Some CleanObjComObjCopy_fn => CleanObjComObjCopy (CLEAN_OBJ fuel) obj h
      | Some CleanObjDatObj_fn => CleanObjDatObj obj h
      | Some CleanObjDatObjCopy_fn => CleanObjDatObjCopy obj h
      end
  end.

(** The part of the thread-local storage that [CopyObj] writes. *)
Record ThreadLocal : Type := mkThreadLocal { copiedObjs : Obj }.

(** [CopyObj]: reset the session pointer, copy, clean, reset again. *)
Definition CopyObj (fuel : nat) (obj : Obj) (mut : bool) (tl : ThreadLocal) (h : Heap)
  : outcome (Obj * ThreadLocal * Heap) :=
  let tl := mkThreadLocal 0 in
  '(new, h) ← COPY_OBJ fuel obj mut h;
  h ← CLEAN_OBJ fuel obj h;
  let tl := mkThreadLocal 0 in
  Ret (new, tl, h).

End CopyEngine.

(** *** Notions for the statements about copying *)

Section CopyNotions.
Context `{Tnums} `{Kinds}.

(** The tags of the three structural kinds, and the tags in the range of
    constants. *)
Definition structural_tnum (t : Z) : Prop := t = T_POSOBJ ∨ t = T_COMOBJ ∨ t = T_DATOBJ.
Definition constant_tnum (t : Z) : Prop := FIRST_CONSTANT_TNUM ≤ t ≤ LAST_CONSTANT_TNUM.

(** The words of a body that the copy and clean bodies follow: the slots
    after the kind of a positional object, the values of the components of
    a component object, nothing of a data object. *)
Definition child_slots (p : Body) : list nat :=
  if decide (tnum p = T_POSOBJ) then seq 1 (Z.to_nat (size p / sizeof_Obj) - 1)
  else if decide (tnum p = T_COMOBJ) then
    map (λ i, (2 * i + 1)%nat) (seq 1 (Z.to_nat (data p !!! 1%nat)))
  else [].

(** [c] is in slot [i] of [x], and the bodies follow that slot. *)
Definition child_at (h : Heap) (x : Obj) (i : nat) (c : Obj) : Prop :=
  ∃ b, bags h !! x = Some b ∧ i ∈ child_slots (PTR_BAG b) ∧ data (PTR_BAG b) !! i = Some c.

Definition child (h : Heap) (x c : Obj) : Prop := ∃ i, child_at h x i c.

(** The objects a structural copy duplicates: bags of a structural kind
    whose kind has the mutability flag. *)
Definition mutable_structural (h : Heap) (x : Obj) : Prop :=
  is_immediate x = false ∧
  ∃ b k, bags h !! x = Some b ∧ structural_tnum (tnum (PTR_BAG b))
         ∧ data (PTR_BAG b) !! 0%nat = Some k ∧ KindIsMutable k = true.

(** A heap between two top-level copies: handles are handed out below
    [brk], in steps of 4; no bag carries a tag beyond [LAST_REAL_TNUM], that
    is, a tag with the [COPYING] offset; and what a mutable structural
    object refers to is null, an immediate value or an allocated bag. *)
Record regular_heap (h : Heap) : Prop := {
  rh_brk : 0 < brk h ∧ brk h `mod` 4 = 0;
  rh_dom : ∀ k b, bags h !! k = Some b → 0 < k < brk h;
  rh_tags : ∀ k b, bags h !! k = Some b → tnum (PTR_BAG b) ≤ LAST_REAL_TNUM;
  rh_closed : ∀ x c, mutable_structural h x → child h x c →
                     c = 0 ∨ is_immediate c = true ∨ is_Some (bags h !! c)
}.

End CopyNotions.

(** *** The state of a copy in progress *)

Section CopyInvariant.
Context `{Tnums} `{Kinds}.
Variable h0 : Heap.

(** [o] is an object of the heap [h0] that the copy has marked in [h]:
    its tag carries the [COPYING] offset and its word 0 is the forwarding
    record, a plain list made after [h0] that holds the old word 0 and the
    copy [c]. *)
Definition forwarded (h : Heap) (o c : Obj) : Prop :=
  ∃ b0 f bf bc,
    bags h0 !! o = Some b0
    ∧ mutable_structural h0 o
    ∧ bags h !! o = Some (set_tnum (set_word b0 0 f) (tnum (PTR_BAG b0) + COPYING))
    ∧ brk h0 ≤ f ∧ bags h !! f = Some bf ∧ tnum (PTR_BAG bf) = T_PLIST
    ∧ data (PTR_BAG bf) !! 1%nat = data (PTR_BAG b0) !! 0%nat
    ∧ data (PTR_BAG bf) !! 2%nat = Some c
    ∧ brk h0 ≤ c ∧ bags h !! c = Some bc ∧ structural_tnum (tnum (PTR_BAG bc)).

(** The heap [h] of a copy in progress, with the map [fwd] from the marked
    objects to their copies. *)
Record copy_inv (h : Heap) (fwd : gmap Z Z) : Prop := {
  ci_brk : brk h0 ≤ brk h ∧ brk h `mod` 4 = 0;
  ci_dom : ∀ k b, bags h !! k = Some b → k < brk h;
  ci_old : ∀ o, o < brk h0 → fwd !! o = None → bags h !! o = bags h0 !! o;
  ci_fwd : ∀ o c, fwd !! o = Some c → forwarded h o c;
  ci_new : ∀ k b, brk h0 ≤ k → bags h !! k = Some b →
                  tnum (PTR_BAG b) = T_PLIST ∨ structural_tnum (tnum (PTR_BAG b));
  ci_inj : ∀ o1 o2 c, fwd !! o1 = Some c → fwd !! o2 = Some c → o1 = o2
}.

(** [w] stands for [v] in the copy: the copy of [v] if [v] is marked, and
    [v] itself if [v] is not an object that gets copied. *)
Definition copied_to (fwd : gmap Z Z) (v w : Obj) : Prop :=
  fwd !! v = Some w ∨ (¬ mutable_structural h0 v ∧ w = v).

(** The number of words the copy body walks. *)
Definition walked_words (p : Body) : nat :=
  if decide (tnum p = T_POSOBJ) then Z.to_nat (size p / sizeof_Obj)
  else if decide (tnum p = T_COMOBJ) then (2 * Z.to_nat (data p !!! 1%nat) + 2)%nat
  else S (Z.to_nat (wrap64 (size p - sizeof_Obj + sizeof_Obj - 1) / sizeof_Obj)).

(** The copy [c] of [o] is finished: it has the tag and the size of [o],
    its kind is the kind of [o] (without the mutability flag if an
    immutable copy was asked for), the words that are followed stand for
    the words of [o], and the other walked words are equal. *)
Definition copy_complete (mut : bool) (h : Heap) (fwd : gmap Z Z) (o : Obj) : Prop :=
  ∃ b0 c bc k,
    bags h0 !! o = Some b0 ∧ fwd !! o = Some c ∧ bags h !! c = Some bc
    ∧ tnum (PTR_BAG bc) = tnum (PTR_BAG b0)
    ∧ size (PTR_BAG bc) = size (PTR_BAG b0)
    ∧ data (PTR_BAG b0) !! 0%nat = Some k
    ∧ data (PTR_BAG bc) !! 0%nat = Some (if mut then k else KindResetMutable k)
    ∧ (∀ i v, i ∈ child_slots (PTR_BAG b0) → data (PTR_BAG b0) !! i = Some v →
              ∃ w, data (PTR_BAG bc) !! i = Some w ∧ copied_to fwd v w)
    ∧ (∀ i, (1 ≤ i < walked_words (PTR_BAG b0))%nat → i ∉ child_slots (PTR_BAG b0) →
            data (PTR_BAG bc) !! i = data (PTR_BAG b0) !! i).

(** [x] is reached from [a] through objects of [S] of the heap [h0]. *)
Inductive reach (S : Obj → Prop) : Obj → Obj → Prop :=
| reach_here (x : Obj) : S x → reach S x x
| reach_child (x y z : Obj) : S x → child h0 x y → reach S y z → reach S x z.

(** Not a handle made after [h0]. *)
Definition old_value (v : Obj) : Prop := v < brk h0 ∨ is_immediate v = true.


(** [x] is marked in [fwd'] and was not in [fwd]. *)
Definition newly (fwd fwd' : gmap Z Z) (x : Obj) : Prop :=
  fwd !! x = None ∧ is_Some (fwd' !! x).

(** What a call of [COPY_OBJ] on [root] does to a copy in progress: it
    marks further objects, leaves the bags made earlier alone, and every
    object it marks is reached from [root] and has a finished copy. *)
Definition copy_step (mut : bool) (root : Obj)
    (h : Heap) (fwd : gmap Z Z) (h' : Heap) (fwd' : gmap Z Z) : Prop :=
  fwd ⊆ fwd' ∧ copy_inv h' fwd' ∧ brk h ≤ brk h'
  ∧ (∀ k, brk h0 ≤ k < brk h → bags h' !! k = bags h !! k)
  ∧ (∀ x, newly fwd fwd' x →
          copy_complete mut h' fwd' x ∧ reach (newly fwd fwd') root x).

Definition COPY_ok (mut : bool) (COPY : Obj → bool → Heap → outcome (Obj * Heap)) : Prop :=
  ∀ obj h fwd new h',
    copy_inv h fwd → old_value obj → COPY obj mut h = Ret (new, h') →
    ∃ fwd', copy_step mut obj h fwd h' fwd' ∧ copied_to fwd' obj new.

(** The same for the loop of a copy body over the subobjects of [obj],
    which also writes to the copy [copy] of [obj]. *)
Definition loop_step (mut : bool) (obj copy : Obj)
    (h : Heap) (fwd : gmap Z Z) (h' : Heap) (fwd' : gmap Z Z) : Prop :=
  fwd ⊆ fwd' ∧ copy_inv h' fwd' ∧ brk h ≤ brk h'
  ∧ (∀ k, brk h0 ≤ k < brk h → k ≠ copy → bags h' !! k = bags h !! k)
  ∧ (∀ x, newly fwd fwd' x →
          copy_complete mut h' fwd' x
          ∧ ∃ c, child h0 obj c ∧ reach (newly fwd fwd') c x).


(** What a call of [CLEAN_OBJ] does to a copy in progress: it unmarks
    objects and leaves the copies alone, and the subobjects of an object
    it unmarks are unmarked when it returns. *)
Definition clean_step (h : Heap) (fwd : gmap Z Z) (h' : Heap) (fwd' : gmap Z Z) : Prop :=
  fwd' ⊆ fwd ∧ copy_inv h' fwd' ∧ brk h' = brk h
  ∧ (∀ k, brk h0 ≤ k → bags h' !! k = bags h !! k)
  ∧ (∀ x c, is_Some (fwd !! x) → fwd' !! x = None → child h0 x c → fwd' !! c = None).

Definition CLEAN_ok (CLEAN : Obj → Heap → outcome Heap) : Prop :=
  ∀ obj h fwd h',
    copy_inv h fwd → old_value obj → CLEAN obj h = Ret h' →
    ∃ fwd', clean_step h fwd h' fwd' ∧ fwd' !! obj = None.


(** Word [i] of the bag [x] is [v]. *)
Definition word_at (h : Heap) (x : Obj) (i : nat) (v : Z) : Prop :=
  ∃ b, bags h !! x = Some b ∧ data (PTR_BAG b) !! i = Some v.

(** [x] is reached from [root] through mutable structural objects, the
    objects a structural copy of [root] duplicates. *)
Definition copied_from (root x : Obj) : Prop := reach (mutable_structural h0) root x.

End CopyInvariant.

(** ** Printing and viewing *)

Definition MAXPRINTDEPTH : Z := 1024.

(** What a call leaves behind, in order: text given to [Pr], the entry into
    a print body (the cell [PrintObjFuncs[t]] applied to [obj]) or into the
    view operation, a call of the cell [PrintPathFuncs[t]], the placeholder of
    [PrintInaccessibleObject], and the break loop that [ErrorReturnVoid]
    opens on an interrupt. *)
Inductive event : Type :=
| Pr (text : string)
| PrintBody (t : Z) (obj : Obj)
| ViewBody (obj : Obj)
| PrintPath (t : Z) (obj : Obj) (indx : Z)
| Inaccessible (obj : Obj)
| UserInterrupt.

(** What a print or view body may do: print text, set [PrintObjIndex]
    before it descends, and call [PrintObj] or [ViewObj] on a subobject. *)
Inductive action : Type :=
| DoPr (text : string)
| SetIndex (i : Z)
| CallPrintObj (sub : Obj)
| CallViewObj (sub : Obj).

(** The cells of [PrintObjFuncs] lead to the methods of the types, which
    live outside the file, as does the method behind [ViewObjOper]; the tag
    of an object and the read access of the thread are read only. *)
Class Printers : Type := {
  TNUM_of : Obj → Z;
  CheckRead : Obj → bool;
  PrintObjFuncs : Z → Obj → list action;
  ViewObjMethod : Obj → list action
}.

(** How the user leaves a break loop: with [return;], which comes back to
    the caller of [ErrorReturnVoid], or with [quit;], which does not.  What
    is printed inside the break loop may leave [PrintObjDepth] at another
    value, [depth]. *)
Inductive break_loop : Type := Returns (depth : Z) | Quits.

(** The variables of the printer, and its environment: [interrupts] holds
    the answers of [SyIsIntr()] still to come, [None] when no interrupt is
    pending and [Some r] when one is, [r] being the way the user will leave
    the break loop that it opens; [output] is what has been printed. *)
Record PrintState : Type := mkPrintState {
  PrintObjThis : Obj;
  PrintObjIndex : Z;
  PrintObjDepth : Z;
  PrintObjThiss : list Obj;
  PrintObjIndices : list Z;
  LastPV : Z;
  interrupts : list (option break_loop);
  output : list event
}.

Definition emit (e : event) (s : PrintState) : PrintState :=
  mkPrintState (PrintObjThis s) (PrintObjIndex s) (PrintObjDepth s) (PrintObjThiss s)
               (PrintObjIndices s) (LastPV s) (interrupts s) (output s ++ [e]).

Definition set_LastPV (v : Z) (s : PrintState) : PrintState :=
  mkPrintState (PrintObjThis s) (PrintObjIndex s) (PrintObjDepth s) (PrintObjThiss s)
               (PrintObjIndices s) v (interrupts s) (output s).

Definition set_PrintObjIndex (i : Z) (s : PrintState) : PrintState :=
  mkPrintState (PrintObjThis s) i (PrintObjDepth s) (PrintObjThiss s)
               (PrintObjIndices s) (LastPV s) (interrupts s) (output s).

Definition set_PrintObjDepth (d : Z) (s : PrintState) : PrintState :=
  mkPrintState (PrintObjThis s) (PrintObjIndex s) d (PrintObjThiss s)
               (PrintObjIndices s) (LastPV s) (interrupts s) (output s).

(** [SyIsIntr()] takes the next answer of the environment. *)
Definition SyIsIntr (s : PrintState) : option break_loop * PrintState :=
  match interrupts s with
  | [] => (None, s)
  | a :: rest =>
      (a, mkPrintState (PrintObjThis s) (PrintObjIndex s) (PrintObjDepth s) (PrintObjThiss s)
                       (PrintObjIndices s) (LastPV s) rest (output s))
  end.

(** [ErrorReturnVoid]: the break loop is entered; it comes back only if the
    user leaves it with [return;]. *)
Definition ErrorReturnVoid (msg : string) (r : break_loop) (s : PrintState)
  : outcome PrintState :=
  match r with
  | Returns d => Ret (set_PrintObjDepth d (emit UserInterrupt s))
  | Quits => ErrorQuit msg
  end.

(** The characters 3 and 4, which [Pr] is given under the format [%c%c]. *)
Definition interrupt_text : string :=
  String (Ascii.ascii_of_nat 3) (String (Ascii.ascii_of_nat 4) EmptyString).

(** "check for interrupts": the depth is saved, the two characters are
    printed, the break loop is entered and, if it is left with [return;],
    the depth is restored. *)
Definition check_interrupt (s : PrintState) : outcome PrintState :=
  let '(intr, s) := SyIsIntr s in
  match intr with
  | None => Ret s
  | Some r =>
      let i := PrintObjDepth s in
      let s := emit (Pr interrupt_text) s in
      s ← ErrorReturnVoid "user interrupt while printing" r s;
      Ret (set_PrintObjDepth i s)
  end.

(** A line feed. *)
Definition newline : string := String (Ascii.ascii_of_nat 10) EmptyString.

(** [PrintObjThiss[PrintObjDepth-1] = PrintObjThis;
     PrintObjIndices[PrintObjDepth-1] = PrintObjIndex;] *)
Definition remembered (s : PrintState) : PrintState :=
  let k := Z.to_nat (PrintObjDepth s - 1) in
  mkPrintState (PrintObjThis s) (PrintObjIndex s) (PrintObjDepth s)
               (<[k := PrintObjThis s]> (PrintObjThiss s))
               (<[k := PrintObjIndex s]> (PrintObjIndices s))
               (LastPV s) (interrupts s) (output s).

Definition remember_super (s : PrintState) : outcome PrintState :=
  let k := Z.to_nat (PrintObjDepth s - 1) in
  if decide (k < length (PrintObjThiss s) ∧ k < length (PrintObjIndices s))%nat
  then Ret (remembered s)
  else Undef.

(** [PrintObjDepth += 1; PrintObjThis = obj; PrintObjIndex = 0;] *)
Definition enter_obj (obj : Obj) (s : PrintState) : PrintState :=
  mkPrintState obj 0 (PrintObjDepth s + 1) (PrintObjThiss s)
               (PrintObjIndices s) (LastPV s) (interrupts s) (output s).

Section Printing.
Context `{Tnums} `{Printers}.

Definition IS_MARKABLE (obj : Obj) : bool :=
  (FIRST_RECORD_TNUM <=? TNUM_of obj) && (TNUM_of obj <=? LAST_LIST_TNUM).

(** The loop of [IS_MARKED]: [n] entries are still to be compared. *)
Fixpoint IS_MARKED_loop (obj : Obj) (thiss : list Obj) (n : Z) : outcome bool :=
  if n <=? 0 then Ret false
  else match thiss with
       | [] => Undef
       | x :: thiss => if decide (x = obj) then Ret true
                       else IS_MARKED_loop obj thiss (n - 1)
       end.

(** [i < PrintObjDepth-1] compares an unsigned [i]. *)
Definition IS_MARKED (s : PrintState) (obj : Obj) : outcome bool :=
  if negb (IS_MARKABLE obj) then Ret false
  else IS_MARKED_loop obj (PrintObjThiss s) (wrap64 (PrintObjDepth s - 1)).

(** [for ( i = 0; PrintObjThis != PrintObjThiss[i]; i++ )] with the call
    of the path printer as its body. *)
Fixpoint print_path_loop (this : Obj) (thiss : list Obj) (indices : list Z)
    (s : PrintState) : outcome PrintState :=
  match thiss, indices with
  | x :: thiss, k :: indices =>
      if decide (this = x) then Ret s
      else print_path_loop this thiss indices (emit (PrintPath (TNUM_of x) x k) s)
  | _, _ => Undef
  end.

Definition print_path (s : PrintState) : outcome PrintState :=
  print_path_loop (PrintObjThis s) (PrintObjThiss s) (PrintObjIndices s) (emit (Pr "~") s).

(** "done with <obj>": pop, and restore the superobject if there is one. *)
Definition leave_obj (s : PrintState) : outcome PrintState :=
  let s := set_PrintObjDepth (PrintObjDepth s - 1) s in
  if 0 <? PrintObjDepth s then
    let k := Z.to_nat (PrintObjDepth s - 1) in
    match PrintObjThiss s !! k, PrintObjIndices s !! k with
    | Some this, Some indx =>
        let s := mkPrintState this indx (PrintObjDepth s) (PrintObjThiss s)
                              (PrintObjIndices s) (LastPV s) (interrupts s) (output s) in
        _ ← IS_MARKED s (PrintObjThis s);
        Ret s
    | _, _ => Undef
    end
  else Ret s.

Section Scripts.
Variable PRINT : Obj → PrintState → outcome PrintState.
Variable VIEW : Obj → PrintState → outcome PrintState.

Fixpoint run_body (script : list action) (s : PrintState) : outcome PrintState :=
  match script with
  | [] => Ret s
  | a :: script =>
      s ← match a with
          | DoPr text => Ret (emit (Pr text) s)
          | SetIndex i => Ret (set_PrintObjIndex i s)
          | CallPrintObj sub => PRINT sub s
          | CallViewObj sub => VIEW sub s
          end;
      run_body script s
  end.

End Scripts.

Fixpoint PrintObj (fuel : nat) (obj : Obj) (s : PrintState) : outcome PrintState :=
  match fuel with
  | O => OutOfFuel
  | S fuel =>
      s ← check_interrupt s;
      if IS_BAG_REF obj && negb (CheckRead obj) then Ret (emit (Inaccessible obj) s) else
      let lastPV := LastPV s in
      let s := set_LastPV 1 s in
      let fromview := (lastPV =? 2) && (obj =? PrintObjThis s) in
      (* remember the superobject *)
      s ← (if negb fromview && (0 <? PrintObjDepth s) then remember_super s else Ret s);
      (* handle the <obj> *)
      let s := if negb fromview then enter_obj obj s else s in
      (* dispatch to the appropriate printing function, or print the path *)
      marked ← IS_MARKED s (PrintObjThis s);
      s ← (if negb marked then
             if PrintObjDepth s <? MAXPRINTDEPTH then
               let this := PrintObjThis s in
               run_body (PrintObj fuel) (ViewObj fuel)
                        (PrintObjFuncs (TNUM_of this) this)
                        (emit (PrintBody (TNUM_of this) this) s)
             else Ret (emit (Pr (newline +:+ "printing stopped, too many recursion levels!"
                                 +:+ newline)) s)
           else print_path s);
      (* done with <obj> *)
      s ← (if negb fromview then leave_obj s else Ret s);
      Ret (set_LastPV lastPV s)
  end
with ViewObj (fuel : nat) (obj : Obj) (s : PrintState) : outcome PrintState :=
  match fuel with
  | O => OutOfFuel
  | S fuel =>
      if IS_BAG_REF obj && negb (CheckRead obj) then Ret (emit (Inaccessible obj) s) else
      let lastPV := LastPV s in
      let s := set_LastPV 2 s in
      s ← (if 0 <? PrintObjDepth s then remember_super s else Ret s);
      let s := enter_obj obj s in
      marked ← IS_MARKED s (PrintObjThis s);
      s ← (if negb marked then
             if PrintObjDepth s <? MAXPRINTDEPTH then
               run_body (PrintObj fuel) (ViewObj fuel)
                        (ViewObjMethod obj) (emit (ViewBody obj) s)
             else Ret (emit (Pr (newline +:+ "viewing stopped, too many recursion levels!"
                                 +:+ newline)) s)
           else print_path s);
      s ← leave_obj s;
      Ret (set_LastPV lastPV s)
  end.

(** *** Notions for the statements about printing *)

Definition emit_all (es : list event) (s : PrintState) : PrintState :=
  mkPrintState (PrintObjThis s) (PrintObjIndex s) (PrintObjDepth s) (PrintObjThiss s)
               (PrintObjIndices s) (LastPV s) (interrupts s) (output s ++ es).

(** The ancestor stack on entry to [PrintObj] or [ViewObj], outermost
    object first: the objects remembered in the two arrays below the
    current depth, and on top the object being printed with the selector it
    has reached. *)
Definition frames (s : PrintState) : list (Obj * Z) :=
  if 0 <? PrintObjDepth s then
    let k := Z.to_nat (PrintObjDepth s - 1) in
    zip (take k (PrintObjThiss s)) (take k (PrintObjIndices s))
    ++ [(PrintObjThis s, PrintObjIndex s)]
  else [].

(** The selector of a frame, as the path printer of its object prints it. *)
Definition selector (f : Obj * Z) : event := PrintPath (TNUM_of f.1) f.1 f.2.

(** The frames above (outside of) the first frame of [obj]. *)
Fixpoint frames_before (obj : Obj) (fs : list (Obj * Z)) : list (Obj * Z) :=
  match fs with
  | [] => []
  | f :: fs => if decide (obj = f.1) then [] else f :: frames_before obj fs
  end.

(** The frames from the last (nearest) frame of [obj] down to the current
    position. *)
Fixpoint frames_from_nearest (obj : Obj) (fs : list (Obj * Z)) : list (Obj * Z) :=
  match fs with
  | [] => []
  | f :: fs =>
      if bool_decide (obj ∈ fs.*1) then frames_from_nearest obj fs
      else if decide (obj = f.1) then f :: fs else []
  end.

(** [obj] is marked: it is in the markable range of tags and it is on the
    ancestor stack. *)
Definition on_stack (s : PrintState) (obj : Obj) : Prop :=
  IS_MARKABLE obj = true ∧ obj ∈ (frames s).*1.

(** [obj] can be read by the thread, and the call is not the call of
    [PrintObj] from the view method of the very object being viewed. *)
Definition accessible (obj : Obj) : Prop :=
  IS_BAG_REF obj && negb (CheckRead obj) = false.
Definition from_view (s : PrintState) (obj : Obj) : Prop :=
  LastPV s = 2 ∧ obj = PrintObjThis s.

(** The ancestors of [obj] when [PrintObj] is called on it, outermost
    first: the frames of the stack, but for the frame that [ViewObj] has
    pushed for [obj] itself when the call comes from the view method of
    [obj]; [PrintObj] pushes no frame then. *)
Definition ancestors (s : PrintState) (obj : Obj) : list (Obj * Z) :=
  if (LastPV s =? 2) && (obj =? PrintObjThis s) then
    let k := Z.to_nat (PrintObjDepth s - 1) in
    zip (take k (PrintObjThiss s)) (take k (PrintObjIndices s))
  else frames s.

(** [PrintObj] finds [obj] marked: it is in the markable range of tags and
    among its ancestors. *)
Definition marked (s : PrintState) (obj : Obj) : Prop :=
  IS_MARKABLE obj = true ∧ obj ∈ (ancestors s obj).*1.

(** The depth of the stack when [PrintObj] has pushed the frame of [obj],
    or has found it pushed by [ViewObj]. *)
Definition depth_with (s : PrintState) (obj : Obj) : Z :=
  if (LastPV s =? 2) && (obj =? PrintObjThis s) then PrintObjDepth s
  else PrintObjDepth s + 1.

(** What the check for interrupts prints when it returns: nothing if no
    interrupt is pending, else the two characters and the break loop. *)
Definition interrupt_events (s : PrintState) : list event :=
  match interrupts s with
  | Some (Returns _) :: _ => [Pr interrupt_text; UserInterrupt]
  | _ => []
  end.

(** The state in which the check for interrupts returns. *)
Definition checked (s : PrintState) : PrintState :=
  mkPrintState (PrintObjThis s) (PrintObjIndex s) (PrintObjDepth s) (PrintObjThiss s)
               (PrintObjIndices s) (LastPV s) (tail (interrupts s))
               (output s ++ interrupt_events s).

(** The user leaves every break loop still to come with [return;]. *)
Definition break_loops_return (s : PrintState) : Prop :=
  forallb (λ a, match a with Some Quits => false | _ => true end) (interrupts s) = true.

(** The print state between two calls: the depth is within the arrays, the
    arrays have their declared length, and a view is only ever innermost
    below some object. *)
Definition print_state_ok (s : PrintState) : Prop :=
  0 ≤ PrintObjDepth s < MAXPRINTDEPTH
  ∧ length (PrintObjThiss s) = Z.to_nat MAXPRINTDEPTH
  ∧ length (PrintObjIndices s) = Z.to_nat MAXPRINTDEPTH
  ∧ (LastPV s = 2 → 0 < PrintObjDepth s).

(** [s'] has the depth, the innermost operation and the array lengths of
    [s]. *)
Definition stack_kept (s s' : PrintState) : Prop :=
  PrintObjDepth s' = PrintObjDepth s
  ∧ LastPV s' = LastPV s
  ∧ length (PrintObjThiss s') = length (PrintObjThiss s)
  ∧ length (PrintObjIndices s') = length (PrintObjIndices s).

(** Fuel that is enough for a call in state [s]. *)
Definition print_fuel (s : PrintState) : nat :=
  (2 * Z.to_nat (MAXPRINTDEPTH - PrintObjDepth s)
   + (if (LastPV s =? 2)%Z then 1 else 0))%nat.

(** With more than [print_fuel] fuel the call returns, if no break loop
    is left with [quit;], and the stack is as it was. *)
Definition returns_keeping_stack (fuel : nat)
    (call : Obj → PrintState → outcome PrintState) : Prop :=
  ∀ obj s, print_state_ok s → break_loops_return s → (print_fuel s < fuel)%nat →
           ∃ s', call obj s = Ret s' ∧ stack_kept s s' ∧ break_loops_return s'.

(** The state before any printing. *)
Definition initial_print_state (intr : list (option break_loop)) : PrintState :=
  mkPrintState 0 0 0 (replicate (Z.to_nat MAXPRINTDEPTH) 0)
               (replicate (Z.to_nat MAXPRINTDEPTH) 0) 0 intr [].

End Printing.

(** ** Kind of a component object *)

Section SetType.
Context `{Tnums} `{Kinds}.

(** The [switch] has no [default]: any other tag falls through to
    [return obj]. *)
Definition SET_TYPE_COMOBJ_Handler (obj kind : Obj) (h : Heap) : outcome (Obj * Heap) :=
  t ← TNUM_OBJ h obj;
  if decide (t = T_PREC ∨ t = T_COMOBJ) then
    h ← ADDR_OBJ_set h obj 0 kind;
    h ← RetypeBag h obj T_COMOBJ;
    Ret (obj, h)
  else if decide (t = T_AREC ∨ t = T_ACOMOBJ) then
    h ← SET_TYPE_OBJ h obj kind;
    h ← RetypeBag h obj T_ACOMOBJ;
    Ret (obj, h)
  else Ret (obj, h).

End SetType.

(** ** Saving and loading *)

(** The framer writes and reads words; a subobject reference goes through
    its coding of handles. *)
Class Framer : Type := {
  SubObjCode : Obj → Z;
  SubObjDecode : Z → Obj
}.

Section SaveLoad.
Context `{Framer}.

Definition SaveSubObj (o : Obj) (out : list Z) : list Z := out ++ [SubObjCode o].
Definition SaveUInt (w : Z) (out : list Z) : list Z := out ++ [w].

Definition LoadSubObj (inp : list Z) : outcome (Obj * list Z) :=
  match inp with
  | w :: inp => Ret (SubObjDecode w, inp)
  | [] => Undef
  end.

Definition LoadUInt (inp : list Z) : outcome (Z * list Z) :=
  match inp with
  | w :: inp => Ret (w, inp)
  | [] => Undef
  end.

Fixpoint SaveComObj_loop (h : Heap) (comobj : Obj) (idx : list nat) (out : list Z)
  : outcome (list Z) :=
  match idx with
  | [] => Ret out
  | i :: idx =>
      n ← GET_RNAM_PREC h comobj i;
      let out := SaveUInt n out in
      v ← GET_ELM_PREC h comobj i;
      let out := SaveSubObj v out in
      SaveComObj_loop h comobj idx out
  end.

Definition SaveComObj (h : Heap) (comobj : Obj) (out : list Z) : outcome (list Z) :=
  k ← TYPE_COMOBJ h comobj;
  let out := SaveSubObj k out in
  len ← LEN_PREC h comobj;
  let out := SaveUInt len out in
  SaveComObj_loop h comobj (seq 1 (Z.to_nat len)) out.

Fixpoint SavePosObj_loop (h : Heap) (posobj : Obj) (idx : list nat) (out : list Z)
  : outcome (list Z) :=
  match idx with
  | [] => Ret out
  | i :: idx =>
      v ← ADDR_OBJ_get h posobj i;
      SavePosObj_loop h posobj idx (SaveSubObj v out)
  end.

Definition SavePosObj (h : Heap) (posobj : Obj) (out : list Z) : outcome (list Z) :=
  k ← TYPE_POSOBJ h posobj;
  let out := SaveSubObj k out in
  sz ← SIZE_OBJ h posobj;
  let len := wrap64 (sz / sizeof_Obj - 1) in
  SavePosObj_loop h posobj (seq 1 (Z.to_nat len)) out.

Fixpoint SaveDatObj_loop (h : Heap) (datobj : Obj) (idx : list nat) (out : list Z)
  : outcome (list Z) :=
  match idx with
  | [] => Ret out
  | i :: idx =>
      w ← ADDR_OBJ_get h datobj i;
      SaveDatObj_loop h datobj idx (SaveUInt w out)
  end.

Definition SaveDatObj (h : Heap) (datobj : Obj) (out : list Z) : outcome (list Z) :=
  k ← TYPE_DATOBJ h datobj;
  let out := SaveSubObj k out in
  sz ← SIZE_OBJ h datobj;
  let len := wrap64 (wrap64 (sz + sizeof_Obj - 1) / sizeof_Obj - 1) in
  SaveDatObj_loop h datobj (seq 1 (Z.to_nat len)) out.

Fixpoint LoadComObj_loop (comobj : Obj) (idx : list nat) (inp : list Z) (h : Heap)
  : outcome (list Z * Heap) :=
  match idx with
  | [] => Ret (inp, h)
  | i :: idx =>
      '(n, inp) ← LoadUInt inp;
      h ← SET_RNAM_PREC h comobj i n;
      '(v, inp) ← LoadSubObj inp;
      h ← SET_ELM_PREC h comobj i v;
      LoadComObj_loop comobj idx inp h
  end.

Definition LoadComObj (comobj : Obj) (inp : list Z) (h : Heap) : outcome (list Z * Heap) :=
  '(k, inp) ← LoadSubObj inp;
  h ← ADDR_OBJ_set h comobj 0 k;
  '(len, inp) ← LoadUInt inp;
  h ← SET_LEN_PREC h comobj len;
  LoadComObj_loop comobj (seq 1 (Z.to_nat len)) inp h.

Fixpoint LoadPosObj_loop (posobj : Obj) (idx : list nat) (inp : list Z) (h : Heap)
  : outcome (list Z * Heap) :=
  match idx with
  | [] => Ret (inp, h)
  | i :: idx =>
      '(v, inp) ← LoadSubObj inp;
      h ← ADDR_OBJ_set h posobj i v;
      LoadPosObj_loop posobj idx inp h
  end.

Definition LoadPosObj (posobj : Obj) (inp : list Z) (h : Heap) : outcome (list Z * Heap) :=
  '(k, inp) ← LoadSubObj inp;
  h ← ADDR_OBJ_set h posobj 0 k;
  sz ← SIZE_OBJ h posobj;
  let len := wrap64 (sz / sizeof_Obj - 1) in
  LoadPosObj_loop posobj (seq 1 (Z.to_nat len)) inp h.

Fixpoint LoadDatObj_loop (datobj : Obj) (idx : list nat) (inp : list Z) (h : Heap)
  : outcome (list Z * Heap) :=
  match idx with
  | [] => Ret (inp, h)
  | i :: idx =>
      '(w, inp) ← LoadUInt inp;
      h ← ADDR_OBJ_set h datobj i w;
      LoadDatObj_loop datobj idx inp h
  end.

Definition LoadDatObj (datobj : Obj) (inp : list Z) (h : Heap) : outcome (list Z * Heap) :=
  '(k, inp) ← LoadSubObj inp;
  h ← ADDR_OBJ_set h datobj 0 k;
  sz ← SIZE_OBJ h datobj;
  let len := wrap64 (wrap64 (sz + sizeof_Obj - 1) / sizeof_Obj - 1) in
  LoadDatObj_loop datobj (seq 1 (Z.to_nat len)) inp h.

(** The three structural kinds and their save and load bodies. *)
Inductive structural_kind : Type := KComObj | KPosObj | KDatObj.

Definition save_body (k : structural_kind) : Heap → Obj → list Z → outcome (list Z) :=
  match k with
  | KComObj => SaveComObj
  | KPosObj => SavePosObj
  | KDatObj => SaveDatObj
  end.

Definition load_body (k : structural_kind) : Obj → list Z → Heap → outcome (list Z * Heap) :=
  match k with
  | KComObj => LoadComObj
  | KPosObj => LoadPosObj
  | KDatObj => LoadDatObj
  end.

(** The stream a body is expected to write for the words [ws] of a bag of
    [sz] bytes: the kind as a subobject; then for a component object the
    number of components and each name and value, for a positional object
    each slot, for a data object the remaining words as they are. *)
Definition expected_stream (k : structural_kind) (sz : Z) (ws : list Z) : list Z :=
  match k with
  | KComObj =>
      SubObjCode (ws !!! 0%nat) :: ws !!! 1%nat ::
      flat_map (λ i, [ws !!! (2 * i)%nat; SubObjCode (ws !!! (2 * i + 1)%nat)])
               (seq 1 (Z.to_nat (ws !!! 1%nat)))
  | KPosObj =>
      SubObjCode (ws !!! 0%nat) ::
      map (λ i, SubObjCode (ws !!! i)) (seq 1 (Z.to_nat (sz / sizeof_Obj) - 1))
  | KDatObj =>
      SubObjCode (ws !!! 0%nat) ::
      map (λ i, ws !!! i) (seq 1 (nwords sz - 1))
  end.

(** How many leading words of the bag the bodies save and restore. *)
Definition saved_words (k : structural_kind) (sz : Z) (ws : list Z) : nat :=
  match k with
  | KComObj => 2 * Z.to_nat (ws !!! 1%nat) + 2
  | KPosObj => Z.to_nat (sz / sizeof_Obj)
  | KDatObj => nwords sz
  end.

End SaveLoad.

(** The handle coding of the framer is read back as it was written. *)
Class FramerOK `{Framer} : Prop :=
  decode_code : ∀ o : Obj, SubObjDecode (SubObjCode o) = o.

(** The body has the words its size asks for. *)
Definition well_sized (b : Bag) : Prop :=
  length (data (PTR_BAG b)) = nwords (size (PTR_BAG b)).

(** A bag that a save body can walk: at least the word of the kind, a size
    that is a [UInt], and for a component object room for the components
    it counts. *)
Definition saveable (k : structural_kind) (b : Bag) : Prop :=
  well_sized b ∧
  sizeof_Obj ≤ size (PTR_BAG b) < 2 ^ 64 - sizeof_Obj ∧
  match k with
  | KComObj =>
      0 ≤ data (PTR_BAG b) !!! 1%nat ∧
      (2 * Z.to_nat (data (PTR_BAG b) !!! 1%nat) + 2 ≤ length (data (PTR_BAG b)))%nat
  | _ => True
  end.

(** Same tag, size, region and number of words. *)
Definition same_shape (b b' : Bag) : Prop :=
  tnum (PTR_BAG b') = tnum (PTR_BAG b) ∧
  size (PTR_BAG b') = size (PTR_BAG b) ∧
  DS_BAG b' = DS_BAG b ∧
  length (data (PTR_BAG b')) = length (data (PTR_BAG b)).

(** [b'] has the tag and the size of [b], and its first [n] words are
    those of [b]. *)
Definition restored_from (n : nat) (b b' : Bag) : Prop :=
  tnum (PTR_BAG b') = tnum (PTR_BAG b) ∧
  size (PTR_BAG b') = size (PTR_BAG b) ∧
  ∀ i, (i < n)%nat → data (PTR_BAG b') !! i = data (PTR_BAG b) !! i.

(** ** Cloning and switching *)

(** What a handler hands back: the message of [ErrorReturnVoid] if it was
    raised (the handler then returns at once), the returned value, and the
    heap it leaves. *)
Record reply : Type := mkReply {
  raised : option string;
  result : Obj;
  heap_after : Heap
}.

Definition set_DS_BAG (h : Heap) (o : Obj) (ds : Z) : outcome Heap :=
  b ← get_bag h o; Ret (put_bag h o (mkBag (PTR_BAG b) ds)).

Definition set_PTR_BAG (h : Heap) (o : Obj) (ptr : Body) : outcome Heap :=
  b ← get_bag h o; Ret (put_bag h o (mkBag ptr (DS_BAG b))).

Section Handlers.
Context `{Tnums} `{Kinds} `{Threads}.

Fixpoint CLONE_OBJ_loop (dst src : Obj) (idx : list nat) (h : Heap) : outcome Heap :=
  match idx with
  | [] => Ret h
  | i :: idx =>
      w ← ADDR_OBJ_get h src i;
      h ← ADDR_OBJ_set h dst i w;
      CLONE_OBJ_loop dst src idx h
  end.

Definition FuncCLONE_OBJ (fuel : nat) (dst src : Obj) (tl : ThreadLocal) (h : Heap)
  : outcome (reply * ThreadLocal) :=
  (* check <src> *)
  if IS_INTOBJ src then
    Ret (mkReply (Some "small integers cannot be cloned") 0 h, tl)
  else if IS_FFE src then
    Ret (mkReply (Some "finite field elements cannot be cloned") 0 h, tl)
  else
    (* if object is mutable, produce a structural copy *)
    m ← IS_MUTABLE_OBJ h src;
    r ← (if (m : bool) then CopyObj fuel src true tl h else Ret (src, tl, h));
    let '(src, tl, h) := r in
    (* now shallow clone the object *)
    sz ← SIZE_OBJ h src;
    h ← ResizeBag h dst sz;
    t ← TNUM_OBJ h src;
    h ← RetypeBag h dst t;
    sz ← SIZE_OBJ h src;
    let n := wrap64 (sz + sizeof_Obj - 1) / sizeof_Obj in
    h ← CLONE_OBJ_loop dst src (seq 0 (Z.to_nat n)) h;
    Ret (mkReply None 0 h, tl).

(** [!ds || ds->owner != TLS] *)
Definition not_owned (ds : Z) : bool := (ds =? 0) || negb (region_owner ds =? TLS).

(** [ds && ds->owner != TLS] *)
Definition owned_by_other (ds : Z) : bool := negb (ds =? 0) && negb (region_owner ds =? TLS).

(** The region [ds] is a region of the calling thread. *)
Definition owned_by_caller (ds : Z) : Prop := ds ≠ 0 ∧ region_owner ds = TLS.

(** The region [ds] is public (null) or a region of the calling thread. *)
Definition public_or_owned (ds : Z) : Prop := ds = 0 ∨ region_owner ds = TLS.

(** The four assignments that exchange the two handles. *)
Definition exchange (obj1 obj2 : Obj) (ptr1 ptr2 : Body) (ds1 ds2 : Z) (h : Heap)
  : outcome Heap :=
  h ← set_DS_BAG h obj2 ds1;
  h ← set_PTR_BAG h obj2 ptr1;
  h ← set_DS_BAG h obj1 ds2;
  set_PTR_BAG h obj1 ptr2.

Definition FuncSWITCH_OBJ (obj1 obj2 : Obj) (h : Heap) : outcome reply :=
  if IS_INTOBJ obj1 || IS_INTOBJ obj2 then
    Ret (mkReply (Some "small integer objects cannot be switched") 0 h)
  else if IS_FFE obj1 || IS_FFE obj2 then
    Ret (mkReply (Some "finite field elements cannot be switched") 0 h)
  else
    b1 ← get_bag h obj1;
    b2 ← get_bag h obj2;
    let ptr1 := PTR_BAG b1 in
    let ptr2 := PTR_BAG b2 in
    let ds1 := DS_BAG b1 in
    let ds2 := DS_BAG b2 in
    if not_owned ds1 then
      ErrorQuit "SWITCH_OBJ: Cannot write to first object's region."
    else if not_owned ds2 then
      ErrorQuit "SWITCH_OBJ: Cannot write to second object's region."
    else
      h ← exchange obj1 obj2 ptr1 ptr2 ds1 ds2 h;
      Ret (mkReply None 0 h).

Definition FuncFORCE_SWITCH_OBJ (obj1 obj2 : Obj) (h : Heap) : outcome reply :=
  if IS_INTOBJ obj1 || IS_INTOBJ obj2 then
    Ret (mkReply (Some "small integer objects cannot be switched") 0 h)
  else if IS_FFE obj1 || IS_FFE obj2 then
    Ret (mkReply (Some "finite field elements cannot be switched") 0 h)
  else
    b1 ← get_bag h obj1;
    b2 ← get_bag h obj2;
    let ptr1 := PTR_BAG b1 in
    let ptr2 := PTR_BAG b2 in
    let ds1 := DS_BAG b1 in
    let ds2 := DS_BAG b2 in
    if owned_by_other ds1 then
      ErrorQuit "FORCE_SWITCH_OBJ: Cannot write to first object's region."
    else if owned_by_other ds2 then
      ErrorQuit "FORCE_SWITCH_OBJ: Cannot write to second object's region."
    else
      h ← exchange obj1 obj2 ptr1 ptr2 ds1 ds2 h;
      Ret (mkReply None 0 h).

End Handlers.

(** ** A concrete configuration *)

(** A numbering of the tags in the order of the header, kinds [1000]
    (mutable and copyable), [1004] (the same kind without the mutability
    flag) and [1008] (mutable, not copyable), and a thread [1] that owns
    region [1] while region [2] belongs to thread [2]. *)
Module Example.

#[export] Instance tnums : Tnums := {|
  FIRST_REAL_TNUM := 0; FIRST_CONSTANT_TNUM := 0; T_INT := 0; T_FFE := 5;
  LAST_CONSTANT_TNUM := 19; FIRST_RECORD_TNUM := 20; T_PREC := 20;
  LAST_RECORD_TNUM := 21; FIRST_LIST_TNUM := 22; T_PLIST := 22;
  LAST_LIST_TNUM := 75; FIRST_EXTERNAL_TNUM := 76; T_COMOBJ := 76;
  T_POSOBJ := 77; T_DATOBJ := 78; T_ACOMOBJ := 80; T_AREC := 81;
  LAST_EXTERNAL_TNUM := 82; LAST_REAL_TNUM := 82; COPYING := 63 |}.

#[export] Instance kinds : Kinds := {|
  KindIsMutable k := (k =? 1000) || (k =? 1008);
  KindIsCopyable k := (k =? 1000) || (k =? 1004);
  KindResetMutable k := if k =? 1000 then 1004 else k |}.

#[export] Instance threads : Threads := {|
  TLS := 1;
  region_owner ds := ds;
  currentRegion := 1 |}.

#[export] Instance framer : Framer := {|
  SubObjCode o := o + 1;
  SubObjDecode w := w - 1 |}.

#[export] Instance tnums_ok : TnumsOK.
Proof. split; simpl; lia. Qed.

Definition bag (t sz : Z) (ds : Z) (words : list Z) : Bag := mkBag (mkBody t sz words) ds.

(** The print state when, inside the list [40] at selector 2, the list
    [44] has reached its selector 1. *)
Definition inner_print_state : PrintState :=
  mkPrintState 44 1 2
               (<[0%nat := 40]> (replicate (Z.to_nat MAXPRINTDEPTH) 0))
               (<[0%nat := 2]> (replicate (Z.to_nat MAXPRINTDEPTH) 0))
               1 [] [].

(** A print state one frame below the maximal depth. *)
Definition deep_print_state : PrintState :=
  mkPrintState 40 2 (MAXPRINTDEPTH - 1)
               (replicate (Z.to_nat MAXPRINTDEPTH) 40)
               (replicate (Z.to_nat MAXPRINTDEPTH) 2)
               1 [] [].

(** A print state one frame below the maximal depth, with an interrupt
    pending whose break loop the user will leave with [return;]. *)
Definition deep_interrupted_state : PrintState :=
  mkPrintState 40 2 (MAXPRINTDEPTH - 1)
               (replicate (Z.to_nat MAXPRINTDEPTH) 40)
               (replicate (Z.to_nat MAXPRINTDEPTH) 2)
               1 [Some (Returns 0)] [].

(** The state [s] with one interrupt pending, whose break loop the user
    will leave with [quit;]. *)
Definition interrupted_to_quit (s : PrintState) : PrintState :=
  mkPrintState (PrintObjThis s) (PrintObjIndex s) (PrintObjDepth s) (PrintObjThiss s)
               (PrintObjIndices s) (LastPV s) [Some Quits] (output s).

(** The print state when, inside the list [40] at selector 2, [ViewObj]
    has pushed the frame of [44] and calls its view method. *)
Definition viewing_print_state : PrintState :=
  mkPrintState 44 0 2
               (<[0%nat := 40]> (replicate (Z.to_nat MAXPRINTDEPTH) 0))
               (<[0%nat := 2]> (replicate (Z.to_nat MAXPRINTDEPTH) 0))
               2 [] [].

(** Two plain lists for the printer: [40] is [[ 5, 44 ]] and [44] is
    [[ 44 ]], a list that contains itself.  The print body of a list sets
    the selector and prints each element in turn; small integers print as
    a number. *)
#[export] Instance printers : Printers := {|
  TNUM_of o := if IS_INTOBJ o then 0 else 22;
  CheckRead o := true;
  PrintObjFuncs t o :=
    if t =? 22 then
      if o =? 40 then [DoPr "[ "; SetIndex 1; CallPrintObj 5; DoPr ", ";
                       SetIndex 2; CallPrintObj 44; DoPr " ]"]
      else [DoPr "[ "; SetIndex 1; CallPrintObj 44; DoPr " ]"]
    else [DoPr "<int>"];
  ViewObjMethod o := [CallPrintObj o] |}.

(** The same printers for a thread that cannot read [44]. *)
Definition guarded_printers : Printers := {|
  TNUM_of := TNUM_of;
  CheckRead o := negb (o =? 44);
  PrintObjFuncs := PrintObjFuncs;
  ViewObjMethod := ViewObjMethod |}.

(** A positional object [4] whose slots 1 and 2 share the component object
    [8], whose slot 3 is the object itself and whose slot 4 is the small
    integer [5]; the only component of [8] leads back to [4]; [12] is a
    data object, [16] an immutable positional object in the region of
    another thread, [20] a plain list in the public region. *)
Definition heap : Heap :=
  mkHeap (<[4 := bag 77 40 1 [1000; 8; 8; 4; 5]]>
         (<[8 := bag 76 32 1 [1000; 1; 77; 4]]>
         (<[12 := bag 78 20 1 [1000; 255; 65535]]>
         (<[16 := bag 77 16 2 [1004; 12]]>
         (<[20 := bag 22 16 0 [1; 9]]> ∅))))) 24.

(** The heap that a structural copy of [4] leaves: [24] is the copy of
    [4] and [32] the copy of [8]; [28] and [36] are the forwarding records,
    which stay behind as garbage. *)
Definition copied_heap : Heap :=
  mkHeap (<[24 := bag 77 40 1 [1000; 32; 32; 24; 5]]>
         (<[28 := bag 22 24 1 [2; 1000; 24]]>
         (<[32 := bag 76 32 1 [1000; 1; 77; 24]]>
         (<[36 := bag 22 24 1 [2; 1000; 32]]> (bags heap))))) 40.

End Example.

(** ** The remaining handlers of the file *)

(** Three more tags of [objects.h], for the atomic variants of positional
    objects and lists. *)
Class AtomicTnums : Type := {
  T_APOSOBJ : Z;
  T_ALIST : Z;
  T_FIXALIST : Z
}.

(** What the handlers below take from outside the file: the macro
    [MUTABLE_TNUM] of the header, the library function behind
    [PostMakeImmutableOp], the method that [DoOperation1Args] selects for
    [ShallowCopyObjOper], and the write guard of the thread library, which
    returns or leaves through an error. *)
Class Library : Type := {
  MUTABLE_TNUM : Z → Z;
  PostMakeImmutable : Obj → Heap → outcome Heap;
  ShallowCopyMethod : Obj → Heap → outcome (Obj * Heap);
  WriteGuard : Obj → Heap → outcome unit
}.

Section MoreHandlers.
Context `{Tnums} `{AtomicTnums} `{Kinds} `{Threads} `{Library}.

(** [True] and [False] are returned as a [bool]. *)
Definition TypeObjHandler (obj : Obj) (h : Heap) : outcome Obj := TYPE_OBJ h obj.

Definition SetTypeObjHandler (obj kind : Obj) (h : Heap) : outcome (Obj * Heap) :=
  h ← SET_TYPE_OBJ h obj kind;
  Ret (0, h).

Definition IsMutableObjHandler (obj : Obj) (h : Heap) : outcome bool := IS_MUTABLE_OBJ h obj.

Definition IsCopyableObjHandler (obj : Obj) (h : Heap) : outcome bool := IS_COPYABLE_OBJ h obj.

Definition IsIdenticalHandler (obj1 obj2 : Obj) : bool := bool_decide (obj1 = obj2).

Definition IS_COMOBJ_Handler (obj : Obj) (h : Heap) : outcome bool :=
  t ← TNUM_OBJ h obj;
  Ret (bool_decide (t = T_COMOBJ ∨ t = T_ACOMOBJ)).

Definition IS_POSOBJ_Handler (obj : Obj) (h : Heap) : outcome bool :=
  t ← TNUM_OBJ h obj;
  Ret (bool_decide (t = T_POSOBJ ∨ t = T_APOSOBJ)).

Definition IS_DATOBJ_Handler (obj : Obj) (h : Heap) : outcome bool :=
  t ← TNUM_OBJ h obj;
  Ret (bool_decide (t = T_DATOBJ)).

(** The [default] case takes every tag but the three atomic ones. *)
Definition SET_TYPE_POSOBJ_Handler (obj kind : Obj) (h : Heap) : outcome (Obj * Heap) :=
  t ← TNUM_OBJ h obj;
  if decide (t = T_APOSOBJ ∨ t = T_ALIST ∨ t = T_FIXALIST) then
    h ← SET_TYPE_OBJ h obj kind;
    h ← RetypeBag h obj T_APOSOBJ;
    Ret (obj, h)
  else
    h ← ADDR_OBJ_set h obj 0 kind;
    h ← RetypeBag h obj T_POSOBJ;
    Ret (obj, h).

(** No test of the tag at all. *)
Definition SET_TYPE_DATOBJ_Handler (obj kind : Obj) (h : Heap) : outcome (Obj * Heap) :=
  h ← ADDR_OBJ_set h obj 0 kind;
  h ← RetypeBag h obj T_DATOBJ;
  Ret (obj, h).

(** *** Making immutable in place *)

(** The messages of [ErrorQuit] are the format strings of the source. *)

Inductive immut_fn : Type :=
| MakeImmutableError_fn | MakeImmutableComObj_fn
| MakeImmutablePosObj_fn | MakeImmutableDatObj_fn.

Definition MakeImmutableObjFuncs (t : Z) : option immut_fn :=
  if decide (t = T_DATOBJ) then Some MakeImmutableDatObj_fn
  else if decide (t = T_POSOBJ) then Some MakeImmutablePosObj_fn
  else if decide (t = T_COMOBJ) then Some MakeImmutableComObj_fn
  else if in_range FIRST_REAL_TNUM LAST_REAL_TNUM t then Some MakeImmutableError_fn
  else None.

(** The loops over the subobjects are commented out in the source. *)
Definition MakeImmutableComObj (obj : Obj) (h : Heap) : outcome Heap :=
  h ← RESET_FILTER_OBJ_IsMutable h obj;
  PostMakeImmutable obj h.

Definition MakeImmutablePosObj (obj : Obj) (h : Heap) : outcome Heap :=
  h ← RESET_FILTER_OBJ_IsMutable h obj;
  PostMakeImmutable obj h.

Definition MakeImmutableDatObj (obj : Obj) (h : Heap) : outcome Heap :=
  RESET_FILTER_OBJ_IsMutable h obj.

Definition MakeImmutable (obj : Obj) (h : Heap) : outcome Heap :=
  m ← IS_MUTABLE_OBJ h obj;
  if (m : bool) then
    t ← TNUM_OBJ h obj;
    match MakeImmutableObjFuncs t with
    | None => Undef
    | Some MakeImmutableError_fn => ErrorQuit "No make immutable function installed for a %s"
    | Some MakeImmutableComObj_fn => MakeImmutableComObj obj h
    | Some MakeImmutablePosObj_fn => MakeImmutablePosObj obj h
    | Some MakeImmutableDatObj_fn => MakeImmutableDatObj obj h
    end
  else Ret h.

Definition FuncMakeImmutable (obj : Obj) (h : Heap) : outcome (Obj * Heap) :=
  h ← MakeImmutable obj h;
  Ret (obj, h).

(** *** Shallow copies *)

Inductive shallow_fn : Type :=
| ShallowCopyObjError_fn | ShallowCopyObjConstant_fn
| ShallowCopyObjObject_fn | ShallowCopyObjDefault_fn.

Definition ShallowCopyObjFuncs (t : Z) : option shallow_fn :=
  if in_range FIRST_EXTERNAL_TNUM LAST_EXTERNAL_TNUM t then Some ShallowCopyObjObject_fn
  else if in_range FIRST_LIST_TNUM LAST_LIST_TNUM t then Some ShallowCopyObjDefault_fn
  else if in_range FIRST_RECORD_TNUM LAST_RECORD_TNUM t then Some ShallowCopyObjDefault_fn
  else if in_range FIRST_CONSTANT_TNUM LAST_CONSTANT_TNUM t then Some ShallowCopyObjConstant_fn
  else if in_range FIRST_REAL_TNUM LAST_REAL_TNUM t then Some ShallowCopyObjError_fn
  else None.

Definition ShallowCopyObjConstant (obj : Obj) (h : Heap) : outcome (Obj * Heap) :=
  Ret (obj, h).

Definition ShallowCopyObjObject (obj : Obj) (h : Heap) : outcome (Obj * Heap) :=
  ShallowCopyMethod obj h.

(** [*n++ = *o++] for [len] words. *)
Fixpoint ShallowCopyObjDefault_loop (obj new : Obj) (idx : list nat) (h : Heap)
  : outcome Heap :=
  match idx with
  | [] => Ret h
  | i :: idx =>
      w ← ADDR_OBJ_get h obj i;
      h ← ADDR_OBJ_set h new i w;
      ShallowCopyObjDefault_loop obj new idx h
  end.

Definition ShallowCopyObjDefault (obj : Obj) (h : Heap) : outcome (Obj * Heap) :=
  sz ← SIZE_OBJ h obj;
  let len := wrap64 (sz + sizeof_Obj - 1) / sizeof_Obj in
  t ← TNUM_OBJ h obj;
  sz ← SIZE_OBJ h obj;
  let '(new, h) := NewBag h (MUTABLE_TNUM t) sz in
  h ← ShallowCopyObjDefault_loop obj new (seq 0 (Z.to_nat len)) h;
  Ret (new, h).

Definition SHALLOW_COPY_OBJ (obj : Obj) (h : Heap) : outcome (Obj * Heap) :=
  t ← TNUM_OBJ h obj;
  match ShallowCopyObjFuncs t with
  | None => Undef
  | Some ShallowCopyObjError_fn =>
      ErrorQuit "Panic: tried to shallow copy object of unknown type '%d'"
  | Some ShallowCopyObjConstant_fn => ShallowCopyObjConstant obj h
  | Some ShallowCopyObjObject_fn => ShallowCopyObjObject obj h
  | Some ShallowCopyObjDefault_fn => ShallowCopyObjDefault obj h
  end.

Definition ShallowCopyObjHandler (obj : Obj) (h : Heap) : outcome (Obj * Heap) :=
  SHALLOW_COPY_OBJ obj h.

(** *** The two copy handlers *)

Definition ImmutableCopyObjHandler (fuel : nat) (obj : Obj) (tl : ThreadLocal) (h : Heap)
  : outcome (Obj * ThreadLocal * Heap) :=
  _ ← WriteGuard obj h;
  CopyObj fuel obj false tl h.

Definition MutableCopyObjHandler (fuel : nat) (obj : Obj) (tl : ThreadLocal) (h : Heap)
  : outcome (Obj * ThreadLocal * Heap) :=
  _ ← WriteGuard obj h;
  CopyObj fuel obj true tl h.

End MoreHandlers.

(** *** Notions for the statements about these handlers *)

Section MoreNotions.
Context `{Tnums} `{Kinds}.

(** The kinds of the mutable structural objects of [h] lose the mutability
    flag when [RESET_FILTER_OBJ] takes it away. *)
Definition kinds_reset (h : Heap) : Prop :=
  ∀ x k, mutable_structural h x → word_at h x 0 k →
         KindIsMutable (KindResetMutable k) = false.

(** An object that [COPY_OBJ] has a body for, under the tables of this
    file: an immediate value or a bag with a constant or a structural tag
    and, if structural, with the word of its kind. *)
Definition copy_target (h : Heap) (v : Obj) : Prop :=
  is_immediate v = true
  ∨ ∃ b, bags h !! v = Some b
       ∧ (constant_tnum (tnum (PTR_BAG b))
          ∨ (structural_tnum (tnum (PTR_BAG b)) ∧ is_immediate v = false
             ∧ is_Some (data (PTR_BAG b) !! 0%nat))).

(** A heap whose mutable structural objects the copy bodies can walk:
    each is copyable, has the words its size asks for, a component object
    has room for the components it counts, and what its followed slots hold
    is something [COPY_OBJ] has a body for (or null, in a positional
    object). *)
Record copyable_heap (h : Heap) : Prop := {
  ch_copyable : ∀ x k, mutable_structural h x → word_at h x 0 k → KindIsCopyable k = true;
  ch_sized : ∀ x b, mutable_structural h x → bags h !! x = Some b →
                    well_sized b ∧ 1 ≤ size (PTR_BAG b) < 2 ^ 64 - sizeof_Obj;
  ch_comobj : ∀ x b, mutable_structural h x → bags h !! x = Some b →
                     tnum (PTR_BAG b) = T_COMOBJ →
                     0 ≤ data (PTR_BAG b) !!! 1%nat
                     ∧ (2 * Z.to_nat (data (PTR_BAG b) !!! 1%nat) + 2
                        ≤ length (data (PTR_BAG b)))%nat;
  ch_children : ∀ x b i c, mutable_structural h x → bags h !! x = Some b →
                           i ∈ child_slots (PTR_BAG b) → data (PTR_BAG b) !! i = Some c →
                           (c = 0 ∧ tnum (PTR_BAG b) = T_POSOBJ) ∨ copy_target h c
}.

(** A word that is null, an immediate value or the handle of a bag. *)
Definition known (h : Heap) (c : Obj) : Prop :=
  c = 0 ∨ is_immediate c = true ∨ is_Some (bags h !! c).

(** The slots that the copy bodies follow in the structural bags from
    [lo] on hold known words. *)
Definition closed_from (lo : Z) (h : Heap) : Prop :=
  ∀ k b i c, lo ≤ k → bags h !! k = Some b → structural_tnum (tnum (PTR_BAG b)) →
             i ∈ child_slots (PTR_BAG b) → data (PTR_BAG b) !! i = Some c → known h c.

End MoreNotions.

(** The call returns: no error, nothing undefined, enough fuel. *)
Definition returns {A : Type} (m : outcome A) : Prop := ∃ a, m = Ret a.

(** The handles from [lo] on are multiples of 4, as [NewBag] hands them
    out, and their bags have the words their size asks for. *)
Definition tidy_from (lo : Z) (h : Heap) : Prop :=
  brk h `mod` 4 = 0
  ∧ ∀ k b, lo ≤ k → bags h !! k = Some b → k `mod` 4 = 0 ∧ well_sized b.

(** *** Notions for further statements about printing *)

(** The frames below the current one, and the object of the current
    frame, are in [s'] as they are in [s]. *)
Definition ancestors_kept (s s' : PrintState) : Prop :=
  let k := Z.to_nat (PrintObjDepth s - 1) in
  take k (PrintObjThiss s') = take k (PrintObjThiss s)
  ∧ take k (PrintObjIndices s') = take k (PrintObjIndices s)
  ∧ (0 < PrintObjDepth s → PrintObjThis s' = PrintObjThis s).

(** What a call that returns leaves of the stack. *)
Definition restores (call : Obj → PrintState → outcome PrintState) : Prop :=
  ∀ obj s s', print_state_ok s → call obj s = Ret s' →
              stack_kept s s' ∧ ancestors_kept s s'.

(** A body that prints text and sets the selector, and calls nothing. *)
Definition is_plain (a : action) : bool :=
  match a with
  | DoPr _ | SetIndex _ => true
  | CallPrintObj _ | CallViewObj _ => false
  end.

(** The text that the actions of a body print themselves. *)
Definition printed (script : list action) : list event :=
  flat_map (λ a, match a with DoPr text => [Pr text] | _ => [] end) script.

(** ** The concrete configuration, continued *)

(** The atomic tags, a library whose hook after [MakeImmutable] does
    nothing and which has no method for shallow copies, and a write guard
    that lets every object pass. *)
Module MoreExamples.
Import Example.

#[export] Instance atomic_tnums : AtomicTnums := {|
  T_APOSOBJ := 79; T_ALIST := 75; T_FIXALIST := 74 |}.

#[export] Instance library : Library := {|
  MUTABLE_TNUM t := if (22 <=? t) && (t <=? 75) then 22 + 2 * ((t - 22) / 2) else t;
  PostMakeImmutable obj h := Ret h;
  ShallowCopyMethod obj h := ErrorQuit "no method found";
  WriteGuard obj h := Ret () |}.

(** The example heap with the positional object [16] given the kind
    [1008], which is mutable and not copyable. *)
Definition locked_heap : Heap := put_bag heap 16 (bag 77 16 2 [1008; 12]).

(** The heap that an immutable structural copy of [4] leaves: the copies
    [24] and [32] have the kind [1004]. *)
Definition frozen_heap : Heap :=
  mkHeap (<[24 := bag 77 40 1 [1004; 32; 32; 24; 5]]>
         (<[28 := bag 22 24 1 [2; 1000; 24]]>
         (<[32 := bag 76 32 1 [1004; 1; 77; 24]]>
         (<[36 := bag 22 24 1 [2; 1000; 32]]> (bags heap))))) 40.

(** The example heap with two cleared cells: [24] has the tag and the size
    of the component object [8], and [28] those of the data object [12]. *)
Definition cleared_heap : Heap :=
  put_bag (put_bag heap 24 (bag 76 32 1 [0; 0; 0; 0])) 28 (bag 78 20 1 [0; 0; 0]).

(** Printers for which the list [44] is empty: its print body prints the
    two brackets and calls nothing; the view method of every object falls
    back on printing it. *)
Definition plain_printers : Printers := {|
  TNUM_of o := if IS_INTOBJ o then 0 else 22;
  CheckRead o := true;
  PrintObjFuncs t o := if t =? 22 then [DoPr "[ "; SetIndex 0; DoPr " ]"] else [DoPr "<int>"];
  ViewObjMethod o := [CallPrintObj o] |}.

(** The print state when the list [40] has reached its selector 2, with
    an interrupt pending whose break loop the user will leave with
    [return;]. *)
Definition outer_print_state : PrintState :=
  mkPrintState 40 2 1
               (replicate (Z.to_nat MAXPRINTDEPTH) 0)
               (replicate (Z.to_nat MAXPRINTDEPTH) 0)
               1 [Some (Returns 0)] [].

End MoreExamples.

(** * Properties *)

(** ** Outcomes *)

Lemma bind_Ret {A B : Type} (m : outcome A) (k : A → outcome B) (b : B) :
  (m ≫= k) = Ret b → ∃ a, m = Ret a ∧ k a = Ret b.
Proof. destruct m; simpl; intros E; try discriminate; eauto. Qed.

Lemma bind_Ret_l {A B : Type} (a : A) (k : A → outcome B) : (Ret a ≫= k) = k a.
Proof. reflexivity. Qed.

(** Split an equation [(x ← m; k) = Ret b] into its two steps. *)
Ltac inv_bind E :=
  let a := fresh "a" in
  let E1 := fresh "E" in
  apply bind_Ret in E; destruct E as (a & E1 & E).

Tactic Notation "bind_inv" hyp(E) "as" simple_intropattern(a) ident(E1) :=
  apply bind_Ret in E; destruct E as (a & E1 & E).

(** ** C10: [SET_TYPE_COMOBJ] on other tags *)

Section SetTypeProps.
Context `{Tnums} `{Kinds}.

(** C10.  If the tag of [obj] is none of [T_PREC], [T_COMOBJ], [T_AREC]
    and [T_ACOMOBJ], the handler of [SET_TYPE_COMOBJ] returns [obj] and
    leaves the whole heap, so also the tag, the kind and the contents of
    [obj], as it was; it raises no error. *)
Theorem SET_TYPE_COMOBJ_other_tag_noop (obj kind : Obj) (h : Heap) (t : Z) :
  TNUM_OBJ h obj = Ret t →
  t ≠ T_PREC → t ≠ T_COMOBJ → t ≠ T_AREC → t ≠ T_ACOMOBJ →
  SET_TYPE_COMOBJ_Handler obj kind h = Ret (obj, h).
Proof.
  intros Ht H1 H2 H3 H4. unfold SET_TYPE_COMOBJ_Handler.
  rewrite Ht, bind_Ret_l.
  destruct (decide (t = T_PREC ∨ t = T_COMOBJ)) as [[?|?]|_]; [done..|].
  destruct (decide (t = T_AREC ∨ t = T_ACOMOBJ)) as [[?|?]|_]; [done..|].
  reflexivity.
Qed.

End SetTypeProps.

Section SetTypeExamples.
Import Example.

Lemma SET_TYPE_COMOBJ_other_tag_noop_witness :
  TNUM_OBJ Example.heap 16 = Ret 77 ∧
  SET_TYPE_COMOBJ_Handler 16 1000 Example.heap = Ret (16, Example.heap).
Proof.
  split; [reflexivity|].
  apply (SET_TYPE_COMOBJ_other_tag_noop 16 1000 Example.heap 77); [reflexivity|simpl; lia..].
Defined.

End SetTypeExamples.

(** ** C4, C5, C6: switching and cloning *)

Section HandlerProps.
Context `{Tnums} `{Kinds} `{Threads}.

Lemma not_owned_false (ds : Z) : not_owned ds = false ↔ owned_by_caller ds.
Proof.
  unfold not_owned, owned_by_caller.
  rewrite orb_false_iff, negb_false_iff, !Z.eqb_neq, Z.eqb_eq. tauto.
Qed.

Lemma owned_by_other_false (ds : Z) : owned_by_other ds = false ↔ public_or_owned ds.
Proof.
  unfold owned_by_other, public_or_owned.
  rewrite andb_false_iff, !negb_false_iff, !Z.eqb_eq. tauto.
Qed.

Lemma put_bag_put_bag (h : Heap) (o : Obj) (b b' : Bag) :
  put_bag (put_bag h o b) o b' = put_bag h o b'.
Proof. unfold put_bag; simpl. by rewrite insert_insert_eq. Qed.

Lemma get_bag_put_bag (h : Heap) (o o' : Obj) (b : Bag) :
  get_bag (put_bag h o b) o' = if decide (o = o') then Ret b else get_bag h o'.
Proof.
  unfold get_bag, put_bag; simpl. rewrite lookup_insert.
  by destruct (decide (o = o')).
Qed.

Lemma get_bag_Some (h : Heap) (o : Obj) (b : Bag) :
  bags h !! o = Some b → get_bag h o = Ret b.
Proof. unfold get_bag. by intros ->. Qed.

(** The four assignments put the old bag of each handle under the other. *)
Lemma exchange_swaps (obj1 obj2 : Obj) (h : Heap) (b1 b2 : Bag) :
  bags h !! obj1 = Some b1 → bags h !! obj2 = Some b2 →
  exchange obj1 obj2 (PTR_BAG b1) (PTR_BAG b2) (DS_BAG b1) (DS_BAG b2) h
  = Ret (put_bag (put_bag h obj2 b1) obj1 b2).
Proof.
  intros E1 E2. unfold exchange, set_DS_BAG, set_PTR_BAG.
  rewrite (get_bag_Some _ _ _ E2), bind_Ret_l; simpl.
  rewrite get_bag_put_bag, decide_True by done. rewrite bind_Ret_l; simpl.
  rewrite put_bag_put_bag, get_bag_put_bag.
  destruct (decide (obj2 = obj1)) as [->|Hne].
  - assert (b1 = b2) as -> by congruence.
    rewrite bind_Ret_l; simpl. rewrite put_bag_put_bag, get_bag_put_bag, decide_True by done.
    rewrite bind_Ret_l; simpl. rewrite !put_bag_put_bag. by destruct b2.
  - rewrite (get_bag_Some _ _ _ E1), bind_Ret_l; simpl.
    rewrite get_bag_put_bag, decide_True by done.
    rewrite bind_Ret_l; simpl. rewrite put_bag_put_bag. by destruct b1 as [[]], b2 as [[]].
Qed.

(** C4, as the code has it.  For bags [obj1] and [obj2] that are not
    immediate values, [SWITCH_OBJ] exchanges the two handles (body and
    region) exactly when the regions of both are regions of the calling
    thread; if the region of the first is not, it fails with the
    region error for the first object, otherwise, if the region of the
    second is not, with the one for the second object. *)
Theorem SWITCH_OBJ_needs_both_owned (obj1 obj2 : Obj) (h : Heap) (b1 b2 : Bag) :
  is_immediate obj1 = false → is_immediate obj2 = false →
  bags h !! obj1 = Some b1 → bags h !! obj2 = Some b2 →
  (owned_by_caller (DS_BAG b1) ∧ owned_by_caller (DS_BAG b2) →
     FuncSWITCH_OBJ obj1 obj2 h = Ret (mkReply None 0 (put_bag (put_bag h obj2 b1) obj1 b2)))
  ∧ (¬ owned_by_caller (DS_BAG b1) →
     FuncSWITCH_OBJ obj1 obj2 h
     = ErrorQuit "SWITCH_OBJ: Cannot write to first object's region.")
  ∧ (owned_by_caller (DS_BAG b1) → ¬ owned_by_caller (DS_BAG b2) →
     FuncSWITCH_OBJ obj1 obj2 h
     = ErrorQuit "SWITCH_OBJ: Cannot write to second object's region.").
Proof.
  unfold is_immediate. intros [I1 F1]%orb_false_iff [I2 F2]%orb_false_iff E1 E2.
  unfold FuncSWITCH_OBJ. rewrite I1, I2, F1, F2; simpl.
  rewrite (get_bag_Some _ _ _ E1), (get_bag_Some _ _ _ E2), !bind_Ret_l.
  split; [|split].
  - intros [O1%not_owned_false O2%not_owned_false]. rewrite O1, O2.
    by rewrite exchange_swaps.
  - intros N1. destruct (not_owned (DS_BAG b1)) eqn:O1; [done|].
    by apply not_owned_false in O1.
  - intros O1%not_owned_false N2. rewrite O1.
    destruct (not_owned (DS_BAG b2)) eqn:O2; [done|].
    by apply not_owned_false in O2.
Qed.

(** C5, as the code has it.  For bags that are not immediate values,
    [FORCE_SWITCH_OBJ] exchanges the two handles exactly when each region
    is public (null) or a region of the calling thread; a region owned by
    another thread still gives the region error. *)
Theorem FORCE_SWITCH_OBJ_public_or_owned (obj1 obj2 : Obj) (h : Heap) (b1 b2 : Bag) :
  is_immediate obj1 = false → is_immediate obj2 = false →
  bags h !! obj1 = Some b1 → bags h !! obj2 = Some b2 →
  (public_or_owned (DS_BAG b1) ∧ public_or_owned (DS_BAG b2) →
     FuncFORCE_SWITCH_OBJ obj1 obj2 h
     = Ret (mkReply None 0 (put_bag (put_bag h obj2 b1) obj1 b2)))
  ∧ (¬ public_or_owned (DS_BAG b1) →
     FuncFORCE_SWITCH_OBJ obj1 obj2 h
     = ErrorQuit "FORCE_SWITCH_OBJ: Cannot write to first object's region.")
  ∧ (public_or_owned (DS_BAG b1) → ¬ public_or_owned (DS_BAG b2) →
     FuncFORCE_SWITCH_OBJ obj1 obj2 h
     = ErrorQuit "FORCE_SWITCH_OBJ: Cannot write to second object's region.").
Proof.
  unfold is_immediate. intros [I1 F1]%orb_false_iff [I2 F2]%orb_false_iff E1 E2.
  unfold FuncFORCE_SWITCH_OBJ. rewrite I1, I2, F1, F2; simpl.
  rewrite (get_bag_Some _ _ _ E1), (get_bag_Some _ _ _ E2), !bind_Ret_l.
  split; [|split].
  - intros [O1%owned_by_other_false O2%owned_by_other_false]. rewrite O1, O2.
    by rewrite exchange_swaps.
  - intros N1. destruct (owned_by_other (DS_BAG b1)) eqn:O1; [done|].
    by apply owned_by_other_false in O1.
  - intros O1%owned_by_other_false N2. rewrite O1.
    destruct (owned_by_other (DS_BAG b2)) eqn:O2; [done|].
    by apply owned_by_other_false in O2.
Qed.

(** C6, as the code has it.  [CLONE_OBJ] checks its source only: if [src]
    is a small integer or a finite field element it raises the recoverable
    error and returns without touching the heap or the thread state,
    whatever [dst] is.  [SWITCH_OBJ] does so if either argument is an
    immediate value. *)
Theorem immediate_arguments_recoverable
    (fuel : nat) (dst src : Obj) (tl : ThreadLocal) (obj1 obj2 : Obj) (h : Heap) :
  is_immediate src = true →
  is_immediate obj1 || is_immediate obj2 = true →
  FuncCLONE_OBJ fuel dst src tl h
  = Ret (mkReply (Some (if IS_INTOBJ src then "small integers cannot be cloned"
                        else "finite field elements cannot be cloned")) 0 h, tl)
  ∧ FuncSWITCH_OBJ obj1 obj2 h
  = Ret (mkReply (Some (if IS_INTOBJ obj1 || IS_INTOBJ obj2
                        then "small integer objects cannot be switched"
                        else "finite field elements cannot be switched")) 0 h).
Proof.
  unfold is_immediate. intros Hs Ho. split.
  - unfold FuncCLONE_OBJ. destruct (IS_INTOBJ src); [done|].
    simpl in Hs. by rewrite Hs.
  - unfold FuncSWITCH_OBJ. destruct (IS_INTOBJ obj1 || IS_INTOBJ obj2) eqn:E; [done|].
    apply orb_false_iff in E as [E1 E2]. rewrite E1, E2 in Ho. simpl in Ho.
    by rewrite Ho.
Qed.

End HandlerProps.

Section HandlerExamples.
Import Example.

Lemma SWITCH_OBJ_needs_both_owned_witness :
  FuncSWITCH_OBJ 4 8 heap
  = Ret (mkReply None 0 (put_bag (put_bag heap 8 (bag 77 40 1 [1000; 8; 8; 4; 5]))
                                 4 (bag 76 32 1 [1000; 1; 77; 4]))).
Proof.
  apply (SWITCH_OBJ_needs_both_owned 4 8 heap); try reflexivity.
  split; split; simpl; (lia || reflexivity).
Defined.

(** C4 as stated fails: the region of [4] is a region of the calling
    thread, the region of [16] is not, and [SWITCH_OBJ] refuses. *)
Lemma SWITCH_OBJ_one_owner_refused :
  is_immediate 4 = false ∧ is_immediate 16 = false
  ∧ bags heap !! 4 = Some (bag 77 40 1 [1000; 8; 8; 4; 5])
  ∧ bags heap !! 16 = Some (bag 77 16 2 [1004; 12])
  ∧ owned_by_caller 1
  ∧ FuncSWITCH_OBJ 4 16 heap
    = ErrorQuit "SWITCH_OBJ: Cannot write to second object's region.".
Proof. repeat split; done. Qed.

Lemma FORCE_SWITCH_OBJ_public_or_owned_witness :
  FuncFORCE_SWITCH_OBJ 4 20 heap
  = Ret (mkReply None 0 (put_bag (put_bag heap 20 (bag 77 40 1 [1000; 8; 8; 4; 5]))
                                 4 (bag 22 16 0 [1; 9]))).
Proof.
  apply (FORCE_SWITCH_OBJ_public_or_owned 4 20 heap); try reflexivity.
  split; [right|left]; reflexivity.
Defined.

(** C5 as stated fails: the region of [16] belongs to another thread, and
    [FORCE_SWITCH_OBJ] raises the region error. *)
Lemma FORCE_SWITCH_OBJ_foreign_region_refused :
  is_immediate 4 = false ∧ is_immediate 16 = false
  ∧ bags heap !! 4 = Some (bag 77 40 1 [1000; 8; 8; 4; 5])
  ∧ bags heap !! 16 = Some (bag 77 16 2 [1004; 12])
  ∧ FuncFORCE_SWITCH_OBJ 4 16 heap
    = ErrorQuit "FORCE_SWITCH_OBJ: Cannot write to second object's region.".
Proof. repeat split; done. Qed.

Lemma immediate_arguments_recoverable_witness :
  FuncCLONE_OBJ 0 4 5 (mkThreadLocal 0) heap
  = Ret (mkReply (Some "small integers cannot be cloned") 0 heap, mkThreadLocal 0)
  ∧ FuncSWITCH_OBJ 4 6 heap
  = Ret (mkReply (Some "finite field elements cannot be switched") 0 heap).
Proof.
  apply (immediate_arguments_recoverable 0 4 5 (mkThreadLocal 0) 4 6 heap); reflexivity.
Defined.

(** C6 as stated fails for [CLONE_OBJ]: with the small integer [5] as
    destination and the immutable bag [16] as source no recoverable error is
    raised; the handler goes on to resize the destination. *)
Lemma CLONE_OBJ_immediate_dst_unchecked :
  is_immediate 5 = true ∧ is_immediate 16 = false
  ∧ IS_MUTABLE_OBJ heap 16 = Ret false
  ∧ FuncCLONE_OBJ 1 5 16 (mkThreadLocal 0) heap = Undef.
Proof. repeat split; done. Qed.

End HandlerExamples.

(** ** Reading and writing bags *)

Lemma bags_put_bag (h : Heap) (o o' : Obj) (b : Bag) :
  bags (put_bag h o b) !! o' = if decide (o = o') then Some b else bags h !! o'.
Proof. unfold put_bag; simpl. apply lookup_insert. Qed.

Lemma bags_put_bag_eq (h : Heap) (o : Obj) (b : Bag) : bags (put_bag h o b) !! o = Some b.
Proof. rewrite bags_put_bag. by rewrite decide_True. Qed.

Lemma bags_put_bag_ne (h : Heap) (o o' : Obj) (b : Bag) :
  o ≠ o' → bags (put_bag h o b) !! o' = bags h !! o'.
Proof. intros. rewrite bags_put_bag. by rewrite decide_False. Qed.

Lemma ADDR_OBJ_get_lookup (h : Heap) (o : Obj) (b : Bag) (i : nat) (v : Z) :
  bags h !! o = Some b → data (PTR_BAG b) !! i = Some v → ADDR_OBJ_get h o i = Ret v.
Proof.
  intros E Ev. unfold ADDR_OBJ_get. rewrite (get_bag_Some _ _ _ E), bind_Ret_l.
  by rewrite Ev.
Qed.

Lemma ADDR_OBJ_get_total (h : Heap) (o : Obj) (b : Bag) (i : nat) :
  bags h !! o = Some b → (i < length (data (PTR_BAG b)))%nat →
  ADDR_OBJ_get h o i = Ret (data (PTR_BAG b) !!! i).
Proof.
  intros E Hi. eapply ADDR_OBJ_get_lookup; [done|].
  by apply list_lookup_lookup_total_lt.
Qed.

Lemma ADDR_OBJ_set_lookup (h : Heap) (o : Obj) (b : Bag) (i : nat) (v : Z) :
  bags h !! o = Some b → (i < length (data (PTR_BAG b)))%nat →
  ADDR_OBJ_set h o i v = Ret (put_bag h o (set_word b i v)).
Proof.
  intros E Hi. unfold ADDR_OBJ_set. rewrite (get_bag_Some _ _ _ E), bind_Ret_l.
  by rewrite decide_True.
Qed.

Lemma SIZE_OBJ_lookup (h : Heap) (o : Obj) (b : Bag) :
  bags h !! o = Some b → SIZE_OBJ h o = Ret (size (PTR_BAG b)).
Proof. intros E. unfold SIZE_OBJ. by rewrite (get_bag_Some _ _ _ E). Qed.

Lemma same_shape_refl (b : Bag) : same_shape b b.
Proof. by repeat split. Qed.

Lemma same_shape_trans (b1 b2 b3 : Bag) :
  same_shape b1 b2 → same_shape b2 b3 → same_shape b1 b3.
Proof. unfold same_shape. intros (?&?&?&?) (?&?&?&?). repeat split; congruence. Qed.

Lemma same_shape_set_word (b : Bag) (i : nat) (v : Z) : same_shape b (set_word b i v).
Proof. unfold same_shape, set_word; simpl. by rewrite length_insert. Qed.

Lemma set_word_lookup (b : Bag) (i j : nat) (v : Z) :
  (i < length (data (PTR_BAG b)))%nat →
  data (PTR_BAG (set_word b i v)) !! j
  = if decide (i = j) then Some v else data (PTR_BAG b) !! j.
Proof.
  intros Hi. unfold set_word; simpl. destruct (decide (i = j)) as [->|Hne].
  - by apply list_lookup_insert_eq.
  - by apply list_lookup_insert_ne.
Qed.

(** ** C9: what is saved is what is loaded *)

Section SaveLoadProps.
Context `{Framer} `{!FramerOK}.

Lemma SavePosObj_loop_spec (h : Heap) (x : Obj) (bx : Bag) (idx : list nat) (out : list Z) :
  bags h !! x = Some bx →
  (∀ i, i ∈ idx → (i < length (data (PTR_BAG bx)))%nat) →
  SavePosObj_loop h x idx out
  = Ret (out ++ map (λ i, SubObjCode (data (PTR_BAG bx) !!! i)) idx).
Proof.
  intros E. revert out. induction idx as [|i idx IH]; intros out Hidx; simpl.
  - by rewrite app_nil_r.
  - rewrite (ADDR_OBJ_get_total _ _ _ _ E), bind_Ret_l by (apply Hidx; left).
    rewrite IH by (intros; apply Hidx; by right).
    unfold SaveSubObj. by rewrite <- app_assoc.
Qed.

Lemma SaveDatObj_loop_spec (h : Heap) (x : Obj) (bx : Bag) (idx : list nat) (out : list Z) :
  bags h !! x = Some bx →
  (∀ i, i ∈ idx → (i < length (data (PTR_BAG bx)))%nat) →
  SaveDatObj_loop h x idx out = Ret (out ++ map (λ i, data (PTR_BAG bx) !!! i) idx).
Proof.
  intros E. revert out. induction idx as [|i idx IH]; intros out Hidx; simpl.
  - by rewrite app_nil_r.
  - rewrite (ADDR_OBJ_get_total _ _ _ _ E), bind_Ret_l by (apply Hidx; left).
    rewrite IH by (intros; apply Hidx; by right).
    unfold SaveUInt. by rewrite <- app_assoc.
Qed.

Lemma SaveComObj_loop_spec (h : Heap) (x : Obj) (bx : Bag) (idx : list nat) (out : list Z) :
  bags h !! x = Some bx →
  (∀ i, i ∈ idx → (2 * i + 1 < length (data (PTR_BAG bx)))%nat) →
  SaveComObj_loop h x idx out
  = Ret (out ++ flat_map (λ i, [data (PTR_BAG bx) !!! (2 * i)%nat;
                               SubObjCode (data (PTR_BAG bx) !!! (2 * i + 1)%nat)]) idx).
Proof.
  intros E. revert out. induction idx as [|i idx IH]; intros out Hidx.
  - simpl. by rewrite app_nil_r.
  - assert (2 * i + 1 < length (data (PTR_BAG bx)))%nat as Hi by (apply Hidx; left).
    cbn [SaveComObj_loop flat_map]. unfold GET_RNAM_PREC, GET_ELM_PREC.
    rewrite (ADDR_OBJ_get_total _ _ _ (2 * i) E), bind_Ret_l by lia.
    rewrite (ADDR_OBJ_get_total _ _ _ (2 * i + 1) E), bind_Ret_l by lia.
    rewrite IH by (intros; apply Hidx; by right).
    unfold SaveSubObj, SaveUInt. by rewrite <- !app_assoc.
Qed.

(** The load loops write, slot for slot, the words of the saved bag. *)
Lemma LoadPosObj_loop_spec (d : Obj) (ws : list Z) (idx : list nat) :
  ∀ (rest : list Z) (hd : Heap) (bd : Bag),
  bags hd !! d = Some bd → NoDup idx →
  (∀ i, i ∈ idx → (i < length (data (PTR_BAG bd)))%nat ∧ (i < length ws)%nat) →
  ∃ bd', LoadPosObj_loop d idx (map (λ i, SubObjCode (ws !!! i)) idx ++ rest) hd
         = Ret (rest, put_bag hd d bd')
       ∧ same_shape bd bd'
       ∧ (∀ i, i ∈ idx → data (PTR_BAG bd') !! i = ws !! i)
       ∧ (∀ j, j ∉ idx → data (PTR_BAG bd') !! j = data (PTR_BAG bd) !! j).
Proof.
  induction idx as [|i idx IH]; intros rest hd bd E ND Hidx.
  - exists bd. simpl. split; [|split; [apply same_shape_refl|split; [|done]]].
    + f_equal. f_equal. unfold put_bag. destruct hd as [m k]; simpl in *.
      by rewrite insert_id.
    + intros i Hi. by apply elem_of_nil in Hi.
  - apply NoDup_cons in ND as [Hni ND].
    destruct (Hidx i) as [Hi1 Hi2]; [left|].
    cbn [map app LoadPosObj_loop LoadSubObj]. rewrite bind_Ret_l. cbn beta iota.
    rewrite decode_code.
    rewrite (ADDR_OBJ_set_lookup _ _ _ _ _ E Hi1), bind_Ret_l.
    destruct (IH rest (put_bag hd d (set_word bd i (ws !!! i))) (set_word bd i (ws !!! i)))
      as (bd' & EL & Sh & Hin & Hout).
    { apply bags_put_bag_eq. }
    { done. }
    { intros j Hj. destruct (Hidx j) as [? ?]; [by right|].
      split; [|done]. unfold set_word; simpl. by rewrite length_insert. }
    exists bd'. rewrite put_bag_put_bag in EL. split; [exact EL|].
    split; [eapply same_shape_trans; [apply same_shape_set_word|done]|].
    split.
    + intros j [->|Hj]%elem_of_cons; [|by apply Hin].
      rewrite Hout by done. rewrite set_word_lookup, decide_True by done.
      symmetry. by apply list_lookup_lookup_total_lt.
    + intros j Hj. apply not_elem_of_cons in Hj as [Hne Hj].
      rewrite Hout by done. rewrite set_word_lookup by done.
      by rewrite decide_False.
Qed.

Lemma LoadDatObj_loop_spec (d : Obj) (ws : list Z) (idx : list nat) :
  ∀ (rest : list Z) (hd : Heap) (bd : Bag),
  bags hd !! d = Some bd → NoDup idx →
  (∀ i, i ∈ idx → (i < length (data (PTR_BAG bd)))%nat ∧ (i < length ws)%nat) →
  ∃ bd', LoadDatObj_loop d idx (map (λ i, ws !!! i) idx ++ rest) hd
         = Ret (rest, put_bag hd d bd')
       ∧ same_shape bd bd'
       ∧ (∀ i, i ∈ idx → data (PTR_BAG bd') !! i = ws !! i)
       ∧ (∀ j, j ∉ idx → data (PTR_BAG bd') !! j = data (PTR_BAG bd) !! j).
Proof.
  induction idx as [|i idx IH]; intros rest hd bd E ND Hidx.
  - exists bd. simpl. split; [|split; [apply same_shape_refl|split; [|done]]].
    + f_equal. f_equal. unfold put_bag. destruct hd as [m k]; simpl in *.
      by rewrite insert_id.
    + intros i Hi. by apply elem_of_nil in Hi.
  - apply NoDup_cons in ND as [Hni ND].
    destruct (Hidx i) as [Hi1 Hi2]; [left|].
    cbn [map app LoadDatObj_loop LoadUInt]. rewrite bind_Ret_l. cbn beta iota.
    rewrite (ADDR_OBJ_set_lookup _ _ _ _ _ E Hi1), bind_Ret_l.
    destruct (IH rest (put_bag hd d (set_word bd i (ws !!! i))) (set_word bd i (ws !!! i)))
      as (bd' & EL & Sh & Hin & Hout).
    { apply bags_put_bag_eq. }
    { done. }
    { intros j Hj. destruct (Hidx j) as [? ?]; [by right|].
      split; [|done]. unfold set_word; simpl. by rewrite length_insert. }
    exists bd'. rewrite put_bag_put_bag in EL. split; [exact EL|].
    split; [eapply same_shape_trans; [apply same_shape_set_word|done]|].
    split.
    + intros j [->|Hj]%elem_of_cons; [|by apply Hin].
      rewrite Hout by done. rewrite set_word_lookup, decide_True by done.
      symmetry. by apply list_lookup_lookup_total_lt.
    + intros j Hj. apply not_elem_of_cons in Hj as [Hne Hj].
      rewrite Hout by done. rewrite set_word_lookup by done.
      by rewrite decide_False.
Qed.

Lemma LoadComObj_loop_spec (d : Obj) (ws : list Z) (idx : list nat) :
  ∀ (rest : list Z) (hd : Heap) (bd : Bag),
  bags hd !! d = Some bd → NoDup idx →
  (∀ i, i ∈ idx → (2 * i + 1 < length (data (PTR_BAG bd)))%nat
                   ∧ (2 * i + 1 < length ws)%nat) →
  ∃ bd', LoadComObj_loop d idx
           (flat_map (λ i, [ws !!! (2 * i)%nat; SubObjCode (ws !!! (2 * i + 1)%nat)]) idx
            ++ rest) hd
         = Ret (rest, put_bag hd d bd')
       ∧ same_shape bd bd'
       ∧ (∀ i, i ∈ idx → data (PTR_BAG bd') !! (2 * i)%nat = ws !! (2 * i)%nat
                         ∧ data (PTR_BAG bd') !! (2 * i + 1)%nat = ws !! (2 * i + 1)%nat)
       ∧ (∀ j, (∀ i, i ∈ idx → j ≠ (2 * i)%nat ∧ j ≠ (2 * i + 1)%nat) →
               data (PTR_BAG bd') !! j = data (PTR_BAG bd) !! j).
Proof.
  induction idx as [|i idx IH]; intros rest hd bd E ND Hidx.
  - exists bd. simpl. split; [|split; [apply same_shape_refl|split; [|done]]].
    + f_equal. f_equal. unfold put_bag. destruct hd as [m k]; simpl in *.
      by rewrite insert_id.
    + intros i Hi. by apply elem_of_nil in Hi.
  - apply NoDup_cons in ND as [Hni ND].
    destruct (Hidx i) as [Hi1 Hi2]; [left|].
    cbn [flat_map app LoadComObj_loop LoadUInt LoadSubObj].
    rewrite bind_Ret_l. cbn beta iota.
    unfold SET_RNAM_PREC, SET_ELM_PREC.
    rewrite (ADDR_OBJ_set_lookup _ _ _ _ _ E), bind_Ret_l by lia.
    cbn [app LoadSubObj]. rewrite bind_Ret_l. cbn beta iota. rewrite decode_code.
    set (b1 := set_word bd (2 * i) (ws !!! (2 * i)%nat)).
    assert (same_shape bd b1) as Sh1 by apply same_shape_set_word.
    rewrite (ADDR_OBJ_set_lookup _ _ b1), bind_Ret_l;
      [|apply bags_put_bag_eq|destruct Sh1 as (_&_&_&->); lia].
    rewrite put_bag_put_bag.
    set (b2 := set_word b1 (2 * i + 1) (ws !!! (2 * i + 1)%nat)).
    assert (same_shape b1 b2) as Sh2 by apply same_shape_set_word.
    assert (same_shape bd b2) as Sh12 by (by eapply same_shape_trans).
    destruct (IH rest (put_bag hd d b2) b2) as (bd' & EL & Sh & Hin & Hout).
    { apply bags_put_bag_eq. }
    { done. }
    { intros j Hj. destruct (Hidx j) as [? ?]; [by right|].
      split; [|done]. destruct Sh12 as (_&_&_&->). lia. }
    exists bd'. rewrite put_bag_put_bag in EL. split; [exact EL|].
    split; [by eapply same_shape_trans|].
    assert (∀ j, data (PTR_BAG b2) !! j
                 = if decide ((2 * i + 1)%nat = j) then Some (ws !!! (2 * i + 1)%nat)
                   else if decide ((2 * i)%nat = j) then Some (ws !!! (2 * i)%nat)
                   else data (PTR_BAG bd) !! j) as Hb2.
    { intros j. unfold b2. rewrite set_word_lookup
        by (destruct Sh1 as (_&_&_&->); lia).
      destruct (decide ((2 * i + 1)%nat = j)); [done|].
      unfold b1. rewrite set_word_lookup by lia. done. }
    split.
    + intros j [->|Hj]%elem_of_cons; [|by apply Hin].
      rewrite !Hout, !Hb2.
      * rewrite decide_False, decide_True by lia. rewrite decide_True by lia.
        split; symmetry; apply list_lookup_lookup_total_lt; lia.
      * intros i' Hi'. assert (i' ≠ i) by (intros ->; done). lia.
      * intros i' Hi'. assert (i' ≠ i) by (intros ->; done). lia.
    + intros j Hj. rewrite Hout, Hb2.
      * destruct (Hj i) as [? ?]; [left|]. by rewrite !decide_False by lia.
      * intros i' Hi'. apply Hj. by right.
Qed.

Lemma saveable_sizes (k : structural_kind) (b : Bag) :
  saveable k b →
  let sz := size (PTR_BAG b) in
  wrap64 (sz / sizeof_Obj - 1) = sz / sizeof_Obj - 1
  ∧ wrap64 (wrap64 (sz + sizeof_Obj - 1) / sizeof_Obj - 1) = (sz + sizeof_Obj - 1) / sizeof_Obj - 1
  ∧ Z.to_nat (sz / sizeof_Obj - 1) = (Z.to_nat (sz / sizeof_Obj) - 1)%nat
  ∧ Z.to_nat ((sz + sizeof_Obj - 1) / sizeof_Obj - 1) = (nwords sz - 1)%nat
  ∧ (1 ≤ Z.to_nat (sz / sizeof_Obj) ≤ nwords sz)%nat
  ∧ nwords sz = length (data (PTR_BAG b)).
Proof.
  intros (Hws & Hsz & _). simpl. unfold well_sized in Hws. rewrite Hws.
  unfold nwords, wrap64, sizeof_Obj in *.
  set (sz := size (PTR_BAG b)) in *.
  assert (1 ≤ sz / 8 ≤ (sz + 8 - 1) / 8) as Hq.
  { split; [apply Z.div_le_lower_bound; lia|apply Z.div_le_mono; lia]. }
  assert ((sz + 8 - 1) / 8 < 2 ^ 64) as Hq2.
  { apply Z.div_lt_upper_bound; lia. }
  rewrite (Z.mod_small (sz + 8 - 1)) by lia.
  rewrite !Z.mod_small by lia.
  repeat split; lia.
Qed.

Lemma SavePosObj_spec (h : Heap) (x : Obj) (bx : Bag) :
  bags h !! x = Some bx → saveable KPosObj bx →
  SavePosObj h x []
  = Ret (expected_stream KPosObj (size (PTR_BAG bx)) (data (PTR_BAG bx))).
Proof.
  intros E Hs. destruct (saveable_sizes _ _ Hs) as (W1 & _ & N1 & _ & Hn & Hl).
  unfold SavePosObj, TYPE_POSOBJ.
  rewrite (ADDR_OBJ_get_total _ _ _ _ E), bind_Ret_l by lia.
  rewrite (SIZE_OBJ_lookup _ _ _ E), bind_Ret_l. cbn zeta.
  rewrite W1, N1.
  rewrite (SavePosObj_loop_spec _ _ _ _ _ E); [done|].
  intros i Hi%elem_of_seq. lia.
Qed.

Lemma LoadPosObj_spec (d : Obj) (hd : Heap) (bd bx : Bag) :
  saveable KPosObj bx →
  bags hd !! d = Some bd → well_sized bd →
  tnum (PTR_BAG bd) = tnum (PTR_BAG bx) → size (PTR_BAG bd) = size (PTR_BAG bx) →
  ∃ bd', LoadPosObj d (expected_stream KPosObj (size (PTR_BAG bx)) (data (PTR_BAG bx))) hd
         = Ret ([], put_bag hd d bd')
       ∧ same_shape bd bd'
       ∧ restored_from (Z.to_nat (size (PTR_BAG bx) / sizeof_Obj)) bx bd'.
Proof.
  intros Hs E Hwd Ht Hz.
  destruct (saveable_sizes _ _ Hs) as (W1 & _ & N1 & _ & Hn & Hl).
  assert (length (data (PTR_BAG bd)) = length (data (PTR_BAG bx))) as Hlen.
  { rewrite <- Hl. unfold well_sized in Hwd. by rewrite Hwd, Hz. }
  unfold LoadPosObj, expected_stream. cbn [LoadSubObj]. rewrite bind_Ret_l. cbn beta iota.
  rewrite decode_code.
  set (ws := data (PTR_BAG bx)) in *.
  rewrite (ADDR_OBJ_set_lookup _ _ _ _ _ E), bind_Ret_l by lia.
  set (b0 := set_word bd 0 (ws !!! 0%nat)).
  assert (same_shape bd b0) as Sh0 by apply same_shape_set_word.
  rewrite (SIZE_OBJ_lookup _ _ b0), bind_Ret_l by apply bags_put_bag_eq. cbn zeta.
  destruct Sh0 as (T0 & S0 & D0 & L0). rewrite S0, Hz, W1, N1.
  destruct (LoadPosObj_loop_spec d ws (seq 1 (Z.to_nat (size (PTR_BAG bx) / sizeof_Obj) - 1))
              [] (put_bag hd d b0) b0) as (bd' & EL & Sh & Hin & Hout).
  { apply bags_put_bag_eq. }
  { apply NoDup_seq. }
  { intros i Hi%elem_of_seq. lia. }
  rewrite app_nil_r in EL. rewrite put_bag_put_bag in EL.
  exists bd'. split; [exact EL|].
  destruct Sh as (T1 & S1 & D1 & L1).
  split; [repeat split; congruence|].
  split; [congruence|]. split; [congruence|].
  intros i Hi. destruct (decide (i = 0%nat)) as [->|Hne].
  - rewrite Hout by (intros Hx%elem_of_seq; lia).
    unfold b0. rewrite set_word_lookup, decide_True by (done || lia).
    symmetry. apply list_lookup_lookup_total_lt. lia.
  - apply Hin. apply elem_of_seq. lia.
Qed.

Lemma SaveDatObj_spec (h : Heap) (x : Obj) (bx : Bag) :
  bags h !! x = Some bx → saveable KDatObj bx →
  SaveDatObj h x []
  = Ret (expected_stream KDatObj (size (PTR_BAG bx)) (data (PTR_BAG bx))).
Proof.
  intros E Hs. destruct (saveable_sizes _ _ Hs) as (_ & W2 & _ & N2 & Hn & Hl).
  unfold SaveDatObj, TYPE_DATOBJ.
  rewrite (ADDR_OBJ_get_total _ _ _ _ E), bind_Ret_l by lia.
  rewrite (SIZE_OBJ_lookup _ _ _ E), bind_Ret_l. cbn zeta.
  rewrite W2, N2.
  rewrite (SaveDatObj_loop_spec _ _ _ _ _ E); [done|].
  intros i Hi%elem_of_seq. lia.
Qed.

Lemma LoadDatObj_spec (d : Obj) (hd : Heap) (bd bx : Bag) :
  saveable KDatObj bx →
  bags hd !! d = Some bd → well_sized bd →
  tnum (PTR_BAG bd) = tnum (PTR_BAG bx) → size (PTR_BAG bd) = size (PTR_BAG bx) →
  ∃ bd', LoadDatObj d (expected_stream KDatObj (size (PTR_BAG bx)) (data (PTR_BAG bx))) hd
         = Ret ([], put_bag hd d bd')
       ∧ same_shape bd bd'
       ∧ restored_from (nwords (size (PTR_BAG bx))) bx bd'.
Proof.
  intros Hs E Hwd Ht Hz.
  destruct (saveable_sizes _ _ Hs) as (_ & W2 & _ & N2 & Hn & Hl).
  assert (length (data (PTR_BAG bd)) = length (data (PTR_BAG bx))) as Hlen.
  { rewrite <- Hl. unfold well_sized in Hwd. by rewrite Hwd, Hz. }
  unfold LoadDatObj, expected_stream. cbn [LoadSubObj]. rewrite bind_Ret_l. cbn beta iota.
  rewrite decode_code.
  set (ws := data (PTR_BAG bx)) in *.
  rewrite (ADDR_OBJ_set_lookup _ _ _ _ _ E), bind_Ret_l by lia.
  set (b0 := set_word bd 0 (ws !!! 0%nat)).
  assert (same_shape bd b0) as Sh0 by apply same_shape_set_word.
  rewrite (SIZE_OBJ_lookup _ _ b0), bind_Ret_l by apply bags_put_bag_eq. cbn zeta.
  destruct Sh0 as (T0 & S0 & D0 & L0). rewrite S0, Hz, W2, N2.
  destruct (LoadDatObj_loop_spec d ws (seq 1 (nwords (size (PTR_BAG bx)) - 1))
              [] (put_bag hd d b0) b0) as (bd' & EL & Sh & Hin & Hout).
  { apply bags_put_bag_eq. }
  { apply NoDup_seq. }
  { intros i Hi%elem_of_seq. lia. }
  rewrite app_nil_r in EL. rewrite put_bag_put_bag in EL.
  exists bd'. split; [exact EL|].
  destruct Sh as (T1 & S1 & D1 & L1).
  split; [repeat split; congruence|].
  split; [congruence|]. split; [congruence|].
  intros i Hi. destruct (decide (i = 0%nat)) as [->|Hne].
  - rewrite Hout by (intros Hx%elem_of_seq; lia).
    unfold b0. rewrite set_word_lookup, decide_True by (done || lia).
    symmetry. apply list_lookup_lookup_total_lt. lia.
  - apply Hin. apply elem_of_seq. lia.
Qed.

Lemma SaveComObj_spec (h : Heap) (x : Obj) (bx : Bag) :
  bags h !! x = Some bx → saveable KComObj bx →
  SaveComObj h x []
  = Ret (expected_stream KComObj (size (PTR_BAG bx)) (data (PTR_BAG bx))).
Proof.
  intros E Hs. destruct Hs as (_ & _ & Hlen0 & Hlen).
  unfold SaveComObj, TYPE_COMOBJ, LEN_PREC.
  rewrite (ADDR_OBJ_get_total _ _ _ 0 E), bind_Ret_l by lia. cbn zeta.
  rewrite (ADDR_OBJ_get_total _ _ _ 1 E), bind_Ret_l by lia. cbn zeta.
  rewrite (SaveComObj_loop_spec _ _ _ _ _ E); [done|].
  intros i Hi%elem_of_seq. lia.
Qed.

Lemma LoadComObj_spec (d : Obj) (hd : Heap) (bd bx : Bag) :
  saveable KComObj bx →
  bags hd !! d = Some bd → well_sized bd →
  tnum (PTR_BAG bd) = tnum (PTR_BAG bx) → size (PTR_BAG bd) = size (PTR_BAG bx) →
  ∃ bd', LoadComObj d (expected_stream KComObj (size (PTR_BAG bx)) (data (PTR_BAG bx))) hd
         = Ret ([], put_bag hd d bd')
       ∧ same_shape bd bd'
       ∧ restored_from (2 * Z.to_nat (data (PTR_BAG bx) !!! 1%nat) + 2) bx bd'.
Proof.
  intros Hs E Hwd Ht Hz.
  destruct (saveable_sizes _ _ Hs) as (_ & _ & _ & _ & _ & Hl).
  destruct Hs as (_ & _ & Hlen0 & Hlen).
  assert (length (data (PTR_BAG bd)) = length (data (PTR_BAG bx))) as Hlenb.
  { rewrite <- Hl. unfold well_sized in Hwd. by rewrite Hwd, Hz. }
  unfold LoadComObj, expected_stream. cbn [LoadSubObj]. rewrite bind_Ret_l. cbn beta iota.
  rewrite decode_code.
  set (ws := data (PTR_BAG bx)) in *.
  rewrite (ADDR_OBJ_set_lookup _ _ _ _ _ E), bind_Ret_l by lia.
  set (b0 := set_word bd 0 (ws !!! 0%nat)).
  assert (same_shape bd b0) as Sh0 by apply same_shape_set_word.
  cbn [LoadUInt]. rewrite bind_Ret_l. cbn beta iota. unfold SET_LEN_PREC.
  rewrite (ADDR_OBJ_set_lookup _ _ b0), bind_Ret_l;
    [|apply bags_put_bag_eq|destruct Sh0 as (_&_&_&->); lia].
  rewrite put_bag_put_bag.
  set (b1 := set_word b0 1 (ws !!! 1%nat)).
  assert (same_shape b0 b1) as Sh1 by apply same_shape_set_word.
  assert (same_shape bd b1) as Sh01 by (by eapply same_shape_trans).
  destruct (LoadComObj_loop_spec d ws (seq 1 (Z.to_nat (ws !!! 1%nat)))
              [] (put_bag hd d b1) b1) as (bd' & EL & Sh & Hin & Hout).
  { apply bags_put_bag_eq. }
  { apply NoDup_seq. }
  { intros i Hi%elem_of_seq. destruct Sh01 as (_&_&_&->). lia. }
  rewrite app_nil_r in EL. rewrite put_bag_put_bag in EL.
  exists bd'. split; [exact EL|].
  assert (same_shape bd bd') as Shall by (by eapply same_shape_trans).
  split; [done|].
  destruct Shall as (T1 & S1 & D1 & L1).
  split; [congruence|]. split; [congruence|].
  intros j Hj.
  destruct (decide (j < 2)%nat) as [Hlt|Hge].
  - rewrite Hout by (intros i Hi%elem_of_seq; lia).
    unfold b1. rewrite set_word_lookup by (destruct Sh0 as (_&_&_&->); lia).
    destruct (decide (1%nat = j)) as [<-|Hne].
    + symmetry. apply list_lookup_lookup_total_lt. lia.
    + unfold b0. rewrite set_word_lookup, decide_True by lia.
      assert (j = 0%nat) as -> by lia.
      symmetry. apply list_lookup_lookup_total_lt. lia.
  - pose proof (Nat.div_mod_eq j 2) as Hdm.
    pose proof (Nat.mod_upper_bound j 2) as Hm.
    destruct (Hin (j / 2)%nat) as [He Ho].
    { apply elem_of_seq. lia. }
    remember (j / 2)%nat as q eqn:Hq.
    destruct (decide (j `mod` 2 = 0)%nat) as [Hev|Hod].
    + assert (j = (2 * q)%nat) as Hj2 by lia. rewrite Hj2. exact He.
    + assert (j = (2 * q + 1)%nat) as Hj2 by lia. rewrite Hj2. exact Ho.
Qed.

(** C9.  For each of the three structural kinds: the save body writes the
    kind, then (component object) the number of components and every name
    and value, (positional object) every slot, (data object) every further
    word; the load body, run on that stream and on a cell [d] with the tag
    and the size of the saved bag, reads the stream to its end and leaves in
    [d] a bag with the tag, the size and the saved words of the original,
    in the region [d] had. *)
Theorem save_load_round_trip
    (k : structural_kind) (h hd : Heap) (x d : Obj) (bx bd : Bag) :
  bags h !! x = Some bx → saveable k bx →
  bags hd !! d = Some bd → well_sized bd →
  tnum (PTR_BAG bd) = tnum (PTR_BAG bx) → size (PTR_BAG bd) = size (PTR_BAG bx) →
  let stream := expected_stream k (size (PTR_BAG bx)) (data (PTR_BAG bx)) in
  save_body k h x [] = Ret stream
  ∧ ∃ bd', load_body k d stream hd = Ret ([], put_bag hd d bd')
         ∧ same_shape bd bd'
         ∧ restored_from (saved_words k (size (PTR_BAG bx)) (data (PTR_BAG bx))) bx bd'.
Proof.
  intros Ex Hs Ed Hwd Ht Hz. destruct k; simpl.
  - split; [by apply SaveComObj_spec|by apply LoadComObj_spec].
  - split; [by apply SavePosObj_spec|by apply LoadPosObj_spec].
  - split; [by apply SaveDatObj_spec|by apply LoadDatObj_spec].
Qed.

End SaveLoadProps.

Section SaveLoadExamples.
Import Example.

#[local] Instance framer_ok : FramerOK.
Proof. intros o. simpl. lia. Qed.

(** The component object [8] of the example heap, saved and loaded into a
    cleared cell [24] of the same tag and size. *)
Lemma save_load_round_trip_witness :
  let hd := put_bag heap 24 (bag 76 32 1 [0; 0; 0; 0]) in
  save_body KComObj heap 8 [] = Ret [1001; 1; 77; 5]
  ∧ ∃ bd', load_body KComObj 24 [1001; 1; 77; 5] hd = Ret ([], put_bag hd 24 bd')
         ∧ same_shape (bag 76 32 1 [0; 0; 0; 0]) bd'
         ∧ restored_from 4 (bag 76 32 1 [1000; 1; 77; 4]) bd'.
Proof.
  refine (save_load_round_trip KComObj heap
            (put_bag heap 24 (bag 76 32 1 [0; 0; 0; 0])) 8 24
            (bag 76 32 1 [1000; 1; 77; 4]) (bag 76 32 1 [0; 0; 0; 0]) _ _ _ _ _ _).
  - reflexivity.
  - split; [reflexivity|]. split; [simpl; unfold sizeof_Obj; lia|].
    split; [simpl; lia|simpl; lia].
  - reflexivity.
  - reflexivity.
  - reflexivity.
  - reflexivity.
Defined.

End SaveLoadExamples.

(** ** C7, C8: the ancestor stack of the printer *)

Section PrintProps.
Context `{Tnums} `{Printers}.

Lemma IS_MARKED_loop_spec (obj : Obj) (thiss : list Obj) :
  ∀ n : nat, (n ≤ length thiss)%nat →
  IS_MARKED_loop obj thiss (Z.of_nat n) = Ret (bool_decide (obj ∈ take n thiss)).
Proof.
  induction thiss as [|x thiss IH]; intros n Hn.
  - simpl in Hn. assert (n = 0%nat) as -> by lia. reflexivity.
  - destruct n as [|n].
    + reflexivity.
    + cbn [IS_MARKED_loop take]. simpl in Hn.
      replace (Z.of_nat (S n) <=? 0) with false by (symmetry; apply Z.leb_gt; lia).
      destruct (decide (x = obj)) as [->|Hne].
      * rewrite bool_decide_eq_true_2; [done|left].
      * replace (Z.of_nat (S n) - 1) with (Z.of_nat n) by lia.
        rewrite IH by lia. f_equal. apply bool_decide_ext.
        rewrite elem_of_cons. split; [by right|]. by intros [->|?].
Qed.

Lemma IS_MARKED_spec (s : PrintState) (obj : Obj) :
  1 ≤ PrintObjDepth s ≤ MAXPRINTDEPTH + 1 →
  length (PrintObjThiss s) = Z.to_nat MAXPRINTDEPTH →
  IS_MARKED s obj
  = Ret (IS_MARKABLE obj
         && bool_decide (obj ∈ take (Z.to_nat (PrintObjDepth s - 1)) (PrintObjThiss s))).
Proof.
  intros Hd Hl. unfold IS_MARKED. destruct (IS_MARKABLE obj); [|done]. simpl.
  unfold wrap64. unfold MAXPRINTDEPTH in *. rewrite Z.mod_small by lia.
  rewrite <- (Z2Nat.id (PrintObjDepth s - 1)) at 1 by lia.
  apply IS_MARKED_loop_spec. lia.
Qed.

Lemma emit_all_emit (e : event) (es : list event) (s : PrintState) :
  emit_all es (emit e s) = emit_all (e :: es) s.
Proof. unfold emit_all, emit; simpl. by rewrite <- app_assoc. Qed.

Lemma emit_all_nil (s : PrintState) : emit_all [] s = s.
Proof. destruct s. unfold emit_all; simpl. by rewrite app_nil_r. Qed.

Lemma print_path_loop_spec (this : Obj) (thiss : list Obj) :
  ∀ (indices : list Z) (s : PrintState),
  length thiss = length indices → this ∈ thiss →
  print_path_loop this thiss indices s
  = Ret (emit_all (map selector (frames_before this (zip thiss indices))) s).
Proof.
  induction thiss as [|x thiss IH]; intros indices s Hl Hin.
  - by apply elem_of_nil in Hin.
  - destruct indices as [|k indices]; [done|]. simpl in Hl.
    cbn [print_path_loop zip zip_with frames_before fst].
    destruct (decide (this = x)) as [->|Hne].
    + simpl. by rewrite emit_all_nil.
    + apply elem_of_cons in Hin as [?|Hin]; [done|].
      rewrite IH by (done || lia). by rewrite emit_all_emit.
Qed.

Lemma frames_before_take (this : Obj) (thiss : list Obj) :
  ∀ (indices : list Z) (n : nat),
  this ∈ take n thiss →
  frames_before this (zip thiss indices)
  = frames_before this (zip (take n thiss) (take n indices)).
Proof.
  induction thiss as [|x thiss IH]; intros indices n Hin.
  - rewrite take_nil in Hin. by apply elem_of_nil in Hin.
  - destruct n as [|n]; [by apply elem_of_nil in Hin|].
    destruct indices as [|k indices]; [done|].
    cbn [take zip zip_with frames_before fst] in *.
    destruct (decide (this = x)); [done|].
    apply elem_of_cons in Hin as [?|Hin]; [done|].
    f_equal. by apply IH.
Qed.

Lemma stack_kept_refl (s : PrintState) : stack_kept s s.
Proof. by repeat split. Qed.

Lemma stack_kept_trans (s1 s2 s3 : PrintState) :
  stack_kept s1 s2 → stack_kept s2 s3 → stack_kept s1 s3.
Proof. unfold stack_kept. intros (?&?&?&?) (?&?&?&?). repeat split; congruence. Qed.

Lemma stack_kept_ok (s s' : PrintState) :
  print_state_ok s → stack_kept s s' → print_state_ok s'.
Proof.
  unfold print_state_ok, stack_kept. intros (?&?&?&?) (Hd&Hp&Ht&Hi).
  rewrite Hd, Hp, Ht, Hi. done.
Qed.

Lemma stack_kept_fuel (s s' : PrintState) : stack_kept s s' → print_fuel s' = print_fuel s.
Proof. unfold print_fuel. intros (->&->&_). done. Qed.

Lemma stack_kept_emit (e : event) (s : PrintState) : stack_kept s (emit e s).
Proof. by repeat split. Qed.

Lemma stack_kept_emit_all (es : list event) (s : PrintState) : stack_kept s (emit_all es s).
Proof. by repeat split. Qed.

(** The check for interrupts returns if the break loop, should it be
    entered, is left with [return;]; it changes the answers still to come
    and the output only. *)
Lemma check_interrupt_Ret (s : PrintState) :
  break_loops_return s → check_interrupt s = Ret (checked s).
Proof.
  unfold break_loops_return, check_interrupt, SyIsIntr, checked, interrupt_events.
  destruct s as [t i d ts ixs pv intr out]; simpl.
  destruct intr as [|[[d'|]|] rest]; simpl; intros Hb; try done.
  - by rewrite app_nil_r.
  - unfold emit, set_PrintObjDepth; simpl. by rewrite <- app_assoc.
  - by rewrite app_nil_r.
Qed.

Lemma check_interrupt_inv (s s1 : PrintState) :
  check_interrupt s = Ret s1 → s1 = checked s.
Proof.
  unfold check_interrupt, SyIsIntr, checked, interrupt_events.
  destruct s as [t i d ts ixs pv intr out]; simpl.
  destruct intr as [|[[d'|]|] rest]; simpl; intros E; try done; injection E as <-.
  - by rewrite app_nil_r.
  - unfold emit, set_PrintObjDepth; simpl. by rewrite <- app_assoc.
  - by rewrite app_nil_r.
Qed.

Lemma check_interrupt_spec (s : PrintState) :
  ∃ (rest : list (option break_loop)) (es : list event),
    checked s
    = mkPrintState (PrintObjThis s) (PrintObjIndex s) (PrintObjDepth s) (PrintObjThiss s)
                   (PrintObjIndices s) (LastPV s) rest (output s ++ es)
    ∧ es = interrupt_events s.
Proof. by eexists _, _. Qed.

Lemma frames_check_interrupt (s : PrintState) : frames (checked s) = frames s.
Proof. done. Qed.

Lemma stack_kept_check_interrupt (s : PrintState) : stack_kept s (checked s).
Proof. by repeat split. Qed.

Lemma break_loops_return_checked (s : PrintState) :
  break_loops_return s → break_loops_return (checked s).
Proof.
  unfold break_loops_return, checked. cbn [interrupts].
  destruct (interrupts s) as [|a rest]; [done|]. simpl.
  by intros [_ ?]%andb_true_iff.
Qed.

Lemma break_loops_return_ext (s s' : PrintState) :
  interrupts s' = interrupts s → break_loops_return s → break_loops_return s'.
Proof. unfold break_loops_return. by intros ->. Qed.

Lemma remember_super_spec (s : PrintState) :
  1 ≤ PrintObjDepth s ≤ MAXPRINTDEPTH →
  length (PrintObjThiss s) = Z.to_nat MAXPRINTDEPTH →
  length (PrintObjIndices s) = Z.to_nat MAXPRINTDEPTH →
  remember_super s = Ret (remembered s).
Proof.
  intros Hd Ht Hi. unfold remember_super. rewrite Ht, Hi.
  rewrite decide_True; [done|]. unfold MAXPRINTDEPTH in *. lia.
Qed.

(** After the superobject is remembered, the arrays hold the whole
    ancestor stack. *)
Lemma frames_remembered (s : PrintState) :
  1 ≤ PrintObjDepth s ≤ MAXPRINTDEPTH →
  length (PrintObjThiss s) = Z.to_nat MAXPRINTDEPTH →
  length (PrintObjIndices s) = Z.to_nat MAXPRINTDEPTH →
  let n := Z.to_nat (PrintObjDepth s) in
  take n (PrintObjThiss (remembered s)) = (frames s).*1
  ∧ zip (take n (PrintObjThiss (remembered s))) (take n (PrintObjIndices (remembered s)))
    = frames s.
Proof.
  intros Hd Ht Hi n. unfold frames, remembered. cbn [PrintObjThiss PrintObjIndices].
  replace (0 <? PrintObjDepth s) with true by (symmetry; apply Z.ltb_lt; lia).
  set (k := Z.to_nat (PrintObjDepth s - 1)).
  assert (n = S k) as -> by (unfold n, k; lia).
  assert (k < length (PrintObjThiss s))%nat by (rewrite Ht; unfold k, MAXPRINTDEPTH in *; lia).
  assert (k < length (PrintObjIndices s))%nat by (rewrite Hi; unfold k, MAXPRINTDEPTH in *; lia).
  rewrite (take_S_r _ _ (PrintObjThis s)) by (by apply list_lookup_insert_eq).
  rewrite (take_S_r _ _ (PrintObjIndex s)) by (by apply list_lookup_insert_eq).
  rewrite !take_insert_ge by lia.
  assert (length (take k (PrintObjThiss s)) = length (take k (PrintObjIndices s))) as Hlen.
  { rewrite !length_take. lia. }
  split.
  - rewrite fmap_app, fst_zip by lia. done.
  - rewrite zip_with_app by done. done.
Qed.

Lemma leave_obj_spec (s : PrintState) :
  1 ≤ PrintObjDepth s ≤ MAXPRINTDEPTH + 1 →
  length (PrintObjThiss s) = Z.to_nat MAXPRINTDEPTH →
  length (PrintObjIndices s) = Z.to_nat MAXPRINTDEPTH →
  ∃ s', leave_obj s = Ret s'
      ∧ PrintObjDepth s' = PrintObjDepth s - 1
      ∧ LastPV s' = LastPV s
      ∧ PrintObjThiss s' = PrintObjThiss s
      ∧ PrintObjIndices s' = PrintObjIndices s
      ∧ output s' = output s
      ∧ (1 < PrintObjDepth s →
         PrintObjThiss s !! Z.to_nat (PrintObjDepth s - 2) = Some (PrintObjThis s')
         ∧ PrintObjIndices s !! Z.to_nat (PrintObjDepth s - 2) = Some (PrintObjIndex s'))
      ∧ (PrintObjDepth s = 1 →
         PrintObjThis s' = PrintObjThis s ∧ PrintObjIndex s' = PrintObjIndex s).
Proof.
  intros Hd Ht Hi. unfold leave_obj. cbn [set_PrintObjDepth PrintObjDepth PrintObjThiss PrintObjIndices].
  destruct (0 <? PrintObjDepth s - 1) eqn:Hpos.
  - apply Z.ltb_lt in Hpos.
    replace (PrintObjDepth s - 1 - 1) with (PrintObjDepth s - 2) by lia.
    destruct (lookup_lt_is_Some_2 (PrintObjThiss s) (Z.to_nat (PrintObjDepth s - 2)))
      as [this Ethis]; [rewrite Ht; unfold MAXPRINTDEPTH in *; lia|].
    destruct (lookup_lt_is_Some_2 (PrintObjIndices s) (Z.to_nat (PrintObjDepth s - 2)))
      as [indx Eindx]; [rewrite Hi; unfold MAXPRINTDEPTH in *; lia|].
    rewrite Ethis, Eindx. rewrite IS_MARKED_spec; [|simpl; lia|done].
    rewrite bind_Ret_l. eexists. split; [reflexivity|]. simpl.
    repeat split; try done; lia.
  - apply Z.ltb_ge in Hpos. eexists. split; [reflexivity|]. simpl.
    repeat split; try done; lia.
Qed.

Lemma leave_obj_interrupts (s s' : PrintState) :
  leave_obj s = Ret s' → interrupts s' = interrupts s.
Proof.
  unfold leave_obj. cbn [set_PrintObjDepth PrintObjDepth PrintObjThiss PrintObjIndices].
  intros E. repeat case_match; try done; [bind_inv E as m Em|]; by injection E as <-.
Qed.

Lemma print_path_spec (s : PrintState) (n : nat) :
  length (PrintObjThiss s) = length (PrintObjIndices s) →
  PrintObjThis s ∈ take n (PrintObjThiss s) →
  print_path s
  = Ret (emit_all (Pr "~" :: map selector
                     (frames_before (PrintObjThis s)
                        (zip (take n (PrintObjThiss s)) (take n (PrintObjIndices s))))) s).
Proof.
  intros Hl Hin. unfold print_path.
  rewrite print_path_loop_spec;
    [| done | apply elem_of_take in Hin as (i & Hi & _); by eapply list_elem_of_lookup_2].
  cbn [emit PrintObjThis PrintObjThiss PrintObjIndices].
  rewrite emit_all_emit. by rewrite <- frames_before_take.
Qed.

(** One call of [PrintObj] that pushes a frame, with the test for a mark
    and the path resolved against the ancestor stack. *)
Lemma PrintObj_push (fuel : nat) (obj : Obj) (s : PrintState) :
  0 ≤ PrintObjDepth s ≤ MAXPRINTDEPTH →
  length (PrintObjThiss s) = Z.to_nat MAXPRINTDEPTH →
  length (PrintObjIndices s) = Z.to_nat MAXPRINTDEPTH →
  check_interrupt s = Ret (checked s) →
  IS_BAG_REF obj && negb (CheckRead obj) = false →
  (LastPV s =? 2) && (obj =? PrintObjThis s) = false →
  let s1 := set_LastPV 1 (checked s) in
  let s3 := enter_obj obj (if 0 <? PrintObjDepth s then remembered s1 else s1) in
  PrintObj (S fuel) obj s
  = (s4 ← (if negb (IS_MARKABLE obj && bool_decide (obj ∈ (frames s).*1)) then
             if PrintObjDepth s + 1 <? MAXPRINTDEPTH then
               run_body (PrintObj fuel) (ViewObj fuel) (PrintObjFuncs (TNUM_of obj) obj)
                        (emit (PrintBody (TNUM_of obj) obj) s3)
             else Ret (emit (Pr (newline +:+ "printing stopped, too many recursion levels!" +:+ newline)) s3)
           else Ret (emit_all (Pr "~" :: map selector (frames_before obj (frames s))) s3));
     s5 ← leave_obj s4;
     Ret (set_LastPV (LastPV s) s5)).
Proof.
  intros Hd Ht Hi Hci Hacc Hfv s1 s3.
  cbn [PrintObj]. rewrite Hci, bind_Ret_l. cbn zeta. rewrite Hacc.
  pose proof (frames_check_interrupt s) as Hfr.
  destruct (check_interrupt_spec s) as (rest & es & Ec & _).
  assert (PrintObjThis s1 = PrintObjThis s ∧ PrintObjDepth s1 = PrintObjDepth s
          ∧ PrintObjThiss s1 = PrintObjThiss s ∧ PrintObjIndices s1 = PrintObjIndices s
          ∧ PrintObjIndex s1 = PrintObjIndex s ∧ LastPV (checked s) = LastPV s)
    as (E1 & E2 & E3 & E4 & E5 & E6).
  { unfold s1. rewrite Ec. done. }
  assert (frames s1 = frames s) as Hfr1.
  { unfold frames. by rewrite E1, E2, E3, E4, E5. }
  fold s1. rewrite E6, E1, E2, Hfv. cbn [negb andb].
  assert ((if 0 <? PrintObjDepth s then remember_super s1 else Ret s1)
          = Ret (if 0 <? PrintObjDepth s then remembered s1 else s1)) as ->.
  { destruct (0 <? PrintObjDepth s) eqn:Hpos; [|done].
    apply Z.ltb_lt in Hpos. apply remember_super_spec; rewrite ?E2, ?E3, ?E4; (done || lia). }
  rewrite bind_Ret_l. fold s3.
  assert (PrintObjThis s3 = obj) as Ethis by done.
  assert (PrintObjDepth s3 = PrintObjDepth s + 1) as Edepth.
  { unfold s3, s1. rewrite Ec. destruct (0 <? PrintObjDepth s); simpl; lia. }
  assert (length (PrintObjThiss s3) = Z.to_nat MAXPRINTDEPTH
          ∧ length (PrintObjIndices s3) = Z.to_nat MAXPRINTDEPTH) as [Ht3 Hi3].
  { unfold s3, s1. rewrite Ec. destruct (0 <? PrintObjDepth s); simpl;
      rewrite ?length_insert; done. }
  assert (take (Z.to_nat (PrintObjDepth s)) (PrintObjThiss s3) = (frames s).*1
          ∧ zip (take (Z.to_nat (PrintObjDepth s)) (PrintObjThiss s3))
                (take (Z.to_nat (PrintObjDepth s)) (PrintObjIndices s3)) = frames s)
    as [Htake Hzip].
  { unfold s3. destruct (0 <? PrintObjDepth s) eqn:Hpos.
    - apply Z.ltb_lt in Hpos. cbn [enter_obj PrintObjThiss PrintObjIndices].
      rewrite <- Hfr1, <- E2. apply frames_remembered; rewrite ?E2, ?E3, ?E4; (done || lia).
    - apply Z.ltb_ge in Hpos. unfold frames.
      replace (0 <? PrintObjDepth s) with false by (symmetry; apply Z.ltb_ge; lia).
      replace (Z.to_nat (PrintObjDepth s)) with 0%nat by lia. done. }
  rewrite Ethis. rewrite IS_MARKED_spec by (rewrite ?Edepth; (done || lia)).
  rewrite bind_Ret_l, Edepth.
  replace (PrintObjDepth s + 1 - 1) with (PrintObjDepth s) by lia.
  rewrite Htake.
  destruct (IS_MARKABLE obj && bool_decide (obj ∈ (frames s).*1)) eqn:Hm; cbn [negb].
  - apply andb_true_iff in Hm as [_ Hin%bool_decide_eq_true].
    rewrite (print_path_spec s3 (Z.to_nat (PrintObjDepth s)));
      [| congruence | by rewrite Ethis, Htake].
    by rewrite Ethis, Hzip.
  - done.
Qed.

Lemma ViewObj_push (fuel : nat) (obj : Obj) (s : PrintState) :
  0 ≤ PrintObjDepth s ≤ MAXPRINTDEPTH →
  length (PrintObjThiss s) = Z.to_nat MAXPRINTDEPTH →
  length (PrintObjIndices s) = Z.to_nat MAXPRINTDEPTH →
  IS_BAG_REF obj && negb (CheckRead obj) = false →
  let s1 := set_LastPV 2 s in
  let s3 := enter_obj obj (if 0 <? PrintObjDepth s then remembered s1 else s1) in
  ViewObj (S fuel) obj s
  = (s4 ← (if negb (IS_MARKABLE obj && bool_decide (obj ∈ (frames s).*1)) then
             if PrintObjDepth s + 1 <? MAXPRINTDEPTH then
               run_body (PrintObj fuel) (ViewObj fuel) (ViewObjMethod obj)
                        (emit (ViewBody obj) s3)
             else Ret (emit (Pr (newline +:+ "viewing stopped, too many recursion levels!" +:+ newline)) s3)
           else Ret (emit_all (Pr "~" :: map selector (frames_before obj (frames s))) s3));
     s5 ← leave_obj s4;
     Ret (set_LastPV (LastPV s) s5)).
Proof.
  intros Hd Ht Hi Hacc s1 s3.
  cbn [ViewObj]. cbn zeta. rewrite Hacc.
  assert (frames s1 = frames s) as Hfr1 by done.
  fold s1. change (PrintObjDepth s1) with (PrintObjDepth s).
  assert ((if 0 <? PrintObjDepth s then remember_super s1 else Ret s1)
          = Ret (if 0 <? PrintObjDepth s then remembered s1 else s1)) as ->.
  { destruct (0 <? PrintObjDepth s) eqn:Hpos; [|done].
    apply Z.ltb_lt in Hpos. apply remember_super_spec; simpl; (done || lia). }
  rewrite bind_Ret_l. fold s3.
  assert (PrintObjThis s3 = obj) as Ethis by done.
  assert (PrintObjDepth s3 = PrintObjDepth s + 1) as Edepth.
  { unfold s3, s1. destruct (0 <? PrintObjDepth s); simpl; lia. }
  assert (length (PrintObjThiss s3) = Z.to_nat MAXPRINTDEPTH
          ∧ length (PrintObjIndices s3) = Z.to_nat MAXPRINTDEPTH) as [Ht3 Hi3].
  { unfold s3, s1. destruct (0 <? PrintObjDepth s); simpl;
      rewrite ?length_insert; done. }
  assert (take (Z.to_nat (PrintObjDepth s)) (PrintObjThiss s3) = (frames s).*1
          ∧ zip (take (Z.to_nat (PrintObjDepth s)) (PrintObjThiss s3))
                (take (Z.to_nat (PrintObjDepth s)) (PrintObjIndices s3)) = frames s)
    as [Htake Hzip].
  { unfold s3. destruct (0 <? PrintObjDepth s) eqn:Hpos.
    - apply Z.ltb_lt in Hpos. cbn [enter_obj PrintObjThiss PrintObjIndices].
      rewrite <- Hfr1. change (PrintObjDepth s) with (PrintObjDepth s1).
      apply frames_remembered; simpl; (done || lia).
    - apply Z.ltb_ge in Hpos. unfold frames.
      replace (0 <? PrintObjDepth s) with false by (symmetry; apply Z.ltb_ge; lia).
      replace (Z.to_nat (PrintObjDepth s)) with 0%nat by lia. done. }
  rewrite Ethis. rewrite IS_MARKED_spec by (rewrite ?Edepth; (done || lia)).
  rewrite bind_Ret_l, Edepth.
  replace (PrintObjDepth s + 1 - 1) with (PrintObjDepth s) by lia.
  rewrite Htake.
  destruct (IS_MARKABLE obj && bool_decide (obj ∈ (frames s).*1)) eqn:Hm; cbn [negb].
  - apply andb_true_iff in Hm as [_ Hin%bool_decide_eq_true].
    rewrite (print_path_spec s3 (Z.to_nat (PrintObjDepth s)));
      [| congruence | by rewrite Ethis, Htake].
    by rewrite Ethis, Hzip.
  - done.
Qed.

(** [PrintObj] called by the view method of the object being viewed: no
    frame is pushed or popped. *)
Lemma PrintObj_fromview (fuel : nat) (obj : Obj) (s : PrintState) :
  1 ≤ PrintObjDepth s ≤ MAXPRINTDEPTH →
  length (PrintObjThiss s) = Z.to_nat MAXPRINTDEPTH →
  length (PrintObjIndices s) = Z.to_nat MAXPRINTDEPTH →
  check_interrupt s = Ret (checked s) →
  IS_BAG_REF obj && negb (CheckRead obj) = false →
  (LastPV s =? 2) && (obj =? PrintObjThis s) = true →
  let s1 := set_LastPV 1 (checked s) in
  PrintObj (S fuel) obj s
  = (s4 ← (if negb (IS_MARKABLE obj
                    && bool_decide (obj ∈ take (Z.to_nat (PrintObjDepth s - 1))
                                               (PrintObjThiss s))) then
             if PrintObjDepth s <? MAXPRINTDEPTH then
               run_body (PrintObj fuel) (ViewObj fuel) (PrintObjFuncs (TNUM_of obj) obj)
                        (emit (PrintBody (TNUM_of obj) obj) s1)
             else Ret (emit (Pr (newline +:+ "printing stopped, too many recursion levels!" +:+ newline)) s1)
           else Ret (emit_all (Pr "~" :: map selector (frames_before obj (ancestors s obj)))
                       s1));
     Ret (set_LastPV (LastPV s) s4)).
Proof.
  intros Hd Ht Hi Hci Hacc Hfv s1.
  cbn [PrintObj]. rewrite Hci, bind_Ret_l. cbn zeta. rewrite Hacc.
  destruct (check_interrupt_spec s) as (rest & es & Ec & _).
  assert (PrintObjThis s1 = PrintObjThis s ∧ PrintObjDepth s1 = PrintObjDepth s
          ∧ PrintObjThiss s1 = PrintObjThiss s ∧ PrintObjIndices s1 = PrintObjIndices s
          ∧ PrintObjIndex s1 = PrintObjIndex s ∧ LastPV (checked s) = LastPV s)
    as (E1 & E2 & E3 & E4 & E5 & E6).
  { unfold s1. rewrite Ec. done. }
  fold s1. rewrite E6, E1, Hfv. cbn [negb andb]. rewrite bind_Ret_l.
  unfold ancestors. rewrite Hfv.
  apply andb_true_iff in Hfv as [_ ->%Z.eqb_eq].
  rewrite IS_MARKED_spec by (rewrite ?E2, ?E3; (done || lia)).
  rewrite bind_Ret_l, E2, E3, ?E1.
  destruct (IS_MARKABLE (PrintObjThis s) && _) eqn:Hm; cbn [negb].
  - apply andb_true_iff in Hm as [_ Hin%bool_decide_eq_true].
    rewrite (print_path_spec s1 (Z.to_nat (PrintObjDepth s - 1)));
      [| congruence | by rewrite E1, E3].
    by rewrite E1, E3, E4.
  - done.
Qed.

Lemma run_body_total (fuel : nat) (PRINT VIEW : Obj → PrintState → outcome PrintState) :
  returns_keeping_stack fuel PRINT → returns_keeping_stack fuel VIEW →
  ∀ (script : list action) (s : PrintState),
  print_state_ok s → break_loops_return s → (print_fuel s < fuel)%nat →
  ∃ s', run_body PRINT VIEW script s = Ret s' ∧ stack_kept s s' ∧ break_loops_return s'.
Proof.
  intros HP HV. induction script as [|a script IH]; intros s Hok Hb Hf.
  - exists s. split; [done|]. split; [apply stack_kept_refl|done].
  - cbn [run_body].
    assert (∃ s1, match a with
                  | DoPr text => Ret (emit (Pr text) s)
                  | SetIndex i => Ret (set_PrintObjIndex i s)
                  | CallPrintObj sub => PRINT sub s
                  | CallViewObj sub => VIEW sub s
                  end = Ret s1 ∧ stack_kept s s1 ∧ break_loops_return s1)
      as (s1 & -> & K1 & B1).
    { destruct a as [text|i|sub|sub].
      - eexists. split; [done|]. split; [apply stack_kept_emit|done].
      - eexists. split; [done|]. split; [by repeat split|done].
      - by apply HP.
      - by apply HV. }
    rewrite bind_Ret_l.
    destruct (IH s1) as (s' & -> & K2 & B2).
    { by eapply stack_kept_ok. }
    { done. }
    { by rewrite (stack_kept_fuel _ _ K1). }
    exists s'. split; [done|]. split; [by eapply stack_kept_trans|done].
Qed.

(** With enough fuel [PrintObj] and [ViewObj] return, whatever the bodies
    and however the objects refer to each other, unless a break loop is
    left with [quit;]: the nesting is bounded by [MAXPRINTDEPTH], every
    access to the two arrays is within them, and the stack is left as it
    was found. *)
Lemma print_view_total (fuel : nat) :
  returns_keeping_stack fuel (PrintObj fuel) ∧ returns_keeping_stack fuel (ViewObj fuel).
Proof.
  induction fuel as [|fuel [IHP IHV]].
  - split; intros obj s _ _ Hf; lia.
  - assert (∀ s4 : PrintState,
              1 ≤ PrintObjDepth s4 ≤ MAXPRINTDEPTH →
              length (PrintObjThiss s4) = Z.to_nat MAXPRINTDEPTH →
              length (PrintObjIndices s4) = Z.to_nat MAXPRINTDEPTH →
              ∀ pv, ∃ s', (s5 ← leave_obj s4; Ret (set_LastPV pv s5)) = Ret s'
                ∧ PrintObjDepth s' = PrintObjDepth s4 - 1 ∧ LastPV s' = pv
                ∧ length (PrintObjThiss s') = Z.to_nat MAXPRINTDEPTH
                ∧ length (PrintObjIndices s') = Z.to_nat MAXPRINTDEPTH
                ∧ interrupts s' = interrupts s4) as Hleave.
    { intros s4 Hd4 Ht4 Hi4 pv.
      destruct (leave_obj_spec s4) as (s5 & E5 & D5 & _ & T5 & I5 & _); [lia|done..|].
      rewrite E5, bind_Ret_l. eexists. split; [done|]. simpl.
      rewrite T5, I5. repeat split; try done. by apply leave_obj_interrupts. }
    split; intros obj s Hok Hb Hf; pose proof Hok as (Hd & Ht & Hi & Hpv);
      pose proof (break_loops_return_checked s Hb) as Hb0.
    + pose proof (check_interrupt_Ret s Hb) as Hci.
      destruct (IS_BAG_REF obj && negb (CheckRead obj)) eqn:Hacc.
      { cbn [PrintObj]. rewrite Hci, bind_Ret_l. cbn zeta. rewrite Hacc.
        eexists. split; [done|]. split; [|done].
        eapply stack_kept_trans; [apply stack_kept_check_interrupt|apply stack_kept_emit]. }
      pose proof (stack_kept_check_interrupt s) as K0.
      destruct ((LastPV s =? 2) && (obj =? PrintObjThis s)) eqn:Hfv.
      * (* called from the view of the same object *)
        assert (LastPV s = 2) as Hpv2.
        { apply andb_true_iff in Hfv as [?%Z.eqb_eq _]. done. }
        rewrite PrintObj_fromview by (done || lia).
        set (s1 := set_LastPV 1 (checked s)).
        assert (stack_kept s1 s1 ∧ PrintObjDepth s1 = PrintObjDepth s
                ∧ length (PrintObjThiss s1) = length (PrintObjThiss s)
                ∧ length (PrintObjIndices s1) = length (PrintObjIndices s)
                ∧ LastPV s1 = 1)
          as (_ & D1 & T1 & I1 & P1).
        { destruct K0 as (?&?&?&?). by repeat split. }
        assert (print_state_ok s1) as Hok1.
        { unfold print_state_ok. rewrite D1, T1, I1, P1. repeat split; (done || lia). }
        assert (∃ s4, (if negb (IS_MARKABLE obj
                     && bool_decide (obj ∈ take (Z.to_nat (PrintObjDepth s - 1))
                                                (PrintObjThiss s))) then
                   if PrintObjDepth s <? MAXPRINTDEPTH then
                     run_body (PrintObj fuel) (ViewObj fuel)
                       (PrintObjFuncs (TNUM_of obj) obj)
                       (emit (PrintBody (TNUM_of obj) obj) s1)
                   else Ret (emit (Pr (newline +:+ "printing stopped, too many recursion levels!" +:+ newline)) s1)
                 else Ret (emit_all (Pr "~" :: map selector
                                       (frames_before obj (ancestors s obj))) s1))
                = Ret s4 ∧ stack_kept s1 s4 ∧ break_loops_return s4)
          as (s4 & -> & K4 & B4).
        { destruct (IS_MARKABLE obj && bool_decide _); cbn [negb].
          - eexists. split; [done|]. split; [apply stack_kept_emit_all|done].
          - destruct (PrintObjDepth s <? MAXPRINTDEPTH).
            + destruct (run_body_total fuel _ _ IHP IHV
                          (PrintObjFuncs (TNUM_of obj) obj)
                          (emit (PrintBody (TNUM_of obj) obj) s1)) as (s4 & E4 & K4 & B4).
              { eapply stack_kept_ok; [exact Hok1|apply stack_kept_emit]. }
              { done. }
              { rewrite (stack_kept_fuel _ _ (stack_kept_emit _ s1)).
                unfold print_fuel in *. rewrite D1, P1. rewrite Hpv2 in Hf.
                simpl in Hf |- *. clear - Hf. lia. }
              exists s4. split; [exact E4|]. split; [|done].
              eapply stack_kept_trans; [apply stack_kept_emit|done].
            + eexists. split; [done|]. split; [apply stack_kept_emit|done]. }
        rewrite bind_Ret_l. eexists. split; [done|]. split; [|done].
        destruct K4 as (D4 & P4 & T4 & I4). unfold stack_kept. simpl.
        rewrite D4, T4, I4, D1, T1, I1. done.
      * (* a frame is pushed *)
        rewrite PrintObj_push by (done || lia).
        set (s1 := set_LastPV 1 (checked s)).
        set (s3 := enter_obj obj (if 0 <? PrintObjDepth s then remembered s1 else s1)).
        assert (PrintObjDepth s3 = PrintObjDepth s + 1
                ∧ length (PrintObjThiss s3) = Z.to_nat MAXPRINTDEPTH
                ∧ length (PrintObjIndices s3) = Z.to_nat MAXPRINTDEPTH
                ∧ LastPV s3 = 1 ∧ break_loops_return s3) as (D3 & T3 & I3 & P3 & B3).
        { unfold s3, s1. destruct K0 as (D0 & P0 & T0 & I0).
          destruct (0 <? PrintObjDepth s); simpl;
            rewrite ?length_insert, ?D0, ?T0, ?I0; done. }
        assert (∃ s4, (if negb (IS_MARKABLE obj && bool_decide (obj ∈ (frames s).*1)) then
                   if PrintObjDepth s + 1 <? MAXPRINTDEPTH then
                     run_body (PrintObj fuel) (ViewObj fuel)
                       (PrintObjFuncs (TNUM_of obj) obj)
                       (emit (PrintBody (TNUM_of obj) obj) s3)
                   else Ret (emit (Pr (newline +:+ "printing stopped, too many recursion levels!" +:+ newline)) s3)
                 else Ret (emit_all (Pr "~" :: map selector (frames_before obj (frames s)))
                             s3)) = Ret s4 ∧ stack_kept s3 s4 ∧ break_loops_return s4)
          as (s4 & -> & K4 & B4).
        { destruct (IS_MARKABLE obj && bool_decide _); cbn [negb].
          - eexists. split; [done|]. split; [apply stack_kept_emit_all|done].
          - destruct (PrintObjDepth s + 1 <? MAXPRINTDEPTH) eqn:Hlt.
            + apply Z.ltb_lt in Hlt.
              destruct (run_body_total fuel _ _ IHP IHV
                          (PrintObjFuncs (TNUM_of obj) obj)
                          (emit (PrintBody (TNUM_of obj) obj) s3)) as (s4 & E4 & K4 & B4).
              { unfold print_state_ok.
                cbn [emit PrintObjDepth PrintObjThiss PrintObjIndices LastPV].
                rewrite D3, T3, I3, P3.
                repeat split; (done || lia). }
              { done. }
              { unfold print_fuel in *. cbn [emit PrintObjDepth LastPV]. rewrite D3, P3.
                clear - Hf Hlt Hd. destruct (LastPV s =? 2); simpl in Hf |- *; lia. }
              exists s4. split; [exact E4|]. split; [|done].
              eapply stack_kept_trans; [apply stack_kept_emit|done].
            + eexists. split; [done|]. split; [apply stack_kept_emit|done]. }
        rewrite bind_Ret_l.
        destruct K4 as (D4 & P4 & T4 & I4).
        destruct (Hleave s4 ltac:(lia) ltac:(congruence) ltac:(congruence) (LastPV s))
          as (s' & -> & D' & P' & T' & I' & N').
        exists s'. split; [done|]. split; [|by eapply break_loops_return_ext].
        unfold stack_kept.
        rewrite D', P', T', I', D4, D3, Ht, Hi. repeat split; (done || lia).
    + destruct (IS_BAG_REF obj && negb (CheckRead obj)) eqn:Hacc.
      { cbn [ViewObj]. cbn zeta. rewrite Hacc. eexists. split; [done|].
        split; [apply stack_kept_emit|done]. }
      rewrite ViewObj_push by (done || lia).
      set (s1 := set_LastPV 2 s).
      set (s3 := enter_obj obj (if 0 <? PrintObjDepth s then remembered s1 else s1)).
      assert (PrintObjDepth s3 = PrintObjDepth s + 1
              ∧ length (PrintObjThiss s3) = Z.to_nat MAXPRINTDEPTH
              ∧ length (PrintObjIndices s3) = Z.to_nat MAXPRINTDEPTH
              ∧ LastPV s3 = 2 ∧ break_loops_return s3) as (D3 & T3 & I3 & P3 & B3).
      { unfold s3, s1. destruct (0 <? PrintObjDepth s); simpl;
          rewrite ?length_insert; done. }
      assert (∃ s4, (if negb (IS_MARKABLE obj && bool_decide (obj ∈ (frames s).*1)) then
                 if PrintObjDepth s + 1 <? MAXPRINTDEPTH then
                   run_body (PrintObj fuel) (ViewObj fuel) (ViewObjMethod obj)
                     (emit (ViewBody obj) s3)
                 else Ret (emit (Pr (newline +:+ "viewing stopped, too many recursion levels!" +:+ newline)) s3)
               else Ret (emit_all (Pr "~" :: map selector (frames_before obj (frames s)))
                           s3)) = Ret s4 ∧ stack_kept s3 s4 ∧ break_loops_return s4)
        as (s4 & -> & K4 & B4).
      { destruct (IS_MARKABLE obj && bool_decide _); cbn [negb].
        - eexists. split; [done|]. split; [apply stack_kept_emit_all|done].
        - destruct (PrintObjDepth s + 1 <? MAXPRINTDEPTH) eqn:Hlt.
          + apply Z.ltb_lt in Hlt.
            destruct (run_body_total fuel _ _ IHP IHV (ViewObjMethod obj)
                        (emit (ViewBody obj) s3)) as (s4 & E4 & K4 & B4).
            { unfold print_state_ok.
                cbn [emit PrintObjDepth PrintObjThiss PrintObjIndices LastPV].
                rewrite D3, T3, I3, P3.
              repeat split; (done || lia). }
            { done. }
            { unfold print_fuel in *. cbn [emit PrintObjDepth LastPV]. rewrite D3, P3.
              clear - Hf Hlt Hd. destruct (LastPV s =? 2); simpl in Hf |- *; lia. }
            exists s4. split; [exact E4|]. split; [|done].
            eapply stack_kept_trans; [apply stack_kept_emit|done].
          + eexists. split; [done|]. split; [apply stack_kept_emit|done]. }
      rewrite bind_Ret_l.
      destruct K4 as (D4 & P4 & T4 & I4).
      destruct (Hleave s4 ltac:(lia) ltac:(congruence) ltac:(congruence) (LastPV s))
        as (s' & -> & D' & P' & T' & I' & N').
      exists s'. split; [done|]. split; [|by eapply break_loops_return_ext].
      unfold stack_kept.
      rewrite D', P', T', I', D4, D3, Ht, Hi. repeat split; (done || lia).
Qed.

Lemma from_view_false (s : PrintState) (obj : Obj) :
  ¬ from_view s obj → (LastPV s =? 2) && (obj =? PrintObjThis s) = false.
Proof.
  intros Hn. apply not_true_is_false. intros [?%Z.eqb_eq ?%Z.eqb_eq]%andb_true_iff.
  by apply Hn.
Qed.

Lemma on_stack_marked (s : PrintState) (obj : Obj) :
  on_stack s obj ↔ IS_MARKABLE obj && bool_decide (obj ∈ (frames s).*1) = true.
Proof. unfold on_stack. rewrite andb_true_iff, bool_decide_eq_true. done. Qed.

Lemma marked_frames (s : PrintState) (obj : Obj) :
  (LastPV s =? 2) && (obj =? PrintObjThis s) = false →
  marked s obj ↔ IS_MARKABLE obj && bool_decide (obj ∈ (frames s).*1) = true.
Proof.
  intros Hfv. unfold marked, ancestors. rewrite Hfv.
  rewrite andb_true_iff, bool_decide_eq_true. done.
Qed.

Lemma marked_below (s : PrintState) (obj : Obj) :
  length (PrintObjThiss s) = length (PrintObjIndices s) →
  (LastPV s =? 2) && (obj =? PrintObjThis s) = true →
  marked s obj
  ↔ IS_MARKABLE obj
    && bool_decide (obj ∈ take (Z.to_nat (PrintObjDepth s - 1)) (PrintObjThiss s)) = true.
Proof.
  intros Hl Hfv. unfold marked, ancestors. rewrite Hfv.
  rewrite fst_zip by (rewrite !length_take; lia).
  rewrite andb_true_iff, bool_decide_eq_true. done.
Qed.



End PrintProps.

Section PrintExamples.
Import Example.

(** The list [40 = [ 5, 44 ]] with [44 = [ 44 ]] prints as [[ 5, [ ~[2] ] ]]:
    the inner occurrence of [44] is printed as the path from [40]. *)
Lemma PrintObj_self_reference_example :
  ∃ s', PrintObj 5 40 (initial_print_state []) = Ret s'
      ∧ output s' = [PrintBody 22 40; Pr "[ "; PrintBody 0 5; Pr "<int>"; Pr ", ";
                     PrintBody 22 44; Pr "[ "; Pr "~"; PrintPath 22 40 2;
                     Pr " ]"; Pr " ]"].
Proof. eexists. split; [vm_compute; reflexivity|reflexivity]. Qed.

Lemma inner_print_state_ok : print_state_ok inner_print_state.
Proof. repeat split; try (simpl; lia); reflexivity. Qed.





End PrintExamples.

(** ** The dispatch tables on the tags of this file *)

Section TableProps.
Context `{Tnums} `{!TnumsOK}.

Lemma in_range_spec (lo hi t : Z) : in_range lo hi t = true ↔ lo ≤ t ≤ hi.
Proof. unfold in_range. rewrite andb_true_iff, !Z.leb_le. done. Qed.

Lemma in_range_false (lo hi t : Z) : in_range lo hi t = false ↔ ¬ (lo ≤ t ≤ hi).
Proof. rewrite <- in_range_spec. by destruct (in_range lo hi t). Qed.

(** Unfold a table at a tag and decide the comparisons from the order of
    the tags. *)
Ltac tnum_cases :=
  pose proof tnums_real_first; pose proof tnums_int_const; pose proof tnums_ffe_const;
  pose proof tnums_const_record; pose proof tnums_record_list;
  pose proof tnums_plist_list; pose proof tnums_list_external;
  pose proof tnums_comobj_ext; pose proof tnums_posobj_ext; pose proof tnums_datobj_ext;
  pose proof tnums_com_pos; pose proof tnums_com_dat; pose proof tnums_pos_dat;
  pose proof tnums_real_last; pose proof tnums_copying;
  unfold structural_tnum, constant_tnum in *;
  repeat match goal with
         | |- context [decide ?P] => destruct (decide P); try lia
         | |- context [in_range ?a ?b ?c] =>
             let E := fresh "E" in
             destruct (in_range a b c) eqn:E;
             [apply in_range_spec in E | apply in_range_false in E]; try lia
         end;
  try done; try lia.

Lemma structural_real (t : Z) : structural_tnum t → t ≤ LAST_REAL_TNUM.
Proof. tnum_cases. Qed.

Lemma constant_real (t : Z) : constant_tnum t → t ≤ LAST_REAL_TNUM.
Proof. tnum_cases. Qed.

Lemma plist_real : T_PLIST ≤ LAST_REAL_TNUM ∧ ¬ structural_tnum T_PLIST.
Proof. tnum_cases. Qed.

Lemma CopyObjFuncs_constant (t : Z) :
  constant_tnum t → CopyObjFuncs t = Some CopyObjConstant_fn.
Proof. intros. unfold CopyObjFuncs. tnum_cases. Qed.

Lemma CleanObjFuncs_constant (t : Z) :
  constant_tnum t → CleanObjFuncs t = Some CleanObjConstant_fn.
Proof. intros. unfold CleanObjFuncs. tnum_cases. Qed.

Lemma CopyObjFuncs_structural (t : Z) :
  structural_tnum t →
  CopyObjFuncs t = Some (if decide (t = T_POSOBJ) then CopyObjPosObj_fn
                         else if decide (t = T_COMOBJ) then CopyObjComObj_fn
                         else CopyObjDatObj_fn).
Proof. intros. unfold CopyObjFuncs. tnum_cases. Qed.

Lemma CleanObjFuncs_structural (t : Z) :
  structural_tnum t →
  CleanObjFuncs t = Some (if decide (t = T_POSOBJ) then CleanObjPosObj_fn
                          else if decide (t = T_COMOBJ) then CleanObjComObj_fn
                          else CleanObjDatObj_fn).
Proof. intros. unfold CleanObjFuncs. tnum_cases. Qed.

Lemma CopyObjFuncs_copying (t : Z) :
  structural_tnum t →
  CopyObjFuncs (t + COPYING)
  = Some (if decide (t = T_POSOBJ) then CopyObjPosObjCopy_fn
          else if decide (t = T_COMOBJ) then CopyObjComObjCopy_fn
          else CopyObjDatObjCopy_fn).
Proof. intros. unfold CopyObjFuncs. tnum_cases. Qed.

Lemma CleanObjFuncs_copying (t : Z) :
  structural_tnum t →
  CleanObjFuncs (t + COPYING)
  = Some (if decide (t = T_POSOBJ) then CleanObjPosObjCopy_fn
          else if decide (t = T_COMOBJ) then CleanObjComObjCopy_fn
          else CleanObjDatObjCopy_fn).
Proof. intros. unfold CleanObjFuncs. tnum_cases. Qed.

(** On a real tag the copy table holds a body that marks only for the
    three structural tags. *)
Lemma CopyObjFuncs_real (t : Z) (f : copy_fn) :
  t ≤ LAST_REAL_TNUM → CopyObjFuncs t = Some f →
  (f = CopyObjError_fn) ∨ (f = CopyObjConstant_fn ∧ constant_tnum t)
  ∨ (structural_tnum t).
Proof.
  intros Ht. unfold CopyObjFuncs.
  pose proof tnums_copying; pose proof tnums_record_list; pose proof tnums_list_external;
  pose proof tnums_comobj_ext; pose proof tnums_posobj_ext; pose proof tnums_datobj_ext;
  pose proof tnums_plist_list.
  unfold structural_tnum, constant_tnum.
  destruct (decide (t = T_DATOBJ + COPYING)); [lia|].
  destruct (decide (t = T_DATOBJ)); [auto|].
  destruct (decide (t = T_COMOBJ + COPYING)); [lia|].
  destruct (decide (t = T_COMOBJ)); [auto|].
  destruct (decide (t = T_POSOBJ + COPYING)); [lia|].
  destruct (decide (t = T_POSOBJ)); [auto|].
  destruct (in_range FIRST_CONSTANT_TNUM LAST_CONSTANT_TNUM t) eqn:E.
  { apply in_range_spec in E. intros [= <-]. auto. }
  destruct (in_range FIRST_REAL_TNUM LAST_REAL_TNUM t); [|done].
  intros [= <-]. auto.
Qed.

Lemma CleanObjFuncs_real (t : Z) (f : clean_fn) :
  t ≤ LAST_REAL_TNUM → CleanObjFuncs t = Some f →
  f = CleanObjError_fn ∨ f = CleanObjConstant_fn ∨ f = CleanObjPosObj_fn
  ∨ f = CleanObjComObj_fn ∨ f = CleanObjDatObj_fn.
Proof.
  intros Ht. unfold CleanObjFuncs.
  pose proof tnums_copying; pose proof tnums_record_list; pose proof tnums_list_external;
  pose proof tnums_comobj_ext; pose proof tnums_posobj_ext; pose proof tnums_datobj_ext;
  pose proof tnums_plist_list.
  destruct (decide (t = T_DATOBJ + COPYING)); [lia|].
  destruct (decide (t = T_DATOBJ)); [intros [= <-]; auto 6|].
  destruct (decide (t = T_COMOBJ + COPYING)); [lia|].
  destruct (decide (t = T_COMOBJ)); [intros [= <-]; auto 6|].
  destruct (decide (t = T_POSOBJ + COPYING)); [lia|].
  destruct (decide (t = T_POSOBJ)); [intros [= <-]; auto 6|].
  destruct (in_range FIRST_CONSTANT_TNUM LAST_CONSTANT_TNUM t).
  { intros [= <-]. auto. }
  destruct (in_range FIRST_REAL_TNUM LAST_REAL_TNUM t); [|done].
  intros [= <-]. auto.
Qed.

Lemma IsMutableObjFuncs_structural (t : Z) :
  structural_tnum t → IsMutableObjFuncs t = Some TestObject_fn.
Proof. intros. unfold IsMutableObjFuncs. tnum_cases. Qed.

Lemma IsCopyableObjFuncs_structural (t : Z) :
  structural_tnum t → IsCopyableObjFuncs t = Some TestObject_fn.
Proof. intros. unfold IsCopyableObjFuncs. tnum_cases. Qed.

Lemma IsMutableObjFuncs_constant (t : Z) :
  constant_tnum t → IsMutableObjFuncs t = Some TestNot_fn.
Proof. intros. unfold IsMutableObjFuncs. tnum_cases. Qed.

Lemma TypeObjFuncs_structural (t : Z) :
  structural_tnum t →
  ∃ f, TypeObjFuncs t = Some f ∧ f ≠ TypeObjError_fn.
Proof.
  intros. unfold TypeObjFuncs. tnum_cases; eexists; split; done.
Qed.

End TableProps.

(** ** C3: immutable objects are returned as they are *)

Section CopyImmutable.
Context `{Tnums} `{!TnumsOK} `{Kinds} `{Threads}.

Lemma COPY_OBJ_immutable (fuel : nat) (x : Obj) (mut : bool) (h : Heap) (t : Z) :
  TNUM_OBJ h x = Ret t → constant_tnum t ∨ structural_tnum t →
  IS_MUTABLE_OBJ h x = Ret false →
  COPY_OBJ (S fuel) x mut h = Ret (x, h).
Proof.
  intros Ht Hk Hm. cbn [COPY_OBJ]. rewrite Ht, bind_Ret_l.
  destruct Hk as [Hc|Hs].
  - by rewrite CopyObjFuncs_constant.
  - rewrite CopyObjFuncs_structural by done.
    destruct (decide (t = T_POSOBJ)); [|destruct (decide (t = T_COMOBJ))].
    + unfold CopyObjPosObj. by rewrite Hm.
    + unfold CopyObjComObj. by rewrite Hm.
    + unfold CopyObjDatObj. by rewrite Hm.
Qed.

Lemma CLEAN_OBJ_uncopied (fuel : nat) (x : Obj) (h : Heap) (t : Z) :
  TNUM_OBJ h x = Ret t → constant_tnum t ∨ structural_tnum t →
  CLEAN_OBJ (S fuel) x h = Ret h.
Proof.
  intros Ht Hk. cbn [CLEAN_OBJ]. rewrite Ht, bind_Ret_l.
  destruct Hk as [Hc|Hs].
  - by rewrite CleanObjFuncs_constant.
  - rewrite CleanObjFuncs_structural by done.
    destruct (decide (t = T_POSOBJ)); [|destruct (decide (t = T_COMOBJ))]; done.
Qed.

(** C3.  If [x] is immutable ([IS_MUTABLE_OBJ] returns 0) and its tag is a
    constant tag or one of the three structural tags, the tags whose copy
    bodies this file installs, then [CopyObj] returns the handle [x]
    itself for either value of [mut], and the heap, so also [x], is
    unchanged; the session pointer is null afterwards. *)
Theorem CopyObj_immutable (fuel : nat) (x : Obj) (mut : bool) (tl : ThreadLocal)
    (h : Heap) (t : Z) :
  TNUM_OBJ h x = Ret t → constant_tnum t ∨ structural_tnum t →
  IS_MUTABLE_OBJ h x = Ret false →
  CopyObj (S fuel) x mut tl h = Ret (x, mkThreadLocal 0, h).
Proof.
  intros Ht Hk Hm. unfold CopyObj.
  rewrite (COPY_OBJ_immutable fuel x mut h t) by done.
  rewrite bind_Ret_l. cbn beta iota.
  by rewrite (CLEAN_OBJ_uncopied fuel x h t).
Qed.

End CopyImmutable.

Section CopyImmutableExamples.
Import Example.

(** The immutable positional object [16] of the example heap. *)
Lemma CopyObj_immutable_witness :
  CopyObj 1 16 true (mkThreadLocal 0) heap = Ret (16, mkThreadLocal 0, heap)
  ∧ CopyObj 1 16 false (mkThreadLocal 0) heap = Ret (16, mkThreadLocal 0, heap).
Proof.
  split.
  - apply (CopyObj_immutable 0 16 true (mkThreadLocal 0) heap 77);
      [reflexivity | right; left; reflexivity | reflexivity].
  - apply (CopyObj_immutable 0 16 false (mkThreadLocal 0) heap 77);
      [reflexivity | right; left; reflexivity | reflexivity].
Defined.

End CopyImmutableExamples.

(** ** Steps on the heap, read backwards *)

Lemma aligned_not_immediate (m : Z) : m `mod` 4 = 0 → is_immediate m = false.
Proof.
  intros Hm. assert (m = 2 * (2 * (m / 4))) as -> by (pose proof (Z.div_mod m 4); lia).
  unfold is_immediate, IS_INTOBJ, IS_FFE.
  rewrite Z.testbit_even_0. change 1 with (Z.succ 0).
  rewrite Z.testbit_even_succ by lia. by rewrite Z.testbit_even_0.
Qed.

Lemma get_bag_Ret (h : Heap) (o : Obj) (b : Bag) : get_bag h o = Ret b → bags h !! o = Some b.
Proof. unfold get_bag. destruct (bags h !! o); [by intros [= ->]|done]. Qed.

Lemma SIZE_OBJ_Ret (h : Heap) (o : Obj) (sz : Z) :
  SIZE_OBJ h o = Ret sz → ∃ b, bags h !! o = Some b ∧ size (PTR_BAG b) = sz.
Proof.
  unfold SIZE_OBJ. intros E. inv_bind E. apply get_bag_Ret in E0.
  injection E as <-. eauto.
Qed.

Lemma ADDR_OBJ_get_Ret (h : Heap) (o : Obj) (i : nat) (v : Z) :
  ADDR_OBJ_get h o i = Ret v → ∃ b, bags h !! o = Some b ∧ data (PTR_BAG b) !! i = Some v.
Proof.
  unfold ADDR_OBJ_get. intros E. inv_bind E. apply get_bag_Ret in E0.
  destruct (data (PTR_BAG a) !! i) eqn:Ei; [|done]. injection E as <-. eauto.
Qed.

Lemma ADDR_OBJ_set_Ret (h : Heap) (o : Obj) (i : nat) (v : Z) (h' : Heap) :
  ADDR_OBJ_set h o i v = Ret h' →
  ∃ b, bags h !! o = Some b ∧ (i < length (data (PTR_BAG b)))%nat
       ∧ h' = put_bag h o (set_word b i v).
Proof.
  unfold ADDR_OBJ_set. intros E. inv_bind E. apply get_bag_Ret in E0.
  destruct (decide _); [|done]. injection E as <-. eauto.
Qed.

Lemma RetypeBag_Ret (h : Heap) (o : Obj) (t : Z) (h' : Heap) :
  RetypeBag h o t = Ret h' → ∃ b, bags h !! o = Some b ∧ h' = put_bag h o (set_tnum b t).
Proof.
  unfold RetypeBag. intros E. inv_bind E. apply get_bag_Ret in E0.
  injection E as <-. eauto.
Qed.

Section TnumProps.
Context `{Tnums} `{!TnumsOK}.

Lemma TNUM_OBJ_Ret (h : Heap) (o : Obj) (t : Z) :
  TNUM_OBJ h o = Ret t →
  (is_immediate o = true ∧ constant_tnum t)
  ∨ (is_immediate o = false ∧ ∃ b, bags h !! o = Some b ∧ tnum (PTR_BAG b) = t).
Proof.
  unfold TNUM_OBJ, is_immediate, constant_tnum.
  destruct (IS_INTOBJ o).
  { intros [= <-]. left. split; [done|apply tnums_int_const]. }
  destruct (IS_FFE o).
  { intros [= <-]. left. split; [done|apply tnums_ffe_const]. }
  unfold TNUM_BAG. intros E. inv_bind E. apply get_bag_Ret in E0.
  injection E as <-. right. eauto.
Qed.

Lemma TNUM_OBJ_bag (h : Heap) (o : Obj) (b : Bag) :
  is_immediate o = false → bags h !! o = Some b → TNUM_OBJ h o = Ret (tnum (PTR_BAG b)).
Proof.
  intros Hi E. unfold TNUM_OBJ, TNUM_BAG.
  apply orb_false_iff in Hi as [-> ->]. by rewrite (get_bag_Some _ _ _ E).
Qed.

End TnumProps.

(** ** Steps that need no fuel *)

Lemma bind_fuel {A B : Type} (m : outcome A) (k : A → outcome B) :
  m ≠ OutOfFuel → (∀ a, m = Ret a → k a ≠ OutOfFuel) → (m ≫= k) ≠ OutOfFuel.
Proof. destruct m; simpl; intros Hm Hk; try done. by apply Hk. Qed.

Lemma get_bag_fuel (h : Heap) (o : Obj) : get_bag h o ≠ OutOfFuel.
Proof. unfold get_bag. by destruct (bags h !! o). Qed.

Lemma SIZE_OBJ_fuel (h : Heap) (o : Obj) : SIZE_OBJ h o ≠ OutOfFuel.
Proof. unfold SIZE_OBJ. apply bind_fuel; [apply get_bag_fuel|done]. Qed.

Lemma ADDR_OBJ_get_fuel (h : Heap) (o : Obj) (i : nat) : ADDR_OBJ_get h o i ≠ OutOfFuel.
Proof.
  unfold ADDR_OBJ_get. apply bind_fuel; [apply get_bag_fuel|].
  intros b _. by destruct (data (PTR_BAG b) !! i).
Qed.

Lemma ADDR_OBJ_set_fuel (h : Heap) (o : Obj) (i : nat) (v : Z) :
  ADDR_OBJ_set h o i v ≠ OutOfFuel.
Proof.
  unfold ADDR_OBJ_set. apply bind_fuel; [apply get_bag_fuel|].
  intros b _. by destruct (decide _).
Qed.

Lemma RetypeBag_fuel (h : Heap) (o : Obj) (t : Z) : RetypeBag h o t ≠ OutOfFuel.
Proof. unfold RetypeBag. apply bind_fuel; [apply get_bag_fuel|done]. Qed.

Section FuelOfSteps.
Context `{Tnums} `{Kinds} `{Threads}.

Lemma TNUM_OBJ_fuel (h : Heap) (o : Obj) : TNUM_OBJ h o ≠ OutOfFuel.
Proof.
  unfold TNUM_OBJ, TNUM_BAG. destruct (IS_INTOBJ o); [done|]. destruct (IS_FFE o); [done|].
  apply bind_fuel; [apply get_bag_fuel|done].
Qed.

Lemma TYPE_OBJ_fuel (h : Heap) (o : Obj) : TYPE_OBJ h o ≠ OutOfFuel.
Proof.
  unfold TYPE_OBJ. apply bind_fuel; [apply TNUM_OBJ_fuel|]. intros t _.
  destruct (TypeObjFuncs t) as [[]|]; try done; apply ADDR_OBJ_get_fuel.
Qed.

Lemma SET_TYPE_OBJ_fuel (h : Heap) (o : Obj) (k : Obj) : SET_TYPE_OBJ h o k ≠ OutOfFuel.
Proof.
  unfold SET_TYPE_OBJ. apply bind_fuel; [apply TNUM_OBJ_fuel|]. intros t _.
  destruct (SetTypeObjFuncs t) as [[]|]; try done; apply ADDR_OBJ_set_fuel.
Qed.

Lemma IS_MUTABLE_OBJ_fuel (h : Heap) (o : Obj) : IS_MUTABLE_OBJ h o ≠ OutOfFuel.
Proof.
  unfold IS_MUTABLE_OBJ. apply bind_fuel; [apply TNUM_OBJ_fuel|]. intros t _.
  destruct (IsMutableObjFuncs t) as [[]|]; try done.
  apply bind_fuel; [apply TYPE_OBJ_fuel|done].
Qed.

Lemma IS_COPYABLE_OBJ_fuel (h : Heap) (o : Obj) : IS_COPYABLE_OBJ h o ≠ OutOfFuel.
Proof.
  unfold IS_COPYABLE_OBJ. apply bind_fuel; [apply TNUM_OBJ_fuel|]. intros t _.
  destruct (IsCopyableObjFuncs t) as [[]|]; try done.
  apply bind_fuel; [apply TYPE_OBJ_fuel|done].
Qed.

Lemma make_copy_fuel (obj : Obj) (mut with_len : bool) (h : Heap) :
  make_copy obj mut with_len h ≠ OutOfFuel.
Proof.
  unfold make_copy. apply bind_fuel; [apply TNUM_OBJ_fuel|]. intros t _.
  apply bind_fuel; [apply SIZE_OBJ_fuel|]. intros sz _. unfold NewBag. cbn iota beta.
  apply bind_fuel; [apply ADDR_OBJ_get_fuel|]. intros k _.
  apply bind_fuel; [apply ADDR_OBJ_set_fuel|]. intros ha _.
  apply bind_fuel.
  { destruct with_len; [|done]. apply bind_fuel; [apply ADDR_OBJ_get_fuel|].
    intros n _. apply ADDR_OBJ_set_fuel. }
  intros hb _. apply bind_fuel; [|done].
  destruct mut; [done|]. unfold RESET_FILTER_OBJ_IsMutable.
  apply bind_fuel; [apply TYPE_OBJ_fuel|]. intros k' _. apply SET_TYPE_OBJ_fuel.
Qed.

Lemma leave_forwarding_fuel (obj copy : Obj) (h : Heap) :
  leave_forwarding obj copy h ≠ OutOfFuel.
Proof.
  unfold leave_forwarding, NewBag. cbn iota beta.
  apply bind_fuel; [apply ADDR_OBJ_set_fuel|]. intros ha _.
  apply bind_fuel; [apply ADDR_OBJ_get_fuel|]. intros k _.
  apply bind_fuel; [apply ADDR_OBJ_set_fuel|]. intros hb _.
  apply bind_fuel; [apply ADDR_OBJ_set_fuel|]. intros hc _.
  apply bind_fuel; [apply ADDR_OBJ_set_fuel|]. intros hd _.
  apply bind_fuel; [apply TNUM_OBJ_fuel|]. intros t _. apply RetypeBag_fuel.
Qed.

Lemma remove_forwarding_fuel (obj : Obj) (h : Heap) : remove_forwarding obj h ≠ OutOfFuel.
Proof.
  unfold remove_forwarding.
  apply bind_fuel; [apply ADDR_OBJ_get_fuel|]. intros f _.
  apply bind_fuel; [apply ADDR_OBJ_get_fuel|]. intros k _.
  apply bind_fuel; [apply ADDR_OBJ_set_fuel|]. intros ha _.
  apply bind_fuel; [apply TNUM_OBJ_fuel|]. intros t _. apply RetypeBag_fuel.
Qed.

End FuelOfSteps.

(** ** The structural copy, step by step *)

Section CopyProps.
Context `{Tnums} `{!TnumsOK} `{Kinds} `{Threads}.
Variable h0 : Heap.
Hypothesis Hreg : regular_heap h0.

Lemma copy_inv_start : copy_inv h0 h0 ∅.
Proof.
  destruct Hreg as [[Hb Ha] Hd Ht Hc]. split.
  - split; [lia|done].
  - intros k b E. by apply Hd in E as [_ ?].
  - done.
  - intros o c E. by rewrite lookup_empty in E.
  - intros k b Hk E. apply Hd in E. lia.
  - intros o1 o2 c E. by rewrite lookup_empty in E.
Qed.

Lemma copied_to_mono (fwd fwd' : gmap Z Z) (v w : Obj) :
  fwd ⊆ fwd' → copied_to h0 fwd v w → copied_to h0 fwd' v w.
Proof.
  intros Hsub [E|E]; [left|by right]. by eapply lookup_weaken.
Qed.

Lemma reach_mono (S S' : Obj → Prop) (a x : Obj) :
  (∀ y, S y → S' y) → reach h0 S a x → reach h0 S' a x.
Proof.
  intros HS. induction 1 as [x Hx|x y z Hx Hc _ IH].
  - apply reach_here. auto.
  - eapply reach_child; eauto.
Qed.

Lemma forwarded_bounds (h : Heap) (fwd : gmap Z Z) (o c : Obj) :
  copy_inv h0 h fwd → fwd !! o = Some c →
  o < brk h0 ∧ brk h0 ≤ c < brk h ∧ is_immediate o = false.
Proof.
  intros Hi E. destruct (ci_fwd _ _ _ Hi _ _ E)
    as (b0 & f & bf & bc & E0 & Hm & Eo & Hf & Ef & Tf & F1 & F2 & Hc & Ec & Tc).
  destruct Hreg as [_ Hd _ _]. apply Hd in E0.
  apply (ci_dom _ _ _ Hi) in Ec. destruct Hm as [Him _]. repeat split; (done || lia).
Qed.

(** A finished copy stays finished while its bag is left alone. *)
Lemma copy_complete_frame (mut : bool) (h h' : Heap) (fwd fwd' : gmap Z Z) (x : Obj) :
  copy_inv h0 h fwd → copy_complete h0 mut h fwd x → fwd ⊆ fwd' →
  (∀ c, fwd !! x = Some c → bags h' !! c = bags h !! c) →
  copy_complete h0 mut h' fwd' x.
Proof.
  intros Hi (b0 & c & bc & k & E0 & Ec & Ebc & Ht & Hs & Ek & Ekc & Hch & Hw) Hsub Hfr.
  exists b0, c, bc, k. repeat split; try done.
  - by eapply lookup_weaken.
  - rewrite Hfr by done. done.
  - intros i v Hi' Ev. destruct (Hch i v Hi' Ev) as (w & Ew & Hcp).
    exists w. split; [done|]. by eapply copied_to_mono.
Qed.


Lemma ADDR_OBJ_get_inv (h : Heap) (o : Obj) (i : nat) (v : Z) (b : Bag) :
  bags h !! o = Some b → ADDR_OBJ_get h o i = Ret v → data (PTR_BAG b) !! i = Some v.
Proof.
  intros E Hg. apply ADDR_OBJ_get_Ret in Hg as (b' & E' & Hv). congruence.
Qed.

Lemma ADDR_OBJ_set_inv (h : Heap) (o : Obj) (i : nat) (v : Z) (h' : Heap) (b : Bag) :
  bags h !! o = Some b → ADDR_OBJ_set h o i v = Ret h' →
  (i < length (data (PTR_BAG b)))%nat ∧ h' = put_bag h o (set_word b i v).
Proof.
  intros E Hs. apply ADDR_OBJ_set_Ret in Hs as (b' & E' & Hi & ->).
  assert (b' = b) as -> by congruence. done.
Qed.

Lemma RetypeBag_inv (h : Heap) (o : Obj) (t : Z) (h' : Heap) (b : Bag) :
  bags h !! o = Some b → RetypeBag h o t = Ret h' → h' = put_bag h o (set_tnum b t).
Proof.
  intros E Hs. apply RetypeBag_Ret in Hs as (b' & E' & ->).
  assert (b' = b) as -> by congruence. done.
Qed.

Lemma TYPE_OBJ_structural (h : Heap) (o : Obj) (b : Bag) :
  is_immediate o = false → bags h !! o = Some b → structural_tnum (tnum (PTR_BAG b)) →
  TYPE_OBJ h o = ADDR_OBJ_get h o 0.
Proof.
  intros Him E Hs. unfold TYPE_OBJ. rewrite (TNUM_OBJ_bag _ _ _ Him E), bind_Ret_l.
  destruct (TypeObjFuncs_structural _ Hs) as (f & -> & Hf).
  by destruct f.
Qed.

Lemma SET_TYPE_OBJ_structural (h : Heap) (o : Obj) (kind : Obj) (b : Bag) :
  is_immediate o = false → bags h !! o = Some b → structural_tnum (tnum (PTR_BAG b)) →
  SET_TYPE_OBJ h o kind = ADDR_OBJ_set h o 0 kind.
Proof.
  intros Him E Hs. unfold SET_TYPE_OBJ. rewrite (TNUM_OBJ_bag _ _ _ Him E), bind_Ret_l.
  unfold SetTypeObjFuncs. destruct (TypeObjFuncs_structural _ Hs) as (f & -> & Hf).
  by destruct f.
Qed.

Lemma IS_MUTABLE_OBJ_structural (h : Heap) (o : Obj) (b : Bag) (m : bool) :
  is_immediate o = false → bags h !! o = Some b → structural_tnum (tnum (PTR_BAG b)) →
  IS_MUTABLE_OBJ h o = Ret m →
  ∃ k, data (PTR_BAG b) !! 0%nat = Some k ∧ m = KindIsMutable k.
Proof.
  intros Him E Hs. unfold IS_MUTABLE_OBJ.
  rewrite (TNUM_OBJ_bag _ _ _ Him E), bind_Ret_l.
  rewrite IsMutableObjFuncs_structural by done.
  rewrite (TYPE_OBJ_structural _ _ _ Him E Hs). intros Hb. inv_bind Hb.
  apply (ADDR_OBJ_get_inv _ _ _ _ _ E) in E0. injection Hb as <-. eauto.
Qed.

(** The allocation of the copy, read off the heap it returns. *)
Lemma make_copy_spec (obj : Obj) (mut with_len : bool) (h : Heap) (b0 : Bag) (k : Z)
    (copy : Obj) (h1 : Heap) :
  is_immediate obj = false → bags h !! obj = Some b0 → obj < brk h →
  brk h `mod` 4 = 0 →
  structural_tnum (tnum (PTR_BAG b0)) → data (PTR_BAG b0) !! 0%nat = Some k →
  make_copy obj mut with_len h = Ret (copy, h1) →
  ∃ bc, copy = brk h ∧ h1 = put_bag (next_handle h) (brk h) bc
      ∧ tnum (PTR_BAG bc) = tnum (PTR_BAG b0)
      ∧ size (PTR_BAG bc) = size (PTR_BAG b0)
      ∧ length (data (PTR_BAG bc)) = nwords (size (PTR_BAG b0))
      ∧ data (PTR_BAG bc) !! 0%nat = Some (if mut then k else KindResetMutable k)
      ∧ (with_len = true → data (PTR_BAG bc) !! 1%nat = data (PTR_BAG b0) !! 1%nat)
      ∧ (∀ i, ((if with_len then 2 else 1) ≤ i < nwords (size (PTR_BAG b0)))%nat →
              data (PTR_BAG bc) !! i = Some 0).
Proof.
  intros Him E Hlt Hal Hs Ek Hmk. unfold make_copy in Hmk.
  rewrite (TNUM_OBJ_bag _ _ _ Him E), bind_Ret_l in Hmk.
  rewrite (SIZE_OBJ_lookup _ _ _ E), bind_Ret_l in Hmk.
  unfold NewBag in Hmk. cbn iota beta in Hmk.
  set (t0 := tnum (PTR_BAG b0)) in *. set (sz := size (PTR_BAG b0)) in *.
  set (hn := put_bag (next_handle h) (brk h) (fresh_bag t0 sz)) in Hmk.
  assert (bags hn !! obj = Some b0) as En.
  { unfold hn. rewrite bags_put_bag_ne by lia. done. }
  assert (is_immediate (brk h) = false) as Hic by (by apply aligned_not_immediate).
  rewrite (ADDR_OBJ_get_lookup _ _ _ _ _ En Ek), bind_Ret_l in Hmk.
  bind_inv Hmk as ha Ea.
  apply (ADDR_OBJ_set_inv _ _ _ _ _ (fresh_bag t0 sz)) in Ea as [Hl0 ->];
    [|apply bags_put_bag_eq].
  unfold hn in Hmk. rewrite put_bag_put_bag in Hmk.
  set (b1 := set_word (fresh_bag t0 sz) 0 k) in *.
  assert (length (data (PTR_BAG b1)) = nwords sz) as Hlen1.
  { unfold b1, set_word, fresh_bag; simpl. by rewrite length_insert, length_replicate. }
  assert (∀ i, (1 ≤ i < nwords sz)%nat → data (PTR_BAG b1) !! i = Some 0) as Hz1.
  { intros i Hi. unfold b1. rewrite set_word_lookup by done.
    rewrite decide_False by lia. unfold fresh_bag; simpl.
    apply lookup_replicate_2. lia. }
  assert (data (PTR_BAG b1) !! 0%nat = Some k) as Hk1.
  { unfold b1. rewrite set_word_lookup by done. by rewrite decide_True. }
  (* the number of components *)
  bind_inv Hmk as hb Eb.
  assert (∃ b2, hb = put_bag (next_handle h) (brk h) b2
            ∧ tnum (PTR_BAG b2) = t0 ∧ size (PTR_BAG b2) = sz
            ∧ length (data (PTR_BAG b2)) = nwords sz
            ∧ data (PTR_BAG b2) !! 0%nat = Some k
            ∧ (with_len = true → data (PTR_BAG b2) !! 1%nat = data (PTR_BAG b0) !! 1%nat)
            ∧ (∀ i, ((if with_len then 2 else 1) ≤ i < nwords sz)%nat →
                    data (PTR_BAG b2) !! i = Some 0)) as (b2 & -> & T2 & S2 & L2 & K2 & N2 & Z2).
  { destruct with_len.
    - bind_inv Eb as n En'. unfold LEN_PREC in En'.
      apply (ADDR_OBJ_get_inv _ _ _ _ b0) in En';
        [|rewrite bags_put_bag_ne by lia; done].
      unfold SET_LEN_PREC in Eb.
      apply (ADDR_OBJ_set_inv _ _ _ _ _ b1) in Eb as [Hl1 ->]; [|apply bags_put_bag_eq].
      rewrite put_bag_put_bag. eexists. split; [done|].
      repeat split.
      + unfold set_word; simpl. by rewrite length_insert.
      + rewrite set_word_lookup by done. by rewrite decide_False.
      + intros _. rewrite set_word_lookup by done. by rewrite decide_True.
      + intros i Hi. rewrite set_word_lookup by done.
        rewrite decide_False by lia. apply Hz1. lia.
    - injection Eb as <-. exists b1. repeat split; try done. }
  (* the mutability filter *)
  bind_inv Hmk as hc Ec. injection Hmk as <- <-.
  destruct mut.
  - injection Ec as <-. exists b2. repeat split; done.
  - unfold RESET_FILTER_OBJ_IsMutable in Ec. bind_inv Ec as k' Ek'.
    rewrite (TYPE_OBJ_structural _ _ b2) in Ek';
      [|done|apply bags_put_bag_eq|rewrite T2; done].
    apply (ADDR_OBJ_get_inv _ _ _ _ b2) in Ek'; [|apply bags_put_bag_eq].
    assert (k' = k) as -> by congruence.
    rewrite (SET_TYPE_OBJ_structural _ _ _ b2) in Ec;
      [|done|apply bags_put_bag_eq|rewrite T2; done].
    apply (ADDR_OBJ_set_inv _ _ _ _ _ b2) in Ec as [Hl2 ->]; [|apply bags_put_bag_eq].
    rewrite put_bag_put_bag. eexists. split; [done|]. split; [done|].
    repeat split; try done.
    + unfold set_word; simpl. by rewrite length_insert.
    + rewrite set_word_lookup by done. by rewrite decide_True.
    + intros Hw. rewrite set_word_lookup by done. rewrite decide_False by lia. auto.
    + intros i Hi. rewrite set_word_lookup by done.
      rewrite decide_False by (destruct with_len; lia). auto.
Qed.


Lemma leave_forwarding_spec (obj copy : Obj) (h : Heap) (b0 : Bag) (k : Z) (h2 : Heap) :
  is_immediate obj = false → bags h !! obj = Some b0 → obj < brk h →
  data (PTR_BAG b0) !! 0%nat = Some k →
  leave_forwarding obj copy h = Ret h2 →
  ∃ bf, h2 = put_bag (put_bag (next_handle h) (brk h) bf) obj
               (set_tnum (set_word b0 0 (brk h)) (tnum (PTR_BAG b0) + COPYING))
      ∧ tnum (PTR_BAG bf) = T_PLIST
      ∧ data (PTR_BAG bf) !! 1%nat = Some k
      ∧ data (PTR_BAG bf) !! 2%nat = Some copy.
Proof.
  intros Him E Hlt Ek Hlf. unfold leave_forwarding, NewBag in Hlf. cbn iota beta in Hlf.
  unfold SET_LEN_PLIST, SET_ELM_PLIST in Hlf.
  set (bn := fresh_bag T_PLIST (3 * sizeof_Obj)) in *.
  bind_inv Hlf as ha Ea.
  apply (ADDR_OBJ_set_inv _ _ _ _ _ bn) in Ea as [_ ->]; [|apply bags_put_bag_eq].
  rewrite put_bag_put_bag in Hlf.
  bind_inv Hlf as k' Ek'.
  apply (ADDR_OBJ_get_inv _ _ _ _ b0) in Ek'; [|rewrite bags_put_bag_ne by lia; done].
  assert (k' = k) as -> by congruence.
  bind_inv Hlf as hb Eb.
  apply (ADDR_OBJ_set_inv _ _ _ _ _ (set_word bn 0 2)) in Eb as [_ ->];
    [|apply bags_put_bag_eq].
  rewrite put_bag_put_bag in Hlf.
  bind_inv Hlf as hc Ec.
  apply (ADDR_OBJ_set_inv _ _ _ _ _ (set_word (set_word bn 0 2) 1 k)) in Ec as [_ ->];
    [|apply bags_put_bag_eq].
  rewrite put_bag_put_bag in Hlf.
  set (bf := set_word (set_word (set_word bn 0 2) 1 k) 2 copy) in *.
  bind_inv Hlf as hd Ed.
  apply (ADDR_OBJ_set_inv _ _ _ _ _ b0) in Ed as [Hl0 ->];
    [|rewrite bags_put_bag_ne by lia; done].
  bind_inv Hlf as t Et.
  rewrite (TNUM_OBJ_bag _ _ (set_word b0 0 (brk h))) in Et;
    [|done|apply bags_put_bag_eq].
  injection Et as <-.
  apply (RetypeBag_inv _ _ _ _ (set_word b0 0 (brk h))) in Hlf; [|apply bags_put_bag_eq].
  rewrite put_bag_put_bag in Hlf. subst h2.
  exists bf. split; [done|]. split; [done|]. split; reflexivity.
Qed.

Lemma set_word_restore (b0 : Bag) (f k : Z) (t : Z) :
  data (PTR_BAG b0) !! 0%nat = Some k →
  set_tnum (set_word (set_tnum (set_word b0 0 f) t) 0 k) (tnum (PTR_BAG b0)) = b0.
Proof.
  intros Ek. destruct b0 as [[t0 sz ws] ds]. unfold set_tnum, set_word; simpl in *.
  rewrite list_insert_insert_eq. by rewrite list_insert_id.
Qed.

Lemma remove_forwarding_spec (obj : Obj) (h : Heap) (b0 : Bag) (f : Obj) (bf : Bag)
    (h' : Heap) :
  is_immediate obj = false →
  bags h !! obj = Some (set_tnum (set_word b0 0 f) (tnum (PTR_BAG b0) + COPYING)) →
  bags h !! f = Some bf → f ≠ obj →
  data (PTR_BAG bf) !! 1%nat = data (PTR_BAG b0) !! 0%nat →
  is_Some (data (PTR_BAG b0) !! 0%nat) →
  remove_forwarding obj h = Ret h' → h' = put_bag h obj b0.
Proof.
  intros Him Eo Ef Hne Hf1 [k Ek] Hrm. unfold remove_forwarding, ELM_PLIST in Hrm.
  set (bm := set_tnum (set_word b0 0 f) (tnum (PTR_BAG b0) + COPYING)) in *.
  assert (0 < length (data (PTR_BAG b0)))%nat as Hl0 by (by eapply lookup_lt_Some).
  bind_inv Hrm as f' Ef'.
  apply (ADDR_OBJ_get_inv _ _ _ _ bm) in Ef'; [|done].
  assert (f' = f) as ->.
  { unfold bm, set_tnum, set_word in Ef'; simpl in Ef'.
    rewrite list_lookup_insert_eq in Ef' by done. congruence. }
  bind_inv Hrm as k' Ek'.
  apply (ADDR_OBJ_get_inv _ _ _ _ bf) in Ek'; [|done].
  assert (k' = k) as -> by congruence.
  bind_inv Hrm as ha Ea.
  apply (ADDR_OBJ_set_inv _ _ _ _ _ bm) in Ea as [_ ->]; [|done].
  bind_inv Hrm as t Et.
  rewrite (TNUM_OBJ_bag _ _ (set_word bm 0 k)) in Et; [|done|apply bags_put_bag_eq].
  injection Et as <-.
  apply (RetypeBag_inv _ _ _ _ (set_word bm 0 k)) in Hrm; [|apply bags_put_bag_eq].
  rewrite put_bag_put_bag in Hrm. subst h'. f_equal.
  unfold bm. cbn [set_word set_tnum PTR_BAG tnum].
  replace (tnum (PTR_BAG b0) + COPYING - COPYING) with (tnum (PTR_BAG b0)) by lia.
  by apply set_word_restore.
Qed.


(** Marking [obj]: the copy and the forwarding record are the next two
    handles, and the invariant holds with [obj] forwarded to the copy. *)
Lemma mark_spec (mut with_len : bool) (obj : Obj) (h : Heap) (fwd : gmap Z Z)
    (b0 : Bag) (k : Z) (copy : Obj) (h1 h2 : Heap) :
  copy_inv h0 h fwd → mutable_structural h0 obj →
  bags h0 !! obj = Some b0 → data (PTR_BAG b0) !! 0%nat = Some k →
  fwd !! obj = None →
  make_copy obj mut with_len h = Ret (copy, h1) →
  leave_forwarding obj copy h1 = Ret h2 →
  ∃ bc, copy = brk h
      ∧ copy_inv h0 h2 (<[obj := copy]> fwd)
      ∧ brk h2 = brk h + 8
      ∧ (∀ k', k' < brk h → k' ≠ obj → bags h2 !! k' = bags h !! k')
      ∧ bags h2 !! copy = Some bc
      ∧ tnum (PTR_BAG bc) = tnum (PTR_BAG b0)
      ∧ size (PTR_BAG bc) = size (PTR_BAG b0)
      ∧ length (data (PTR_BAG bc)) = nwords (size (PTR_BAG b0))
      ∧ data (PTR_BAG bc) !! 0%nat = Some (if mut then k else KindResetMutable k)
      ∧ (with_len = true → data (PTR_BAG bc) !! 1%nat = data (PTR_BAG b0) !! 1%nat)
      ∧ (∀ i, ((if with_len then 2 else 1) ≤ i < nwords (size (PTR_BAG b0)))%nat →
              data (PTR_BAG bc) !! i = Some 0).
Proof.
  intros Hi Hm E0 Ek Hnone Hmk Hlf.
  pose proof Hm as (Him & b0' & k' & E0' & Hst & Ek' & Hmut).
  assert (b0' = b0) as -> by congruence. assert (k' = k) as -> by congruence.
  destruct Hreg as [_ Hd _ _]. pose proof (Hd _ _ E0) as Hobj.
  destruct (ci_brk _ _ _ Hi) as [Hb Hal].
  assert (bags h !! obj = Some b0) as Eh.
  { rewrite (ci_old _ _ _ Hi) by (done || lia). done. }
  destruct (make_copy_spec obj mut with_len h b0 k copy h1)
    as (bc & -> & -> & Tc & Sc & Lc & Kc & Nc & Zc); try done; [lia|].
  destruct (leave_forwarding_spec obj (brk h) (put_bag (next_handle h) (brk h) bc) b0 k h2)
    as (bf & -> & Tf & F1 & F2); try done.
  { rewrite bags_put_bag_ne by lia. done. }
  { simpl. lia. }
  set (bm := set_tnum (set_word b0 0 (brk (put_bag (next_handle h) (brk h) bc)))
               (tnum (PTR_BAG b0) + COPYING)).
  set (h2 := put_bag _ obj bm).
  assert (∀ x, bags h2 !! x
               = if decide (obj = x) then Some bm
                 else if decide (brk h + 4 = x) then Some bf
                 else if decide (brk h = x) then Some bc
                 else bags h !! x) as Hlook.
  { intros x. unfold h2. rewrite !bags_put_bag. simpl. by rewrite lookup_insert. }
  assert (∀ x b, bags h !! x = Some b → bags h2 !! x = Some b ∨ x = obj) as Hkeep.
  { intros x b Ex. pose proof (ci_dom _ _ _ Hi _ _ Ex). rewrite Hlook.
    destruct (decide (obj = x)); [by right|left].
    rewrite !decide_False by lia. done. }
  exists bc. split; [done|]. split; [|split; [simpl; lia|split; [|split]]].
  - split.
    + simpl. split; [lia|]. rewrite <- Z.add_assoc. change (4 + 4) with (2 * 4).
      rewrite Z.mod_add by lia. done.
    + intros x b. rewrite Hlook. simpl.
      repeat (destruct (decide _); [intros _; lia|]).
      intros Ex. pose proof (ci_dom _ _ _ Hi _ _ Ex). lia.
    + intros o Ho Hf. apply lookup_insert_None in Hf as [Hf Hne].
      rewrite Hlook. rewrite !decide_False by lia. by apply (ci_old _ _ _ Hi).
    + intros o c Hf. apply lookup_insert_Some in Hf as [[<- <-]|[Hne Hf]].
      * exists b0, (brk h + 4), bf, bc. split; [done|]. split; [done|].
        split; [rewrite Hlook, decide_True by done; done|].
        split; [lia|]. split.
        { rewrite Hlook. rewrite decide_False by lia. by rewrite decide_True. }
        split; [done|]. split; [congruence|]. split; [done|]. split; [lia|].
        split.
        { rewrite Hlook. rewrite !decide_False by lia. by rewrite decide_True. }
        by rewrite Tc.
      * destruct (ci_fwd _ _ _ Hi _ _ Hf)
          as (bo & f & bf' & bc' & Eo & Hmo & Eho & Hf' & Ef & Tf' & F1' & F2' & Hc & Ec & Tc').
        exists bo, f, bf', bc'. split; [done|]. split; [done|].
        split; [destruct (Hkeep _ _ Eho); done|].
        split; [done|].
        split; [destruct (Hkeep _ _ Ef); [done|lia]|].
        split; [done|]. split; [done|]. split; [done|]. split; [done|].
        split; [destruct (Hkeep _ _ Ec); [done|lia]|done].
    + intros x b Hx. rewrite Hlook. rewrite decide_False by lia.
      destruct (decide (brk h + 4 = x)); [intros [= <-]; by left|].
      destruct (decide (brk h = x)); [intros [= <-]; right; by rewrite Tc|].
      by apply (ci_new _ _ _ Hi).
    + intros o1 o2 c H1' H2'.
      apply lookup_insert_Some in H1' as [[<- <-]|[Hne1 H1']];
        apply lookup_insert_Some in H2' as [[<- Hc2]|[Hne2 H2']]; try done.
      * destruct (forwarded_bounds _ _ _ _ Hi H2'). lia.
      * subst c. destruct (forwarded_bounds _ _ _ _ Hi H1'). lia.
      * by eapply (ci_inj _ _ _ Hi).
  - intros x Hx Hne. rewrite Hlook. rewrite !decide_False by lia. done.
  - rewrite Hlook. rewrite !decide_False by lia. by rewrite decide_True.
  - done.
Qed.


(** Writing into a copy keeps the invariant. *)
Lemma put_copy_inv (h : Heap) (fwd : gmap Z Z) (obj copy : Obj) (bc bc' : Bag) :
  copy_inv h0 h fwd → fwd !! obj = Some copy → bags h !! copy = Some bc →
  tnum (PTR_BAG bc') = tnum (PTR_BAG bc) →
  copy_inv h0 (put_bag h copy bc') fwd.
Proof.
  intros Hi Hf Ec Ht.
  destruct (forwarded_bounds _ _ _ _ Hi Hf) as (Ho & Hc & _).
  assert (structural_tnum (tnum (PTR_BAG bc))) as Hsc.
  { destruct (ci_fwd _ _ _ Hi _ _ Hf) as (?&?&?&bc0&?&?&?&?&?&?&?&?&?&Ec0&Hs).
    assert (bc0 = bc) as -> by congruence. done. }
  assert (∀ x b, bags h !! x = Some b → tnum (PTR_BAG b) = T_PLIST →
                 bags (put_bag h copy bc') !! x = Some b) as Hpl.
  { intros x b Ex Tx. rewrite bags_put_bag_ne; [done|]. intros Heq.
    rewrite <- Heq, Ec in Ex. injection Ex as <-. rewrite Tx in Hsc.
    by apply plist_real in Hsc. }
  split.
  - apply (ci_brk _ _ _ Hi).
  - intros x b. rewrite bags_put_bag. destruct (decide (copy = x)) as [<-|_].
    + intros _. simpl. lia.
    + apply (ci_dom _ _ _ Hi).
  - intros o Hlt Hn. rewrite bags_put_bag_ne by lia. by apply (ci_old _ _ _ Hi).
  - intros o c Hoc.
    destruct (ci_fwd _ _ _ Hi _ _ Hoc)
      as (bo & f & bf & bc1 & Eo & Hmo & Eho & Hf' & Ef & Tf & F1 & F2 & Hc' & Ec1 & Tc1).
    destruct (forwarded_bounds _ _ _ _ Hi Hoc) as (Ho' & _ & _).
    destruct (decide (c = copy)) as [->|Hne].
    + exists bo, f, bf, bc'. split; [done|]. split; [done|].
      split; [rewrite bags_put_bag_ne by lia; done|]. split; [done|].
      split; [by apply Hpl|]. split; [done|]. split; [done|]. split; [done|].
      split; [done|]. split; [apply bags_put_bag_eq|by rewrite Ht].
    + exists bo, f, bf, bc1. split; [done|]. split; [done|].
      split; [rewrite bags_put_bag_ne by lia; done|]. split; [done|].
      split; [by apply Hpl|]. split; [done|]. split; [done|]. split; [done|].
      split; [done|]. split; [rewrite bags_put_bag_ne by done; done|done].
  - intros x b Hx. rewrite bags_put_bag. destruct (decide (copy = x)) as [<-|_].
    + intros [= <-]. right. by rewrite Ht.
    + by apply (ci_new _ _ _ Hi).
  - apply (ci_inj _ _ _ Hi).
Qed.

Lemma newly_same (fwd : gmap Z Z) (x : Obj) : ¬ newly fwd fwd x.
Proof. intros [E [c Ec]]. congruence. Qed.

Lemma loop_step_refl (mut : bool) (obj copy : Obj) (h : Heap) (fwd : gmap Z Z) :
  copy_inv h0 h fwd → loop_step h0 mut obj copy h fwd h fwd.
Proof.
  intros Hi. split; [done|]. split; [done|]. split; [lia|]. split; [done|].
  intros x Hx. by apply newly_same in Hx.
Qed.

Lemma loop_step_call (mut : bool) (obj copy v : Obj) (h h1 : Heap) (fwd fwd1 : gmap Z Z) :
  copy_step h0 mut v h fwd h1 fwd1 → child h0 obj v →
  loop_step h0 mut obj copy h fwd h1 fwd1.
Proof.
  intros (Hsub & Hi & Hb & Hfr & Hnew) Hch.
  split; [done|]. split; [done|]. split; [done|]. split; [auto|].
  intros x Hx. destruct (Hnew x Hx) as [Hc Hr]. split; [done|]. eauto.
Qed.

Lemma loop_step_write (mut : bool) (obj copy : Obj) (h h1 : Heap)
    (fwd fwd1 : gmap Z Z) (bc bc' : Bag) :
  loop_step h0 mut obj copy h fwd h1 fwd1 → fwd !! obj = Some copy →
  bags h1 !! copy = Some bc → tnum (PTR_BAG bc') = tnum (PTR_BAG bc) →
  loop_step h0 mut obj copy h fwd (put_bag h1 copy bc') fwd1.
Proof.
  intros (Hsub & Hi & Hb & Hfr & Hnew) Hf Ec Ht.
  assert (fwd1 !! obj = Some copy) as Hf1 by (by eapply lookup_weaken).
  split; [done|]. split; [by eapply put_copy_inv|]. split; [done|]. split.
  - intros k Hk Hne. rewrite bags_put_bag_ne by done. auto.
  - intros x Hx. destruct (Hnew x Hx) as [Hc Hr]. split; [|done].
    eapply copy_complete_frame; [exact Hi|exact Hc|done|].
    intros c Hxc. rewrite bags_put_bag_ne; [done|]. intros <-.
    destruct Hx as [Hx _]. assert (obj = x) by (by eapply (ci_inj _ _ _ Hi)).
    congruence.
Qed.

Lemma loop_step_trans (mut : bool) (obj copy : Obj) (h h1 h2 : Heap)
    (fwd fwd1 fwd2 : gmap Z Z) :
  fwd !! obj = Some copy →
  loop_step h0 mut obj copy h fwd h1 fwd1 →
  loop_step h0 mut obj copy h1 fwd1 h2 fwd2 →
  loop_step h0 mut obj copy h fwd h2 fwd2.
Proof.
  intros Hf (Hsub1 & Hi1 & Hb1 & Hfr1 & Hnew1) (Hsub2 & Hi2 & Hb2 & Hfr2 & Hnew2).
  assert (fwd1 !! obj = Some copy) as Hf1 by (by eapply lookup_weaken).
  split; [by etrans|]. split; [done|]. split; [lia|]. split.
  - intros k Hk Hne. rewrite Hfr2 by (done || lia). auto.
  - intros x [Hx0 Hx2]. destruct (fwd1 !! x) as [c|] eqn:Ex1.
    + destruct (Hnew1 x) as [Hc (v & Hv & Hr)]; [by split|]. split.
      * eapply copy_complete_frame; [exact Hi1|exact Hc|done|].
        intros c' Hxc. destruct (forwarded_bounds _ _ _ _ Hi1 Hxc) as (_ & ? & _).
        apply Hfr2; [lia|]. intros ->.
        assert (obj = x) by (by eapply (ci_inj _ _ _ Hi1)). congruence.
      * exists v. split; [done|]. eapply reach_mono; [|exact Hr].
        intros y [Hy0 [cy Hy1]]. split; [done|]. exists cy. by eapply lookup_weaken.
    + destruct (Hnew2 x) as [Hc (v & Hv & Hr)]; [by split|]. split; [done|].
      exists v. split; [done|]. eapply reach_mono; [|exact Hr].
      intros y [Hy1 Hy2]. split; [|done].
      destruct (fwd !! y) eqn:Ey; [|done].
      eapply lookup_weaken in Ey; [|exact Hsub1]. congruence.
Qed.


Lemma null_not_copied : ¬ mutable_structural h0 0.
Proof.
  intros (_ & b & k & E & _). destruct Hreg as [_ Hd _ _]. apply Hd in E. lia.
Qed.

Lemma copied_to_null (fwd : gmap Z Z) : copied_to h0 fwd 0 0.
Proof. right. split; [apply null_not_copied|done]. Qed.

Lemma child_old (x c : Obj) : mutable_structural h0 x → child h0 x c → old_value h0 c.
Proof.
  intros Hm Hc. destruct Hreg as [[Hb _] Hd _ Hcl].
  destruct (Hcl x c Hm Hc) as [->|[Hi|[b E]]].
  - left. lia.
  - by right.
  - left. apply Hd in E. lia.
Qed.

(** A marked object still shows its words after word 0, and its size. *)
Lemma marked_bag (h : Heap) (fwd : gmap Z Z) (obj copy : Obj) (b0 : Bag) :
  copy_inv h0 h fwd → fwd !! obj = Some copy → bags h0 !! obj = Some b0 →
  ∃ f, bags h !! obj = Some (set_tnum (set_word b0 0 f) (tnum (PTR_BAG b0) + COPYING)).
Proof.
  intros Hi Hf E0. destruct (ci_fwd _ _ _ Hi _ _ Hf) as (b & f & ? & ? & Eb & _ & Eo & _).
  assert (b = b0) as -> by congruence. eauto.
Qed.

Lemma marked_read (h : Heap) (fwd : gmap Z Z) (obj copy : Obj) (b0 : Bag) (i : nat) (v : Z) :
  copy_inv h0 h fwd → fwd !! obj = Some copy → bags h0 !! obj = Some b0 →
  (1 ≤ i)%nat → ADDR_OBJ_get h obj i = Ret v → data (PTR_BAG b0) !! i = Some v.
Proof.
  intros Hi Hf E0 Hle Hg. destruct (marked_bag _ _ _ _ _ Hi Hf E0) as [f Eo].
  apply (ADDR_OBJ_get_inv _ _ _ _ _ Eo) in Hg. unfold set_tnum, set_word in Hg; simpl in Hg.
  rewrite list_lookup_insert_ne in Hg by lia. done.
Qed.

Lemma marked_size (h : Heap) (fwd : gmap Z Z) (obj copy : Obj) (b0 : Bag) (sz : Z) :
  copy_inv h0 h fwd → fwd !! obj = Some copy → bags h0 !! obj = Some b0 →
  SIZE_OBJ h obj = Ret sz → sz = size (PTR_BAG b0).
Proof.
  intros Hi Hf E0 Hg. destruct (marked_bag _ _ _ _ _ Hi Hf E0) as [f Eo].
  rewrite (SIZE_OBJ_lookup _ _ _ Eo) in Hg. by injection Hg as <-.
Qed.

Section Loops.
Variable COPY : Obj → bool → Heap → outcome (Obj * Heap).
Variable mut : bool.
Hypothesis HCOPY : COPY_ok h0 mut COPY.
Variable obj copy : Obj.
Variable b0 : Bag.
Hypothesis E0 : bags h0 !! obj = Some b0.
Hypothesis Hms : mutable_structural h0 obj.

(** One subobject: [COPY] it and store the result in the copy. *)
Lemma copy_slot (h : Heap) (fwd : gmap Z Z) (bc : Bag) (i : nat) (v tmp : Obj)
    (h1 h2 : Heap) :
  copy_inv h0 h fwd → fwd !! obj = Some copy → bags h !! copy = Some bc →
  i ∈ child_slots (PTR_BAG b0) → data (PTR_BAG b0) !! i = Some v →
  COPY v mut h = Ret (tmp, h1) → ADDR_OBJ_set h1 copy i tmp = Ret h2 →
  ∃ fwd1, loop_step h0 mut obj copy h fwd h2 fwd1
        ∧ (i < length (data (PTR_BAG bc)))%nat
        ∧ h2 = put_bag h1 copy (set_word bc i tmp)
        ∧ copied_to h0 fwd1 v tmp.
Proof.
  intros Hi Hf Ec Hslot Ev Hcp Hset.
  assert (child h0 obj v) as Hch by (exists i, b0; done).
  destruct (HCOPY v h fwd tmp h1 Hi (child_old _ _ Hms Hch) Hcp) as (fwd1 & Hstep & Hto).
  pose proof Hstep as (Hsub & Hi1 & Hb & Hfr & Hnew).
  destruct (forwarded_bounds _ _ _ _ Hi Hf) as (_ & Hc & _).
  assert (bags h1 !! copy = Some bc) as Ec1 by (rewrite Hfr by lia; done).
  destruct (ADDR_OBJ_set_inv _ _ _ _ _ _ Ec1 Hset) as [Hlt ->].
  exists fwd1. split; [|done].
  eapply loop_step_write; [|done|exact Ec1|done].
  eapply loop_step_call; [exact Hstep|exact Hch].
Qed.

Lemma CopyObjPosObj_loop_spec (idx : list nat) :
  ∀ (h : Heap) (fwd : gmap Z Z) (h' : Heap) (bc : Bag),
    copy_inv h0 h fwd → fwd !! obj = Some copy → bags h !! copy = Some bc →
    (∀ i, i ∈ idx → i ∈ child_slots (PTR_BAG b0) ∧ (1 ≤ i)%nat) →
    CopyObjPosObj_loop COPY obj copy mut idx h = Ret h' →
    ∃ fwd' bc', loop_step h0 mut obj copy h fwd h' fwd'
      ∧ bags h' !! copy = Some bc' ∧ same_shape bc bc'
      ∧ (∀ i, i ∉ idx → data (PTR_BAG bc') !! i = data (PTR_BAG bc) !! i)
      ∧ (∀ i v, i ∈ idx → data (PTR_BAG b0) !! i = Some v →
           (v = 0 ∧ data (PTR_BAG bc') !! i = data (PTR_BAG bc) !! i)
           ∨ ∃ w, data (PTR_BAG bc') !! i = Some w ∧ copied_to h0 fwd' v w).
Proof.
  induction idx as [|i idx IH]; intros h fwd h' bc Hi Hf Ec Hidx Hl.
  - injection Hl as <-. exists fwd, bc. split; [by apply loop_step_refl|].
    split; [done|]. split; [apply same_shape_refl|]. split; [done|].
    intros i v Hin. by apply elem_of_nil in Hin.
  - cbn [CopyObjPosObj_loop] in Hl. bind_inv Hl as v Ev.
    destruct (Hidx i) as [Hslot Hle]; [left|].
    apply (marked_read _ _ _ _ _ _ _ Hi Hf E0 Hle) in Ev.
    assert (∀ j, j ∈ idx → j ∈ child_slots (PTR_BAG b0) ∧ (1 ≤ j)%nat) as Hidx'.
    { intros j Hj. apply Hidx. by right. }
    bind_inv Hl as h2 E2. destruct (decide (v = 0)) as [->|Hv].
    + injection E2 as <-.
      destruct (IH h fwd h' bc Hi Hf Ec Hidx' Hl) as (fwd' & bc' & LS & Ec' & Hsh & Hout & Hin).
      exists fwd', bc'. split; [done|]. split; [done|]. split; [done|]. split.
      * intros j Hj. apply Hout. intros Hj'. apply Hj. by right.
      * intros j w Hj Ew. destruct (decide (j ∈ idx)) as [Hj'|Hj']; [by apply Hin|].
        apply elem_of_cons in Hj as [->|Hj]; [|done].
        left. split; [congruence|]. by apply Hout.
    + destruct (COPY v mut h) as [[tmp h1]| | |] eqn:Hcp; try done.
      rewrite bind_Ret_l in E2.
      destruct (copy_slot h fwd bc i v tmp h1 h2 Hi Hf Ec Hslot Ev Hcp E2)
        as (fwd1 & LS1 & Hlt & -> & Hto).
      pose proof LS1 as (Hsub1 & Hi1 & _).
      assert (fwd1 !! obj = Some copy) as Hf1 by (by eapply lookup_weaken).
      destruct (IH _ fwd1 h' (set_word bc i tmp) Hi1 Hf1 (bags_put_bag_eq _ _ _) Hidx' Hl)
        as (fwd' & bc' & LS & Ec' & Hsh & Hout & Hin).
      pose proof LS as (Hsub2 & _).
      exists fwd', bc'. split; [by eapply loop_step_trans|]. split; [done|].
      split; [eapply same_shape_trans; [apply same_shape_set_word|done]|]. split.
      * intros j Hj. rewrite Hout by (intros Hj'; apply Hj; by right).
        rewrite set_word_lookup by done. rewrite decide_False; [done|].
        intros <-. apply Hj. by left.
      * intros j w Hj Ew. destruct (decide (j ∈ idx)) as [Hj'|Hj'].
        -- destruct (Hin j w Hj' Ew) as [[-> Hsame]|Hr]; [left|by right].
           rewrite set_word_lookup in Hsame by done.
           destruct (decide (i = j)) as [<-|Hne]; [congruence|done].
        -- apply elem_of_cons in Hj as [->|Hj]; [|done].
           assert (w = v) as -> by congruence.
           right. exists tmp. split; [|by eapply copied_to_mono].
           rewrite Hout by done. rewrite set_word_lookup by done. by rewrite decide_True.
Qed.


Lemma CopyObjComObj_loop_spec (idx : list nat) :
  ∀ (h : Heap) (fwd : gmap Z Z) (h' : Heap) (bc : Bag),
    copy_inv h0 h fwd → fwd !! obj = Some copy → bags h !! copy = Some bc →
    (∀ i, i ∈ idx → (2 * i + 1)%nat ∈ child_slots (PTR_BAG b0) ∧ (1 ≤ i)%nat) →
    CopyObjComObj_loop COPY obj copy mut idx h = Ret h' →
    ∃ fwd' bc', loop_step h0 mut obj copy h fwd h' fwd'
      ∧ bags h' !! copy = Some bc' ∧ same_shape bc bc'
      ∧ (∀ j, (∀ i, i ∈ idx → j ≠ (2 * i)%nat ∧ j ≠ (2 * i + 1)%nat) →
              data (PTR_BAG bc') !! j = data (PTR_BAG bc) !! j)
      ∧ (∀ i, i ∈ idx →
           data (PTR_BAG bc') !! (2 * i)%nat = data (PTR_BAG b0) !! (2 * i)%nat
           ∧ is_Some (data (PTR_BAG b0) !! (2 * i)%nat)
           ∧ ∃ v w, data (PTR_BAG b0) !! (2 * i + 1)%nat = Some v
                    ∧ data (PTR_BAG bc') !! (2 * i + 1)%nat = Some w
                    ∧ copied_to h0 fwd' v w).
Proof.
  induction idx as [|i idx IH]; intros h fwd h' bc Hi Hf Ec Hidx Hl.
  - injection Hl as <-. exists fwd, bc. split; [by apply loop_step_refl|].
    split; [done|]. split; [apply same_shape_refl|]. split; [done|].
    intros i Hin. by apply elem_of_nil in Hin.
  - cbn [CopyObjComObj_loop] in Hl. unfold GET_RNAM_PREC, SET_RNAM_PREC in Hl.
    destruct (Hidx i) as [Hslot Hle]; [left|].
    assert (∀ j, j ∈ idx → (2 * j + 1)%nat ∈ child_slots (PTR_BAG b0) ∧ (1 ≤ j)%nat)
      as Hidx'.
    { intros j Hj. apply Hidx. by right. }
    bind_inv Hl as n En.
    apply (marked_read _ _ _ _ _ _ _ Hi Hf E0) in En; [|lia].
    bind_inv Hl as ha Ea.
    destruct (ADDR_OBJ_set_inv _ _ _ _ _ _ Ec Ea) as [Hlt0 ->].
    set (bca := set_word bc (2 * i) n) in *.
    assert (loop_step h0 mut obj copy h fwd (put_bag h copy bca) fwd) as LS0.
    { eapply loop_step_write; [by apply loop_step_refl|done|exact Ec|done]. }
    pose proof LS0 as (_ & Hia & _).
    unfold GET_ELM_PREC, SET_ELM_PREC in Hl.
    bind_inv Hl as v Ev.
    apply (marked_read _ _ _ _ _ _ _ Hia Hf E0) in Ev; [|lia].
    destruct (COPY v mut (put_bag h copy bca)) as [[tmp h1]| | |] eqn:Hcp; try done.
    rewrite bind_Ret_l in Hl. bind_inv Hl as h2 E2.
    destruct (copy_slot _ fwd bca _ v tmp h1 h2 Hia Hf (bags_put_bag_eq _ _ _) Hslot Ev Hcp E2)
      as (fwd1 & LS1 & Hlt & -> & Hto).
    pose proof LS1 as (Hsub1 & Hi1 & _).
    assert (fwd1 !! obj = Some copy) as Hf1 by (by eapply lookup_weaken).
    destruct (IH _ fwd1 h' (set_word bca (2 * i + 1) tmp) Hi1 Hf1 (bags_put_bag_eq _ _ _)
                Hidx' Hl) as (fwd' & bc' & LS & Ec' & Hsh & Hout & Hin).
    pose proof LS as (Hsub2 & _).
    assert (∀ j, data (PTR_BAG (set_word bca (2 * i + 1) tmp)) !! j
                 = if decide ((2 * i + 1)%nat = j) then Some tmp
                   else if decide ((2 * i)%nat = j) then Some n
                   else data (PTR_BAG bc) !! j) as Hlook.
    { intros j. rewrite set_word_lookup by done. unfold bca.
      by rewrite set_word_lookup by done. }
    exists fwd', bc'.
    split; [eapply loop_step_trans; [done| |exact LS];
            eapply loop_step_trans; [done|exact LS0|exact LS1]|].
    split; [done|].
    split; [eapply same_shape_trans; [|exact Hsh];
            eapply same_shape_trans; apply same_shape_set_word|].
    split.
    + intros j Hj. rewrite Hout by (intros k Hk; apply Hj; by right).
      rewrite Hlook. destruct (Hj i) as [Hj1 Hj2]; [left|].
      by rewrite !decide_False by done.
    + intros j Hj. destruct (decide (j ∈ idx)) as [Hj'|Hj']; [by apply Hin|].
      apply elem_of_cons in Hj as [->|Hj]; [|done].
      assert (∀ k, k ∈ idx → k ≠ i) as Hne by (intros k Hk ->; done).
      split; [|split; [by eexists|]].
      * rewrite Hout by (intros k Hk; apply Hne in Hk; lia).
        rewrite Hlook. rewrite decide_False by lia. by rewrite decide_True.
      * exists v, tmp. split; [done|]. split; [|by eapply copied_to_mono].
        rewrite Hout by (intros k Hk; apply Hne in Hk; lia).
        rewrite Hlook. by rewrite decide_True.
Qed.

Lemma CopyObjDatObj_loop_spec (idx : list nat) :
  ∀ (h : Heap) (fwd : gmap Z Z) (h' : Heap) (bc : Bag),
    copy_inv h0 h fwd → fwd !! obj = Some copy → bags h !! copy = Some bc →
    (∀ i, i ∈ idx → (1 ≤ i)%nat) →
    CopyObjDatObj_loop obj copy idx h = Ret h' →
    ∃ bc', loop_step h0 mut obj copy h fwd h' fwd
      ∧ bags h' !! copy = Some bc' ∧ same_shape bc bc'
      ∧ (∀ j, j ∉ idx → data (PTR_BAG bc') !! j = data (PTR_BAG bc) !! j)
      ∧ (∀ i, i ∈ idx → is_Some (data (PTR_BAG b0) !! i)
                        ∧ data (PTR_BAG bc') !! i = data (PTR_BAG b0) !! i).
Proof.
  induction idx as [|i idx IH]; intros h fwd h' bc Hi Hf Ec Hidx Hl.
  - injection Hl as <-. exists bc. split; [by apply loop_step_refl|].
    split; [done|]. split; [apply same_shape_refl|]. split; [done|].
    intros i Hin. by apply elem_of_nil in Hin.
  - cbn [CopyObjDatObj_loop] in Hl.
    assert (∀ j, j ∈ idx → (1 ≤ j)%nat) as Hidx' by (intros j Hj; apply Hidx; by right).
    bind_inv Hl as w Ew.
    apply (marked_read _ _ _ _ _ _ _ Hi Hf E0) in Ew; [|apply Hidx; by left].
    bind_inv Hl as ha Ea.
    destruct (ADDR_OBJ_set_inv _ _ _ _ _ _ Ec Ea) as [Hlt ->].
    assert (loop_step h0 mut obj copy h fwd (put_bag h copy (set_word bc i w)) fwd) as LS0.
    { eapply loop_step_write; [by apply loop_step_refl|done|exact Ec|done]. }
    pose proof LS0 as (_ & Hia & _).
    destruct (IH _ fwd h' (set_word bc i w) Hia Hf (bags_put_bag_eq _ _ _) Hidx' Hl)
      as (bc' & LS & Ec' & Hsh & Hout & Hin).
    exists bc'. split; [by eapply loop_step_trans|]. split; [done|].
    split; [eapply same_shape_trans; [apply same_shape_set_word|done]|]. split.
    + intros j Hj. rewrite Hout by (intros Hj'; apply Hj; by right).
      rewrite set_word_lookup by done. rewrite decide_False; [done|].
      intros <-. apply Hj. by left.
    + intros j Hj. destruct (decide (j ∈ idx)) as [Hj'|Hj']; [by apply Hin|].
      apply elem_of_cons in Hj as [->|Hj]; [|done].
      split; [by eexists|]. rewrite Hout by done.
      rewrite set_word_lookup by done. by rewrite decide_True.
Qed.

End Loops.


Lemma copy_step_refl (mut : bool) (root : Obj) (h : Heap) (fwd : gmap Z Z) :
  copy_inv h0 h fwd → copy_step h0 mut root h fwd h fwd.
Proof.
  intros Hi. split; [done|]. split; [done|]. split; [lia|]. split; [done|].
  intros x Hx. by apply newly_same in Hx.
Qed.

(** The common opening of the three copy bodies. *)
Lemma body_opening (mut with_len : bool) (rest : Obj → Heap → outcome (Obj * Heap))
    (obj : Obj) (h : Heap) (b0 : Bag) (new : Obj) (h' : Heap) :
  is_immediate obj = false → bags h !! obj = Some b0 →
  structural_tnum (tnum (PTR_BAG b0)) →
  (m ← IS_MUTABLE_OBJ h obj;
   if negb m then Ret (obj, h) else
   c ← IS_COPYABLE_OBJ h obj;
   if negb c then ErrorQuit "Panic: encountered mutable, non-copyable object" else
   '(copy, h) ← make_copy obj mut with_len h;
   h ← leave_forwarding obj copy h;
   rest copy h) = Ret (new, h') →
  ∃ k, data (PTR_BAG b0) !! 0%nat = Some k
     ∧ ((KindIsMutable k = false ∧ new = obj ∧ h' = h)
        ∨ (KindIsMutable k = true
           ∧ ∃ copy h1 h2, make_copy obj mut with_len h = Ret (copy, h1)
                           ∧ leave_forwarding obj copy h1 = Ret h2
                           ∧ rest copy h2 = Ret (new, h'))).
Proof.
  intros Him E Hs Hb. bind_inv Hb as m Em.
  destruct (IS_MUTABLE_OBJ_structural _ _ _ _ Him E Hs Em) as (k & Ek & ->).
  exists k. split; [done|]. destruct (KindIsMutable k); cbn [negb] in Hb.
  - right. split; [done|]. bind_inv Hb as c Ec. destruct (negb c); [done|].
    bind_inv Hb as p Ep. destruct p as [copy h1]. bind_inv Hb as h2 E2. eauto 6.
  - left. by injection Hb as <- <-.
Qed.

(** From the loop of a body to the call of the body. *)
Lemma body_closing (mut : bool) (obj copy : Obj) (h h2 h' : Heap) (fwd fwd' : gmap Z Z) :
  copy_inv h0 h fwd → fwd !! obj = None → obj < brk h0 → copy = brk h →
  (∀ k, k < brk h → k ≠ obj → bags h2 !! k = bags h !! k) → brk h ≤ brk h2 →
  loop_step h0 mut obj copy h2 (<[obj := copy]> fwd) h' fwd' →
  copy_complete h0 mut h' fwd' obj →
  copy_step h0 mut obj h fwd h' fwd'.
Proof.
  intros Hi Hn Hlt -> Hfr2 Hb2 (Hsub & Hi' & Hb & Hfr & Hnew) Hcc.
  assert (fwd ⊆ <[obj := brk h]> fwd) as Hsub0 by (by apply insert_subseteq).
  assert (is_Some (fwd' !! obj)) as Hobj.
  { exists (brk h). eapply lookup_weaken; [|exact Hsub]. apply lookup_insert_eq. }
  split; [by etrans|]. split; [done|]. split; [lia|]. split.
  - intros k Hk. rewrite Hfr by lia. apply Hfr2; lia.
  - intros x [Hx Hx']. destruct (decide (x = obj)) as [->|Hne].
    + split; [done|]. by apply reach_here.
    + destruct (Hnew x) as [Hc (c & Hch & Hr)].
      { split; [by rewrite lookup_insert_ne|done]. }
      split; [done|]. eapply reach_child; [by split|exact Hch|].
      eapply reach_mono; [|exact Hr]. intros y [Hy Hy']. split; [|done].
      destruct (fwd !! y) eqn:Ey; [|done].
      eapply lookup_weaken in Ey; [|exact Hsub0]. congruence.
Qed.


Lemma words_of_slots (sz : Z) (i : nat) :
  i ∈ seq 1 (Z.to_nat (sz / sizeof_Obj) - 1) → (1 ≤ i < nwords sz)%nat.
Proof.
  intros Hi. apply elem_of_seq in Hi. unfold nwords, sizeof_Obj in *.
  assert (sz / 8 ≤ (sz + 8 - 1) / 8) by (apply Z.div_le_mono; lia). lia.
Qed.

Section CopyBodies.
Variable COPY : Obj → bool → Heap → outcome (Obj * Heap).
Variable mut : bool.
Hypothesis HCOPY : COPY_ok h0 mut COPY.

Lemma CopyObjPosObj_ok (obj : Obj) (h : Heap) (fwd : gmap Z Z) (b0 : Bag)
    (new : Obj) (h' : Heap) :
  copy_inv h0 h fwd → is_immediate obj = false → bags h0 !! obj = Some b0 →
  fwd !! obj = None → tnum (PTR_BAG b0) = T_POSOBJ →
  CopyObjPosObj COPY obj mut h = Ret (new, h') →
  ∃ fwd', copy_step h0 mut obj h fwd h' fwd' ∧ copied_to h0 fwd' obj new.
Proof.
  intros Hi Him E0 Hn Ht Hb.
  assert (obj < brk h0) as Hlt by (destruct Hreg as [_ Hd _ _]; apply Hd in E0; lia).
  assert (bags h !! obj = Some b0) as Eh by (rewrite (ci_old _ _ _ Hi) by done; done).
  assert (structural_tnum (tnum (PTR_BAG b0))) as Hs by (by left).
  unfold CopyObjPosObj in Hb.
  apply (body_opening mut false
           (λ copy h, sz ← SIZE_OBJ h obj;
                      h ← CopyObjPosObj_loop COPY obj copy mut
                            (seq 1 (Z.to_nat (sz / sizeof_Obj) - 1)) h;
                      Ret (copy, h)) obj h b0) in Hb; [|done..].
  destruct Hb as (k & Ek & [(Hk & -> & ->)|(Hk & copy & h1 & h2 & Hmk & Hlf & Hrest)]).
  { exists fwd. split; [by apply copy_step_refl|]. right. split; [|done].
    intros (_ & b & k' & Eb & _ & Ek' & Hm). congruence. }
  assert (mutable_structural h0 obj) as Hms by (split; [done|]; eauto 6).
  destruct (mark_spec mut false obj h fwd b0 k copy h1 h2 Hi Hms E0 Ek Hn Hmk Hlf)
    as (bc & -> & Hi2 & Hbrk & Hfr & Ec & Tc & Sc & Lc & Kc & _ & Zc).
  assert (<[obj := brk h]> fwd !! obj = Some (brk h)) as Hf2 by apply lookup_insert_eq.
  bind_inv Hrest as sz Esz. apply (marked_size _ _ _ _ _ _ Hi2 Hf2 E0) in Esz as ->.
  bind_inv Hrest as hl Hl. injection Hrest as <- <-.
  destruct (CopyObjPosObj_loop_spec COPY mut HCOPY obj (brk h) b0 E0 Hms
              (seq 1 (Z.to_nat (size (PTR_BAG b0) / sizeof_Obj) - 1)) h2 _ hl bc
              Hi2 Hf2 Ec) as (fwd' & bc' & LS & Ec' & Hsh & Hout & Hin); [|exact Hl|].
  { intros i Hi'. unfold child_slots. rewrite decide_True by done.
    split; [done|]. by apply words_of_slots in Hi' as [? _]. }
  pose proof LS as (Hsub & _).
  assert (fwd' !! obj = Some (brk h)) as Hf' by (by eapply lookup_weaken).
  destruct Hsh as (Ts & Ss & _ & Ls).
  exists fwd'. split; [|by left].
  eapply body_closing; [exact Hi|done|done|done|exact Hfr|lia|exact LS|].
  exists b0, (brk h), bc', k. split; [done|]. split; [done|]. split; [done|].
  split; [congruence|]. split; [congruence|]. split; [done|]. split.
  { rewrite Hout; [done|]. intros H0'. apply elem_of_seq in H0'. lia. }
  unfold child_slots, walked_words. rewrite !decide_True by done. split.
  - intros i v Hi' Ev. destruct (Hin i v Hi' Ev) as [[-> Hsame]|Hr]; [|done].
    exists 0. split; [|apply copied_to_null]. rewrite Hsame. apply Zc.
    by apply words_of_slots.
  - intros i Hi' Hni. exfalso. apply Hni. apply elem_of_seq. lia.
Qed.


Lemma elem_of_map_seq (f : nat → nat) (l : list nat) (x : nat) :
  x ∈ map f l ↔ ∃ y, x = f y ∧ y ∈ l.
Proof.
  rewrite list_elem_of_In, in_map_iff. split; intros (y & Hy & Hl); exists y.
  - by rewrite list_elem_of_In.
  - by rewrite <- list_elem_of_In.
Qed.

Lemma CopyObjComObj_ok (obj : Obj) (h : Heap) (fwd : gmap Z Z) (b0 : Bag)
    (new : Obj) (h' : Heap) :
  copy_inv h0 h fwd → is_immediate obj = false → bags h0 !! obj = Some b0 →
  fwd !! obj = None → tnum (PTR_BAG b0) = T_COMOBJ →
  CopyObjComObj COPY obj mut h = Ret (new, h') →
  ∃ fwd', copy_step h0 mut obj h fwd h' fwd' ∧ copied_to h0 fwd' obj new.
Proof.
  intros Hi Him E0 Hn Ht Hb.
  assert (obj < brk h0) as Hlt by (destruct Hreg as [_ Hd _ _]; apply Hd in E0; lia).
  assert (bags h !! obj = Some b0) as Eh by (rewrite (ci_old _ _ _ Hi) by done; done).
  assert (structural_tnum (tnum (PTR_BAG b0))) as Hs by (right; by left).
  assert (T_COMOBJ ≠ T_POSOBJ) as Hcp by (pose proof tnums_com_pos; lia).
  unfold CopyObjComObj in Hb.
  apply (body_opening mut true
           (λ copy h, len ← LEN_PREC h obj;
                      h ← CopyObjComObj_loop COPY obj copy mut (seq 1 (Z.to_nat len)) h;
                      Ret (copy, h)) obj h b0) in Hb; [|done..].
  destruct Hb as (k & Ek & [(Hk & -> & ->)|(Hk & copy & h1 & h2 & Hmk & Hlf & Hrest)]).
  { exists fwd. split; [by apply copy_step_refl|]. right. split; [|done].
    intros (_ & b & k' & Eb & _ & Ek' & Hm). congruence. }
  assert (mutable_structural h0 obj) as Hms by (split; [done|]; eauto 6).
  destruct (mark_spec mut true obj h fwd b0 k copy h1 h2 Hi Hms E0 Ek Hn Hmk Hlf)
    as (bc & -> & Hi2 & Hbrk & Hfr & Ec & Tc & Sc & Lc & Kc & Nc & Zc).
  assert (<[obj := brk h]> fwd !! obj = Some (brk h)) as Hf2 by apply lookup_insert_eq.
  bind_inv Hrest as len Elen. unfold LEN_PREC in Elen.
  apply (marked_read _ _ _ _ _ _ _ Hi2 Hf2 E0) in Elen; [|lia].
  assert (data (PTR_BAG b0) !!! 1%nat = len) as Elen'
    by (by apply list_lookup_total_correct).
  bind_inv Hrest as hl Hl. injection Hrest as <- <-.
  assert (child_slots (PTR_BAG b0)
          = map (λ i, (2 * i + 1)%nat) (seq 1 (Z.to_nat len))) as Hslots.
  { unfold child_slots. rewrite decide_False by congruence.
    rewrite decide_True by done. by rewrite Elen'. }
  destruct (CopyObjComObj_loop_spec COPY mut HCOPY obj (brk h) b0 E0 Hms
              (seq 1 (Z.to_nat len)) h2 _ hl bc Hi2 Hf2 Ec)
    as (fwd' & bc' & LS & Ec' & Hsh & Hout & Hin); [|exact Hl|].
  { intros i Hi'. rewrite Hslots. split; [|apply elem_of_seq in Hi'; lia].
    apply elem_of_map_seq. eauto. }
  pose proof LS as (Hsub & _).
  assert (fwd' !! obj = Some (brk h)) as Hf' by (by eapply lookup_weaken).
  destruct Hsh as (Ts & Ss & _ & Ls).
  assert (∀ i, i ∈ seq 1 (Z.to_nat len) → (1 ≤ i)%nat) as Hpos
    by (intros i Hi'; apply elem_of_seq in Hi'; lia).
  exists fwd'. split; [|by left].
  eapply body_closing; [exact Hi|done|done|done|exact Hfr|lia|exact LS|].
  exists b0, (brk h), bc', k. split; [done|]. split; [done|]. split; [done|].
  split; [congruence|]. split; [congruence|]. split; [done|]. split.
  { rewrite Hout; [done|]. intros i Hi'. apply Hpos in Hi'. lia. }
  rewrite Hslots. unfold walked_words. rewrite decide_False by congruence.
  rewrite decide_True by done. rewrite Elen'. split.
  - intros j v Hj Ev. apply elem_of_map_seq in Hj as (i & -> & Hi').
    destruct (Hin i Hi') as (_ & _ & v' & w & Ev' & Ew & Hto).
    exists w. split; [done|]. congruence.
  - intros j Hj Hnj. destruct (Nat.Even_or_Odd j) as [[q ->]|[q ->]].
    + destruct (Hin q) as (Hq & _); [apply elem_of_seq; lia|]. done.
    + destruct (decide (q = 0%nat)) as [->|Hq].
      * rewrite Hout; [by apply Nc|]. intros i Hi'. apply Hpos in Hi'. lia.
      * exfalso. apply Hnj. apply elem_of_map_seq. exists q. split; [done|].
        apply elem_of_seq. lia.
Qed.

Lemma CopyObjDatObj_ok (obj : Obj) (h : Heap) (fwd : gmap Z Z) (b0 : Bag)
    (new : Obj) (h' : Heap) :
  copy_inv h0 h fwd → is_immediate obj = false → bags h0 !! obj = Some b0 →
  fwd !! obj = None → tnum (PTR_BAG b0) = T_DATOBJ →
  CopyObjDatObj obj mut h = Ret (new, h') →
  ∃ fwd', copy_step h0 mut obj h fwd h' fwd' ∧ copied_to h0 fwd' obj new.
Proof.
  intros Hi Him E0 Hn Ht Hb.
  assert (obj < brk h0) as Hlt by (destruct Hreg as [_ Hd _ _]; apply Hd in E0; lia).
  assert (bags h !! obj = Some b0) as Eh by (rewrite (ci_old _ _ _ Hi) by done; done).
  assert (structural_tnum (tnum (PTR_BAG b0))) as Hs by (right; by right).
  assert (T_DATOBJ ≠ T_POSOBJ) as Hdp by (pose proof tnums_pos_dat; lia).
  assert (T_DATOBJ ≠ T_COMOBJ) as Hdc by (pose proof tnums_com_dat; lia).
  unfold CopyObjDatObj in Hb.
  apply (body_opening mut false
           (λ copy h, sz ← SIZE_OBJ h obj;
                      let n := wrap64 (sz - sizeof_Obj + sizeof_Obj - 1) / sizeof_Obj in
                      h ← CopyObjDatObj_loop obj copy (seq 1 (Z.to_nat n)) h;
                      Ret (copy, h)) obj h b0) in Hb; [|done..].
  destruct Hb as (k & Ek & [(Hk & -> & ->)|(Hk & copy & h1 & h2 & Hmk & Hlf & Hrest)]).
  { exists fwd. split; [by apply copy_step_refl|]. right. split; [|done].
    intros (_ & b & k' & Eb & _ & Ek' & Hm). congruence. }
  assert (mutable_structural h0 obj) as Hms by (split; [done|]; eauto 6).
  destruct (mark_spec mut false obj h fwd b0 k copy h1 h2 Hi Hms E0 Ek Hn Hmk Hlf)
    as (bc & -> & Hi2 & Hbrk & Hfr & Ec & Tc & Sc & Lc & Kc & _ & Zc).
  assert (<[obj := brk h]> fwd !! obj = Some (brk h)) as Hf2 by apply lookup_insert_eq.
  bind_inv Hrest as sz Esz. apply (marked_size _ _ _ _ _ _ Hi2 Hf2 E0) in Esz as ->.
  cbv zeta in Hrest. bind_inv Hrest as hl Hl. injection Hrest as <- <-.
  set (n := Z.to_nat (wrap64 (size (PTR_BAG b0) - sizeof_Obj + sizeof_Obj - 1) / sizeof_Obj))
    in *.
  destruct (CopyObjDatObj_loop_spec mut obj (brk h) b0 E0 (seq 1 n) h2 _ hl bc Hi2 Hf2 Ec)
    as (bc' & LS & Ec' & Hsh & Hout & Hin); [|exact Hl|].
  { intros i Hi'. apply elem_of_seq in Hi'. lia. }
  destruct Hsh as (Ts & Ss & _ & Ls).
  exists (<[obj := brk h]> fwd). split; [|by left].
  eapply body_closing; [exact Hi|done|done|done|exact Hfr|lia|exact LS|].
  exists b0, (brk h), bc', k. split; [done|]. split; [done|]. split; [done|].
  split; [congruence|]. split; [congruence|]. split; [done|]. split.
  { rewrite Hout; [done|]. intros H0'. apply elem_of_seq in H0'. lia. }
  unfold child_slots, walked_words. rewrite !decide_False by congruence. split.
  - intros i v Hi'. by apply elem_of_nil in Hi'.
  - intros i Hi' _. apply Hin. apply elem_of_seq. fold n in Hi'. lia.
Qed.

End CopyBodies.


Lemma constant_not_structural (t : Z) : constant_tnum t → ¬ structural_tnum t.
Proof.
  pose proof tnums_const_record; pose proof tnums_record_list;
  pose proof tnums_list_external; pose proof tnums_comobj_ext;
  pose proof tnums_posobj_ext; pose proof tnums_datobj_ext; pose proof tnums_plist_list.
  unfold constant_tnum, structural_tnum. lia.
Qed.

(** A marked object is dispatched to the body that reads the forwarding
    record, whatever the fuel. *)
Lemma COPY_OBJ_marked (fuel : nat) (x : Obj) (mut : bool) (h : Heap) (t : Z) (f c : Obj) :
  TNUM_OBJ h x = Ret (t + COPYING) → structural_tnum t →
  ADDR_OBJ_get h x 0 = Ret f → ELM_PLIST h f 2 = Ret c →
  COPY_OBJ (S fuel) x mut h = Ret (c, h).
Proof.
  intros Ht Hs Hf Hc. cbn [COPY_OBJ]. rewrite Ht, bind_Ret_l.
  rewrite CopyObjFuncs_copying by done.
  destruct (decide (t = T_POSOBJ)); [|destruct (decide (t = T_COMOBJ))].
  - unfold CopyObjPosObjCopy. by rewrite Hf, bind_Ret_l, Hc.
  - unfold CopyObjComObjCopy. by rewrite Hf, bind_Ret_l, Hc.
  - unfold CopyObjDatObjCopy. by rewrite Hf, bind_Ret_l, Hc.
Qed.

Lemma forwarded_reads (h : Heap) (o c : Obj) :
  forwarded h0 h o c →
  is_immediate o = false
  ∧ ∃ b0 f, bags h0 !! o = Some b0
          ∧ TNUM_OBJ h o = Ret (tnum (PTR_BAG b0) + COPYING)
          ∧ structural_tnum (tnum (PTR_BAG b0))
          ∧ ADDR_OBJ_get h o 0 = Ret f ∧ ELM_PLIST h f 2 = Ret c.
Proof.
  intros (b0 & f & bf & bc & E0 & Hm & Eo & Hf & Ef & Tf & F1 & F2 & Hc & Ec & Tc).
  destruct Hm as (Him & b & k & Eb & Hs & Ek & _).
  assert (b = b0) as -> by congruence. split; [done|].
  exists b0, f. split; [done|]. split; [by rewrite (TNUM_OBJ_bag _ _ _ Him Eo)|].
  split; [done|]. split.
  - eapply ADDR_OBJ_get_lookup; [exact Eo|]. unfold set_tnum, set_word; simpl.
    apply list_lookup_insert_eq. by eapply lookup_lt_Some.
  - unfold ELM_PLIST. by eapply ADDR_OBJ_get_lookup.
Qed.

Lemma COPY_OBJ_ok (mut : bool) (fuel : nat) : COPY_ok h0 mut (COPY_OBJ fuel).
Proof.
  induction fuel as [|fuel IH]; intros obj h fwd new h' Hi Hold Hc; [done|].
  destruct (fwd !! obj) as [c|] eqn:Ef.
  { destruct (forwarded_reads h obj c) as (_ & b0 & f & _ & Ht & Hs & Hf & Hcc);
      [by apply (ci_fwd _ _ _ Hi)|].
    rewrite (COPY_OBJ_marked fuel obj mut h _ f c Ht) in Hc by done.
    injection Hc as <- <-. exists fwd. split; [by apply copy_step_refl|by left]. }
  cbn [COPY_OBJ] in Hc. bind_inv Hc as t Et.
  apply TNUM_OBJ_Ret in Et as [[Him Hct]|[Him (b & Eb & <-)]].
  { rewrite CopyObjFuncs_constant in Hc by done. injection Hc as <- <-.
    exists fwd. split; [by apply copy_step_refl|]. right. split; [|done].
    intros [Him' _]. congruence. }
  destruct Hold as [Hlt|Him']; [|congruence].
  rewrite (ci_old _ _ _ Hi) in Eb by done.
  assert (tnum (PTR_BAG b) ≤ LAST_REAL_TNUM) as Hreal
    by (destruct Hreg as [_ _ Ht _]; by eapply Ht).
  destruct (CopyObjFuncs (tnum (PTR_BAG b))) as [fn|] eqn:Efn; [|done].
  destruct (CopyObjFuncs_real _ _ Hreal Efn) as [->|[[-> Hct]|Hs]]; [done| |].
  { injection Hc as <- <-. exists fwd. split; [by apply copy_step_refl|].
    right. split; [|done]. intros (_ & b' & k & Eb' & Hs & _).
    assert (b' = b) as -> by congruence. by apply constant_not_structural in Hct. }
  rewrite CopyObjFuncs_structural in Efn by done. injection Efn as <-.
  destruct (decide (tnum (PTR_BAG b) = T_POSOBJ)) as [Ht|Hnp].
  { by eapply CopyObjPosObj_ok. }
  destruct (decide (tnum (PTR_BAG b) = T_COMOBJ)) as [Ht|Hnc].
  { by eapply CopyObjComObj_ok. }
  eapply CopyObjDatObj_ok; try done.
  destruct Hs as [?|[?|?]]; done.
Qed.


(** *** Cleaning *)

Lemma unmarked_null (h : Heap) (fwd : gmap Z Z) : copy_inv h0 h fwd → fwd !! 0 = None.
Proof.
  intros Hi. destruct (fwd !! 0) as [c|] eqn:E; [|done].
  destruct (ci_fwd _ _ _ Hi _ _ E) as (?&?&?&?&?&Hm&_). by apply null_not_copied in Hm.
Qed.

Lemma clean_step_refl (h : Heap) (fwd : gmap Z Z) :
  copy_inv h0 h fwd → clean_step h0 h fwd h fwd.
Proof.
  intros Hi. split; [done|]. split; [done|]. split; [done|]. split; [done|].
  intros x c [y Hy] Hn. congruence.
Qed.

Lemma clean_step_trans (h h1 h2 : Heap) (fwd fwd1 fwd2 : gmap Z Z) :
  clean_step h0 h fwd h1 fwd1 → clean_step h0 h1 fwd1 h2 fwd2 →
  clean_step h0 h fwd h2 fwd2.
Proof.
  intros (Hsub1 & Hi1 & Hb1 & Hfr1 & Hcl1) (Hsub2 & Hi2 & Hb2 & Hfr2 & Hcl2).
  split; [by etrans|]. split; [done|]. split; [congruence|]. split.
  - intros k Hk. rewrite Hfr2 by done. auto.
  - intros x c Hx Hn Hch. destruct (fwd1 !! x) as [y|] eqn:E1.
    + eapply Hcl2; [by eexists|done|done].
    + eapply lookup_weaken_None; [|exact Hsub2]. by eapply Hcl1.
Qed.

(** Taking the forwarding record out of [obj] unmarks it. *)
Lemma unmark_inv (h : Heap) (fwd : gmap Z Z) (obj c : Obj) (b0 : Bag) :
  copy_inv h0 h fwd → fwd !! obj = Some c → bags h0 !! obj = Some b0 →
  copy_inv h0 (put_bag h obj b0) (delete obj fwd).
Proof.
  intros Hi Hf E0. destruct (forwarded_bounds _ _ _ _ Hi Hf) as (Ho & Hc & _).
  destruct (ci_brk _ _ _ Hi) as [Hb Hal]. split.
  - done.
  - intros k b. rewrite bags_put_bag. destruct (decide (obj = k)) as [<-|_].
    + intros _. simpl. lia.
    + apply (ci_dom _ _ _ Hi).
  - intros o Hlt Hn. rewrite bags_put_bag. destruct (decide (obj = o)) as [<-|Hne]; [done|].
    rewrite lookup_delete_ne in Hn by done. by apply (ci_old _ _ _ Hi).
  - intros o c' Hoc. apply lookup_delete_Some in Hoc as [Hne Hoc].
    destruct (ci_fwd _ _ _ Hi _ _ Hoc)
      as (bo & f & bf & bc1 & Eo & Hmo & Eho & Hf' & Ef & Tf & F1 & F2 & Hc' & Ec1 & Tc1).
    exists bo, f, bf, bc1. split; [done|]. split; [done|].
    split; [rewrite bags_put_bag_ne by done; done|]. split; [done|].
    split; [rewrite bags_put_bag_ne by lia; done|]. split; [done|]. split; [done|].
    split; [done|]. split; [done|]. split; [rewrite bags_put_bag_ne by lia; done|done].
  - intros k b Hk. rewrite bags_put_bag_ne by lia. by apply (ci_new _ _ _ Hi).
  - intros o1 o2 c' H1' H2'. apply lookup_delete_Some in H1' as [_ H1'].
    apply lookup_delete_Some in H2' as [_ H2']. by eapply (ci_inj _ _ _ Hi).
Qed.

(** [remove_forwarding] on a marked object. *)
Lemma unmark_spec (h : Heap) (fwd : gmap Z Z) (obj c : Obj) (h1 : Heap) :
  copy_inv h0 h fwd → fwd !! obj = Some c → remove_forwarding obj h = Ret h1 →
  ∃ b0, bags h0 !! obj = Some b0 ∧ mutable_structural h0 obj
      ∧ h1 = put_bag h obj b0 ∧ copy_inv h0 h1 (delete obj fwd).
Proof.
  intros Hi Hf Hrm. destruct (forwarded_bounds _ _ _ _ Hi Hf) as (Ho & Hc & Him).
  destruct (ci_fwd _ _ _ Hi _ _ Hf)
    as (b0 & f & bf & bc & E0 & Hm & Eo & Hf' & Ef & Tf & F1 & F2 & Hc' & Ec & Tc).
  assert (is_Some (data (PTR_BAG b0) !! 0%nat)) as Hk.
  { destruct Hm as (_ & b & k & Eb & _ & Ek & _). assert (b = b0) as -> by congruence.
    by eexists. }
  pose proof (remove_forwarding_spec obj h b0 f bf h1 Him Eo Ef ltac:(lia) F1 Hk Hrm) as ->.
  exists b0. split; [done|]. split; [done|]. split; [done|]. by eapply unmark_inv.
Qed.

(** From the loop of a clean body to the call of the body. *)
Lemma clean_closing (h : Heap) (fwd : gmap Z Z) (obj c : Obj) (b0 : Bag)
    (h' : Heap) (fwd' : gmap Z Z) :
  copy_inv h0 h fwd → fwd !! obj = Some c → bags h0 !! obj = Some b0 →
  clean_step h0 (put_bag h obj b0) (delete obj fwd) h' fwd' →
  (∀ y, child h0 obj y → fwd' !! y = None) →
  clean_step h0 h fwd h' fwd' ∧ fwd' !! obj = None.
Proof.
  intros Hi Hf E0 (Hsub & Hi' & Hb & Hfr & Hcl) Hch.
  destruct (forwarded_bounds _ _ _ _ Hi Hf) as (Ho & _ & _).
  assert (fwd' !! obj = None) as Hn.
  { eapply lookup_weaken_None; [|exact Hsub]. apply lookup_delete_eq. }
  split; [|done]. split; [etrans; [exact Hsub|apply delete_subseteq]|].
  split; [done|]. split; [done|]. split.
  - intros k Hk. rewrite Hfr by done. rewrite bags_put_bag_ne by lia. done.
  - intros x y [cx Hx] Hnx Hxy. destruct (decide (x = obj)) as [->|Hne]; [by apply Hch|].
    eapply Hcl; [|done|done]. exists cx. by rewrite lookup_delete_ne.
Qed.

Section CleanBodies.
Variable CLEAN : Obj → Heap → outcome Heap.
Hypothesis HCLEAN : CLEAN_ok h0 CLEAN.
Variable obj : Obj.
Variable b0 : Bag.
Hypothesis E0 : bags h0 !! obj = Some b0.
Hypothesis Hms : mutable_structural h0 obj.

Lemma unmarked_read (h : Heap) (fwd : gmap Z Z) (i : nat) (v : Z) :
  copy_inv h0 h fwd → fwd !! obj = None → ADDR_OBJ_get h obj i = Ret v →
  data (PTR_BAG b0) !! i = Some v.
Proof.
  intros Hi Hn Hg. eapply ADDR_OBJ_get_inv; [|exact Hg].
  rewrite (ci_old _ _ _ Hi); [done| |done].
  destruct Hreg as [_ Hd _ _]. apply Hd in E0. lia.
Qed.

Lemma CleanObjPosObjCopy_loop_spec (idx : list nat) :
  ∀ (h : Heap) (fwd : gmap Z Z) (h' : Heap),
    copy_inv h0 h fwd → fwd !! obj = None →
    (∀ i, i ∈ idx → i ∈ child_slots (PTR_BAG b0)) →
    CleanObjPosObjCopy_loop CLEAN obj idx h = Ret h' →
    ∃ fwd', clean_step h0 h fwd h' fwd'
          ∧ (∀ i v, i ∈ idx → data (PTR_BAG b0) !! i = Some v → fwd' !! v = None).
Proof.
  induction idx as [|i idx IH]; intros h fwd h' Hi Hn Hidx Hl.
  - injection Hl as <-. exists fwd. split; [by apply clean_step_refl|].
    intros i v Hin. by apply elem_of_nil in Hin.
  - cbn [CleanObjPosObjCopy_loop] in Hl. bind_inv Hl as v Ev.
    apply (unmarked_read _ _ _ _ Hi Hn) in Ev.
    assert (∀ j, j ∈ idx → j ∈ child_slots (PTR_BAG b0)) as Hidx'
      by (intros j Hj; apply Hidx; by right).
    bind_inv Hl as h1 E1.
    assert (∃ fwd1, clean_step h0 h fwd h1 fwd1 ∧ fwd1 !! v = None) as (fwd1 & CS1 & Hv).
    { destruct (decide (v = 0)) as [->|Hv].
      - injection E1 as <-. exists fwd. split; [by apply clean_step_refl|].
        by eapply unmarked_null.
      - apply (HCLEAN v h fwd h1 Hi); [|done].
        apply (child_old obj); [done|]. exists i, b0. split; [done|].
        split; [apply Hidx; by left|done]. }
    pose proof CS1 as (Hsub1 & Hi1 & _).
    assert (fwd1 !! obj = None) as Hn1 by (by eapply lookup_weaken_None).
    destruct (IH h1 fwd1 h' Hi1 Hn1 Hidx' Hl) as (fwd' & CS2 & Hin).
    pose proof CS2 as (Hsub2 & _).
    exists fwd'. split; [by eapply clean_step_trans|].
    intros j w Hj Ew. apply elem_of_cons in Hj as [->|Hj]; [|by eapply Hin].
    assert (w = v) as -> by congruence. by eapply lookup_weaken_None.
Qed.

Lemma CleanObjComObjCopy_loop_spec (idx : list nat) :
  ∀ (h : Heap) (fwd : gmap Z Z) (h' : Heap),
    copy_inv h0 h fwd → fwd !! obj = None →
    (∀ i, i ∈ idx → (2 * i + 1)%nat ∈ child_slots (PTR_BAG b0)) →
    CleanObjComObjCopy_loop CLEAN obj idx h = Ret h' →
    ∃ fwd', clean_step h0 h fwd h' fwd'
          ∧ (∀ i v, i ∈ idx → data (PTR_BAG b0) !! (2 * i + 1)%nat = Some v →
                    fwd' !! v = None).
Proof.
  induction idx as [|i idx IH]; intros h fwd h' Hi Hn Hidx Hl.
  - injection Hl as <-. exists fwd. split; [by apply clean_step_refl|].
    intros i v Hin. by apply elem_of_nil in Hin.
  - cbn [CleanObjComObjCopy_loop] in Hl. unfold GET_ELM_PREC in Hl. bind_inv Hl as v Ev.
    apply (unmarked_read _ _ _ _ Hi Hn) in Ev.
    assert (∀ j, j ∈ idx → (2 * j + 1)%nat ∈ child_slots (PTR_BAG b0)) as Hidx'
      by (intros j Hj; apply Hidx; by right).
    bind_inv Hl as h1 E1.
    destruct (HCLEAN v h fwd h1 Hi) as (fwd1 & CS1 & Hv); [|done|].
    { apply (child_old obj); [done|]. exists (2 * i + 1)%nat, b0. split; [done|].
      split; [apply Hidx; by left|done]. }
    pose proof CS1 as (Hsub1 & Hi1 & _).
    assert (fwd1 !! obj = None) as Hn1 by (by eapply lookup_weaken_None).
    destruct (IH h1 fwd1 h' Hi1 Hn1 Hidx' Hl) as (fwd' & CS2 & Hin).
    pose proof CS2 as (Hsub2 & _).
    exists fwd'. split; [by eapply clean_step_trans|].
    intros j w Hj Ew. apply elem_of_cons in Hj as [->|Hj]; [|by eapply Hin].
    assert (w = v) as -> by congruence. by eapply lookup_weaken_None.
Qed.

End CleanBodies.


Lemma CLEAN_OBJ_ok (fuel : nat) : CLEAN_ok h0 (CLEAN_OBJ fuel).
Proof.
  induction fuel as [|fuel IH]; intros obj h fwd h' Hi Hold Hc; [done|].
  cbn [CLEAN_OBJ] in Hc. bind_inv Hc as t Et.
  destruct (fwd !! obj) as [c|] eqn:Ef.
  - destruct (forwarded_reads h obj c) as (Him & b0 & f & E0 & Ht & Hs & _);
      [by apply (ci_fwd _ _ _ Hi)|].
    assert (t = tnum (PTR_BAG b0) + COPYING) as -> by congruence.
    rewrite CleanObjFuncs_copying in Hc by done.
    assert (∀ h1, remove_forwarding obj h = Ret h1 →
                  mutable_structural h0 obj ∧ h1 = put_bag h obj b0
                  ∧ copy_inv h0 h1 (delete obj fwd)) as Hun.
    { intros h1 Hrm. destruct (unmark_spec h fwd obj c h1 Hi Ef Hrm) as (b & Eb & Hm & -> & Hi1).
      assert (b = b0) as -> by congruence. done. }
    assert (delete obj fwd !! obj = None) as Hn1 by apply lookup_delete_eq.
    destruct (decide (tnum (PTR_BAG b0) = T_POSOBJ)) as [Tp|Hnp];
      [|destruct (decide (tnum (PTR_BAG b0) = T_COMOBJ)) as [Tc|Hnc]].
    + unfold CleanObjPosObjCopy in Hc. bind_inv Hc as h1 Hrm.
      destruct (Hun h1 Hrm) as (Hms & -> & Hi1).
      rewrite (SIZE_OBJ_lookup _ _ b0), bind_Ret_l in Hc by apply bags_put_bag_eq.
      edestruct (CleanObjPosObjCopy_loop_spec (CLEAN_OBJ fuel) IH obj b0 E0 Hms)
        as (fwd' & CS & Hin); [exact Hi1|exact Hn1| |exact Hc|].
      { intros i Hi'. unfold child_slots. by rewrite decide_True. }
      exists fwd'. eapply clean_closing; [exact Hi|exact Ef|exact E0|exact CS|].
      intros y (i & b & Eb & Hslot & Ey). assert (b = b0) as -> by congruence.
      eapply Hin; [|exact Ey]. unfold child_slots in Hslot.
      by rewrite decide_True in Hslot.
    + unfold CleanObjComObjCopy in Hc. bind_inv Hc as h1 Hrm.
      destruct (Hun h1 Hrm) as (Hms & -> & Hi1).
      bind_inv Hc as len Elen. unfold LEN_PREC in Elen.
      apply (ADDR_OBJ_get_inv _ _ _ _ b0) in Elen; [|apply bags_put_bag_eq].
      assert (child_slots (PTR_BAG b0)
              = map (λ i, (2 * i + 1)%nat) (seq 1 (Z.to_nat len))) as Hslots.
      { unfold child_slots. rewrite decide_False by done. rewrite decide_True by done.
        by rewrite (list_lookup_total_correct _ _ _ Elen). }
      edestruct (CleanObjComObjCopy_loop_spec (CLEAN_OBJ fuel) IH obj b0 E0 Hms)
        as (fwd' & CS & Hin); [exact Hi1|exact Hn1| |exact Hc|].
      { intros i Hi'. rewrite Hslots. apply elem_of_map_seq. eauto. }
      exists fwd'. eapply clean_closing; [exact Hi|exact Ef|exact E0|exact CS|].
      intros y (j & b & Eb & Hslot & Ey). assert (b = b0) as -> by congruence.
      rewrite Hslots in Hslot. apply elem_of_map_seq in Hslot as (i & -> & Hi').
      by eapply Hin.
    + unfold CleanObjDatObjCopy in Hc. destruct (Hun h' Hc) as (Hms & -> & Hi1).
      exists (delete obj fwd).
      eapply clean_closing; [exact Hi|exact Ef|exact E0|by apply clean_step_refl|].
      intros y (j & b & Eb & Hslot & Ey). assert (b = b0) as -> by congruence.
      unfold child_slots in Hslot. rewrite !decide_False in Hslot by done.
      by apply elem_of_nil in Hslot.
  - exists fwd. split; [|done].
    assert (h' = h) as ->; [|by apply clean_step_refl].
    apply TNUM_OBJ_Ret in Et as [[Him Hct]|[Him (b & Eb & <-)]].
    { rewrite CleanObjFuncs_constant in Hc by done. by injection Hc as <-. }
    destruct Hold as [Hlt|Him']; [|congruence].
    rewrite (ci_old _ _ _ Hi) in Eb by done.
    assert (tnum (PTR_BAG b) ≤ LAST_REAL_TNUM) as Hreal
      by (destruct Hreg as [_ _ Ht _]; by eapply Ht).
    destruct (CleanObjFuncs (tnum (PTR_BAG b))) as [fn|] eqn:Efn; [|done].
    destruct (CleanObjFuncs_real _ _ Hreal Efn) as [-> | [-> | [-> | [-> | ->]]]];
      [done|(by injection Hc as <-)..].
Qed.


(** *** The top-level call *)

Lemma reach_first (S : Obj → Prop) (a x : Obj) : reach h0 S a x → S a.
Proof. by destruct 1. Qed.

(** What is unmarked at the root and closed under subobjects is unmarked
    everywhere the copy went. *)
Lemma reach_unmarked (fwd fwd' : gmap Z Z) (a x : Obj) :
  (∀ y c, is_Some (fwd !! y) → fwd' !! y = None → child h0 y c → fwd' !! c = None) →
  reach h0 (newly ∅ fwd) a x → fwd' !! a = None → fwd' !! x = None.
Proof.
  intros Hcl. induction 1 as [x Hx|x y z Hx Hc _ IH]; [done|].
  intros Hn. apply IH. destruct Hx as [_ Hx]. by eapply Hcl.
Qed.

Lemma CopyObj_run (fuel : nat) (obj : Obj) (mut : bool) (tl : ThreadLocal)
    (new : Obj) (tl' : ThreadLocal) (h' : Heap) :
  CopyObj fuel obj mut tl h0 = Ret (new, tl', h') →
  ∃ fwd h1, tl' = mkThreadLocal 0
          ∧ copy_step h0 mut obj h0 ∅ h1 fwd ∧ copied_to h0 fwd obj new
          ∧ clean_step h0 h1 fwd h' ∅.
Proof.
  intros Hrun. unfold CopyObj in Hrun. bind_inv Hrun as p Hc. destruct p as [new' h1].
  bind_inv Hrun as h2 Hcl. injection Hrun as -> <- ->.
  assert (old_value h0 obj) as Hold.
  { destruct fuel as [|fuel]; [done|]. cbn [COPY_OBJ] in Hc. bind_inv Hc as t Et.
    apply TNUM_OBJ_Ret in Et as [[Him _]|[_ (b & Eb & _)]]; [by right|left].
    destruct Hreg as [_ Hd _ _]. apply Hd in Eb. lia. }
  destruct (COPY_OBJ_ok mut fuel obj h0 ∅ new h1 copy_inv_start Hold Hc)
    as (fwd & Hstep & Hto).
  pose proof Hstep as (_ & Hi1 & _ & _ & Hnew).
  destruct (CLEAN_OBJ_ok fuel obj h1 fwd h' Hi1 Hold Hcl) as (fwd' & CS & Hn).
  pose proof CS as (Hsub & _ & _ & _ & Hclosed).
  assert (fwd' = ∅) as ->.
  { apply map_empty. intros x. destruct (fwd' !! x) as [c|] eqn:Ex; [|done].
    assert (newly ∅ fwd x) as Hx.
    { split; [apply lookup_empty|]. exists c. by eapply lookup_weaken. }
    destruct (Hnew x Hx) as [_ Hr]. rewrite <- Ex.
    by eapply reach_unmarked. }
  by exists fwd, h1.
Qed.

(** Every object the copy went through has a finished copy in the heap
    that [CopyObj] returns. *)
Lemma CopyObj_copies (mut : bool) (obj new : Obj) (h1 h' : Heap) (fwd : gmap Z Z) :
  copy_step h0 mut obj h0 ∅ h1 fwd → copied_to h0 fwd obj new →
  clean_step h0 h1 fwd h' ∅ →
  ∀ x, copied_from h0 obj x →
       ∃ c, fwd !! x = Some c ∧ brk h0 ≤ c ∧ copy_complete h0 mut h' fwd x.
Proof.
  intros (_ & Hi1 & _ & _ & Hnew) Hto (_ & _ & _ & Hfr & _).
  assert (∀ x c, fwd !! x = Some c → brk h0 ≤ c ∧ copy_complete h0 mut h' fwd x) as Hall.
  { intros x c Ex. destruct (forwarded_bounds _ _ _ _ Hi1 Ex) as (_ & Hc & _).
    split; [lia|]. destruct (Hnew x) as [Hcc _].
    { split; [apply lookup_empty|by eexists]. }
    eapply copy_complete_frame; [exact Hi1|exact Hcc|done|].
    intros c' Ex'. destruct (forwarded_bounds _ _ _ _ Hi1 Ex') as (_ & Hc' & _).
    apply Hfr. lia. }
  assert (∀ a x, reach h0 (mutable_structural h0) a x → is_Some (fwd !! a) →
                 is_Some (fwd !! x)) as Hreach.
  { induction 1 as [x Hx|x y z Hx Hc Hr IH]; [done|]. intros [c Ex]. apply IH.
    destruct (Hall x c Ex) as [_ (b0 & c' & bc & k & E0 & _ & _ & _ & _ & _ & _ & Hch & _)].
    destruct Hc as (i & b & Eb & Hslot & Ey). assert (b = b0) as -> by congruence.
    destruct (Hch i y Hslot Ey) as (w & _ & [Hw|[Hno _]]); [by eexists|].
    apply reach_first in Hr. done. }
  intros x Hx. destruct (Hreach obj x Hx) as [c Ex].
  { destruct Hto as [Hw|[Hno _]]; [by eexists|]. apply reach_first in Hx. done. }
  exists c. split; [done|]. by apply Hall.
Qed.


(** *** Fuel *)

(** The marked objects are objects of [h0]. *)
Lemma marked_count (h : Heap) (fwd : gmap Z Z) :
  copy_inv h0 h fwd → (base.size fwd ≤ base.size (bags h0))%nat.
Proof.
  intros Hi. rewrite <- (size_dom (D:=gset Z) fwd), <- (size_dom (D:=gset Z) (bags h0)).
  apply subseteq_size. intros x. rewrite !elem_of_dom. intros [c Hc].
  destruct (ci_fwd _ _ _ Hi _ _ Hc) as (b0 & ? & ? & ? & E0 & _). by eexists.
Qed.

Section CopyFuel.
Variable COPY : Obj → bool → Heap → outcome (Obj * Heap).
Variable mut : bool.
Variable n : nat.
Hypothesis HCOPY : COPY_ok h0 mut COPY.
Hypothesis HFUEL : ∀ v h fwd,
  copy_inv h0 h fwd → old_value h0 v →
  (base.size (bags h0) - base.size fwd < n)%nat → COPY v mut h ≠ OutOfFuel.
Variable obj copy : Obj.
Variable b0 : Bag.
Hypothesis E0 : bags h0 !! obj = Some b0.
Hypothesis Hms : mutable_structural h0 obj.

Lemma CopyObjPosObj_loop_fuel (idx : list nat) :
  ∀ (h : Heap) (fwd : gmap Z Z) (bc : Bag),
    copy_inv h0 h fwd → fwd !! obj = Some copy → bags h !! copy = Some bc →
    (∀ i, i ∈ idx → i ∈ child_slots (PTR_BAG b0) ∧ (1 ≤ i)%nat) →
    (base.size (bags h0) - base.size fwd < n)%nat →
    CopyObjPosObj_loop COPY obj copy mut idx h ≠ OutOfFuel.
Proof.
  induction idx as [|i idx IH]; intros h fwd bc Hi Hf Ec Hidx Hn; [done|].
  cbn [CopyObjPosObj_loop]. apply bind_fuel; [apply ADDR_OBJ_get_fuel|]. intros v Ev.
  destruct (Hidx i) as [Hslot Hle]; [left|].
  apply (marked_read _ _ _ _ _ _ _ Hi Hf E0 Hle) in Ev.
  assert (∀ j, j ∈ idx → j ∈ child_slots (PTR_BAG b0) ∧ (1 ≤ j)%nat) as Hidx'.
  { intros j Hj. apply Hidx. by right. }
  assert (old_value h0 v) as Hold.
  { apply (child_old obj); [done|]. by exists i, b0. }
  destruct (decide (v = 0)) as [->|Hv].
  { rewrite bind_Ret_l. by eapply IH. }
  apply bind_fuel.
  { apply bind_fuel; [by eapply HFUEL|]. intros [tmp h1] _. apply ADDR_OBJ_set_fuel. }
  intros h2 E2. destruct (COPY v mut h) as [[tmp h1]| | |] eqn:Hcp; try done.
  rewrite bind_Ret_l in E2.
  destruct (copy_slot COPY mut HCOPY obj copy b0 E0 Hms h fwd bc i v tmp h1 h2
              Hi Hf Ec Hslot Ev Hcp E2) as (fwd1 & LS1 & Hlt & -> & Hto).
  pose proof LS1 as (Hsub1 & Hi1 & _).
  eapply (IH _ fwd1); [done|by eapply lookup_weaken|apply bags_put_bag_eq|done|].
  apply map_subseteq_size in Hsub1. lia.
Qed.

Lemma CopyObjComObj_loop_fuel (idx : list nat) :
  ∀ (h : Heap) (fwd : gmap Z Z) (bc : Bag),
    copy_inv h0 h fwd → fwd !! obj = Some copy → bags h !! copy = Some bc →
    (∀ i, i ∈ idx → (2 * i + 1)%nat ∈ child_slots (PTR_BAG b0) ∧ (1 ≤ i)%nat) →
    (base.size (bags h0) - base.size fwd < n)%nat →
    CopyObjComObj_loop COPY obj copy mut idx h ≠ OutOfFuel.
Proof.
  induction idx as [|i idx IH]; intros h fwd bc Hi Hf Ec Hidx Hn; [done|].
  cbn [CopyObjComObj_loop].
  unfold GET_RNAM_PREC, SET_RNAM_PREC, GET_ELM_PREC, SET_ELM_PREC.
  destruct (Hidx i) as [Hslot Hle]; [left|].
  assert (∀ j, j ∈ idx → (2 * j + 1)%nat ∈ child_slots (PTR_BAG b0) ∧ (1 ≤ j)%nat)
    as Hidx'.
  { intros j Hj. apply Hidx. by right. }
  apply bind_fuel; [apply ADDR_OBJ_get_fuel|]. intros nm En.
  apply bind_fuel; [apply ADDR_OBJ_set_fuel|]. intros ha Ea.
  destruct (ADDR_OBJ_set_inv _ _ _ _ _ _ Ec Ea) as [Hlt0 ->].
  set (bca := set_word bc (2 * i) nm) in *.
  assert (loop_step h0 mut obj copy h fwd (put_bag h copy bca) fwd) as LS0.
  { eapply loop_step_write; [by apply loop_step_refl|done|exact Ec|done]. }
  pose proof LS0 as (_ & Hia & _).
  apply bind_fuel; [apply ADDR_OBJ_get_fuel|]. intros v Ev.
  apply (marked_read _ _ _ _ _ _ _ Hia Hf E0) in Ev; [|lia].
  assert (old_value h0 v) as Hold.
  { apply (child_old obj); [done|]. by exists (2 * i + 1)%nat, b0. }
  apply bind_fuel; [by eapply HFUEL|]. intros [tmp h1] Hcp.
  apply bind_fuel; [apply ADDR_OBJ_set_fuel|]. intros h2 E2.
  destruct (copy_slot COPY mut HCOPY obj copy b0 E0 Hms _ fwd bca _ v tmp h1 h2
              Hia Hf (bags_put_bag_eq _ _ _) Hslot Ev Hcp E2)
    as (fwd1 & LS1 & Hlt & -> & Hto).
  pose proof LS1 as (Hsub1 & Hi1 & _).
  eapply (IH _ fwd1); [done|by eapply lookup_weaken|apply bags_put_bag_eq|done|].
  apply map_subseteq_size in Hsub1. lia.
Qed.

Lemma CopyObjDatObj_loop_fuel (idx : list nat) (h : Heap) :
  CopyObjDatObj_loop obj copy idx h ≠ OutOfFuel.
Proof.
  revert h. induction idx as [|i idx IH]; intros h; [done|].
  cbn [CopyObjDatObj_loop]. apply bind_fuel; [apply ADDR_OBJ_get_fuel|]. intros w _.
  apply bind_fuel; [apply ADDR_OBJ_set_fuel|]. intros ha _. apply IH.
Qed.

End CopyFuel.

Lemma body_opening_fuel (mut with_len : bool) (rest : Obj → Heap → outcome (Obj * Heap))
    (obj : Obj) (h : Heap) (b0 : Bag) :
  is_immediate obj = false → bags h !! obj = Some b0 →
  structural_tnum (tnum (PTR_BAG b0)) →
  (∀ k copy h1 h2,
     data (PTR_BAG b0) !! 0%nat = Some k → KindIsMutable k = true →
     make_copy obj mut with_len h = Ret (copy, h1) →
     leave_forwarding obj copy h1 = Ret h2 → rest copy h2 ≠ OutOfFuel) →
  (m ← IS_MUTABLE_OBJ h obj;
   if negb m then Ret (obj, h) else
   c ← IS_COPYABLE_OBJ h obj;
   if negb c then ErrorQuit "Panic: encountered mutable, non-copyable object" else
   '(copy, h) ← make_copy obj mut with_len h;
   h ← leave_forwarding obj copy h;
   rest copy h) ≠ OutOfFuel.
Proof.
  intros Him E Hs Hrest. apply bind_fuel; [apply IS_MUTABLE_OBJ_fuel|]. intros m Em.
  destruct (IS_MUTABLE_OBJ_structural _ _ _ _ Him E Hs Em) as (k & Ek & ->).
  destruct (KindIsMutable k) eqn:Hk; cbn [negb]; [|done].
  apply bind_fuel; [apply IS_COPYABLE_OBJ_fuel|]. intros c _. destruct (negb c); [done|].
  apply bind_fuel; [apply make_copy_fuel|]. intros [copy h1] Hmk.
  apply bind_fuel; [apply leave_forwarding_fuel|]. intros h2 Hlf. by eapply Hrest.
Qed.

Section CopyBodiesFuel.
Variable COPY : Obj → bool → Heap → outcome (Obj * Heap).
Variable mut : bool.
Variable n : nat.
Hypothesis HCOPY : COPY_ok h0 mut COPY.
Hypothesis HFUEL : ∀ v h fwd,
  copy_inv h0 h fwd → old_value h0 v →
  (base.size (bags h0) - base.size fwd < n)%nat → COPY v mut h ≠ OutOfFuel.

(** Marking [obj] leaves one unmarked object less. *)
Lemma marked_one_more (obj copy : Obj) (h2 : Heap) (fwd : gmap Z Z) :
  copy_inv h0 h2 (<[obj := copy]> fwd) → fwd !! obj = None →
  (base.size (bags h0) - base.size fwd < S n)%nat →
  (base.size (bags h0) - base.size (<[obj := copy]> fwd) < n)%nat.
Proof.
  intros Hi2 Hn Hm. apply marked_count in Hi2.
  rewrite map_size_insert_None in * by done. lia.
Qed.

Lemma CopyObjPosObj_fuel (obj : Obj) (h : Heap) (fwd : gmap Z Z) (b0 : Bag) :
  copy_inv h0 h fwd → is_immediate obj = false → bags h0 !! obj = Some b0 →
  fwd !! obj = None → tnum (PTR_BAG b0) = T_POSOBJ →
  (base.size (bags h0) - base.size fwd < S n)%nat →
  CopyObjPosObj COPY obj mut h ≠ OutOfFuel.
Proof.
  intros Hi Him E0 Hn Ht Hm.
  assert (obj < brk h0) as Hlt by (destruct Hreg as [_ Hd _ _]; apply Hd in E0; lia).
  assert (bags h !! obj = Some b0) as Eh by (rewrite (ci_old _ _ _ Hi) by done; done).
  assert (structural_tnum (tnum (PTR_BAG b0))) as Hs by (by left).
  unfold CopyObjPosObj.
  apply (body_opening_fuel mut false
           (λ copy h, sz ← SIZE_OBJ h obj;
                      h ← CopyObjPosObj_loop COPY obj copy mut
                            (seq 1 (Z.to_nat (sz / sizeof_Obj) - 1)) h;
                      Ret (copy, h)) obj h b0); [done..|].
  intros k copy h1 h2 Ek Hk Hmk Hlf.
  assert (mutable_structural h0 obj) as Hms by (split; [done|]; eauto 6).
  destruct (mark_spec mut false obj h fwd b0 k copy h1 h2 Hi Hms E0 Ek Hn Hmk Hlf)
    as (bc & -> & Hi2 & Hbrk & Hfr & Ec & _).
  assert (<[obj := brk h]> fwd !! obj = Some (brk h)) as Hf2 by apply lookup_insert_eq.
  apply bind_fuel; [apply SIZE_OBJ_fuel|]. intros sz Esz.
  apply (marked_size _ _ _ _ _ _ Hi2 Hf2 E0) in Esz as ->.
  apply bind_fuel; [|done].
  eapply (CopyObjPosObj_loop_fuel COPY mut n HCOPY HFUEL obj (brk h) b0 E0 Hms);
    [exact Hi2|exact Hf2|exact Ec| |by eapply marked_one_more].
  intros i Hi'. unfold child_slots. rewrite decide_True by done.
  split; [done|]. by apply words_of_slots in Hi' as [? _].
Qed.

Lemma CopyObjComObj_fuel (obj : Obj) (h : Heap) (fwd : gmap Z Z) (b0 : Bag) :
  copy_inv h0 h fwd → is_immediate obj = false → bags h0 !! obj = Some b0 →
  fwd !! obj = None → tnum (PTR_BAG b0) = T_COMOBJ →
  (base.size (bags h0) - base.size fwd < S n)%nat →
  CopyObjComObj COPY obj mut h ≠ OutOfFuel.
Proof.
  intros Hi Him E0 Hn Ht Hm.
  assert (obj < brk h0) as Hlt by (destruct Hreg as [_ Hd _ _]; apply Hd in E0; lia).
  assert (bags h !! obj = Some b0) as Eh by (rewrite (ci_old _ _ _ Hi) by done; done).
  assert (structural_tnum (tnum (PTR_BAG b0))) as Hs by (right; by left).
  assert (T_COMOBJ ≠ T_POSOBJ) as Hcp by (pose proof tnums_com_pos; lia).
  unfold CopyObjComObj.
  apply (body_opening_fuel mut true
           (λ copy h, len ← LEN_PREC h obj;
                      h ← CopyObjComObj_loop COPY obj copy mut (seq 1 (Z.to_nat len)) h;
                      Ret (copy, h)) obj h b0); [done..|].
  intros k copy h1 h2 Ek Hk Hmk Hlf.
  assert (mutable_structural h0 obj) as Hms by (split; [done|]; eauto 6).
  destruct (mark_spec mut true obj h fwd b0 k copy h1 h2 Hi Hms E0 Ek Hn Hmk Hlf)
    as (bc & -> & Hi2 & Hbrk & Hfr & Ec & _).
  assert (<[obj := brk h]> fwd !! obj = Some (brk h)) as Hf2 by apply lookup_insert_eq.
  apply bind_fuel; [apply ADDR_OBJ_get_fuel|]. intros len Elen. unfold LEN_PREC in Elen.
  apply (marked_read _ _ _ _ _ _ _ Hi2 Hf2 E0) in Elen; [|lia].
  apply bind_fuel; [|done].
  eapply (CopyObjComObj_loop_fuel COPY mut n HCOPY HFUEL obj (brk h) b0 E0 Hms);
    [exact Hi2|exact Hf2|exact Ec| |by eapply marked_one_more].
  intros i Hi'. unfold child_slots. rewrite decide_False by congruence.
  rewrite decide_True by done. rewrite (list_lookup_total_correct _ _ _ Elen).
  split; [|apply elem_of_seq in Hi'; lia]. apply elem_of_map_seq. eauto.
Qed.

Lemma CopyObjDatObj_fuel (obj : Obj) (h : Heap) : CopyObjDatObj obj mut h ≠ OutOfFuel.
Proof.
  unfold CopyObjDatObj. apply bind_fuel; [apply IS_MUTABLE_OBJ_fuel|]. intros m _.
  destruct (negb m); [done|].
  apply bind_fuel; [apply IS_COPYABLE_OBJ_fuel|]. intros c _. destruct (negb c); [done|].
  apply bind_fuel; [apply make_copy_fuel|]. intros [copy h1] _.
  apply bind_fuel; [apply leave_forwarding_fuel|]. intros h2 _.
  apply bind_fuel; [apply SIZE_OBJ_fuel|]. intros sz _. cbv zeta.
  apply bind_fuel; [apply CopyObjDatObj_loop_fuel|done].
Qed.

End CopyBodiesFuel.

(** [COPY_OBJ] does not run out of fuel when it has more fuel than there
    are unmarked objects. *)
Lemma COPY_OBJ_fuel (mut : bool) (n : nat) :
  ∀ (obj : Obj) (h : Heap) (fwd : gmap Z Z),
    copy_inv h0 h fwd → old_value h0 obj →
    (base.size (bags h0) - base.size fwd < n)%nat →
    COPY_OBJ n obj mut h ≠ OutOfFuel.
Proof.
  induction n as [|n IH]; intros obj h fwd Hi Hold Hm; [lia|].
  destruct (fwd !! obj) as [c|] eqn:Ef.
  { destruct (forwarded_reads h obj c) as (_ & b0 & f & _ & Ht & Hs & Hf & Hcc);
      [by apply (ci_fwd _ _ _ Hi)|].
    by rewrite (COPY_OBJ_marked n obj mut h _ f c Ht). }
  cbn [COPY_OBJ]. apply bind_fuel; [apply TNUM_OBJ_fuel|]. intros t Et.
  apply TNUM_OBJ_Ret in Et as [[Him Hct]|[Him (b & Eb & <-)]].
  { by rewrite CopyObjFuncs_constant. }
  destruct Hold as [Hlt|Him']; [|congruence].
  rewrite (ci_old _ _ _ Hi) in Eb by done.
  assert (tnum (PTR_BAG b) ≤ LAST_REAL_TNUM) as Hreal
    by (destruct Hreg as [_ _ Ht _]; by eapply Ht).
  destruct (CopyObjFuncs (tnum (PTR_BAG b))) as [fn|] eqn:Efn; [|done].
  destruct (CopyObjFuncs_real _ _ Hreal Efn) as [->|[[-> Hct]|Hs]]; [done..|].
  rewrite CopyObjFuncs_structural in Efn by done. injection Efn as <-.
  destruct (decide (tnum (PTR_BAG b) = T_POSOBJ)) as [Ht|Hnp].
  { eapply CopyObjPosObj_fuel; try done. apply COPY_OBJ_ok. }
  destruct (decide (tnum (PTR_BAG b) = T_COMOBJ)) as [Ht|Hnc].
  { eapply CopyObjComObj_fuel; try done. apply COPY_OBJ_ok. }
  apply CopyObjDatObj_fuel.
Qed.

Section CleanFuel.
Variable CLEAN : Obj → Heap → outcome Heap.
Variable n : nat.
Hypothesis HCLEAN : CLEAN_ok h0 CLEAN.
Hypothesis HFUEL : ∀ v h fwd,
  copy_inv h0 h fwd → old_value h0 v → (base.size fwd < n)%nat → CLEAN v h ≠ OutOfFuel.
Variable obj : Obj.
Variable b0 : Bag.
Hypothesis E0 : bags h0 !! obj = Some b0.
Hypothesis Hms : mutable_structural h0 obj.

Lemma CleanObjPosObjCopy_loop_fuel (idx : list nat) :
  ∀ (h : Heap) (fwd : gmap Z Z),
    copy_inv h0 h fwd → fwd !! obj = None →
    (∀ i, i ∈ idx → i ∈ child_slots (PTR_BAG b0)) →
    (base.size fwd < n)%nat →
    CleanObjPosObjCopy_loop CLEAN obj idx h ≠ OutOfFuel.
Proof.
  induction idx as [|i idx IH]; intros h fwd Hi Hn Hidx Hm; [done|].
  cbn [CleanObjPosObjCopy_loop]. apply bind_fuel; [apply ADDR_OBJ_get_fuel|]. intros v Ev.
  apply (unmarked_read obj b0 E0 _ _ _ _ Hi Hn) in Ev.
  assert (∀ j, j ∈ idx → j ∈ child_slots (PTR_BAG b0)) as Hidx'
    by (intros j Hj; apply Hidx; by right).
  destruct (decide (v = 0)) as [->|Hv].
  { rewrite bind_Ret_l. by eapply IH. }
  assert (old_value h0 v) as Hold.
  { apply (child_old obj); [done|]. exists i, b0. split; [done|].
    split; [apply Hidx; by left|done]. }
  apply bind_fuel; [by eapply HFUEL|]. intros h1 E1.
  destruct (HCLEAN v h fwd h1 Hi Hold E1) as (fwd1 & (Hsub1 & Hi1 & _) & _).
  eapply (IH h1 fwd1); [done|by eapply lookup_weaken_None|done|].
  apply map_subseteq_size in Hsub1. lia.
Qed.

Lemma CleanObjComObjCopy_loop_fuel (idx : list nat) :
  ∀ (h : Heap) (fwd : gmap Z Z),
    copy_inv h0 h fwd → fwd !! obj = None →
    (∀ i, i ∈ idx → (2 * i + 1)%nat ∈ child_slots (PTR_BAG b0)) →
    (base.size fwd < n)%nat →
    CleanObjComObjCopy_loop CLEAN obj idx h ≠ OutOfFuel.
Proof.
  induction idx as [|i idx IH]; intros h fwd Hi Hn Hidx Hm; [done|].
  cbn [CleanObjComObjCopy_loop]. unfold GET_ELM_PREC.
  apply bind_fuel; [apply ADDR_OBJ_get_fuel|]. intros v Ev.
  apply (unmarked_read obj b0 E0 _ _ _ _ Hi Hn) in Ev.
  assert (∀ j, j ∈ idx → (2 * j + 1)%nat ∈ child_slots (PTR_BAG b0)) as Hidx'
    by (intros j Hj; apply Hidx; by right).
  assert (old_value h0 v) as Hold.
  { apply (child_old obj); [done|]. exists (2 * i + 1)%nat, b0. split; [done|].
    split; [apply Hidx; by left|done]. }
  apply bind_fuel; [by eapply HFUEL|]. intros h1 E1.
  destruct (HCLEAN v h fwd h1 Hi Hold E1) as (fwd1 & (Hsub1 & Hi1 & _) & _).
  eapply (IH h1 fwd1); [done|by eapply lookup_weaken_None|done|].
  apply map_subseteq_size in Hsub1. lia.
Qed.

End CleanFuel.

(** [CLEAN_OBJ] does not run out of fuel when it has more fuel than there
    are marked objects. *)
Lemma CLEAN_OBJ_fuel (n : nat) :
  ∀ (obj : Obj) (h : Heap) (fwd : gmap Z Z),
    copy_inv h0 h fwd → old_value h0 obj → (base.size fwd < n)%nat →
    CLEAN_OBJ n obj h ≠ OutOfFuel.
Proof.
  induction n as [|n IH]; intros obj h fwd Hi Hold Hm; [lia|].
  cbn [CLEAN_OBJ]. apply bind_fuel; [apply TNUM_OBJ_fuel|]. intros t Et.
  destruct (fwd !! obj) as [c|] eqn:Ef.
  - destruct (forwarded_reads h obj c) as (Him & b0 & f & E0 & Ht & Hs & _);
      [by apply (ci_fwd _ _ _ Hi)|].
    assert (t = tnum (PTR_BAG b0) + COPYING) as -> by congruence.
    rewrite CleanObjFuncs_copying by done.
    assert (∀ h1, remove_forwarding obj h = Ret h1 →
                  mutable_structural h0 obj ∧ h1 = put_bag h obj b0
                  ∧ copy_inv h0 h1 (delete obj fwd)) as Hun.
    { intros h1 Hrm. destruct (unmark_spec h fwd obj c h1 Hi Ef Hrm) as (b & Eb & Hms & -> & Hi1).
      assert (b = b0) as -> by congruence. done. }
    assert (delete obj fwd !! obj = None) as Hn1 by apply lookup_delete_eq.
    assert (base.size (delete obj fwd) < n)%nat as Hm1.
    { rewrite map_size_delete_Some by (by eexists).
      pose proof (map_size_ne_0_lookup_2 fwd obj ltac:(by eexists)). lia. }
    destruct (decide (tnum (PTR_BAG b0) = T_POSOBJ)) as [Tp|Hnp];
      [|destruct (decide (tnum (PTR_BAG b0) = T_COMOBJ)) as [Tc|Hnc]].
    + unfold CleanObjPosObjCopy. apply bind_fuel; [apply remove_forwarding_fuel|].
      intros h1 Hrm. destruct (Hun h1 Hrm) as (Hms & -> & Hi1).
      rewrite (SIZE_OBJ_lookup _ _ b0), bind_Ret_l by apply bags_put_bag_eq.
      eapply (CleanObjPosObjCopy_loop_fuel (CLEAN_OBJ n) n (CLEAN_OBJ_ok n) IH obj b0 E0 Hms);
        [exact Hi1|exact Hn1| |exact Hm1].
      intros i Hi'. unfold child_slots. by rewrite decide_True.
    + unfold CleanObjComObjCopy. apply bind_fuel; [apply remove_forwarding_fuel|].
      intros h1 Hrm. destruct (Hun h1 Hrm) as (Hms & -> & Hi1).
      apply bind_fuel; [apply ADDR_OBJ_get_fuel|]. intros len Elen. unfold LEN_PREC in Elen.
      apply (ADDR_OBJ_get_inv _ _ _ _ b0) in Elen; [|apply bags_put_bag_eq].
      eapply (CleanObjComObjCopy_loop_fuel (CLEAN_OBJ n) n (CLEAN_OBJ_ok n) IH obj b0 E0 Hms);
        [exact Hi1|exact Hn1| |exact Hm1].
      intros i Hi'. unfold child_slots. rewrite decide_False by done.
      rewrite decide_True by done. rewrite (list_lookup_total_correct _ _ _ Elen).
      apply elem_of_map_seq. eauto.
    + apply remove_forwarding_fuel.
  - apply TNUM_OBJ_Ret in Et as [[Him Hct]|[Him (b & Eb & <-)]].
    { by rewrite CleanObjFuncs_constant. }
    destruct Hold as [Hlt|Him']; [|congruence].
    rewrite (ci_old _ _ _ Hi) in Eb by done.
    assert (tnum (PTR_BAG b) ≤ LAST_REAL_TNUM) as Hreal
      by (destruct Hreg as [_ _ Ht _]; by eapply Ht).
    destruct (CleanObjFuncs (tnum (PTR_BAG b))) as [fn|] eqn:Efn; [|done].
    destruct (CleanObjFuncs_real _ _ Hreal Efn) as [-> | [-> | [-> | [-> | ->]]]]; done.
Qed.

(** More fuel than the heap has bags is enough for [CopyObj]: if the call
    does not return, it has stopped at an error of the source. *)
Lemma CopyObj_fuel (fuel : nat) (obj : Obj) (mut : bool) (tl : ThreadLocal) :
  (base.size (bags h0) < fuel)%nat → CopyObj fuel obj mut tl h0 ≠ OutOfFuel.
Proof.
  intros Hm. unfold CopyObj.
  assert (COPY_OBJ fuel obj mut h0 ≠ OutOfFuel) as Hc.
  { destruct (TNUM_OBJ h0 obj) as [t| | |] eqn:Et.
    - apply (COPY_OBJ_fuel mut fuel obj h0 ∅ copy_inv_start); [|lia].
      apply TNUM_OBJ_Ret in Et as [[Him _]|[_ (b & Eb & _)]]; [by right|left].
      destruct Hreg as [_ Hd _ _]. apply Hd in Eb. lia.
    - destruct fuel as [|fuel]; [lia|]. cbn [COPY_OBJ]. by rewrite Et.
    - destruct fuel as [|fuel]; [lia|]. cbn [COPY_OBJ]. by rewrite Et.
    - by apply TNUM_OBJ_fuel in Et. }
  apply bind_fuel; [done|]. intros [new h1] Hcp.
  assert (old_value h0 obj) as Hold.
  { destruct fuel as [|fuel]; [done|]. cbn [COPY_OBJ] in Hcp. bind_inv Hcp as t Et.
    apply TNUM_OBJ_Ret in Et as [[Him _]|[_ (b & Eb & _)]]; [by right|left].
    destruct Hreg as [_ Hd _ _]. apply Hd in Eb. lia. }
  destruct (COPY_OBJ_ok mut fuel obj h0 ∅ new h1 copy_inv_start Hold Hcp)
    as (fwd & (_ & Hi1 & _) & _).
  apply bind_fuel; [|done].
  apply (CLEAN_OBJ_fuel fuel obj h1 fwd Hi1 Hold).
  apply marked_count in Hi1. lia.
Qed.

End CopyProps.

(** ** C1, C2: no mark outlives the call, and sharing is kept *)

Section CopyTheorems.
Context `{Tnums} `{!TnumsOK} `{Kinds} `{Threads}.

(** C1.  Let [h0] be a heap between two top-level copies.  If
    [CopyObj(obj, mut)] returns, then every bag of [h0] is in the heap it
    leaves exactly as it was before the call, with its tag and its word 0,
    so every forwarding record has been taken out again; no bag of that
    heap, old or new, has a tag beyond [LAST_REAL_TNUM], where the tags
    with the [COPYING] offset lie; the session pointer [copiedObjs] is
    null when the call returns, and the call runs as it does from a null
    session pointer whatever the pointer was before. *)
Theorem CopyObj_leaves_no_mark (fuel : nat) (obj : Obj) (mut : bool) (tl : ThreadLocal)
    (h0 : Heap) (new : Obj) (tl' : ThreadLocal) (h' : Heap) :
  regular_heap h0 →
  CopyObj fuel obj mut tl h0 = Ret (new, tl', h') →
  (∀ k, k < brk h0 → bags h' !! k = bags h0 !! k)
  ∧ (∀ k b, bags h' !! k = Some b → tnum (PTR_BAG b) ≤ LAST_REAL_TNUM)
  ∧ (∀ k b t, bags h' !! k = Some b → structural_tnum t →
              tnum (PTR_BAG b) ≠ t + COPYING)
  ∧ copiedObjs tl' = 0
  ∧ CopyObj fuel obj mut tl h0 = CopyObj fuel obj mut (mkThreadLocal 0) h0.
Proof.
  intros Hreg Hrun.
  destruct (CopyObj_run h0 Hreg fuel obj mut tl new tl' h' Hrun)
    as (fwd & h1 & -> & _ & _ & (_ & Hi & _)).
  assert (∀ k b, bags h' !! k = Some b → tnum (PTR_BAG b) ≤ LAST_REAL_TNUM) as Hreal.
  { intros k b Eb. destruct (decide (k < brk h0)) as [Hk|Hk].
    - rewrite (ci_old _ _ _ Hi) in Eb by done. destruct Hreg as [_ _ Ht _]. by eapply Ht.
    - destruct (ci_new _ _ _ Hi k b) as [->|Hs]; [lia|done| |].
      + apply plist_real.
      + by apply structural_real. }
  split; [|split; [done|split; [|done]]].
  - intros k Hk. by apply (ci_old _ _ _ Hi).
  - intros k b t Eb Hs Et. apply Hreal in Eb.
    pose proof tnums_copying. pose proof tnums_record_list.
    pose proof tnums_plist_list. pose proof tnums_list_external.
    pose proof tnums_comobj_ext. pose proof tnums_posobj_ext.
    pose proof tnums_datobj_ext. unfold structural_tnum in Hs. lia.
Qed.

(** C2.  A marked object that is visited again is not copied again: if
    the tag of [x] is a structural tag with the [COPYING] offset, word 0 of
    [x] is the forwarding record [f] and element 2 of [f] is [c], then
    [COPY_OBJ] returns [c] and the heap as it is, with fuel for one call
    only, so without a nested call.  Consequently, if [CopyObj(obj, mut)]
    returns on a heap [h0] between two top-level copies, there is a map
    from the objects of [h0] that were copied to their copies such that
    [new] stands for [obj]; every mutable structural object reached from
    [obj] has a copy, a new handle, whose followed words stand for the
    words of the original; and two slots of such objects that hold the
    same mutable structural object [s] correspond to two slots in the
    copies that hold the same new handle, the one copy of [s]. *)
Theorem CopyObj_preserves_sharing (fuel : nat) (obj : Obj) (mut : bool)
    (tl : ThreadLocal) (h0 : Heap) (new : Obj) (tl' : ThreadLocal) (h' : Heap) :
  regular_heap h0 →
  CopyObj fuel obj mut tl h0 = Ret (new, tl', h') →
  (∀ (h : Heap) (x : Obj) (t : Z) (f c : Obj),
     TNUM_OBJ h x = Ret (t + COPYING) → structural_tnum t →
     ADDR_OBJ_get h x 0 = Ret f → ELM_PLIST h f 2 = Ret c →
     COPY_OBJ 1 x mut h = Ret (c, h))
  ∧ ∃ fwd : gmap Z Z,
      copied_to h0 fwd obj new
      ∧ (∀ x, copied_from h0 obj x →
              ∃ c, fwd !! x = Some c ∧ brk h0 ≤ c ∧ copy_complete h0 mut h' fwd x)
      ∧ (∀ x1 x2 i1 i2 s,
           copied_from h0 obj x1 → copied_from h0 obj x2 →
           child_at h0 x1 i1 s → child_at h0 x2 i2 s → mutable_structural h0 s →
           ∃ c1 c2 w, fwd !! x1 = Some c1 ∧ fwd !! x2 = Some c2 ∧ fwd !! s = Some w
                      ∧ brk h0 ≤ w ∧ word_at h' c1 i1 w ∧ word_at h' c2 i2 w).
Proof.
  intros Hreg Hrun. split.
  { intros h x t f c Ht Hs Hf Hc. by eapply COPY_OBJ_marked. }
  destruct (CopyObj_run h0 Hreg fuel obj mut tl new tl' h' Hrun)
    as (fwd & h1 & -> & Hstep & Hto & CS).
  pose proof (CopyObj_copies h0 Hreg mut obj new h1 h' fwd Hstep Hto CS) as Hall.
  exists fwd. split; [done|]. split; [done|].
  assert (∀ x i s, copied_from h0 obj x → child_at h0 x i s → mutable_structural h0 s →
                   ∃ c w, fwd !! x = Some c ∧ fwd !! s = Some w ∧ word_at h' c i w)
    as Hslot.
  { intros x i s Hx (b & Eb & Hi & Es) Hs.
    destruct (Hall x Hx) as (c & Ec & _ & b0 & c' & bc & k & E0 & Ec' & Ebc & _ & _ & _ & _
                             & Hch & _).
    assert (b = b0) as -> by congruence. assert (c' = c) as -> by congruence.
    destruct (Hch i s Hi Es) as (w & Ew & [Hw|[Hno _]]); [|done].
    exists c, w. split; [done|]. split; [done|]. by exists bc. }
  intros x1 x2 i1 i2 s Hx1 Hx2 Hc1 Hc2 Hs.
  destruct (Hslot x1 i1 s Hx1 Hc1 Hs) as (c1 & w & E1 & Ew & W1).
  destruct (Hslot x2 i2 s Hx2 Hc2 Hs) as (c2 & w' & E2 & Ew' & W2).
  assert (w' = w) as -> by congruence.
  exists c1, c2, w. split; [done|]. split; [done|]. split; [done|]. split; [|done].
  destruct Hstep as (_ & Hi1 & _).
  destruct (forwarded_bounds h0 Hreg _ _ _ _ Hi1 Ew) as (_ & Hw & _). lia.
Qed.

End CopyTheorems.

Section CopyExamples.
Import Example.

Lemma heap_regular : regular_heap heap.
Proof.
  split.
  - split; [done|reflexivity].
  - intros k b E. unfold heap in E; simpl in E.
    repeat (apply lookup_insert_Some in E as [[<- _]|[_ E]]; [simpl; lia|]).
    by rewrite lookup_empty in E.
  - intros k b E. unfold heap in E; simpl in E.
    repeat (apply lookup_insert_Some in E as [[_ <-]|[_ E]]; [simpl; lia|]).
    by rewrite lookup_empty in E.
  - intros x c _ (i & b & E & Hi & Ec). unfold heap in E; simpl in E.
    repeat (apply lookup_insert_Some in E as [[<- <-]|[_ E]];
            [vm_compute in Hi;
             match type of Hi with list_elem_of ?a ?l => change (a ∈ l) in Hi end;
             repeat (apply elem_of_cons in Hi as [->|Hi];
                     [injection Ec as <-;
                      first [by right; left | right; right; by eexists]|]);
             by apply elem_of_nil in Hi|]).
    by rewrite lookup_empty in E.
Qed.

(** The copy of the object [4] of the example heap, called with a session
    pointer left over from before. *)
Lemma CopyObj_leaves_no_mark_witness :
  (∀ k, k < brk heap → bags copied_heap !! k = bags heap !! k)
  ∧ (∀ k b, bags copied_heap !! k = Some b → tnum (PTR_BAG b) ≤ LAST_REAL_TNUM)
  ∧ (∀ k b t, bags copied_heap !! k = Some b → structural_tnum t →
              tnum (PTR_BAG b) ≠ t + COPYING)
  ∧ copiedObjs (mkThreadLocal 0) = 0
  ∧ CopyObj 3 4 true (mkThreadLocal 7) heap = CopyObj 3 4 true (mkThreadLocal 0) heap.
Proof.
  refine (CopyObj_leaves_no_mark 3 4 true (mkThreadLocal 7) heap 24 (mkThreadLocal 0)
            copied_heap heap_regular _).
  vm_compute. reflexivity.
Defined.

(** The same call: slots 1 and 2 of [4] share [8], and [8] leads back to
    [4]. *)
Lemma CopyObj_preserves_sharing_witness :
  (∀ (h : Heap) (x : Obj) (t : Z) (f c : Obj),
     TNUM_OBJ h x = Ret (t + COPYING) → structural_tnum t →
     ADDR_OBJ_get h x 0 = Ret f → ELM_PLIST h f 2 = Ret c →
     COPY_OBJ 1 x true h = Ret (c, h))
  ∧ ∃ fwd : gmap Z Z,
      copied_to heap fwd 4 24
      ∧ (∀ x, copied_from heap 4 x →
              ∃ c, fwd !! x = Some c ∧ brk heap ≤ c
                   ∧ copy_complete heap true copied_heap fwd x)
      ∧ (∀ x1 x2 i1 i2 s,
           copied_from heap 4 x1 → copied_from heap 4 x2 →
           child_at heap x1 i1 s → child_at heap x2 i2 s → mutable_structural heap s →
           ∃ c1 c2 w, fwd !! x1 = Some c1 ∧ fwd !! x2 = Some c2 ∧ fwd !! s = Some w
                      ∧ brk heap ≤ w ∧ word_at copied_heap c1 i1 w
                      ∧ word_at copied_heap c2 i2 w).
Proof.
  refine (CopyObj_preserves_sharing 3 4 true (mkThreadLocal 7) heap 24 (mkThreadLocal 0)
            copied_heap heap_regular _).
  vm_compute. reflexivity.
Defined.

End CopyExamples.

(** ** Heaps as values *)

Lemma heap_eq (h h' : Heap) : bags h = bags h' → brk h = brk h' → h = h'.
Proof. destruct h, h'; simpl. by intros -> ->. Qed.

Lemma put_bag_id (h : Heap) (o : Obj) (b : Bag) : bags h !! o = Some b → put_bag h o b = h.
Proof. intros E. apply heap_eq; [|done]. simpl. by apply insert_id. Qed.

Lemma put_bag_comm (h : Heap) (o1 o2 : Obj) (b1 b2 : Bag) :
  o1 ≠ o2 → put_bag (put_bag h o1 b1) o2 b2 = put_bag (put_bag h o2 b2) o1 b1.
Proof. intros Hne. apply heap_eq; [|done]. simpl. by apply insert_insert_ne. Qed.

Lemma set_word_same (b : Bag) (i : nat) (v : Z) :
  data (PTR_BAG b) !! i = Some v → set_word b i v = b.
Proof.
  intros E. destruct b as [[t sz ws] ds]. unfold set_word; simpl in *.
  by rewrite list_insert_id.
Qed.

Lemma set_word_set_word (b : Bag) (i : nat) (v w : Z) :
  set_word (set_word b i v) i w = set_word b i w.
Proof. unfold set_word; simpl. by rewrite list_insert_insert_eq. Qed.

Lemma RetypeBag_lookup (h : Heap) (o : Obj) (b : Bag) (t : Z) :
  bags h !! o = Some b → RetypeBag h o t = Ret (put_bag h o (set_tnum b t)).
Proof. intros E. unfold RetypeBag. by rewrite (get_bag_Some _ _ _ E). Qed.

(** ** Switching twice *)

Section SwitchTwice.
Context `{Tnums} `{Kinds} `{Threads}.

Lemma FuncSWITCH_OBJ_owned (obj1 obj2 : Obj) (h : Heap) (b1 b2 : Bag) :
  is_immediate obj1 = false → is_immediate obj2 = false →
  bags h !! obj1 = Some b1 → bags h !! obj2 = Some b2 →
  owned_by_caller (DS_BAG b1) → owned_by_caller (DS_BAG b2) →
  FuncSWITCH_OBJ obj1 obj2 h = Ret (mkReply None 0 (put_bag (put_bag h obj2 b1) obj1 b2)).
Proof.
  unfold is_immediate. intros [I1 F1]%orb_false_iff [I2 F2]%orb_false_iff E1 E2.
  intros O1%not_owned_false O2%not_owned_false.
  unfold FuncSWITCH_OBJ. rewrite I1, I2, F1, F2; simpl.
  rewrite (get_bag_Some _ _ _ E1), (get_bag_Some _ _ _ E2), !bind_Ret_l.
  rewrite O1, O2. by rewrite exchange_swaps.
Qed.

Lemma FuncFORCE_SWITCH_OBJ_allowed (obj1 obj2 : Obj) (h : Heap) (b1 b2 : Bag) :
  is_immediate obj1 = false → is_immediate obj2 = false →
  bags h !! obj1 = Some b1 → bags h !! obj2 = Some b2 →
  public_or_owned (DS_BAG b1) → public_or_owned (DS_BAG b2) →
  FuncFORCE_SWITCH_OBJ obj1 obj2 h
  = Ret (mkReply None 0 (put_bag (put_bag h obj2 b1) obj1 b2)).
Proof.
  unfold is_immediate. intros [I1 F1]%orb_false_iff [I2 F2]%orb_false_iff E1 E2.
  intros O1%owned_by_other_false O2%owned_by_other_false.
  unfold FuncFORCE_SWITCH_OBJ. rewrite I1, I2, F1, F2; simpl.
  rewrite (get_bag_Some _ _ _ E1), (get_bag_Some _ _ _ E2), !bind_Ret_l.
  rewrite O1, O2. by rewrite exchange_swaps.
Qed.

(** The heap after the exchange, seen from the two handles. *)
Lemma exchanged_lookup (obj1 obj2 : Obj) (h : Heap) (b1 b2 : Bag) :
  bags h !! obj1 = Some b1 → bags h !! obj2 = Some b2 →
  let h1 := put_bag (put_bag h obj2 b1) obj1 b2 in
  bags h1 !! obj1 = Some b2 ∧ bags h1 !! obj2 = Some b1
  ∧ put_bag (put_bag h1 obj2 b2) obj1 b1 = h
  ∧ put_bag (put_bag h obj1 b2) obj2 b1 = h1.
Proof.
  intros E1 E2 h1. unfold h1. split; [apply bags_put_bag_eq|].
  destruct (decide (obj1 = obj2)) as [->|Hne].
  - assert (b1 = b2) as -> by congruence.
    split; [apply bags_put_bag_eq|]. rewrite !put_bag_put_bag.
    split; by rewrite put_bag_id.
  - split; [rewrite bags_put_bag_ne by done; apply bags_put_bag_eq|]. split.
    + rewrite (put_bag_comm _ obj2 obj1) by done. rewrite put_bag_put_bag.
      rewrite (put_bag_comm _ obj1 obj2) by done. rewrite put_bag_put_bag.
      rewrite (put_bag_id _ obj2) by done. by rewrite put_bag_id.
    + by rewrite put_bag_comm.
Qed.

(** X1.  [SWITCH_OBJ] is its own inverse and does not depend on the order
    of its arguments: for two bags in regions of the calling thread, a
    second call with the same arguments gives back the heap as it was
    before the first, and the call with the arguments exchanged gives the
    same heap as the first. *)
Theorem SWITCH_OBJ_twice (obj1 obj2 : Obj) (h : Heap) (b1 b2 : Bag) :
  is_immediate obj1 = false → is_immediate obj2 = false →
  bags h !! obj1 = Some b1 → bags h !! obj2 = Some b2 →
  owned_by_caller (DS_BAG b1) → owned_by_caller (DS_BAG b2) →
  ∃ h1, FuncSWITCH_OBJ obj1 obj2 h = Ret (mkReply None 0 h1)
      ∧ FuncSWITCH_OBJ obj1 obj2 h1 = Ret (mkReply None 0 h)
      ∧ FuncSWITCH_OBJ obj2 obj1 h = Ret (mkReply None 0 h1)
      ∧ ∀ k, k ≠ obj1 → k ≠ obj2 → bags h1 !! k = bags h !! k.
Proof.
  intros I1 I2 E1 E2 O1 O2.
  destruct (exchanged_lookup obj1 obj2 h b1 b2 E1 E2) as (L1 & L2 & Hback & Hsym).
  eexists. split; [by apply FuncSWITCH_OBJ_owned|].
  split; [|split].
  - rewrite (FuncSWITCH_OBJ_owned obj1 obj2 _ b2 b1) by done. by rewrite Hback.
  - rewrite (FuncSWITCH_OBJ_owned obj2 obj1 h b2 b1) by done. by rewrite Hsym.
  - intros k N1 N2. by rewrite !bags_put_bag_ne.
Qed.

(** X2.  The same for [FORCE_SWITCH_OBJ], for bags whose regions are public
    or regions of the calling thread. *)
Theorem FORCE_SWITCH_OBJ_twice (obj1 obj2 : Obj) (h : Heap) (b1 b2 : Bag) :
  is_immediate obj1 = false → is_immediate obj2 = false →
  bags h !! obj1 = Some b1 → bags h !! obj2 = Some b2 →
  public_or_owned (DS_BAG b1) → public_or_owned (DS_BAG b2) →
  ∃ h1, FuncFORCE_SWITCH_OBJ obj1 obj2 h = Ret (mkReply None 0 h1)
      ∧ FuncFORCE_SWITCH_OBJ obj1 obj2 h1 = Ret (mkReply None 0 h)
      ∧ FuncFORCE_SWITCH_OBJ obj2 obj1 h = Ret (mkReply None 0 h1)
      ∧ ∀ k, k ≠ obj1 → k ≠ obj2 → bags h1 !! k = bags h !! k.
Proof.
  intros I1 I2 E1 E2 O1 O2.
  destruct (exchanged_lookup obj1 obj2 h b1 b2 E1 E2) as (L1 & L2 & Hback & Hsym).
  eexists. split; [by apply FuncFORCE_SWITCH_OBJ_allowed|].
  split; [|split].
  - rewrite (FuncFORCE_SWITCH_OBJ_allowed obj1 obj2 _ b2 b1) by done. by rewrite Hback.
  - rewrite (FuncFORCE_SWITCH_OBJ_allowed obj2 obj1 h b2 b1) by done. by rewrite Hsym.
  - intros k N1 N2. by rewrite !bags_put_bag_ne.
Qed.

End SwitchTwice.

(** ** Setting and reading the kind *)

Section SetKind.
Context `{Tnums} `{!TnumsOK} `{AtomicTnums} `{Kinds} `{Threads} `{Library}.

(** Word 0 is replaced and the bag retagged. *)
Lemma set_kind_retype (obj kind : Obj) (t : Z) (h : Heap) (b : Bag) :
  bags h !! obj = Some b → (0 < length (data (PTR_BAG b)))%nat →
  (h1 ← ADDR_OBJ_set h obj 0 kind; h2 ← RetypeBag h1 obj t; Ret (obj, h2))
  = Ret (obj, put_bag h obj (set_tnum (set_word b 0 kind) t)).
Proof.
  intros E Hl. rewrite (ADDR_OBJ_set_lookup _ _ _ _ _ E Hl), bind_Ret_l.
  rewrite (RetypeBag_lookup _ _ (set_word b 0 kind)) by apply bags_put_bag_eq.
  rewrite bind_Ret_l. by rewrite put_bag_put_bag.
Qed.

Lemma kind_after_set (obj kind : Obj) (t : Z) (h : Heap) (b : Bag) :
  is_immediate obj = false → (0 < length (data (PTR_BAG b)))%nat → structural_tnum t →
  let h' := put_bag h obj (set_tnum (set_word b 0 kind) t) in
  TYPE_OBJ h' obj = Ret kind ∧ TNUM_OBJ h' obj = Ret t.
Proof.
  intros Him Hl Hs h'.
  assert (bags h' !! obj = Some (set_tnum (set_word b 0 kind) t)) as E'
    by apply bags_put_bag_eq.
  split; [|by rewrite (TNUM_OBJ_bag _ _ _ Him E')].
  rewrite (TYPE_OBJ_structural _ _ _ Him E') by done.
  eapply ADDR_OBJ_get_lookup; [exact E'|]. unfold set_tnum, set_word; simpl.
  by apply list_lookup_insert_eq.
Qed.

(** X3.  [SET_TYPE_COMOBJ] on a plain record or a component object with a
    word 0: the bag becomes a component object whose kind is [kind]; its
    size, its region and its other words stay, no other bag changes, and
    [TYPE_OBJ] then returns [kind] and [IS_COMOBJ] answers [True]. *)
Theorem SET_TYPE_COMOBJ_sets_kind (obj kind : Obj) (h : Heap) (b : Bag) :
  is_immediate obj = false → bags h !! obj = Some b →
  tnum (PTR_BAG b) = T_PREC ∨ tnum (PTR_BAG b) = T_COMOBJ →
  (0 < length (data (PTR_BAG b)))%nat →
  let h' := put_bag h obj (set_tnum (set_word b 0 kind) T_COMOBJ) in
  SET_TYPE_COMOBJ_Handler obj kind h = Ret (obj, h')
  ∧ TypeObjHandler obj h' = Ret kind
  ∧ IS_COMOBJ_Handler obj h' = Ret true.
Proof.
  intros Him E Ht Hl h'. subst h'. split; [|split].
  - unfold SET_TYPE_COMOBJ_Handler. rewrite (TNUM_OBJ_bag _ _ _ Him E), bind_Ret_l.
    rewrite decide_True by done. by apply set_kind_retype.
  - apply kind_after_set; try done. right. by left.
  - unfold IS_COMOBJ_Handler.
    destruct (kind_after_set obj kind T_COMOBJ h b Him Hl) as [_ ->]; [right; by left|].
    rewrite bind_Ret_l. by rewrite bool_decide_eq_true_2 by (by left).
Qed.

(** X4.  [SET_TYPE_POSOBJ] on a bag whose tag is none of the three atomic
    tags, whatever else it is: the bag becomes a positional object whose
    kind is [kind], with its size, region and other words as before;
    [TYPE_OBJ] then returns [kind] and [IS_POSOBJ] answers [True]. *)
Theorem SET_TYPE_POSOBJ_sets_kind (obj kind : Obj) (h : Heap) (b : Bag) :
  is_immediate obj = false → bags h !! obj = Some b →
  tnum (PTR_BAG b) ≠ T_APOSOBJ → tnum (PTR_BAG b) ≠ T_ALIST →
  tnum (PTR_BAG b) ≠ T_FIXALIST →
  (0 < length (data (PTR_BAG b)))%nat →
  let h' := put_bag h obj (set_tnum (set_word b 0 kind) T_POSOBJ) in
  SET_TYPE_POSOBJ_Handler obj kind h = Ret (obj, h')
  ∧ TypeObjHandler obj h' = Ret kind
  ∧ IS_POSOBJ_Handler obj h' = Ret true.
Proof.
  intros Him E N1 N2 N3 Hl h'. subst h'. split; [|split].
  - unfold SET_TYPE_POSOBJ_Handler. rewrite (TNUM_OBJ_bag _ _ _ Him E), bind_Ret_l.
    rewrite decide_False by (intros [?|[?|?]]; done). by apply set_kind_retype.
  - apply kind_after_set; try done. by left.
  - unfold IS_POSOBJ_Handler.
    destruct (kind_after_set obj kind T_POSOBJ h b Him Hl) as [_ ->]; [by left|].
    rewrite bind_Ret_l. by rewrite bool_decide_eq_true_2 by (by left).
Qed.

(** X5.  [SET_TYPE_DATOBJ] does not look at the tag: any bag with a word 0
    becomes a data object whose kind is [kind], with its size, region and
    other words as before; [TYPE_OBJ] then returns [kind] and [IS_DATOBJ]
    answers [True]. *)
Theorem SET_TYPE_DATOBJ_sets_kind (obj kind : Obj) (h : Heap) (b : Bag) :
  is_immediate obj = false → bags h !! obj = Some b →
  (0 < length (data (PTR_BAG b)))%nat →
  let h' := put_bag h obj (set_tnum (set_word b 0 kind) T_DATOBJ) in
  SET_TYPE_DATOBJ_Handler obj kind h = Ret (obj, h')
  ∧ TypeObjHandler obj h' = Ret kind
  ∧ IS_DATOBJ_Handler obj h' = Ret true.
Proof.
  intros Him E Hl h'. subst h'.
  destruct (kind_after_set obj kind T_DATOBJ h b Him Hl) as [Hk Ht]; [right; by right|].
  split; [|split].
  - unfold SET_TYPE_DATOBJ_Handler. by apply set_kind_retype.
  - done.
  - unfold IS_DATOBJ_Handler. rewrite Ht, bind_Ret_l.
    by rewrite bool_decide_eq_true_2.
Qed.

(** X6.  [SET_TYPE_OBJ] and [TYPE_OBJ] on the three structural kinds: what
    [SET_TYPE_OBJ] stores is what [TYPE_OBJ] returns, a second
    [SET_TYPE_OBJ] replaces the first, and storing the kind that is there
    changes nothing. *)
Theorem SET_TYPE_OBJ_then_TYPE_OBJ (obj kind kind' : Obj) (h : Heap) (b : Bag) (k : Z) :
  is_immediate obj = false → bags h !! obj = Some b →
  structural_tnum (tnum (PTR_BAG b)) → data (PTR_BAG b) !! 0%nat = Some k →
  ∃ h1, SetTypeObjHandler obj kind h = Ret (0, h1)
      ∧ TypeObjHandler obj h1 = Ret kind
      ∧ TypeObjHandler obj h = Ret k
      ∧ SetTypeObjHandler obj k h = Ret (0, h)
      ∧ (h2 ← SET_TYPE_OBJ h1 obj kind'; Ret h2) = SET_TYPE_OBJ h obj kind'
      ∧ ∀ o, o ≠ obj → bags h1 !! o = bags h !! o.
Proof.
  intros Him E Hs Ek.
  assert (0 < length (data (PTR_BAG b)))%nat as Hl by (by eapply lookup_lt_Some).
  assert (∀ v, SET_TYPE_OBJ h obj v = Ret (put_bag h obj (set_word b 0 v))) as Hset.
  { intros v. rewrite (SET_TYPE_OBJ_structural _ _ _ _ Him E Hs).
    by apply ADDR_OBJ_set_lookup. }
  exists (put_bag h obj (set_word b 0 kind)).
  assert (bags (put_bag h obj (set_word b 0 kind)) !! obj = Some (set_word b 0 kind)) as E1
    by apply bags_put_bag_eq.
  split; [unfold SetTypeObjHandler; by rewrite Hset|]. split; [|split; [|split; [|split]]].
  - unfold TypeObjHandler. rewrite (TYPE_OBJ_structural _ _ _ Him E1) by done.
    eapply ADDR_OBJ_get_lookup; [exact E1|]. unfold set_word; simpl.
    by apply list_lookup_insert_eq.
  - unfold TypeObjHandler. rewrite (TYPE_OBJ_structural _ _ _ Him E) by done.
    by eapply ADDR_OBJ_get_lookup.
  - unfold SetTypeObjHandler. rewrite Hset, bind_Ret_l.
    rewrite set_word_same by done. by rewrite put_bag_id.
  - rewrite (SET_TYPE_OBJ_structural _ _ _ _ Him E1) by done.
    rewrite (ADDR_OBJ_set_lookup _ _ _ _ _ E1) by (unfold set_word; simpl;
      by rewrite length_insert).
    rewrite bind_Ret_l, Hset. by rewrite put_bag_put_bag, set_word_set_word.
  - intros o Hne. by rewrite bags_put_bag_ne.
Qed.

End SetKind.

(** ** The tests on structural and constant objects *)

Section Tests.
Context `{Tnums} `{!TnumsOK} `{Kinds}.

Lemma IS_MUTABLE_OBJ_kind (h : Heap) (o : Obj) (b : Bag) (k : Z) :
  is_immediate o = false → bags h !! o = Some b → structural_tnum (tnum (PTR_BAG b)) →
  data (PTR_BAG b) !! 0%nat = Some k → IS_MUTABLE_OBJ h o = Ret (KindIsMutable k).
Proof.
  intros Him E Hs Ek. unfold IS_MUTABLE_OBJ.
  rewrite (TNUM_OBJ_bag _ _ _ Him E), bind_Ret_l.
  rewrite IsMutableObjFuncs_structural by done.
  rewrite (TYPE_OBJ_structural _ _ _ Him E Hs).
  by rewrite (ADDR_OBJ_get_lookup _ _ _ _ _ E Ek).
Qed.

Lemma IS_COPYABLE_OBJ_kind (h : Heap) (o : Obj) (b : Bag) (k : Z) :
  is_immediate o = false → bags h !! o = Some b → structural_tnum (tnum (PTR_BAG b)) →
  data (PTR_BAG b) !! 0%nat = Some k → IS_COPYABLE_OBJ h o = Ret (KindIsCopyable k).
Proof.
  intros Him E Hs Ek. unfold IS_COPYABLE_OBJ.
  rewrite (TNUM_OBJ_bag _ _ _ Him E), bind_Ret_l.
  rewrite IsCopyableObjFuncs_structural by done.
  rewrite (TYPE_OBJ_structural _ _ _ Him E Hs).
  by rewrite (ADDR_OBJ_get_lookup _ _ _ _ _ E Ek).
Qed.

Lemma IsCopyableObjFuncs_constant (t : Z) :
  constant_tnum t → IsCopyableObjFuncs t = Some TestNot_fn.
Proof.
  intros Hc. unfold IsCopyableObjFuncs, constant_tnum in *.
  pose proof tnums_const_record; pose proof tnums_record_list;
  pose proof tnums_plist_list; pose proof tnums_list_external.
  rewrite (proj2 (in_range_false _ _ _)) by lia.
  by rewrite (proj2 (in_range_spec _ _ _)) by lia.
Qed.

Lemma RESET_FILTER_OBJ_kind `{Threads} (h : Heap) (o : Obj) (b : Bag) (k : Z) :
  is_immediate o = false → bags h !! o = Some b → structural_tnum (tnum (PTR_BAG b)) →
  data (PTR_BAG b) !! 0%nat = Some k →
  RESET_FILTER_OBJ_IsMutable h o = Ret (put_bag h o (set_word b 0 (KindResetMutable k))).
Proof.
  intros Him E Hs Ek. unfold RESET_FILTER_OBJ_IsMutable.
  rewrite (TYPE_OBJ_structural _ _ _ Him E Hs).
  rewrite (ADDR_OBJ_get_lookup _ _ _ _ _ E Ek), bind_Ret_l.
  rewrite (SET_TYPE_OBJ_structural _ _ _ _ Him E Hs).
  apply ADDR_OBJ_set_lookup; [done|]. by eapply lookup_lt_Some.
Qed.

End Tests.

(** ** Making immutable in place *)

Section MakeImmutableProps.
Context `{Tnums} `{!TnumsOK} `{AtomicTnums} `{Kinds} `{Threads} `{Library}.

Lemma MakeImmutableObjFuncs_structural (t : Z) :
  structural_tnum t →
  MakeImmutableObjFuncs t
  = Some (if decide (t = T_DATOBJ) then MakeImmutableDatObj_fn
          else if decide (t = T_POSOBJ) then MakeImmutablePosObj_fn
          else MakeImmutableComObj_fn).
Proof.
  intros Hs. unfold MakeImmutableObjFuncs.
  destruct (decide (t = T_DATOBJ)); [done|]. destruct (decide (t = T_POSOBJ)); [done|].
  rewrite decide_True; [done|]. by destruct Hs as [?|[?|?]].
Qed.

(** X7.  [MakeImmutable] is shallow.  On a mutable object of one of the
    three structural kinds it replaces the kind in word 0 by the kind
    without the mutability flag and, for a component or a positional
    object, then calls the library function [PostMakeImmutable] once on
    the object; no slot is followed, so no other word and no other bag is
    written by the kernel.  If the new kind is indeed not mutable, the
    object then tests immutable and a further [MakeImmutable] does nothing
    at all, not even that call. *)
Theorem MakeImmutable_resets_kind (obj : Obj) (h : Heap) (b : Bag) (k : Z) :
  is_immediate obj = false → bags h !! obj = Some b →
  structural_tnum (tnum (PTR_BAG b)) → data (PTR_BAG b) !! 0%nat = Some k →
  KindIsMutable k = true →
  let h1 := put_bag h obj (set_word b 0 (KindResetMutable k)) in
  MakeImmutable obj h
  = (if decide (tnum (PTR_BAG b) = T_DATOBJ) then Ret h1 else PostMakeImmutable obj h1)
  ∧ (KindIsMutable (KindResetMutable k) = false →
     IsMutableObjHandler obj h1 = Ret false
     ∧ MakeImmutable obj h1 = Ret h1
     ∧ FuncMakeImmutable obj h1 = Ret (obj, h1)).
Proof.
  intros Him E Hs Ek Hm h1. subst h1. split.
  - unfold MakeImmutable. rewrite (IS_MUTABLE_OBJ_kind _ _ _ _ Him E Hs Ek), bind_Ret_l, Hm.
    rewrite (TNUM_OBJ_bag _ _ _ Him E), bind_Ret_l.
    rewrite MakeImmutableObjFuncs_structural by done.
    destruct (decide (tnum (PTR_BAG b) = T_DATOBJ)).
    { unfold MakeImmutableDatObj. by apply RESET_FILTER_OBJ_kind. }
    destruct (decide (tnum (PTR_BAG b) = T_POSOBJ)).
    + unfold MakeImmutablePosObj.
      by rewrite (RESET_FILTER_OBJ_kind _ _ _ _ Him E Hs Ek), bind_Ret_l.
    + unfold MakeImmutableComObj.
      by rewrite (RESET_FILTER_OBJ_kind _ _ _ _ Him E Hs Ek), bind_Ret_l.
  - intros Hr.
    set (b1 := set_word b 0 (KindResetMutable k)).
    assert (bags (put_bag h obj b1) !! obj = Some b1) as E1 by apply bags_put_bag_eq.
    assert (data (PTR_BAG b1) !! 0%nat = Some (KindResetMutable k)) as Ek1.
    { unfold b1, set_word; simpl. apply list_lookup_insert_eq. by eapply lookup_lt_Some. }
    assert (IS_MUTABLE_OBJ (put_bag h obj b1) obj = Ret false) as Hf.
    { by rewrite (IS_MUTABLE_OBJ_kind _ _ b1 _ Him E1 Hs Ek1), Hr. }
    split; [done|]. unfold FuncMakeImmutable, MakeImmutable. by rewrite Hf.
Qed.

(** X8.  Objects with a constant tag, the small integers and finite field
    elements among them, are inert: they test neither mutable nor
    copyable, [MakeImmutable] leaves the heap as it is without looking for
    a body, and [SHALLOW_COPY_OBJ] returns the object itself and allocates
    nothing. *)
Theorem constant_objects_inert (obj : Obj) (h : Heap) (t : Z) :
  TNUM_OBJ h obj = Ret t → constant_tnum t →
  IsMutableObjHandler obj h = Ret false
  ∧ IsCopyableObjHandler obj h = Ret false
  ∧ FuncMakeImmutable obj h = Ret (obj, h)
  ∧ ShallowCopyObjHandler obj h = Ret (obj, h).
Proof.
  intros Ht Hc.
  assert (IS_MUTABLE_OBJ h obj = Ret false) as Hm.
  { unfold IS_MUTABLE_OBJ. rewrite Ht, bind_Ret_l. by rewrite IsMutableObjFuncs_constant. }
  split; [done|]. split; [|split].
  - unfold IsCopyableObjHandler, IS_COPYABLE_OBJ. rewrite Ht, bind_Ret_l.
    by rewrite IsCopyableObjFuncs_constant.
  - unfold FuncMakeImmutable, MakeImmutable. by rewrite Hm.
  - unfold ShallowCopyObjHandler, SHALLOW_COPY_OBJ. rewrite Ht, bind_Ret_l.
    unfold ShallowCopyObjFuncs, constant_tnum in *.
    pose proof tnums_const_record; pose proof tnums_record_list;
    pose proof tnums_plist_list; pose proof tnums_list_external.
    rewrite !(proj2 (in_range_false _ _ _)) by lia.
    by rewrite (proj2 (in_range_spec _ _ _)) by lia.
Qed.

End MakeImmutableProps.

(** ** Shallow copies *)

Section ShallowProps.
Context `{Tnums} `{!TnumsOK} `{AtomicTnums} `{Kinds} `{Threads} `{Library}.

(** The word loop shared by the shallow copy and the clone. *)
Lemma ShallowCopyObjDefault_loop_spec (obj new : Obj) (b : Bag) (idx : list nat) :
  obj ≠ new →
  ∀ (h : Heap) (bn : Bag),
    bags h !! obj = Some b → bags h !! new = Some bn →
    (∀ i, i ∈ idx → (i < length (data (PTR_BAG b)))%nat
                   ∧ (i < length (data (PTR_BAG bn)))%nat) →
    ∃ bn', ShallowCopyObjDefault_loop obj new idx h = Ret (put_bag h new bn')
         ∧ same_shape bn bn'
         ∧ (∀ i, i ∈ idx → data (PTR_BAG bn') !! i = data (PTR_BAG b) !! i)
         ∧ (∀ i, i ∉ idx → data (PTR_BAG bn') !! i = data (PTR_BAG bn) !! i).
Proof.
  intros Hne. induction idx as [|i idx IH]; intros h bn E En Hidx.
  - exists bn. cbn [ShallowCopyObjDefault_loop]. rewrite put_bag_id by done.
    split; [done|]. split; [apply same_shape_refl|]. split; [|done].
    intros i Hi. by apply elem_of_nil in Hi.
  - cbn [ShallowCopyObjDefault_loop]. destruct (Hidx i) as [Hb Hn]; [left|].
    rewrite (ADDR_OBJ_get_total _ _ _ _ E Hb), bind_Ret_l.
    rewrite (ADDR_OBJ_set_lookup _ _ _ _ _ En Hn), bind_Ret_l.
    set (w := data (PTR_BAG b) !!! i).
    destruct (IH (put_bag h new (set_word bn i w)) (set_word bn i w))
      as (bn' & -> & Hsh & Hin & Hout).
    { by rewrite bags_put_bag_ne. }
    { apply bags_put_bag_eq. }
    { intros j Hj. destruct (Hidx j) as [? ?]; [by right|].
      split; [done|]. unfold set_word; simpl. by rewrite length_insert. }
    exists bn'. rewrite put_bag_put_bag. split; [done|].
    split; [eapply same_shape_trans; [apply same_shape_set_word|done]|]. split.
    + intros j Hj. destruct (decide (j ∈ idx)) as [Hj'|Hj']; [by apply Hin|].
      apply elem_of_cons in Hj as [->|Hj]; [|done].
      rewrite Hout by done. rewrite set_word_lookup by done. rewrite decide_True by done.
      symmetry. by apply list_lookup_lookup_total_lt.
    + intros j Hj. rewrite Hout by (intros Hj'; apply Hj; by right).
      rewrite set_word_lookup by done. rewrite decide_False; [done|].
      intros <-. apply Hj. by left.
Qed.

Lemma words_of_size (sz : Z) :
  0 ≤ sz < 2 ^ 64 - sizeof_Obj →
  Z.to_nat (wrap64 (sz + sizeof_Obj - 1) / sizeof_Obj) = nwords sz.
Proof.
  intros Hsz. unfold nwords, wrap64, sizeof_Obj in *. by rewrite Z.mod_small by lia.
Qed.

(** All the words of [b], copied into a fresh bag. *)
Lemma copy_words_fresh (obj : Obj) (h : Heap) (b : Bag) (t' : Z) :
  bags h !! obj = Some b → obj ≠ brk h → well_sized b →
  let hn := put_bag (next_handle h) (brk h) (fresh_bag t' (size (PTR_BAG b))) in
  ShallowCopyObjDefault_loop obj (brk h) (seq 0 (nwords (size (PTR_BAG b)))) hn
  = Ret (put_bag (next_handle h) (brk h)
           (mkBag (mkBody t' (size (PTR_BAG b)) (data (PTR_BAG b))) currentRegion)).
Proof.
  intros E Hne Hw hn. subst hn.
  destruct (ShallowCopyObjDefault_loop_spec obj (brk h) b
              (seq 0 (nwords (size (PTR_BAG b)))) Hne
              (put_bag (next_handle h) (brk h) (fresh_bag t' (size (PTR_BAG b))))
              (fresh_bag t' (size (PTR_BAG b))))
    as (bn' & -> & (Ts & Ss & Ds & Ls) & Hin & _).
  { by rewrite bags_put_bag_ne. }
  { apply bags_put_bag_eq. }
  { intros i Hi%elem_of_seq. unfold fresh_bag; simpl. rewrite length_replicate.
    unfold well_sized in Hw. lia. }
  rewrite put_bag_put_bag. do 2 f_equal.
  destruct bn' as [[tn szn wn] dn]. unfold fresh_bag in *; simpl in *.
  rewrite length_replicate in Ls. subst tn szn dn. do 2 f_equal.
  apply list_eq. intros i. destruct (decide (i < nwords (size (PTR_BAG b)))%nat) as [Hi|Hi].
  - apply Hin. apply elem_of_seq. lia.
  - rewrite !lookup_ge_None_2; [done| |]; unfold well_sized in Hw; lia.
Qed.

(** X9.  The default shallow copy, which [InitKernel] installs for the
    record and list tags: for a bag with the words its size asks for,
    [SHALLOW_COPY_OBJ] returns the next free handle with a bag of the same
    size and exactly the same words, so that the copy shares every
    subobject with the original; the tag is the mutable variant of the
    tag, the region is the current region of the thread, and every bag
    that was there, the original included, is as before. *)
Theorem SHALLOW_COPY_OBJ_default (obj : Obj) (h : Heap) (b : Bag) :
  is_immediate obj = false → bags h !! obj = Some b → obj ≠ brk h →
  ShallowCopyObjFuncs (tnum (PTR_BAG b)) = Some ShallowCopyObjDefault_fn →
  well_sized b → 0 ≤ size (PTR_BAG b) < 2 ^ 64 - sizeof_Obj →
  let copy := mkBag (mkBody (MUTABLE_TNUM (tnum (PTR_BAG b))) (size (PTR_BAG b))
                            (data (PTR_BAG b))) currentRegion in
  let h' := put_bag (next_handle h) (brk h) copy in
  ShallowCopyObjHandler obj h = Ret (brk h, h')
  ∧ bags h' !! brk h = Some copy
  ∧ ∀ o, o ≠ brk h → bags h' !! o = bags h !! o.
Proof.
  intros Him E Hne Hcell Hw Hsz copy h'. subst copy h'. split; [|split].
  - unfold ShallowCopyObjHandler, SHALLOW_COPY_OBJ.
    rewrite (TNUM_OBJ_bag _ _ _ Him E), bind_Ret_l, Hcell.
    unfold ShallowCopyObjDefault.
    rewrite (SIZE_OBJ_lookup _ _ _ E), !bind_Ret_l. cbn zeta.
    rewrite (TNUM_OBJ_bag _ _ _ Him E), bind_Ret_l. unfold NewBag. cbn iota beta.
    rewrite words_of_size by done. rewrite bind_Ret_l.
    by rewrite (copy_words_fresh obj h b _ E Hne Hw), bind_Ret_l.
  - apply bags_put_bag_eq.
  - intros o Ho. by rewrite bags_put_bag_ne.
Qed.

(** The cell of a list tag holds the default body. *)
Lemma ShallowCopyObjFuncs_list (t : Z) :
  FIRST_LIST_TNUM ≤ t ≤ LAST_LIST_TNUM →
  ShallowCopyObjFuncs t = Some ShallowCopyObjDefault_fn.
Proof.
  intros Ht. unfold ShallowCopyObjFuncs. pose proof tnums_list_external.
  rewrite (proj2 (in_range_false _ _ _)) by lia.
  by rewrite (proj2 (in_range_spec _ _ _)) by lia.
Qed.

End ShallowProps.

(** ** Objects that cannot be copied *)

Section NotCopyable.
Context `{Tnums} `{!TnumsOK} `{AtomicTnums} `{Kinds} `{Threads} `{Library}.

(** X10.  A mutable object of a structural kind whose kind is not copyable
    stops every structural copy: [CopyObj] and the handlers of
    [IMMUTABLE_COPY_OBJ] and [DEEP_COPY_OBJ], once the write guard lets
    them pass, leave through [ErrorQuit] with the panic message, for
    either value of [mut], before anything is allocated. *)
Theorem CopyObj_not_copyable (fuel : nat) (x : Obj) (mut : bool) (tl : ThreadLocal)
    (h : Heap) (b : Bag) (k : Z) :
  is_immediate x = false → bags h !! x = Some b →
  structural_tnum (tnum (PTR_BAG b)) → data (PTR_BAG b) !! 0%nat = Some k →
  KindIsMutable k = true → KindIsCopyable k = false →
  CopyObj (S fuel) x mut tl h
  = ErrorQuit "Panic: encountered mutable, non-copyable object"
  ∧ (WriteGuard x h = Ret () →
     ImmutableCopyObjHandler (S fuel) x tl h
     = ErrorQuit "Panic: encountered mutable, non-copyable object"
     ∧ MutableCopyObjHandler (S fuel) x tl h
       = ErrorQuit "Panic: encountered mutable, non-copyable object").
Proof.
  intros Him E Hs Ek Hm Hc.
  assert (∀ mut', CopyObj (S fuel) x mut' tl h
                  = ErrorQuit "Panic: encountered mutable, non-copyable object") as Hcopy.
  { intros mut'. unfold CopyObj. cbn [COPY_OBJ].
    rewrite (TNUM_OBJ_bag _ _ _ Him E), bind_Ret_l.
    rewrite CopyObjFuncs_structural by done.
    pose proof (IS_MUTABLE_OBJ_kind _ _ _ _ Him E Hs Ek) as Em.
    pose proof (IS_COPYABLE_OBJ_kind _ _ _ _ Him E Hs Ek) as Ec.
    rewrite Hm in Em. rewrite Hc in Ec.
    destruct (decide (tnum (PTR_BAG b) = T_POSOBJ));
      [|destruct (decide (tnum (PTR_BAG b) = T_COMOBJ))].
    - unfold CopyObjPosObj. by rewrite Em, bind_Ret_l, Ec.
    - unfold CopyObjComObj. by rewrite Em, bind_Ret_l, Ec.
    - unfold CopyObjDatObj. by rewrite Em, bind_Ret_l, Ec. }
  split; [done|]. intros Hg.
  unfold ImmutableCopyObjHandler, MutableCopyObjHandler. by rewrite Hg, !bind_Ret_l, !Hcopy.
Qed.

End NotCopyable.

(** ** New handles are handles, and new bags have their words *)

Section Tidy.
Context `{Tnums} `{Kinds} `{Threads}.

Lemma tidy_put_bag (lo : Z) (h : Heap) (o : Obj) (b b' : Bag) :
  tidy_from lo h → bags h !! o = Some b → same_shape b b' → tidy_from lo (put_bag h o b').
Proof.
  intros [Hb Hk] E (_ & Hs & _ & Hl). split; [done|]. intros k bk Hlo.
  rewrite bags_put_bag. destruct (decide (o = k)) as [<-|_]; [|by apply Hk].
  intros [= <-]. destruct (Hk o b Hlo E) as [? Hw]. split; [done|].
  unfold well_sized in *. congruence.
Qed.

Lemma tidy_ADDR_OBJ_set (lo : Z) (h : Heap) (o : Obj) (i : nat) (v : Z) (h' : Heap) :
  ADDR_OBJ_set h o i v = Ret h' → tidy_from lo h → tidy_from lo h'.
Proof.
  intros (b & E & _ & ->)%ADDR_OBJ_set_Ret Ht.
  eapply tidy_put_bag; [done|done|apply same_shape_set_word].
Qed.

Lemma tidy_RetypeBag (lo : Z) (h : Heap) (o : Obj) (t : Z) (h' : Heap) :
  RetypeBag h o t = Ret h' → tidy_from lo h → tidy_from lo h'.
Proof.
  intros (b & E & ->)%RetypeBag_Ret [Hb Hk]. split; [done|]. intros k bk Hlo.
  rewrite bags_put_bag. destruct (decide (o = k)) as [<-|_]; [|by apply Hk].
  intros [= <-]. destruct (Hk o b Hlo E) as [? Hw]. done.
Qed.

Lemma tidy_fresh (lo : Z) (h : Heap) (t sz : Z) :
  tidy_from lo h → tidy_from lo (put_bag (next_handle h) (brk h) (fresh_bag t sz)).
Proof.
  intros [Hb Hk]. split.
  - simpl. rewrite <- Z.add_mod_idemp_l, Hb by done. done.
  - intros k bk Hlo. rewrite bags_put_bag.
    destruct (decide (brk h = k)) as [<-|_]; [|by apply Hk].
    intros [= <-]. split; [done|]. unfold well_sized, fresh_bag; simpl.
    by rewrite length_replicate.
Qed.

Lemma tidy_SET_TYPE_OBJ (lo : Z) (h : Heap) (o kind : Obj) (h' : Heap) :
  SET_TYPE_OBJ h o kind = Ret h' → tidy_from lo h → tidy_from lo h'.
Proof.
  unfold SET_TYPE_OBJ. intros E. bind_inv E as t Et.
  destruct (SetTypeObjFuncs t) as [[]|]; try done; intros Ht; by eapply tidy_ADDR_OBJ_set.
Qed.

Lemma tidy_RESET_FILTER_OBJ (lo : Z) (h : Heap) (o : Obj) (h' : Heap) :
  RESET_FILTER_OBJ_IsMutable h o = Ret h' → tidy_from lo h → tidy_from lo h'.
Proof.
  unfold RESET_FILTER_OBJ_IsMutable. intros E. bind_inv E as k Ek.
  intros Ht. by eapply tidy_SET_TYPE_OBJ.
Qed.

Lemma tidy_make_copy (lo : Z) (obj : Obj) (mut with_len : bool) (h : Heap)
    (copy : Obj) (h' : Heap) :
  make_copy obj mut with_len h = Ret (copy, h') → tidy_from lo h → tidy_from lo h'.
Proof.
  unfold make_copy, NewBag. intros E Ht.
  bind_inv E as t Et. bind_inv E as sz Esz. cbn iota beta in E.
  bind_inv E as k Ek. bind_inv E as h1 E1. bind_inv E as h2 E2. bind_inv E as h3 E3.
  injection E as _ <-.
  apply (tidy_ADDR_OBJ_set lo) in E1; [|by apply tidy_fresh].
  assert (tidy_from lo h2) as Ht2.
  { destruct with_len; [|by injection E2 as <-]. bind_inv E2 as n En.
    by eapply tidy_ADDR_OBJ_set. }
  destruct mut; [by injection E3 as <-|]. by eapply tidy_RESET_FILTER_OBJ.
Qed.

Lemma tidy_leave_forwarding (lo : Z) (obj copy : Obj) (h h' : Heap) :
  leave_forwarding obj copy h = Ret h' → tidy_from lo h → tidy_from lo h'.
Proof.
  unfold leave_forwarding, NewBag. cbn iota beta. intros E Ht.
  bind_inv E as h1 E1. bind_inv E as k Ek. bind_inv E as h2 E2. bind_inv E as h3 E3.
  bind_inv E as h4 E4. bind_inv E as t Et.
  apply (tidy_ADDR_OBJ_set lo) in E1; [|by apply tidy_fresh].
  apply (tidy_ADDR_OBJ_set lo) in E2; [|done]. apply (tidy_ADDR_OBJ_set lo) in E3; [|done].
  apply (tidy_ADDR_OBJ_set lo) in E4; [|done]. by eapply tidy_RetypeBag.
Qed.

Lemma tidy_remove_forwarding (lo : Z) (obj : Obj) (h h' : Heap) :
  remove_forwarding obj h = Ret h' → tidy_from lo h → tidy_from lo h'.
Proof.
  unfold remove_forwarding. intros E Ht.
  bind_inv E as f Ef. bind_inv E as k Ek. bind_inv E as h1 E1. bind_inv E as t Et.
  apply (tidy_ADDR_OBJ_set lo) in E1; [|done]. by eapply tidy_RetypeBag.
Qed.

Section TidyBodies.
Variable lo : Z.
Variable COPY : Obj → bool → Heap → outcome (Obj * Heap).
Variable CLEAN : Obj → Heap → outcome Heap.
Hypothesis COPY_tidy : ∀ obj mut h new h',
  COPY obj mut h = Ret (new, h') → tidy_from lo h → tidy_from lo h'.
Hypothesis CLEAN_tidy : ∀ obj h h',
  CLEAN obj h = Ret h' → tidy_from lo h → tidy_from lo h'.

Lemma tidy_CopyObjPosObj_loop (obj copy : Obj) (mut : bool) (idx : list nat) :
  ∀ h h', CopyObjPosObj_loop COPY obj copy mut idx h = Ret h' →
          tidy_from lo h → tidy_from lo h'.
Proof.
  induction idx as [|i idx IH]; intros h h' E Ht; cbn [CopyObjPosObj_loop] in E.
  { by injection E as <-. }
  bind_inv E as v Ev. bind_inv E as h1 E1. apply (IH _ _ E).
  destruct (decide (v = 0)); [by injection E1 as <-|].
  bind_inv E1 as p Ep. destruct p as [tmp h2].
  apply COPY_tidy in Ep; [|done]. by eapply tidy_ADDR_OBJ_set.
Qed.

Lemma tidy_CopyObjComObj_loop (obj copy : Obj) (mut : bool) (idx : list nat) :
  ∀ h h', CopyObjComObj_loop COPY obj copy mut idx h = Ret h' →
          tidy_from lo h → tidy_from lo h'.
Proof.
  induction idx as [|i idx IH]; intros h h' E Ht; cbn [CopyObjComObj_loop] in E.
  { by injection E as <-. }
  bind_inv E as n En. bind_inv E as h1 E1. bind_inv E as v Ev.
  bind_inv E as p Ep. destruct p as [tmp h2]. bind_inv E as h3 E3. apply (IH _ _ E).
  apply (tidy_ADDR_OBJ_set lo) in E1; [|done]. apply COPY_tidy in Ep; [|done].
  by eapply tidy_ADDR_OBJ_set.
Qed.

Lemma tidy_CopyObjDatObj_loop (obj copy : Obj) (idx : list nat) :
  ∀ h h', CopyObjDatObj_loop obj copy idx h = Ret h' → tidy_from lo h → tidy_from lo h'.
Proof.
  induction idx as [|i idx IH]; intros h h' E Ht; cbn [CopyObjDatObj_loop] in E.
  { by injection E as <-. }
  bind_inv E as w Ew. bind_inv E as h1 E1. apply (IH _ _ E).
  by eapply tidy_ADDR_OBJ_set.
Qed.

Lemma tidy_CleanObjPosObjCopy_loop (obj : Obj) (idx : list nat) :
  ∀ h h', CleanObjPosObjCopy_loop CLEAN obj idx h = Ret h' →
          tidy_from lo h → tidy_from lo h'.
Proof.
  induction idx as [|i idx IH]; intros h h' E Ht; cbn [CleanObjPosObjCopy_loop] in E.
  { by injection E as <-. }
  bind_inv E as v Ev. bind_inv E as h1 E1. apply (IH _ _ E).
  destruct (decide (v = 0)); [by injection E1 as <-|]. by eapply CLEAN_tidy.
Qed.

Lemma tidy_CleanObjComObjCopy_loop (obj : Obj) (idx : list nat) :
  ∀ h h', CleanObjComObjCopy_loop CLEAN obj idx h = Ret h' →
          tidy_from lo h → tidy_from lo h'.
Proof.
  induction idx as [|i idx IH]; intros h h' E Ht; cbn [CleanObjComObjCopy_loop] in E.
  { by injection E as <-. }
  bind_inv E as v Ev. bind_inv E as h1 E1. apply (IH _ _ E). by eapply CLEAN_tidy.
Qed.

End TidyBodies.

Lemma tidy_COPY_OBJ (lo : Z) (fuel : nat) :
  ∀ obj mut h new h',
    COPY_OBJ fuel obj mut h = Ret (new, h') → tidy_from lo h → tidy_from lo h'.
Proof.
  induction fuel as [|fuel IH]; intros obj mut h new h' E Ht; [done|].
  cbn [COPY_OBJ] in E. bind_inv E as t Et.
  destruct (CopyObjFuncs t) as [[]|]; try done.
  - by injection E as _ <-.
  - unfold CopyObjPosObj in E. bind_inv E as m Em.
    destruct m; cbn [negb] in E; [|by injection E as _ <-].
    bind_inv E as c Ec. destruct c; cbn [negb] in E; [|done].
    bind_inv E as p Ep. destruct p as [copy h1]. bind_inv E as h2 E2.
    bind_inv E as sz Esz. bind_inv E as h3 E3. injection E as _ <-.
    apply tidy_make_copy with (lo := lo) in Ep; [|done].
    apply tidy_leave_forwarding with (lo := lo) in E2; [|done].
    by eapply tidy_CopyObjPosObj_loop.
  - unfold CopyObjPosObjCopy in E. bind_inv E as f Ef. bind_inv E as c Ec.
    by injection E as _ <-.
  - unfold CopyObjComObj in E. bind_inv E as m Em.
    destruct m; cbn [negb] in E; [|by injection E as _ <-].
    bind_inv E as c Ec. destruct c; cbn [negb] in E; [|done].
    bind_inv E as p Ep. destruct p as [copy h1]. bind_inv E as h2 E2.
    bind_inv E as len Elen. bind_inv E as h3 E3. injection E as _ <-.
    apply tidy_make_copy with (lo := lo) in Ep; [|done].
    apply tidy_leave_forwarding with (lo := lo) in E2; [|done].
    by eapply tidy_CopyObjComObj_loop.
  - unfold CopyObjComObjCopy in E. bind_inv E as f Ef. bind_inv E as c Ec.
    by injection E as _ <-.
  - unfold CopyObjDatObj in E. bind_inv E as m Em.
    destruct m; cbn [negb] in E; [|by injection E as _ <-].
    bind_inv E as c Ec. destruct c; cbn [negb] in E; [|done].
    bind_inv E as p Ep. destruct p as [copy h1]. bind_inv E as h2 E2.
    bind_inv E as sz Esz. cbn zeta in E. bind_inv E as h3 E3. injection E as _ <-.
    apply tidy_make_copy with (lo := lo) in Ep; [|done].
    apply tidy_leave_forwarding with (lo := lo) in E2; [|done].
    by eapply tidy_CopyObjDatObj_loop.
  - unfold CopyObjDatObjCopy in E. bind_inv E as f Ef. bind_inv E as c Ec.
    by injection E as _ <-.
Qed.

Lemma tidy_CLEAN_OBJ (lo : Z) (fuel : nat) :
  ∀ obj h h', CLEAN_OBJ fuel obj h = Ret h' → tidy_from lo h → tidy_from lo h'.
Proof.
  induction fuel as [|fuel IH]; intros obj h h' E Ht; [done|].
  cbn [CLEAN_OBJ] in E. bind_inv E as t Et.
  destruct (CleanObjFuncs t) as [[]|]; try done; try by injection E as <-.
  - unfold CleanObjPosObjCopy in E. bind_inv E as h1 E1. bind_inv E as sz Esz.
    apply tidy_remove_forwarding with (lo := lo) in E1; [|done].
    by eapply tidy_CleanObjPosObjCopy_loop.
  - unfold CleanObjComObjCopy in E. bind_inv E as h1 E1. bind_inv E as len Elen.
    apply tidy_remove_forwarding with (lo := lo) in E1; [|done].
    by eapply tidy_CleanObjComObjCopy_loop.
  - by eapply tidy_remove_forwarding.
Qed.

Lemma tidy_CopyObj (lo : Z) (fuel : nat) (obj : Obj) (mut : bool) (tl tl' : ThreadLocal)
    (h h' : Heap) (new : Obj) :
  CopyObj fuel obj mut tl h = Ret (new, tl', h') → tidy_from lo h → tidy_from lo h'.
Proof.
  unfold CopyObj. intros E Ht. bind_inv E as p Ep. destruct p as [new' h1].
  bind_inv E as h2 E2. injection E as _ _ <-.
  apply tidy_COPY_OBJ with (lo := lo) in Ep; [|done]. by eapply tidy_CLEAN_OBJ.
Qed.

Lemma regular_heap_tidy `{!TnumsOK} (h0 : Heap) : regular_heap h0 → tidy_from (brk h0) h0.
Proof.
  intros [[_ Hb] Hd _ _]. split; [done|]. intros k b Hlo E. apply Hd in E. lia.
Qed.

End Tidy.

(** ** Cloning *)

Section CloneProps.
Context `{Tnums} `{!TnumsOK} `{Kinds} `{Threads}.

Lemma CLONE_OBJ_loop_shallow (dst src : Obj) (idx : list nat) (h : Heap) :
  CLONE_OBJ_loop dst src idx h = ShallowCopyObjDefault_loop src dst idx h.
Proof.
  revert h. induction idx as [|i idx IH]; intros h; [done|].
  cbn [CLONE_OBJ_loop ShallowCopyObjDefault_loop].
  destruct (ADDR_OBJ_get h src i) as [w| | |]; [|done..]. rewrite !bind_Ret_l.
  destruct (ADDR_OBJ_set h dst i w) as [h1| | |]; [|done..]. rewrite !bind_Ret_l.
  apply IH.
Qed.

(** Copying the words of a bag onto themselves. *)
Lemma ShallowCopyObjDefault_loop_self (obj : Obj) (h : Heap) (b : Bag) (idx : list nat) :
  bags h !! obj = Some b → (∀ i, i ∈ idx → (i < length (data (PTR_BAG b)))%nat) →
  ShallowCopyObjDefault_loop obj obj idx h = Ret h.
Proof.
  intros E. induction idx as [|i idx IH]; intros Hidx; [done|].
  cbn [ShallowCopyObjDefault_loop].
  assert (i < length (data (PTR_BAG b)))%nat as Hi by (apply Hidx; left).
  rewrite (ADDR_OBJ_get_total _ _ _ _ E Hi), bind_Ret_l.
  rewrite (ADDR_OBJ_set_lookup _ _ _ _ _ E Hi), bind_Ret_l.
  rewrite set_word_same by (by apply list_lookup_lookup_total_lt).
  rewrite put_bag_id by done.
  apply IH. intros j Hj. apply Hidx. by right.
Qed.

(** The second half of [CLONE_OBJ], on a source that is a bag. *)
Lemma clone_tail (dst src : Obj) (tl : ThreadLocal) (h : Heap) (bs bd : Bag) :
  is_immediate src = false → bags h !! src = Some bs → bags h !! dst = Some bd →
  well_sized bs → 0 ≤ size (PTR_BAG bs) < 2 ^ 64 - sizeof_Obj →
  (sz ← SIZE_OBJ h src;
   h ← ResizeBag h dst sz;
   t ← TNUM_OBJ h src;
   h ← RetypeBag h dst t;
   sz ← SIZE_OBJ h src;
   let n := wrap64 (sz + sizeof_Obj - 1) / sizeof_Obj in
   h ← CLONE_OBJ_loop dst src (seq 0 (Z.to_nat n)) h;
   Ret (mkReply None 0 h, tl))
  = Ret (mkReply None 0 (put_bag h dst (mkBag (PTR_BAG bs) (DS_BAG bd))), tl).
Proof.
  intros Him Es Ed Hw Hsz.
  rewrite (SIZE_OBJ_lookup _ _ _ Es), bind_Ret_l.
  unfold ResizeBag. rewrite (get_bag_Some _ _ _ Ed), !bind_Ret_l. cbn zeta.
  set (n := nwords (size (PTR_BAG bs))).
  set (bd1 := mkBag (mkBody (tnum (PTR_BAG bd)) (size (PTR_BAG bs))
                            (take n (data (PTR_BAG bd) ++ replicate n 0))) (DS_BAG bd)).
  assert (length (take n (data (PTR_BAG bd) ++ replicate n 0)) = n) as Hlen.
  { rewrite length_take, length_app, length_replicate. lia. }
  destruct (decide (dst = src)) as [->|Hne].
  - assert (bd = bs) as -> by congruence.
    assert (bd1 = bs) as Hbd1.
    { unfold bd1. rewrite take_app_le by (unfold well_sized in Hw; fold n in Hw; lia).
      rewrite take_ge by (unfold well_sized in Hw; fold n in Hw; lia).
      by destruct bs as [[? ? ?] ?]. }
    rewrite Hbd1.
    assert (bags (put_bag h src bs) !! src = Some bs) as E1 by apply bags_put_bag_eq.
    rewrite (TNUM_OBJ_bag _ _ _ Him E1), bind_Ret_l.
    unfold RetypeBag. rewrite (get_bag_Some _ _ _ E1), !bind_Ret_l.
    assert (set_tnum bs (tnum (PTR_BAG bs)) = bs) as -> by (by destruct bs as [[? ? ?] ?]).
    rewrite put_bag_put_bag.
    rewrite (SIZE_OBJ_lookup _ _ _ E1), bind_Ret_l. cbn zeta.
    rewrite words_of_size by done. rewrite CLONE_OBJ_loop_shallow.
    rewrite (ShallowCopyObjDefault_loop_self _ _ _ _ E1), bind_Ret_l.
    + by destruct bs as [[? ? ?] ?].
    + intros i Hi%elem_of_seq. unfold well_sized in Hw. lia.
  - assert (bags (put_bag h dst bd1) !! src = Some bs) as E1 by (by rewrite bags_put_bag_ne).
    rewrite (TNUM_OBJ_bag _ _ _ Him E1), bind_Ret_l.
    rewrite (RetypeBag_lookup _ _ bd1) by apply bags_put_bag_eq.
    rewrite bind_Ret_l, put_bag_put_bag.
    set (bd2 := set_tnum bd1 (tnum (PTR_BAG bs))).
    assert (bags (put_bag h dst bd2) !! src = Some bs) as E2 by (by rewrite bags_put_bag_ne).
    rewrite (SIZE_OBJ_lookup _ _ _ E2), bind_Ret_l. cbn zeta.
    rewrite words_of_size by done. rewrite CLONE_OBJ_loop_shallow. fold n.
    destruct (ShallowCopyObjDefault_loop_spec src dst bs (seq 0 n) (not_eq_sym Hne)
                (put_bag h dst bd2) bd2 E2 (bags_put_bag_eq _ _ _))
      as (bn' & -> & (Ts & Ss & Ds & Ls) & Hin & _).
    { intros i Hi%elem_of_seq. unfold bd2, bd1; simpl. rewrite Hlen.
      unfold well_sized in Hw. fold n in Hw. lia. }
    rewrite bind_Ret_l, put_bag_put_bag. do 3 f_equal.
    destruct bn' as [[tn szn wn] dn]. unfold bd2, bd1 in *; simpl in *.
    rewrite Hlen in Ls. subst tn szn dn.
    destruct bs as [[ts szs ws] ds]; simpl in *.
    assert (wn = ws) as ->; [|done].
    apply list_eq. intros i. destruct (decide (i < n)%nat) as [Hi|Hi].
    + apply Hin. apply elem_of_seq. lia.
    + rewrite !lookup_ge_None_2; [done| |]; unfold well_sized in Hw; simpl in Hw; lia.
Qed.

(** X11.  [CLONE_OBJ] of an immutable bag [src] makes no copy: it gives
    [dst] the body of [src], with its tag, its size and every word as it
    is, so that [dst] then shares every subobject with [src]; [dst] keeps
    its region, no other bag changes, and the fuel does not matter.  With
    [dst = src] the heap is left as it was. *)
Theorem CLONE_OBJ_immutable (fuel : nat) (dst src : Obj) (tl : ThreadLocal) (h : Heap)
    (bs bd : Bag) :
  is_immediate src = false → bags h !! src = Some bs → bags h !! dst = Some bd →
  IsMutableObjHandler src h = Ret false →
  well_sized bs → 0 ≤ size (PTR_BAG bs) < 2 ^ 64 - sizeof_Obj →
  FuncCLONE_OBJ fuel dst src tl h
  = Ret (mkReply None 0 (put_bag h dst (mkBag (PTR_BAG bs) (DS_BAG bd))), tl)
  ∧ (dst = src → put_bag h dst (mkBag (PTR_BAG bs) (DS_BAG bd)) = h).
Proof.
  intros Him Es Ed Hm Hw Hsz. split.
  - unfold FuncCLONE_OBJ. pose proof Him as Him'.
    apply orb_false_iff in Him' as [-> ->].
    unfold IsMutableObjHandler in Hm. rewrite Hm, !bind_Ret_l. cbn iota beta.
    by apply clone_tail.
  - intros ->. assert (bd = bs) as -> by congruence.
    apply put_bag_id. rewrite Es. by destruct bs as [[? ? ?] ?].
Qed.

End CloneProps.

(** ** What an immutable copy is, and the clone of a mutable object *)

Section CopyResults.
Context `{Tnums} `{!TnumsOK} `{Kinds} `{Threads}.

(** The test of mutability reads the bag of the object only. *)
Lemma IS_MUTABLE_OBJ_ext (h h' : Heap) (o : Obj) :
  bags h' !! o = bags h !! o → IS_MUTABLE_OBJ h' o = IS_MUTABLE_OBJ h o.
Proof.
  intros E. unfold IS_MUTABLE_OBJ, TYPE_OBJ, TYPE_COMOBJ, TYPE_POSOBJ, TYPE_DATOBJ,
    TNUM_OBJ, TNUM_BAG, ADDR_OBJ_get, get_bag. by rewrite E.
Qed.

Lemma mutable_structural_ext (h h' : Heap) (o : Obj) :
  bags h' !! o = bags h !! o → mutable_structural h' o → mutable_structural h o.
Proof. unfold mutable_structural. intros ->. done. Qed.

(** What is known of the heap that [CopyObj] returns. *)
Lemma CopyObj_result (h0 : Heap) (fuel : nat) (obj : Obj) (mut : bool)
    (tl : ThreadLocal) (new : Obj) (tl' : ThreadLocal) (h' : Heap) :
  regular_heap h0 → CopyObj fuel obj mut tl h0 = Ret (new, tl', h') →
  ∃ fwd : gmap Z Z,
    tl' = mkThreadLocal 0
    ∧ copied_to h0 fwd obj new
    ∧ (∀ k, k < brk h0 → bags h' !! k = bags h0 !! k)
    ∧ tidy_from (brk h0) h'
    ∧ (∀ x c, fwd !! x = Some c → brk h0 ≤ c ∧ mutable_structural h0 x
                                   ∧ copy_complete h0 mut h' fwd x)
    ∧ (∀ x, copied_from h0 obj x → is_Some (fwd !! x)).
Proof.
  intros Hreg Hrun.
  pose proof (tidy_CopyObj _ _ _ _ _ _ _ _ _ Hrun (regular_heap_tidy h0 Hreg)) as Ht.
  destruct (CopyObj_run h0 Hreg fuel obj mut tl new tl' h' Hrun)
    as (fwd & h1 & -> & Hstep & Hto & CS).
  pose proof (CopyObj_copies h0 Hreg mut obj new h1 h' fwd Hstep Hto CS) as Hall.
  exists fwd. split; [done|]. split; [done|].
  pose proof CS as (_ & Hi & _ & Hfr & _). pose proof Hstep as (_ & Hi1 & _ & _ & Hnew).
  split; [|split; [done|split]].
  - intros k Hk. by apply (ci_old _ _ _ Hi).
  - intros x c Ex. destruct (forwarded_bounds h0 Hreg _ _ _ _ Hi1 Ex) as (_ & Hc & _).
    split; [lia|]. split.
    + by destruct (ci_fwd _ _ _ Hi1 _ _ Ex) as (? & ? & ? & ? & _ & Hm & _).
    + destruct (Hnew x) as [Hcc _]. { split; [apply lookup_empty|by eexists]. }
      eapply copy_complete_frame; [exact Hi1|exact Hcc|done|].
      intros c' Ex'. destruct (forwarded_bounds h0 Hreg _ _ _ _ Hi1 Ex') as (_ & Hc' & _).
      apply Hfr. lia.
  - intros x Hx. destruct (Hall x Hx) as (c & Ec & _). by eexists.
Qed.

(** The copy of a marked object, as a bag of the returned heap. *)
Lemma copy_bag (h0 : Heap) (mut : bool) (h' : Heap) (fwd : gmap Z Z) (x c : Obj) :
  tidy_from (brk h0) h' → brk h0 ≤ c → fwd !! x = Some c →
  copy_complete h0 mut h' fwd x → mutable_structural h0 x →
  ∃ b0 bc k,
    bags h0 !! x = Some b0 ∧ bags h' !! c = Some bc ∧ is_immediate c = false
    ∧ well_sized bc ∧ structural_tnum (tnum (PTR_BAG bc))
    ∧ tnum (PTR_BAG bc) = tnum (PTR_BAG b0) ∧ size (PTR_BAG bc) = size (PTR_BAG b0)
    ∧ data (PTR_BAG b0) !! 0%nat = Some k ∧ KindIsMutable k = true
    ∧ data (PTR_BAG bc) !! 0%nat = Some (if mut then k else KindResetMutable k).
Proof.
  intros [_ Ht] Hc Ex (b0 & c' & bc & k & E0 & Ec' & Ebc & Tc & Sc & K0 & Kc & _)
    (_ & b0' & k' & E0' & Hs & K0' & Hm).
  assert (c' = c) as -> by congruence. assert (b0' = b0) as -> by congruence.
  assert (k' = k) as -> by congruence.
  destruct (Ht c bc Hc Ebc) as [Ha Hw].
  exists b0, bc, k. repeat split; try done.
  - by apply aligned_not_immediate.
  - by rewrite Tc.
Qed.

(** X12.  What [CopyObj(obj, 0)] returns is immutable, whenever it
    returns: on a heap between two top-level copies in which resetting the
    mutability flag of a kind gives a kind without it, the result tests
    immutable, a structural copy of the result (mutable or not) is the
    result itself with the heap unchanged, and the copy of every mutable
    structural object reached from [obj] is a new handle that tests
    immutable as well. *)
Theorem immutable_copy_is_immutable (fuel : nat) (obj : Obj) (tl : ThreadLocal)
    (h0 : Heap) (new : Obj) (tl' : ThreadLocal) (h' : Heap) :
  regular_heap h0 → kinds_reset h0 →
  CopyObj fuel obj false tl h0 = Ret (new, tl', h') →
  IS_MUTABLE_OBJ h' new = Ret false
  ∧ (∀ fuel' mut, CopyObj (S fuel') new mut tl' h' = Ret (new, mkThreadLocal 0, h'))
  ∧ ∃ fwd : gmap Z Z,
      copied_to h0 fwd obj new
      ∧ ∀ x, copied_from h0 obj x →
             ∃ c, fwd !! x = Some c ∧ brk h0 ≤ c ∧ IS_MUTABLE_OBJ h' c = Ret false.
Proof.
  intros Hreg Hres Hrun.
  destruct (CopyObj_result h0 fuel obj false tl new tl' h' Hreg Hrun)
    as (fwd & -> & Hto & Hold & Ht & Hfwd & Hreach).
  assert (∀ x c, fwd !! x = Some c →
                 brk h0 ≤ c ∧ ∃ t, TNUM_OBJ h' c = Ret t ∧ structural_tnum t
                                   ∧ IS_MUTABLE_OBJ h' c = Ret false) as Himm.
  { intros x c Ex. destruct (Hfwd x c Ex) as (Hc & Hm & Hcc). split; [done|].
    destruct (copy_bag h0 false h' fwd x c Ht Hc Ex Hcc Hm)
      as (b0 & bc & k & E0 & Ebc & Him & _ & Hs & _ & _ & K0 & Hk & Kc).
    exists (tnum (PTR_BAG bc)). split; [by apply TNUM_OBJ_bag|]. split; [done|].
    rewrite (IS_MUTABLE_OBJ_kind _ _ _ _ Him Ebc Hs Kc). f_equal.
    apply (Hres x k Hm). by exists b0. }
  assert (∃ t, TNUM_OBJ h' new = Ret t ∧ (constant_tnum t ∨ structural_tnum t)
               ∧ IS_MUTABLE_OBJ h' new = Ret false) as (t & Et & Hk & Hm).
  { destruct Hto as [Ex|[Hno ->]].
    { destruct (Himm obj new Ex) as (_ & t & Et & Hs & Hm). exists t. auto. }
    unfold CopyObj in Hrun. bind_inv Hrun as p Hc. destruct p as [new' h1].
    destruct fuel as [|fuel]; [done|]. cbn [COPY_OBJ] in Hc. bind_inv Hc as t Et.
    assert (bags h' !! obj = bags h0 !! obj ∨ is_immediate obj = true) as Hsame.
    { apply TNUM_OBJ_Ret in Et as [[Him _]|[_ (b & Eb & _)]]; [by right|left].
      apply Hold. destruct Hreg as [_ Hd _ _]. apply Hd in Eb. lia. }
    assert (TNUM_OBJ h' obj = TNUM_OBJ h0 obj) as Et'.
    { unfold TNUM_OBJ, TNUM_BAG, get_bag. destruct Hsame as [->|Him]; [done|].
      apply orb_true_iff in Him as [->| ->]; [done|]. by destruct (IS_INTOBJ obj). }
    assert (IS_MUTABLE_OBJ h' obj = IS_MUTABLE_OBJ h0 obj) as Em'.
    { destruct Hsame as [E|Him]; [by apply IS_MUTABLE_OBJ_ext|].
      unfold IS_MUTABLE_OBJ. rewrite Et'. rewrite Et, !bind_Ret_l.
      apply TNUM_OBJ_Ret in Et as [[_ Hcn]|[Him' _]]; [|congruence].
      by rewrite IsMutableObjFuncs_constant. }
    exists t. rewrite Et', Em'. split; [done|].
    assert (t ≤ LAST_REAL_TNUM) as Hreal.
    { apply TNUM_OBJ_Ret in Et as [[_ Hcn]|[_ (b & Eb & <-)]].
      - unfold constant_tnum in Hcn. pose proof tnums_const_record.
        pose proof tnums_record_list. pose proof tnums_plist_list.
        pose proof tnums_list_external. pose proof tnums_real_last.
        pose proof tnums_comobj_ext. lia.
      - destruct Hreg as [_ _ Hts _]. by eapply Hts. }
    destruct (CopyObjFuncs t) as [fn|] eqn:Efn; [|done].
    destruct (CopyObjFuncs_real _ _ Hreal Efn) as [-> | [[-> Hcn] | Hs]]; [done| |].
    - split; [by left|]. unfold IS_MUTABLE_OBJ. rewrite Et, bind_Ret_l.
      by rewrite IsMutableObjFuncs_constant.
    - split; [by right|].
      assert (∃ m, IS_MUTABLE_OBJ h0 obj = Ret m) as [m Em].
      { rewrite CopyObjFuncs_structural in Efn by done. injection Efn as <-.
        destruct (decide (t = T_POSOBJ)); [|destruct (decide (t = T_COMOBJ))].
        - unfold CopyObjPosObj in Hc. bind_inv Hc as m Em. by exists m.
        - unfold CopyObjComObj in Hc. bind_inv Hc as m Em. by exists m.
        - unfold CopyObjDatObj in Hc. bind_inv Hc as m Em. by exists m. }
      destruct m; [|done].
      apply TNUM_OBJ_Ret in Et as [[_ Hcn]|[Him (b & Eb & <-)]];
        [by destruct (constant_not_structural _ Hcn)|].
      exfalso. apply Hno. destruct (IS_MUTABLE_OBJ_structural _ _ _ _ Him Eb Hs Em) as (k & K0 & Hk).
      split; [done|]. by exists b, k. }
  split; [done|]. split.
  - intros fuel' mut. unfold CopyObj.
    rewrite (COPY_OBJ_immutable fuel' new mut h' t Et Hk Hm), bind_Ret_l.
    by rewrite (CLEAN_OBJ_uncopied fuel' new h' t Et Hk), bind_Ret_l.
  - exists fwd. split; [done|]. intros x Hx. destruct (Hreach x Hx) as [c Ex].
    exists c. split; [done|]. destruct (Himm x c Ex) as (Hc & _ & _ & _ & Hm'). done.
Qed.

(** X13.  [CLONE_OBJ] of a mutable object clones a structural copy of it:
    if [CopyObj(src, 1)] returns the new handle [new] on a heap between two
    top-level copies, [CLONE_OBJ] returns as well, and [dst] has then the
    body of [new], not of [src], in its own region, with the tag, the size
    and the kind of [src]; every other bag is as [CopyObj] left it, so the
    bags that were there before the call, but for [dst], are as they
    were. *)
Theorem CLONE_OBJ_mutable (fuel : nat) (dst src : Obj) (tl : ThreadLocal) (h0 : Heap)
    (bs bd : Bag) (new : Obj) (tl' : ThreadLocal) (h' : Heap) :
  regular_heap h0 → mutable_structural h0 src →
  bags h0 !! src = Some bs → bags h0 !! dst = Some bd →
  0 ≤ size (PTR_BAG bs) < 2 ^ 64 - sizeof_Obj →
  CopyObj fuel src true tl h0 = Ret (new, tl', h') →
  ∃ bn, bags h' !! new = Some bn ∧ brk h0 ≤ new
      ∧ tnum (PTR_BAG bn) = tnum (PTR_BAG bs) ∧ size (PTR_BAG bn) = size (PTR_BAG bs)
      ∧ data (PTR_BAG bn) !! 0%nat = data (PTR_BAG bs) !! 0%nat
      ∧ FuncCLONE_OBJ fuel dst src tl h0
        = Ret (mkReply None 0 (put_bag h' dst (mkBag (PTR_BAG bn) (DS_BAG bd))), tl')
      ∧ ∀ k, k < brk h0 → k ≠ dst →
             bags (put_bag h' dst (mkBag (PTR_BAG bn) (DS_BAG bd))) !! k = bags h0 !! k.
Proof.
  intros Hreg Hm Es Ed Hsz Hrun.
  destruct (CopyObj_result h0 fuel src true tl new tl' h' Hreg Hrun)
    as (fwd & -> & Hto & Hold & Ht & Hfwd & Hreach).
  destruct Hto as [Ex|[Hno _]]; [|done].
  destruct (Hfwd src new Ex) as (Hc & _ & Hcc).
  destruct (copy_bag h0 true h' fwd src new Ht Hc Ex Hcc Hm)
    as (b0 & bn & k & E0 & En & Him & Hw & Hs & Tn & Sn & K0 & Hk & Kn).
  assert (b0 = bs) as -> by congruence.
  exists bn. split; [done|]. split; [done|]. split; [done|]. split; [done|].
  split; [congruence|]. split.
  - unfold FuncCLONE_OBJ. destruct Hm as [Hims _]. pose proof Hims as Hims'.
    apply orb_false_iff in Hims' as [-> ->].
    assert (structural_tnum (tnum (PTR_BAG bs))) as Hss by (by rewrite <- Tn).
    rewrite (IS_MUTABLE_OBJ_kind _ _ _ _ Hims Es Hss K0), Hk, bind_Ret_l.
    rewrite Hrun, bind_Ret_l. cbn iota beta.
    apply clone_tail; [done|done| |done|lia].
    rewrite Hold; [done|]. destruct Hreg as [_ Hd _ _]. apply Hd in Ed. lia.
  - intros j Hj Hne. rewrite bags_put_bag_ne by done. by apply Hold.
Qed.

End CopyResults.

(** ** The handlers on the example heap *)

Section HandlerExamples.
Import Example MoreExamples.

(** The positional object [4] and the component object [8] exchanged, and
    exchanged back. *)
Lemma SWITCH_OBJ_twice_witness :
  ∃ h1, FuncSWITCH_OBJ 4 8 heap = Ret (mkReply None 0 h1)
      ∧ FuncSWITCH_OBJ 4 8 h1 = Ret (mkReply None 0 heap)
      ∧ FuncSWITCH_OBJ 8 4 heap = Ret (mkReply None 0 h1)
      ∧ ∀ k, k ≠ 4 → k ≠ 8 → bags h1 !! k = bags heap !! k.
Proof.
  refine (SWITCH_OBJ_twice 4 8 heap (bag 77 40 1 [1000; 8; 8; 4; 5])
            (bag 76 32 1 [1000; 1; 77; 4]) _ _ _ _ _ _).
  - reflexivity.
  - reflexivity.
  - reflexivity.
  - reflexivity.
  - split; [simpl; lia|reflexivity].
  - split; [simpl; lia|reflexivity].
Defined.

(** The same with the list [20] of the public region. *)
Lemma FORCE_SWITCH_OBJ_twice_witness :
  ∃ h1, FuncFORCE_SWITCH_OBJ 4 20 heap = Ret (mkReply None 0 h1)
      ∧ FuncFORCE_SWITCH_OBJ 4 20 h1 = Ret (mkReply None 0 heap)
      ∧ FuncFORCE_SWITCH_OBJ 20 4 heap = Ret (mkReply None 0 h1)
      ∧ ∀ k, k ≠ 4 → k ≠ 20 → bags h1 !! k = bags heap !! k.
Proof.
  refine (FORCE_SWITCH_OBJ_twice 4 20 heap (bag 77 40 1 [1000; 8; 8; 4; 5])
            (bag 22 16 0 [1; 9]) _ _ _ _ _ _).
  - reflexivity.
  - reflexivity.
  - reflexivity.
  - reflexivity.
  - right. reflexivity.
  - left. reflexivity.
Defined.

(** The component object [8] given the kind [1004]. *)
Lemma SET_TYPE_COMOBJ_sets_kind_witness :
  let h' := put_bag heap 8 (bag 76 32 1 [1004; 1; 77; 4]) in
  SET_TYPE_COMOBJ_Handler 8 1004 heap = Ret (8, h')
  ∧ TypeObjHandler 8 h' = Ret 1004
  ∧ IS_COMOBJ_Handler 8 h' = Ret true.
Proof.
  refine (SET_TYPE_COMOBJ_sets_kind 8 1004 heap (bag 76 32 1 [1000; 1; 77; 4]) _ _ _ _).
  - reflexivity.
  - reflexivity.
  - right. reflexivity.
  - simpl. lia.
Defined.

(** The plain list [20] made a positional object of kind [1004]. *)
Lemma SET_TYPE_POSOBJ_sets_kind_witness :
  let h' := put_bag heap 20 (bag 77 16 0 [1004; 9]) in
  SET_TYPE_POSOBJ_Handler 20 1004 heap = Ret (20, h')
  ∧ TypeObjHandler 20 h' = Ret 1004
  ∧ IS_POSOBJ_Handler 20 h' = Ret true.
Proof.
  refine (SET_TYPE_POSOBJ_sets_kind 20 1004 heap (bag 22 16 0 [1; 9]) _ _ _ _ _ _).
  - reflexivity.
  - reflexivity.
  - simpl. lia.
  - simpl. lia.
  - simpl. lia.
  - simpl. lia.
Defined.

(** The positional object [16] made a data object of kind [1000]. *)
Lemma SET_TYPE_DATOBJ_sets_kind_witness :
  let h' := put_bag heap 16 (bag 78 16 2 [1000; 12]) in
  SET_TYPE_DATOBJ_Handler 16 1000 heap = Ret (16, h')
  ∧ TypeObjHandler 16 h' = Ret 1000
  ∧ IS_DATOBJ_Handler 16 h' = Ret true.
Proof.
  refine (SET_TYPE_DATOBJ_sets_kind 16 1000 heap (bag 77 16 2 [1004; 12]) _ _ _).
  - reflexivity.
  - reflexivity.
  - simpl. lia.
Defined.

(** The kind of the positional object [4], set to [1004] and then to
    [1008]. *)
Lemma SET_TYPE_OBJ_then_TYPE_OBJ_witness :
  ∃ h1, SetTypeObjHandler 4 1004 heap = Ret (0, h1)
      ∧ TypeObjHandler 4 h1 = Ret 1004
      ∧ TypeObjHandler 4 heap = Ret 1000
      ∧ SetTypeObjHandler 4 1000 heap = Ret (0, heap)
      ∧ (h2 ← SET_TYPE_OBJ h1 4 1008; Ret h2) = SET_TYPE_OBJ heap 4 1008
      ∧ ∀ o, o ≠ 4 → bags h1 !! o = bags heap !! o.
Proof.
  refine (SET_TYPE_OBJ_then_TYPE_OBJ 4 1004 1008 heap (bag 77 40 1 [1000; 8; 8; 4; 5])
            1000 _ _ _ _).
  - reflexivity.
  - reflexivity.
  - left. reflexivity.
  - reflexivity.
Defined.

(** The data object [12] made immutable. *)
Lemma MakeImmutable_resets_kind_witness :
  let h1 := put_bag heap 12 (bag 78 20 1 [1004; 255; 65535]) in
  MakeImmutable 12 heap = Ret h1
  ∧ (KindIsMutable (KindResetMutable 1000) = false →
     IsMutableObjHandler 12 h1 = Ret false
     ∧ MakeImmutable 12 h1 = Ret h1
     ∧ FuncMakeImmutable 12 h1 = Ret (12, h1)).
Proof.
  refine (MakeImmutable_resets_kind 12 heap (bag 78 20 1 [1000; 255; 65535]) 1000 _ _ _ _ _).
  - reflexivity.
  - reflexivity.
  - right. right. reflexivity.
  - reflexivity.
  - reflexivity.
Defined.

(** The small integer [5]. *)
Lemma constant_objects_inert_witness :
  IsMutableObjHandler 5 heap = Ret false
  ∧ IsCopyableObjHandler 5 heap = Ret false
  ∧ FuncMakeImmutable 5 heap = Ret (5, heap)
  ∧ ShallowCopyObjHandler 5 heap = Ret (5, heap).
Proof.
  refine (constant_objects_inert 5 heap 0 _ _).
  - reflexivity.
  - unfold constant_tnum. simpl. lia.
Defined.

(** A shallow copy of the plain list [20]. *)
Lemma SHALLOW_COPY_OBJ_default_witness :
  let copy := bag 22 16 1 [1; 9] in
  let h' := put_bag (next_handle heap) 24 copy in
  ShallowCopyObjHandler 20 heap = Ret (24, h')
  ∧ bags h' !! 24 = Some copy
  ∧ ∀ o, o ≠ 24 → bags h' !! o = bags heap !! o.
Proof.
  refine (SHALLOW_COPY_OBJ_default 20 heap (bag 22 16 0 [1; 9]) _ _ _ _ _ _).
  - reflexivity.
  - reflexivity.
  - simpl. lia.
  - reflexivity.
  - reflexivity.
  - simpl. unfold sizeof_Obj. lia.
Defined.

(** The positional object [16] of the locked heap cannot be copied. *)
Lemma CopyObj_not_copyable_witness :
  CopyObj 1 16 true (mkThreadLocal 0) locked_heap
  = ErrorQuit "Panic: encountered mutable, non-copyable object"
  ∧ (WriteGuard 16 locked_heap = Ret () →
     ImmutableCopyObjHandler 1 16 (mkThreadLocal 0) locked_heap
     = ErrorQuit "Panic: encountered mutable, non-copyable object"
     ∧ MutableCopyObjHandler 1 16 (mkThreadLocal 0) locked_heap
       = ErrorQuit "Panic: encountered mutable, non-copyable object").
Proof.
  refine (CopyObj_not_copyable 0 16 true (mkThreadLocal 0) locked_heap
            (bag 77 16 2 [1008; 12]) 1008 _ _ _ _ _ _).
  - reflexivity.
  - reflexivity.
  - left. reflexivity.
  - reflexivity.
  - reflexivity.
  - reflexivity.
Defined.

(** The immutable positional object [16] cloned into the list [20]. *)
Lemma CLONE_OBJ_immutable_witness :
  FuncCLONE_OBJ 0 20 16 (mkThreadLocal 0) heap
  = Ret (mkReply None 0 (put_bag heap 20 (bag 77 16 0 [1004; 12])), mkThreadLocal 0)
  ∧ (20 = 16 → put_bag heap 20 (bag 77 16 0 [1004; 12]) = heap).
Proof.
  refine (CLONE_OBJ_immutable 0 20 16 (mkThreadLocal 0) heap (bag 77 16 2 [1004; 12])
            (bag 22 16 0 [1; 9]) _ _ _ _ _ _).
  - reflexivity.
  - reflexivity.
  - reflexivity.
  - reflexivity.
  - reflexivity.
  - simpl. unfold sizeof_Obj. lia.
Defined.

Lemma heap_kinds_reset : kinds_reset heap.
Proof.
  intros x k (_ & b & k' & E & _ & Ek & Hm) (b' & E' & Ek').
  assert (b' = b) as -> by congruence. assert (k' = k) as -> by congruence.
  unfold heap in E; simpl in E.
  repeat (apply lookup_insert_Some in E as [[_ <-]|[_ E]];
          [injection Ek as <-; done|]).
  by rewrite lookup_empty in E.
Qed.

(** The immutable copy of the object [4]. *)
Lemma immutable_copy_is_immutable_witness :
  IS_MUTABLE_OBJ frozen_heap 24 = Ret false
  ∧ (∀ fuel' mut, CopyObj (S fuel') 24 mut (mkThreadLocal 0) frozen_heap
                  = Ret (24, mkThreadLocal 0, frozen_heap))
  ∧ ∃ fwd : gmap Z Z,
      copied_to heap fwd 4 24
      ∧ ∀ x, copied_from heap 4 x →
             ∃ c, fwd !! x = Some c ∧ brk heap ≤ c
                  ∧ IS_MUTABLE_OBJ frozen_heap c = Ret false.
Proof.
  refine (immutable_copy_is_immutable 3 4 (mkThreadLocal 7) heap 24 (mkThreadLocal 0)
            frozen_heap heap_regular heap_kinds_reset _).
  vm_compute. reflexivity.
Defined.

(** The mutable positional object [4] cloned into the list [20]: [20]
    gets the body of the copy [24]. *)
Lemma CLONE_OBJ_mutable_witness :
  ∃ bn, bags copied_heap !! 24 = Some bn ∧ brk heap ≤ 24
      ∧ tnum (PTR_BAG bn) = 77 ∧ size (PTR_BAG bn) = 40
      ∧ data (PTR_BAG bn) !! 0%nat = Some 1000
      ∧ FuncCLONE_OBJ 3 20 4 (mkThreadLocal 7) heap
        = Ret (mkReply None 0 (put_bag copied_heap 20 (mkBag (PTR_BAG bn) 0)),
               mkThreadLocal 0)
      ∧ ∀ k, k < brk heap → k ≠ 20 →
             bags (put_bag copied_heap 20 (mkBag (PTR_BAG bn) 0)) !! k = bags heap !! k.
Proof.
  refine (CLONE_OBJ_mutable 3 20 4 (mkThreadLocal 7) heap (bag 77 40 1 [1000; 8; 8; 4; 5])
            (bag 22 16 0 [1; 9]) 24 (mkThreadLocal 0) copied_heap heap_regular _ _ _ _ _).
  - split; [reflexivity|]. exists (bag 77 40 1 [1000; 8; 8; 4; 5]), 1000.
    split; [reflexivity|]. split; [left; reflexivity|]. split; reflexivity.
  - reflexivity.
  - reflexivity.
  - simpl. unfold sizeof_Obj. lia.
  - vm_compute. reflexivity.
Defined.

End HandlerExamples.

(** ** Saved objects follow one another in the stream *)

Section SaveLoadFraming.
Context `{Framer}.

(** What a save loop appends does not depend on what was written before. *)
Lemma SavePosObj_loop_app (h : Heap) (x : Obj) (idx : list nat) :
  ∀ out r, SavePosObj_loop h x idx out = Ret r →
           ∃ s, r = out ++ s ∧ ∀ out', SavePosObj_loop h x idx out' = Ret (out' ++ s).
Proof.
  induction idx as [|i idx IH]; intros out r E; cbn [SavePosObj_loop] in *.
  - injection E as <-. exists []. split; [by rewrite app_nil_r|].
    intros out'. by rewrite app_nil_r.
  - bind_inv E as v Ev. destruct (IH _ _ E) as (s & -> & Hall).
    exists (SubObjCode v :: s). unfold SaveSubObj. split; [by rewrite <- app_assoc|].
    intros out'. rewrite Ev, bind_Ret_l, Hall. by rewrite <- app_assoc.
Qed.

Lemma SaveDatObj_loop_app (h : Heap) (x : Obj) (idx : list nat) :
  ∀ out r, SaveDatObj_loop h x idx out = Ret r →
           ∃ s, r = out ++ s ∧ ∀ out', SaveDatObj_loop h x idx out' = Ret (out' ++ s).
Proof.
  induction idx as [|i idx IH]; intros out r E; cbn [SaveDatObj_loop] in *.
  - injection E as <-. exists []. split; [by rewrite app_nil_r|].
    intros out'. by rewrite app_nil_r.
  - bind_inv E as v Ev. destruct (IH _ _ E) as (s & -> & Hall).
    exists (v :: s). unfold SaveUInt. split; [by rewrite <- app_assoc|].
    intros out'. rewrite Ev, bind_Ret_l, Hall. by rewrite <- app_assoc.
Qed.

Lemma SaveComObj_loop_app (h : Heap) (x : Obj) (idx : list nat) :
  ∀ out r, SaveComObj_loop h x idx out = Ret r →
           ∃ s, r = out ++ s ∧ ∀ out', SaveComObj_loop h x idx out' = Ret (out' ++ s).
Proof.
  induction idx as [|i idx IH]; intros out r E; cbn [SaveComObj_loop] in *.
  - injection E as <-. exists []. split; [by rewrite app_nil_r|].
    intros out'. by rewrite app_nil_r.
  - bind_inv E as n En. cbn zeta in E. bind_inv E as v Ev. cbn zeta in E.
    destruct (IH _ _ E) as (s & -> & Hall).
    exists (n :: SubObjCode v :: s). unfold SaveSubObj, SaveUInt.
    split; [by rewrite <- !app_assoc|].
    intros out'. rewrite En, bind_Ret_l. cbn zeta. rewrite Ev, bind_Ret_l. cbn zeta.
    rewrite Hall. unfold SaveSubObj, SaveUInt. by rewrite <- !app_assoc.
Qed.

Lemma save_body_app (k : structural_kind) (h : Heap) (x : Obj) (s : list Z) :
  save_body k h x [] = Ret s → ∀ out, save_body k h x out = Ret (out ++ s).
Proof.
  intros E out. destruct k; simpl in *.
  - unfold SaveComObj in *. bind_inv E as kd Ek. cbn zeta in E. bind_inv E as len El.
    cbn zeta in E. destruct (SaveComObj_loop_app _ _ _ _ _ E) as (s' & -> & Hall).
    rewrite Ek, bind_Ret_l. cbn zeta. rewrite El, bind_Ret_l. cbn zeta.
    rewrite Hall. unfold SaveSubObj, SaveUInt. simpl. by rewrite <- !app_assoc.
  - unfold SavePosObj in *. bind_inv E as kd Ek. cbn zeta in E. bind_inv E as sz Es.
    cbn zeta in E. destruct (SavePosObj_loop_app _ _ _ _ _ E) as (s' & -> & Hall).
    rewrite Ek, bind_Ret_l. cbn zeta. rewrite Es, bind_Ret_l. cbn zeta.
    rewrite Hall. unfold SaveSubObj. simpl. by rewrite <- !app_assoc.
  - unfold SaveDatObj in *. bind_inv E as kd Ek. cbn zeta in E. bind_inv E as sz Es.
    cbn zeta in E. destruct (SaveDatObj_loop_app _ _ _ _ _ E) as (s' & -> & Hall).
    rewrite Ek, bind_Ret_l. cbn zeta. rewrite Es, bind_Ret_l. cbn zeta.
    rewrite Hall. unfold SaveSubObj. simpl. by rewrite <- !app_assoc.
Qed.

(** A load that succeeds on a stream succeeds on any longer one, and
    leaves what follows. *)
Lemma LoadSubObj_app (inp rest : list Z) (v : Obj) (inp' : list Z) :
  LoadSubObj inp = Ret (v, inp') → LoadSubObj (inp ++ rest) = Ret (v, inp' ++ rest).
Proof. destruct inp as [|w inp]; [done|]. simpl. by intros [= <- <-]. Qed.

Lemma LoadUInt_app (inp rest : list Z) (v : Z) (inp' : list Z) :
  LoadUInt inp = Ret (v, inp') → LoadUInt (inp ++ rest) = Ret (v, inp' ++ rest).
Proof. destruct inp as [|w inp]; [done|]. simpl. by intros [= <- <-]. Qed.

Lemma LoadPosObj_loop_app (d : Obj) (rest : list Z) (idx : list nat) :
  ∀ inp h inp' h', LoadPosObj_loop d idx inp h = Ret (inp', h') →
                   LoadPosObj_loop d idx (inp ++ rest) h = Ret (inp' ++ rest, h').
Proof.
  induction idx as [|i idx IH]; intros inp h inp' h' E; cbn [LoadPosObj_loop] in *.
  - by injection E as <- <-.
  - bind_inv E as p Ep. destruct p as [v inp1]. bind_inv E as h1 E1.
    rewrite (LoadSubObj_app _ _ _ _ Ep), bind_Ret_l. cbn iota beta.
    rewrite E1, bind_Ret_l. by apply IH.
Qed.

Lemma LoadDatObj_loop_app (d : Obj) (rest : list Z) (idx : list nat) :
  ∀ inp h inp' h', LoadDatObj_loop d idx inp h = Ret (inp', h') →
                   LoadDatObj_loop d idx (inp ++ rest) h = Ret (inp' ++ rest, h').
Proof.
  induction idx as [|i idx IH]; intros inp h inp' h' E; cbn [LoadDatObj_loop] in *.
  - by injection E as <- <-.
  - bind_inv E as p Ep. destruct p as [v inp1]. bind_inv E as h1 E1.
    rewrite (LoadUInt_app _ _ _ _ Ep), bind_Ret_l. cbn iota beta.
    rewrite E1, bind_Ret_l. by apply IH.
Qed.

Lemma LoadComObj_loop_app (d : Obj) (rest : list Z) (idx : list nat) :
  ∀ inp h inp' h', LoadComObj_loop d idx inp h = Ret (inp', h') →
                   LoadComObj_loop d idx (inp ++ rest) h = Ret (inp' ++ rest, h').
Proof.
  induction idx as [|i idx IH]; intros inp h inp' h' E; cbn [LoadComObj_loop] in *.
  - by injection E as <- <-.
  - bind_inv E as p Ep. destruct p as [n inp1]. bind_inv E as h1 E1.
    bind_inv E as q Eq. destruct q as [v inp2]. bind_inv E as h2 E2.
    rewrite (LoadUInt_app _ _ _ _ Ep), bind_Ret_l. cbn iota beta.
    rewrite E1, bind_Ret_l.
    rewrite (LoadSubObj_app _ _ _ _ Eq), bind_Ret_l. cbn iota beta.
    rewrite E2, bind_Ret_l. by apply IH.
Qed.

Lemma load_body_app (k : structural_kind) (d : Obj) (inp rest inp' : list Z)
    (h h' : Heap) :
  load_body k d inp h = Ret (inp', h') →
  load_body k d (inp ++ rest) h = Ret (inp' ++ rest, h').
Proof.
  intros E. destruct k; simpl in *.
  - unfold LoadComObj in *. bind_inv E as p Ep. destruct p as [kd inp1].
    bind_inv E as h1 E1. bind_inv E as q Eq. destruct q as [len inp2].
    bind_inv E as h2 E2.
    rewrite (LoadSubObj_app _ _ _ _ Ep), bind_Ret_l. cbn iota beta.
    rewrite E1, bind_Ret_l.
    rewrite (LoadUInt_app _ _ _ _ Eq), bind_Ret_l. cbn iota beta.
    rewrite E2, bind_Ret_l. by apply LoadComObj_loop_app.
  - unfold LoadPosObj in *. bind_inv E as p Ep. destruct p as [kd inp1].
    bind_inv E as h1 E1. bind_inv E as sz Es. cbn zeta in E.
    rewrite (LoadSubObj_app _ _ _ _ Ep), bind_Ret_l. cbn iota beta.
    rewrite E1, bind_Ret_l. rewrite Es, bind_Ret_l. cbn zeta.
    by apply LoadPosObj_loop_app.
  - unfold LoadDatObj in *. bind_inv E as p Ep. destruct p as [kd inp1].
    bind_inv E as h1 E1. bind_inv E as sz Es. cbn zeta in E.
    rewrite (LoadSubObj_app _ _ _ _ Ep), bind_Ret_l. cbn iota beta.
    rewrite E1, bind_Ret_l. rewrite Es, bind_Ret_l. cbn zeta.
    by apply LoadDatObj_loop_app.
Qed.

(** X14.  Saved objects can follow one another in one stream.  A save
    body appends to what has been written the same words that it writes to
    an empty stream, and a load body that reads these words to their end
    reads no further when more follows.  So if [x1] and [x2] are saved one
    after the other, behind anything, and the two load bodies are run one
    after the other on the result, each cell is loaded exactly as it is
    from the stream of its object alone, and what follows the second
    object is left in the stream. *)
Theorem save_load_sequence (k1 k2 : structural_kind) (h hd hd1 hd2 : Heap)
    (x1 x2 d1 d2 : Obj) (s1 s2 : list Z) :
  save_body k1 h x1 [] = Ret s1 → save_body k2 h x2 [] = Ret s2 →
  load_body k1 d1 s1 hd = Ret ([], hd1) → load_body k2 d2 s2 hd1 = Ret ([], hd2) →
  ∀ out rest : list Z,
    save_body k1 h x1 out = Ret (out ++ s1)
    ∧ (o1 ← save_body k1 h x1 out; save_body k2 h x2 o1) = Ret (out ++ s1 ++ s2)
    ∧ load_body k1 d1 (s1 ++ s2 ++ rest) hd = Ret (s2 ++ rest, hd1)
    ∧ ('(r, h1) ← load_body k1 d1 (s1 ++ s2 ++ rest) hd; load_body k2 d2 r h1)
      = Ret (rest, hd2).
Proof.
  intros S1 S2 L1 L2 out rest.
  pose proof (save_body_app _ _ _ _ S1 out) as S1'.
  pose proof (load_body_app _ _ _ (s2 ++ rest) _ _ _ L1) as L1'.
  pose proof (load_body_app _ _ _ rest _ _ _ L2) as L2'. simpl in L1', L2'.
  split; [done|]. split; [|split; [done|]].
  - rewrite S1', bind_Ret_l. rewrite (save_body_app _ _ _ _ S2). by rewrite <- app_assoc.
  - rewrite L1', bind_Ret_l. cbn iota beta. exact L2'.
Qed.

End SaveLoadFraming.

(** ** Viewing, and the ancestor stack after a call *)

Section ViewProps.
Context `{Tnums} `{Printers}.


(** *** What a call leaves of the ancestor stack *)

Lemma ancestors_kept_refl (s : PrintState) : ancestors_kept s s.
Proof. by repeat split. Qed.

Lemma ancestors_kept_trans (s1 s2 s3 : PrintState) :
  stack_kept s1 s2 → ancestors_kept s1 s2 → ancestors_kept s2 s3 → ancestors_kept s1 s3.
Proof.
  unfold ancestors_kept. intros (D & _) (T1 & I1 & O1) (T2 & I2 & O2). rewrite D in *.
  split; [congruence|]. split; [congruence|]. intros Hp. rewrite O2 by done. auto.
Qed.

Lemma run_body_restores (PRINT VIEW : Obj → PrintState → outcome PrintState) :
  restores PRINT → restores VIEW →
  ∀ (script : list action) (s s' : PrintState),
    print_state_ok s → run_body PRINT VIEW script s = Ret s' →
    stack_kept s s' ∧ ancestors_kept s s'.
Proof.
  intros HP HV. induction script as [|a script IH]; intros s s' Hok E.
  - injection E as <-. split; [apply stack_kept_refl|apply ancestors_kept_refl].
  - cbn [run_body] in E. bind_inv E as s1 E1.
    assert (stack_kept s s1 ∧ ancestors_kept s s1) as [K1 A1].
    { destruct a as [text|i|sub|sub].
      - injection E1 as <-. split; [apply stack_kept_emit|by repeat split].
      - injection E1 as <-. by repeat split.
      - by apply (HP sub).
      - by apply (HV sub). }
    destruct (IH s1 s') as [K2 A2]; [by eapply stack_kept_ok|done|].
    split; [by eapply stack_kept_trans|by eapply ancestors_kept_trans].
Qed.

(** Leaving the frame that a call has pushed on top of [s]. *)
Lemma leave_pushed (s s1 s4 s5 : PrintState) (obj : Obj) :
  print_state_ok s →
  PrintObjThis s1 = PrintObjThis s → PrintObjIndex s1 = PrintObjIndex s →
  PrintObjDepth s1 = PrintObjDepth s → PrintObjThiss s1 = PrintObjThiss s →
  PrintObjIndices s1 = PrintObjIndices s →
  let s3 := enter_obj obj (if 0 <? PrintObjDepth s then remembered s1 else s1) in
  stack_kept s3 s4 → ancestors_kept s3 s4 → leave_obj s4 = Ret s5 →
  PrintObjDepth s5 = PrintObjDepth s
  ∧ LastPV s5 = LastPV s4
  ∧ length (PrintObjThiss s5) = length (PrintObjThiss s)
  ∧ length (PrintObjIndices s5) = length (PrintObjIndices s)
  ∧ ancestors_kept s s5
  ∧ (0 < PrintObjDepth s → PrintObjIndex s5 = PrintObjIndex s).
Proof.
  intros (Hd & Ht & Hi & _) E1 E2 E3 E4 E5 s3 (D4 & _ & T4 & I4) (AT & AI & _) EL.
  set (d := PrintObjDepth s) in *. set (k := Z.to_nat (d - 1)).
  assert (PrintObjDepth s3 = d + 1) as D3.
  { unfold s3. destruct (0 <? d); simpl; lia. }
  assert (PrintObjThiss s3 = (if 0 <? d then <[k := PrintObjThis s]> (PrintObjThiss s)
                              else PrintObjThiss s)
          ∧ PrintObjIndices s3 = (if 0 <? d then <[k := PrintObjIndex s]> (PrintObjIndices s)
                                  else PrintObjIndices s)) as [T3 I3].
  { unfold s3, k. destruct (0 <? d); simpl; rewrite ?E1, ?E2, ?E3, ?E4, ?E5; done. }
  assert (length (PrintObjThiss s3) = Z.to_nat MAXPRINTDEPTH
          ∧ length (PrintObjIndices s3) = Z.to_nat MAXPRINTDEPTH) as [LT3 LI3].
  { rewrite T3, I3. destruct (0 <? d); rewrite ?length_insert; done. }
  rewrite D3 in AT, AI, D4. replace (d + 1 - 1) with d in AT, AI by lia.
  destruct (leave_obj_spec s4) as (s5' & E5' & D5 & P5 & T5 & I5 & _ & R5 & _);
    [lia|congruence..|].
  assert (s5' = s5) as -> by congruence.
  rewrite D4 in D5, R5. replace (d + 1 - 2) with (d - 1) in R5 by lia. fold k in R5.
  assert (take k (PrintObjThiss s3) = take k (PrintObjThiss s)
          ∧ take k (PrintObjIndices s3) = take k (PrintObjIndices s)) as [TK3 IK3].
  { rewrite T3, I3. destruct (0 <? d); [|done]. by rewrite !take_insert_ge by lia. }
  assert (∀ (A : Type) (l l' : list A), take (Z.to_nat d) l = take (Z.to_nat d) l' →
                                        take k l = take k l') as Hless.
  { intros A l l' E. rewrite <- (Nat.min_l k (Z.to_nat d)) by (unfold k; lia).
    by rewrite <- !take_take, E. }
  split; [lia|]. split; [done|]. split; [congruence|]. split; [congruence|]. split.
  - unfold ancestors_kept. fold d k. rewrite T5, I5.
    split; [rewrite (Hless _ _ _ AT); done|]. split; [rewrite (Hless _ _ _ AI); done|].
    intros Hp. destruct R5 as [R5t _]; [lia|].
    assert (PrintObjThiss s4 !! k = PrintObjThiss s3 !! k) as Ek.
    { rewrite <- (lookup_take_lt _ (Z.to_nat d)) by (unfold k; lia).
      rewrite AT. apply lookup_take_lt. unfold k. lia. }
    rewrite Ek, T3 in R5t. replace (0 <? d) with true in R5t by (symmetry; by apply Z.ltb_lt).
    rewrite list_lookup_insert_eq in R5t; [congruence|].
    rewrite Ht. unfold k, MAXPRINTDEPTH in *. lia.
  - intros Hp. destruct R5 as [_ R5i]; [lia|].
    assert (PrintObjIndices s4 !! k = PrintObjIndices s3 !! k) as Ek.
    { rewrite <- (lookup_take_lt _ (Z.to_nat d)) by (unfold k; lia).
      rewrite AI. apply lookup_take_lt. unfold k. lia. }
    rewrite Ek, I3 in R5i. replace (0 <? d) with true in R5i by (symmetry; by apply Z.ltb_lt).
    rewrite list_lookup_insert_eq in R5i; [congruence|].
    rewrite Hi. unfold k, MAXPRINTDEPTH in *. lia.
Qed.

Lemma print_view_restores (fuel : nat) :
  (∀ obj s s', print_state_ok s → PrintObj fuel obj s = Ret s' →
               stack_kept s s' ∧ ancestors_kept s s'
               ∧ (0 < PrintObjDepth s → ¬ from_view s obj →
                  PrintObjIndex s' = PrintObjIndex s))
  ∧ (∀ obj s s', print_state_ok s → ViewObj fuel obj s = Ret s' →
                 stack_kept s s' ∧ ancestors_kept s s'
                 ∧ (0 < PrintObjDepth s → PrintObjIndex s' = PrintObjIndex s)).
Proof.
  induction fuel as [|fuel [IHP IHV]]; [split; intros; done|].
  assert (restores (PrintObj fuel)) as RP.
  { intros obj s s' Hok E. destruct (IHP obj s s' Hok E) as (? & ? & _). done. }
  assert (restores (ViewObj fuel)) as RV.
  { intros obj s s' Hok E. destruct (IHV obj s s' Hok E) as (? & ? & _). done. }
  assert (∀ obj s s1 s4 (body : list action) (e : event) (notice : string),
            print_state_ok s → PrintObjDepth s1 = PrintObjDepth s →
            length (PrintObjThiss s1) = length (PrintObjThiss s) →
            length (PrintObjIndices s1) = length (PrintObjIndices s) →
            let s3 := enter_obj obj (if 0 <? PrintObjDepth s then remembered s1 else s1) in
            (if negb (IS_MARKABLE obj && bool_decide (obj ∈ (frames s).*1)) then
               if PrintObjDepth s + 1 <? MAXPRINTDEPTH then
                 run_body (PrintObj fuel) (ViewObj fuel) body (emit e s3)
               else Ret (emit (Pr notice) s3)
             else Ret (emit_all (Pr "~" :: map selector (frames_before obj (frames s))) s3))
            = Ret s4 →
            stack_kept s3 s4 ∧ ancestors_kept s3 s4) as Hbody.
  { intros obj s s1 s4 body e notice Hok D1 T1 I1 s3 E.
    destruct Hok as (Hd & Ht & Hi & Hpv).
    destruct (negb _).
    - destruct (PrintObjDepth s + 1 <? MAXPRINTDEPTH) eqn:Hlt.
      + apply Z.ltb_lt in Hlt.
        destruct (run_body_restores _ _ RP RV body (emit e s3) s4) as [K A]; [|done|].
        { unfold print_state_ok, s3.
          destruct (0 <? PrintObjDepth s); simpl; rewrite ?length_insert, ?D1, ?T1, ?I1;
            repeat split; (done || lia). }
        split; [eapply stack_kept_trans; [apply stack_kept_emit|done]|].
        eapply ancestors_kept_trans; [apply stack_kept_emit| |exact A]. by repeat split.
      + injection E as <-. split; [apply stack_kept_emit|by repeat split].
    - injection E as <-. split; [apply stack_kept_emit_all|by repeat split]. }
  split; intros obj s s' Hok E; pose proof Hok as (Hd & Ht & Hi & Hpv).
  - assert (check_interrupt s = Ret (checked s)) as Hci.
    { pose proof E as E'. cbn [PrintObj] in E'. bind_inv E' as s0 E0.
      by rewrite (check_interrupt_inv _ _ E0) in E0. }
    destruct (IS_BAG_REF obj && negb (CheckRead obj)) eqn:Hacc.
    { cbn [PrintObj] in E. rewrite Hci, bind_Ret_l in E. cbn zeta in E.
      rewrite Hacc in E. injection E as <-. by repeat split. }
    set (s1 := set_LastPV 1 (checked s)) in *.
    assert (PrintObjThis s1 = PrintObjThis s ∧ PrintObjIndex s1 = PrintObjIndex s
            ∧ PrintObjDepth s1 = PrintObjDepth s ∧ PrintObjThiss s1 = PrintObjThiss s
            ∧ PrintObjIndices s1 = PrintObjIndices s ∧ LastPV s1 = 1)
      as (E1 & E2 & E3 & E4 & E5 & E6) by done.
    destruct ((LastPV s =? 2) && (obj =? PrintObjThis s)) eqn:Hfv.
    + (* called from the view of the same object *)
      assert (from_view s obj) as Hfrom.
      { apply andb_true_iff in Hfv as [?%Z.eqb_eq ?%Z.eqb_eq]. by split. }
      assert (0 < PrintObjDepth s) as Hpos by (apply Hpv; by destruct Hfrom).
      rewrite PrintObj_fromview in E by (done || lia).
      fold s1 in E. bind_inv E as s4 B4. injection E as <-.
      assert (print_state_ok s1) as Hok1.
      { unfold print_state_ok. rewrite E3, E4, E5, E6. repeat split; (done || lia). }
      assert (stack_kept s1 s4 ∧ ancestors_kept s1 s4) as [K4 A4].
      { destruct (negb _).
        - destruct (PrintObjDepth s <? MAXPRINTDEPTH).
          + destruct (run_body_restores _ _ RP RV _ _ s4
                        (stack_kept_ok _ _ Hok1 (stack_kept_emit _ s1)) B4) as [K A].
            split; [eapply stack_kept_trans; [apply stack_kept_emit|done]|].
            eapply ancestors_kept_trans; [apply stack_kept_emit| |exact A]. by repeat split.
          + injection B4 as <-. split; [apply stack_kept_emit|by repeat split].
        - injection B4 as <-. split; [apply stack_kept_emit_all|by repeat split]. }
      destruct K4 as (D4 & P4 & T4 & I4). destruct A4 as (AT & AI & AO).
      split; [|split].
      * unfold stack_kept. simpl. rewrite D4, T4, I4, E3, E4, E5. done.
      * unfold ancestors_kept in *. simpl. rewrite E1, E3, E4, E5 in *. done.
      * intros _ Hno. done.
    + (* a frame is pushed *)
      rewrite PrintObj_push in E by (done || lia). fold s1 in E.
      bind_inv E as s4 B4. bind_inv E as s5 L5. injection E as <-.
      destruct (Hbody obj s s1 s4 _ _ _ Hok E3 (f_equal length E4) (f_equal length E5) B4)
        as [K4 A4].
      destruct (leave_pushed s s1 s4 s5 obj Hok E1 E2 E3 E4 E5 K4 A4 L5)
        as (D5 & _ & T5 & I5 & A5 & X5).
      split; [by repeat split|]. split; [exact A5|]. intros Hp _. by apply X5.
  - destruct (IS_BAG_REF obj && negb (CheckRead obj)) eqn:Hacc.
    { cbn [ViewObj] in E. rewrite Hacc in E. injection E as <-. by repeat split. }
    rewrite ViewObj_push in E by (done || lia).
    set (s1 := set_LastPV 2 s) in *.
    bind_inv E as s4 B4. bind_inv E as s5 L5. injection E as <-.
    destruct (Hbody obj s s1 s4 _ _ _ Hok eq_refl eq_refl eq_refl B4) as [K4 A4].
    destruct (leave_pushed s s1 s4 s5 obj Hok) as (D5 & _ & T5 & I5 & A5 & X5);
      [done..|exact K4|exact A4|exact L5|].
    split; [by repeat split|]. split; [exact A5|]. exact X5.
Qed.

Lemma frames_kept (s s' : PrintState) :
  print_state_ok s → stack_kept s s' → ancestors_kept s s' →
  (frames s').*1 = (frames s).*1
  ∧ (PrintObjIndex s' = PrintObjIndex s → frames s' = frames s).
Proof.
  intros (Hd & Ht & Hi & _) (D & _ & T & I) (AT & AI & AO). unfold frames. rewrite D.
  destruct (0 <? PrintObjDepth s) eqn:Hp; [|done]. apply Z.ltb_lt in Hp.
  rewrite AT, AI, AO by done. split; [|by intros ->].
  rewrite !fmap_app. done.
Qed.


(** *** A view method that prints *)

Lemma run_body_plain (PRINT VIEW : Obj → PrintState → outcome PrintState)
    (script : list action) :
  forallb is_plain script = true →
  ∀ s, ∃ i, run_body PRINT VIEW script s
            = Ret (set_PrintObjIndex i (emit_all (printed script) s)).
Proof.
  induction script as [|a script IH]; intros Hp s.
  - exists (PrintObjIndex s). cbn [run_body printed flat_map]. rewrite emit_all_nil.
    by destruct s.
  - cbn [forallb] in Hp. apply andb_true_iff in Hp as [Ha Hp].
    destruct a as [text|j|sub|sub]; try done; cbn [run_body]; rewrite bind_Ret_l.
    + destruct (IH Hp (emit (Pr text) s)) as [i ->]. exists i.
      by rewrite emit_all_emit.
    + destruct (IH Hp (set_PrintObjIndex j s)) as [i ->]. exists i. done.
Qed.


End ViewProps.

(** ** Streams and views on the examples *)

Section StreamExamples.
Import Example MoreExamples.

(** The component object [8] and the data object [12] saved one after the
    other behind the word [7], and loaded into the cleared cells [24] and
    [28] from a stream that goes on with the word [9]. *)
Lemma save_load_sequence_witness :
  let hd1 := put_bag cleared_heap 24 (bag 76 32 1 [1000; 1; 77; 4]) in
  let hd2 := put_bag hd1 28 (bag 78 20 1 [1000; 255; 65535]) in
  save_body KComObj heap 8 [7] = Ret ([7] ++ [1001; 1; 77; 5])
  ∧ (o1 ← save_body KComObj heap 8 [7]; save_body KDatObj heap 12 o1)
    = Ret ([7] ++ [1001; 1; 77; 5] ++ [1001; 255; 65535])
  ∧ load_body KComObj 24 ([1001; 1; 77; 5] ++ [1001; 255; 65535] ++ [9]) cleared_heap
    = Ret ([1001; 255; 65535] ++ [9], hd1)
  ∧ ('(r, h1) ← load_body KComObj 24
                 ([1001; 1; 77; 5] ++ [1001; 255; 65535] ++ [9]) cleared_heap;
     load_body KDatObj 28 r h1) = Ret ([9], hd2).
Proof.
  refine (save_load_sequence KComObj KDatObj heap cleared_heap _ _ 8 12 24 28
            [1001; 1; 77; 5] [1001; 255; 65535] _ _ _ _ [7] [9]).
  - reflexivity.
  - reflexivity.
  - vm_compute. reflexivity.
  - vm_compute. reflexivity.
Defined.




End StreamExamples.

(** ** The structural copy returns *)

Lemma bind_returns {A B : Type} (m : outcome A) (k : A → outcome B) :
  returns m → (∀ a, m = Ret a → returns (k a)) → returns (m ≫= k).
Proof. intros [a ->] Hk. rewrite bind_Ret_l. by apply Hk. Qed.

Lemma returns_Ret {A : Type} (a : A) : returns (Ret a).
Proof. by exists a. Qed.

Section CopySteps.
Context `{Tnums} `{!TnumsOK} `{Kinds} `{Threads}.

Lemma TNUM_OBJ_immediate (h : Heap) (o : Obj) :
  is_immediate o = true → ∃ t, TNUM_OBJ h o = Ret t ∧ constant_tnum t.
Proof.
  unfold is_immediate, TNUM_OBJ. intros Him.
  destruct (IS_INTOBJ o); [exists T_INT; split; [done|apply tnums_int_const]|].
  destruct (IS_FFE o); [exists T_FFE; split; [done|apply tnums_ffe_const]|done].
Qed.

(** The allocation of the copy goes through. *)
Lemma make_copy_returns (obj : Obj) (mut with_len : bool) (h : Heap) (b0 : Bag) (k : Z) :
  is_immediate obj = false → bags h !! obj = Some b0 → obj < brk h →
  brk h `mod` 4 = 0 →
  structural_tnum (tnum (PTR_BAG b0)) → data (PTR_BAG b0) !! 0%nat = Some k →
  (1 ≤ nwords (size (PTR_BAG b0)))%nat →
  (with_len = true → (2 ≤ length (data (PTR_BAG b0)))%nat
                     ∧ (2 ≤ nwords (size (PTR_BAG b0)))%nat) →
  returns (make_copy obj mut with_len h).
Proof.
  intros Him E Hlt Hal Hs Ek Hn Hwl. unfold make_copy.
  rewrite (TNUM_OBJ_bag _ _ _ Him E), bind_Ret_l.
  rewrite (SIZE_OBJ_lookup _ _ _ E), bind_Ret_l.
  unfold NewBag. cbn iota beta.
  set (t0 := tnum (PTR_BAG b0)) in *. set (sz := size (PTR_BAG b0)) in *.
  set (hn := put_bag (next_handle h) (brk h) (fresh_bag t0 sz)).
  assert (bags hn !! obj = Some b0) as En.
  { unfold hn. rewrite bags_put_bag_ne by lia. done. }
  assert (is_immediate (brk h) = false) as Hic by (by apply aligned_not_immediate).
  rewrite (ADDR_OBJ_get_lookup _ _ _ _ _ En Ek), bind_Ret_l.
  rewrite (ADDR_OBJ_set_lookup hn (brk h) (fresh_bag t0 sz));
    [|apply bags_put_bag_eq|unfold fresh_bag; simpl; rewrite length_replicate; lia].
  rewrite bind_Ret_l. unfold hn. rewrite put_bag_put_bag.
  set (b1 := set_word (fresh_bag t0 sz) 0 k).
  assert (length (data (PTR_BAG b1)) = nwords sz) as L1.
  { unfold b1, set_word, fresh_bag; simpl. by rewrite length_insert, length_replicate. }
  assert (∃ b2, (if with_len
                 then n ← LEN_PREC (put_bag (next_handle h) (brk h) b1) obj;
                      SET_LEN_PREC (put_bag (next_handle h) (brk h) b1) (brk h) n
                 else Ret (put_bag (next_handle h) (brk h) b1))
                = Ret (put_bag (next_handle h) (brk h) b2)
                ∧ tnum (PTR_BAG b2) = t0
                ∧ data (PTR_BAG b2) !! 0%nat = Some k) as (b2 & -> & T2 & K2).
  { destruct with_len.
    - destruct Hwl as [Hl2 Hn2]; [done|]. unfold LEN_PREC, SET_LEN_PREC.
      rewrite (ADDR_OBJ_get_total _ obj b0), bind_Ret_l;
        [|by rewrite bags_put_bag_ne by lia|lia].
      rewrite (ADDR_OBJ_set_lookup _ (brk h) b1); [|apply bags_put_bag_eq|lia].
      rewrite put_bag_put_bag. eexists. split; [done|]. split; [done|].
      unfold b1, set_word, fresh_bag; simpl.
      rewrite list_lookup_insert_ne by lia. apply list_lookup_insert_eq.
      rewrite length_replicate. lia.
    - exists b1. split; [done|]. split; [done|].
      unfold b1, set_word, fresh_bag; simpl. apply list_lookup_insert_eq.
      rewrite length_replicate. lia. }
  rewrite bind_Ret_l. destruct mut; [by eexists|].
  rewrite (RESET_FILTER_OBJ_kind _ (brk h) b2 k Hic);
    [by eexists|apply bags_put_bag_eq|by rewrite T2|done].
Qed.

(** So does the forwarding record. *)
Lemma leave_forwarding_returns (obj copy : Obj) (h : Heap) (b0 : Bag) (k : Z) :
  is_immediate obj = false → bags h !! obj = Some b0 → obj < brk h →
  data (PTR_BAG b0) !! 0%nat = Some k →
  returns (leave_forwarding obj copy h).
Proof.
  intros Him E Hlt Ek. unfold leave_forwarding, NewBag. cbn iota beta.
  unfold SET_LEN_PLIST, SET_ELM_PLIST.
  set (bn := fresh_bag T_PLIST (3 * sizeof_Obj)).
  assert (length (data (PTR_BAG bn)) = 3%nat) as Ln by reflexivity.
  rewrite (ADDR_OBJ_set_lookup _ (brk h) bn); [|apply bags_put_bag_eq|lia].
  rewrite bind_Ret_l, put_bag_put_bag.
  rewrite (ADDR_OBJ_get_lookup _ obj b0 0 k); [|by rewrite bags_put_bag_ne by lia|done].
  rewrite bind_Ret_l.
  rewrite (ADDR_OBJ_set_lookup _ (brk h) (set_word bn 0 2)); [|apply bags_put_bag_eq|].
  2: { unfold bn, set_word, fresh_bag; simpl; rewrite ?length_insert, ?length_replicate; simpl; lia. }
  rewrite bind_Ret_l, put_bag_put_bag.
  rewrite (ADDR_OBJ_set_lookup _ (brk h) (set_word (set_word bn 0 2) 1 k));
    [|apply bags_put_bag_eq|].
  2: { unfold bn, set_word, fresh_bag; simpl; rewrite ?length_insert, ?length_replicate; simpl; lia. }
  rewrite bind_Ret_l, put_bag_put_bag.
  rewrite (ADDR_OBJ_set_lookup _ obj b0); [|by rewrite bags_put_bag_ne by lia|].
  2: { by eapply lookup_lt_Some. }
  rewrite bind_Ret_l.
  rewrite (TNUM_OBJ_bag _ obj (set_word b0 0 (brk h))) by (done || apply bags_put_bag_eq).
  rewrite bind_Ret_l.
  rewrite (RetypeBag_lookup _ obj (set_word b0 0 (brk h))) by apply bags_put_bag_eq.
  by eexists.
Qed.

(** And the removal of a forwarding record that is in place. *)
Lemma remove_forwarding_returns (h0 h : Heap) (obj c : Obj) :
  forwarded h0 h obj c → returns (remove_forwarding obj h).
Proof.
  intros (b0 & f & bf & bc & E0 & Hm & Eo & Hf & Ef & Tf & F1 & F2 & Hc & Ec & Tc).
  destruct Hm as (Him & b & k & Eb & Hs & Ek & _). assert (b = b0) as -> by congruence.
  assert (0 < length (data (PTR_BAG b0)))%nat as Hl by (by eapply lookup_lt_Some).
  unfold remove_forwarding, ELM_PLIST.
  set (bm := set_tnum (set_word b0 0 f) (tnum (PTR_BAG b0) + COPYING)) in *.
  rewrite (ADDR_OBJ_get_lookup _ obj bm 0 f); [|done|].
  2: { unfold bm, set_tnum, set_word; simpl. by apply list_lookup_insert_eq. }
  rewrite bind_Ret_l.
  rewrite (ADDR_OBJ_get_lookup _ f bf 1 k) by (done || congruence).
  rewrite bind_Ret_l.
  rewrite (ADDR_OBJ_set_lookup _ obj bm); [|done|].
  2: { unfold bm, set_tnum, set_word; simpl. by rewrite length_insert. }
  rewrite bind_Ret_l.
  rewrite (TNUM_OBJ_bag _ obj (set_word bm 0 k)) by (done || apply bags_put_bag_eq).
  rewrite bind_Ret_l.
  rewrite (RetypeBag_lookup _ obj (set_word bm 0 k)) by apply bags_put_bag_eq.
  by eexists.
Qed.

Lemma CopyObjDatObj_loop_shallow (obj copy : Obj) (idx : list nat) (h : Heap) :
  CopyObjDatObj_loop obj copy idx h = ShallowCopyObjDefault_loop obj copy idx h.
Proof.
  revert h. induction idx as [|i idx IH]; intros h; [done|].
  cbn [CopyObjDatObj_loop ShallowCopyObjDefault_loop].
  destruct (ADDR_OBJ_get h obj i) as [w| | |]; [|done..]. rewrite !bind_Ret_l.
  destruct (ADDR_OBJ_set h copy i w) as [h1| | |]; [|done..]. rewrite !bind_Ret_l.
  apply IH.
Qed.

End CopySteps.

Section CopyReturns.
Context `{Tnums} `{!TnumsOK} `{Kinds} `{Threads}.
Variable h0 : Heap.
Hypothesis Hreg : regular_heap h0.
Hypothesis Hch : copyable_heap h0.

Lemma copy_target_old (v : Obj) : copy_target h0 v → old_value h0 v.
Proof.
  intros [Him|(b & E & _)]; [by right|left]. apply (rh_dom _ Hreg) in E. lia.
Qed.

(** A word after word 0 of a marked object is read as it was. *)
Lemma marked_get (h : Heap) (fwd : gmap Z Z) (obj copy : Obj) (b0 : Bag) (i : nat) :
  copy_inv h0 h fwd → fwd !! obj = Some copy → bags h0 !! obj = Some b0 →
  (1 ≤ i < length (data (PTR_BAG b0)))%nat →
  ∃ v, ADDR_OBJ_get h obj i = Ret v ∧ data (PTR_BAG b0) !! i = Some v.
Proof.
  intros Hi Hf E0 Hlt. destruct (marked_bag _ _ _ _ _ _ Hi Hf E0) as [f Eb].
  destruct (lookup_lt_is_Some_2 (data (PTR_BAG b0)) i) as [v Ev]; [lia|].
  exists v. split; [|done]. apply (ADDR_OBJ_get_lookup _ _ _ _ _ Eb).
  unfold set_tnum, set_word; simpl. by rewrite list_lookup_insert_ne by lia.
Qed.

(** So is any word of an unmarked object. *)
Lemma unmarked_get (h : Heap) (fwd : gmap Z Z) (obj : Obj) (b0 : Bag) (i : nat) :
  copy_inv h0 h fwd → fwd !! obj = None → bags h0 !! obj = Some b0 →
  (i < length (data (PTR_BAG b0)))%nat →
  ∃ v, ADDR_OBJ_get h obj i = Ret v ∧ data (PTR_BAG b0) !! i = Some v.
Proof.
  intros Hi Hf E0 Hlt.
  assert (bags h !! obj = Some b0) as Eh.
  { rewrite (ci_old _ _ _ Hi); [done| |done]. apply (rh_dom _ Hreg) in E0. lia. }
  destruct (lookup_lt_is_Some_2 (data (PTR_BAG b0)) i) as [v Ev]; [lia|].
  exists v. split; [|done]. by apply (ADDR_OBJ_get_lookup _ _ _ _ _ Eh).
Qed.

Section CopyLoops.
Variable COPY : Obj → bool → Heap → outcome (Obj * Heap).
Variable mut : bool.
Variable n : nat.
Hypothesis HCOPY : COPY_ok h0 mut COPY.
Hypothesis HRET : ∀ v h fwd,
  copy_inv h0 h fwd → copy_target h0 v →
  (base.size (bags h0) - base.size fwd < n)%nat → returns (COPY v mut h).
Variable obj copy : Obj.
Variable b0 : Bag.
Hypothesis E0 : bags h0 !! obj = Some b0.
Hypothesis Hms : mutable_structural h0 obj.

(** One slot: the subobject is copied and the copy stored. *)
Lemma copy_slot_returns (h : Heap) (fwd : gmap Z Z) (bc : Bag) (i : nat) (v : Obj) :
  copy_inv h0 h fwd → fwd !! obj = Some copy → bags h !! copy = Some bc →
  i ∈ child_slots (PTR_BAG b0) → data (PTR_BAG b0) !! i = Some v →
  (i < length (data (PTR_BAG bc)))%nat → copy_target h0 v →
  (base.size (bags h0) - base.size fwd < n)%nat →
  ∃ tmp h1 fwd1,
    COPY v mut h = Ret (tmp, h1)
    ∧ ADDR_OBJ_set h1 copy i tmp = Ret (put_bag h1 copy (set_word bc i tmp))
    ∧ copy_inv h0 (put_bag h1 copy (set_word bc i tmp)) fwd1
    ∧ fwd1 !! obj = Some copy
    ∧ (base.size (bags h0) - base.size fwd1 < n)%nat.
Proof.
  intros Hi Hf Ec Hslot Ev Hlt Hct Hn.
  destruct (HRET v h fwd Hi Hct Hn) as [[tmp h1] Hcp].
  destruct (HCOPY v h fwd tmp h1 Hi (copy_target_old _ Hct) Hcp)
    as (fwd' & (Hsub & Hi1 & Hb & Hkeep & _) & _).
  destruct (forwarded_bounds h0 Hreg h fwd obj copy Hi Hf) as (_ & Hc & _).
  assert (bags h1 !! copy = Some bc) as Ec1 by (by rewrite Hkeep by lia).
  pose proof (ADDR_OBJ_set_lookup h1 copy bc i tmp Ec1 Hlt) as Es.
  destruct (copy_slot h0 Hreg COPY mut HCOPY obj copy b0 E0 Hms h fwd bc i v tmp h1 _
              Hi Hf Ec Hslot Ev Hcp Es) as (fwd1 & (Hsub1 & Hi1' & _) & _).
  exists tmp, h1, fwd1. split; [done|]. split; [done|]. split; [done|].
  split; [by eapply lookup_weaken|]. apply map_subseteq_size in Hsub1. lia.
Qed.

Lemma CopyObjPosObj_loop_returns (idx : list nat) :
  ∀ (h : Heap) (fwd : gmap Z Z) (bc : Bag),
    copy_inv h0 h fwd → fwd !! obj = Some copy → bags h !! copy = Some bc →
    length (data (PTR_BAG bc)) = length (data (PTR_BAG b0)) →
    (∀ i, i ∈ idx → i ∈ child_slots (PTR_BAG b0)
                    ∧ (1 ≤ i < length (data (PTR_BAG b0)))%nat) →
    (base.size (bags h0) - base.size fwd < n)%nat →
    returns (CopyObjPosObj_loop COPY obj copy mut idx h).
Proof.
  induction idx as [|i idx IH]; intros h fwd bc Hi Hf Ec Hlen Hidx Hn; [by eexists|].
  cbn [CopyObjPosObj_loop].
  destruct (Hidx i) as [Hslot Hle]; [left|].
  destruct (marked_get h fwd obj copy b0 i Hi Hf E0 Hle) as (v & -> & Ev).
  rewrite bind_Ret_l.
  assert (∀ j, j ∈ idx → j ∈ child_slots (PTR_BAG b0)
                         ∧ (1 ≤ j < length (data (PTR_BAG b0)))%nat) as Hidx'.
  { intros j Hj. apply Hidx. by right. }
  destruct (decide (v = 0)) as [->|Hv].
  { rewrite bind_Ret_l. by eapply IH. }
  destruct (ch_children _ Hch obj b0 i v Hms E0 Hslot Ev) as [[-> _]|Hct]; [done|].
  destruct (copy_slot_returns h fwd bc i v Hi Hf Ec Hslot Ev ltac:(lia) Hct Hn)
    as (tmp & h1 & fwd1 & -> & Es & Hi1 & Hf1 & Hn1).
  rewrite bind_Ret_l. cbn iota beta. rewrite Es, bind_Ret_l.
  eapply (IH _ fwd1); [done|done|apply bags_put_bag_eq| |done|done].
  unfold set_word; simpl. by rewrite length_insert.
Qed.

Lemma CopyObjComObj_loop_returns (idx : list nat) :
  tnum (PTR_BAG b0) = T_COMOBJ →
  ∀ (h : Heap) (fwd : gmap Z Z) (bc : Bag),
    copy_inv h0 h fwd → fwd !! obj = Some copy → bags h !! copy = Some bc →
    length (data (PTR_BAG bc)) = length (data (PTR_BAG b0)) →
    (∀ i, i ∈ idx → (2 * i + 1)%nat ∈ child_slots (PTR_BAG b0)
                    ∧ (1 ≤ i)%nat ∧ (2 * i + 1 < length (data (PTR_BAG b0)))%nat) →
    (base.size (bags h0) - base.size fwd < n)%nat →
    returns (CopyObjComObj_loop COPY obj copy mut idx h).
Proof.
  intros Tc.
  induction idx as [|i idx IH]; intros h fwd bc Hi Hf Ec Hlen Hidx Hn; [by eexists|].
  cbn [CopyObjComObj_loop].
  unfold GET_RNAM_PREC, SET_RNAM_PREC, GET_ELM_PREC, SET_ELM_PREC.
  destruct (Hidx i) as (Hslot & Hle & Hlt); [left|].
  assert (∀ j, j ∈ idx → (2 * j + 1)%nat ∈ child_slots (PTR_BAG b0)
                         ∧ (1 ≤ j)%nat ∧ (2 * j + 1 < length (data (PTR_BAG b0)))%nat)
    as Hidx'.
  { intros j Hj. apply Hidx. by right. }
  destruct (marked_get h fwd obj copy b0 (2 * i) Hi Hf E0 ltac:(lia)) as (nm & -> & _).
  rewrite bind_Ret_l.
  rewrite (ADDR_OBJ_set_lookup h copy bc (2 * i) nm Ec) by lia. rewrite bind_Ret_l.
  set (bca := set_word bc (2 * i) nm).
  assert (loop_step h0 mut obj copy h fwd (put_bag h copy bca) fwd) as LS0.
  { eapply loop_step_write; [done|by apply loop_step_refl|done|exact Ec|done]. }
  pose proof LS0 as (_ & Hia & _).
  assert (length (data (PTR_BAG bca)) = length (data (PTR_BAG b0))) as Hlena.
  { unfold bca, set_word; simpl. by rewrite length_insert. }
  destruct (marked_get _ fwd obj copy b0 (2 * i + 1) Hia Hf E0 ltac:(lia))
    as (v & -> & Ev).
  rewrite bind_Ret_l.
  destruct (ch_children _ Hch obj b0 _ v Hms E0 Hslot Ev) as [[_ Tp]|Hct].
  { pose proof tnums_com_pos. congruence. }
  destruct (copy_slot_returns _ fwd bca _ v Hia Hf (bags_put_bag_eq _ _ _) Hslot Ev
              ltac:(lia) Hct Hn) as (tmp & h1 & fwd1 & -> & Es & Hi1 & Hf1 & Hn1).
  rewrite bind_Ret_l. cbn iota beta. rewrite Es, bind_Ret_l.
  eapply (IH _ fwd1); [done|done|apply bags_put_bag_eq| |done|done].
  unfold set_word; simpl. by rewrite length_insert.
Qed.

End CopyLoops.

(** The test of the three copy bodies, the allocation and the forwarding
    record go through for an object of a copyable heap. *)
Lemma body_opening_returns (mut with_len : bool)
    (rest : Obj → Heap → outcome (Obj * Heap))
    (obj : Obj) (h : Heap) (fwd : gmap Z Z) (b0 : Bag) :
  copy_inv h0 h fwd → is_immediate obj = false → bags h0 !! obj = Some b0 →
  fwd !! obj = None → structural_tnum (tnum (PTR_BAG b0)) →
  is_Some (data (PTR_BAG b0) !! 0%nat) →
  (with_len = true → tnum (PTR_BAG b0) = T_COMOBJ) →
  (∀ k copy h1 h2,
     data (PTR_BAG b0) !! 0%nat = Some k → KindIsMutable k = true →
     make_copy obj mut with_len h = Ret (copy, h1) →
     leave_forwarding obj copy h1 = Ret h2 → returns (rest copy h2)) →
  returns (m ← IS_MUTABLE_OBJ h obj;
           if negb m then Ret (obj, h) else
           c ← IS_COPYABLE_OBJ h obj;
           if negb c then ErrorQuit "Panic: encountered mutable, non-copyable object" else
           '(copy, h) ← make_copy obj mut with_len h;
           h ← leave_forwarding obj copy h;
           rest copy h).
Proof.
  intros Hi Him E0 Hn Hs [k Ek] Hwl Hrest.
  assert (obj < brk h0) as Hlt by (apply (rh_dom _ Hreg) in E0; lia).
  assert (bags h !! obj = Some b0) as Eh by (by rewrite (ci_old _ _ _ Hi)).
  destruct (ci_brk _ _ _ Hi) as [Hbrk Hal].
  rewrite (IS_MUTABLE_OBJ_kind _ _ _ _ Him Eh Hs Ek), bind_Ret_l.
  destruct (KindIsMutable k) eqn:Hk; cbn [negb]; [|by eexists].
  assert (mutable_structural h0 obj) as Hms by (split; [done|]; eauto 6).
  rewrite (IS_COPYABLE_OBJ_kind _ _ _ _ Him Eh Hs Ek), bind_Ret_l.
  rewrite (ch_copyable _ Hch obj k Hms) by (by exists b0). cbn [negb].
  destruct (ch_sized _ Hch obj b0 Hms E0) as [Hws Hsz]. unfold well_sized in Hws.
  assert (0 < length (data (PTR_BAG b0)))%nat as Hl0 by (by eapply lookup_lt_Some).
  destruct (make_copy_returns obj mut with_len h b0 k) as [[copy h1] Hmk];
    [done|done|lia|done|done|done|lia| |].
  { intros ->. destruct (ch_comobj _ Hch obj b0 Hms E0) as [_ Hc]; [by apply Hwl|]. lia. }
  rewrite Hmk, bind_Ret_l. cbn iota beta.
  destruct (make_copy_spec obj mut with_len h b0 k copy h1) as (bc & -> & -> & _);
    [done|done|lia|done|done|done|done|].
  destruct (leave_forwarding_returns obj (brk h) (put_bag (next_handle h) (brk h) bc) b0 k)
    as [h2 Hlf]; [done|by rewrite bags_put_bag_ne by lia|simpl; lia|done|].
  rewrite Hlf, bind_Ret_l. by eapply Hrest.
Qed.

Section CopyBodiesReturn.
Variable COPY : Obj → bool → Heap → outcome (Obj * Heap).
Variable mut : bool.
Variable n : nat.
Hypothesis HCOPY : COPY_ok h0 mut COPY.
Hypothesis HRET : ∀ v h fwd,
  copy_inv h0 h fwd → copy_target h0 v →
  (base.size (bags h0) - base.size fwd < n)%nat → returns (COPY v mut h).

Lemma CopyObjPosObj_returns (obj : Obj) (h : Heap) (fwd : gmap Z Z) (b0 : Bag) :
  copy_inv h0 h fwd → is_immediate obj = false → bags h0 !! obj = Some b0 →
  fwd !! obj = None → tnum (PTR_BAG b0) = T_POSOBJ →
  is_Some (data (PTR_BAG b0) !! 0%nat) →
  (base.size (bags h0) - base.size fwd < S n)%nat →
  returns (CopyObjPosObj COPY obj mut h).
Proof.
  intros Hi Him E0 Hn Ht H0w Hm.
  assert (structural_tnum (tnum (PTR_BAG b0))) as Hs by (by left).
  unfold CopyObjPosObj.
  apply (body_opening_returns mut false
           (λ copy h, sz ← SIZE_OBJ h obj;
                      h ← CopyObjPosObj_loop COPY obj copy mut
                            (seq 1 (Z.to_nat (sz / sizeof_Obj) - 1)) h;
                      Ret (copy, h)) obj h fwd b0); [done..|].
  intros k copy h1 h2 Ek Hk Hmk Hlf.
  assert (mutable_structural h0 obj) as Hms by (split; [done|]; eauto 6).
  destruct (mark_spec h0 Hreg mut false obj h fwd b0 k copy h1 h2 Hi Hms E0 Ek Hn Hmk Hlf)
    as (bc & -> & Hi2 & Hbrk & Hfr & Ec & _ & _ & Hlc & _).
  assert (<[obj := brk h]> fwd !! obj = Some (brk h)) as Hf2 by apply lookup_insert_eq.
  destruct (ch_sized _ Hch obj b0 Hms E0) as [Hws Hsz]. unfold well_sized in Hws.
  destruct (marked_bag _ _ _ _ _ _ Hi2 Hf2 E0) as [f Eb].
  rewrite (SIZE_OBJ_lookup _ _ _ Eb), bind_Ret_l. cbn [set_tnum set_word PTR_BAG size].
  destruct (CopyObjPosObj_loop_returns COPY mut n HCOPY HRET obj (brk h) b0 E0 Hms
              (seq 1 (Z.to_nat (size (PTR_BAG b0) / sizeof_Obj) - 1))
              h2 (<[obj := brk h]> fwd) bc) as [h3 ->];
    [done|done|done|congruence| |by eapply marked_one_more|by eexists].
  intros i Hi'. unfold child_slots. rewrite decide_True by done.
  split; [done|]. rewrite Hws. by apply words_of_slots.
Qed.

Lemma CopyObjComObj_returns (obj : Obj) (h : Heap) (fwd : gmap Z Z) (b0 : Bag) :
  copy_inv h0 h fwd → is_immediate obj = false → bags h0 !! obj = Some b0 →
  fwd !! obj = None → tnum (PTR_BAG b0) = T_COMOBJ →
  is_Some (data (PTR_BAG b0) !! 0%nat) →
  (base.size (bags h0) - base.size fwd < S n)%nat →
  returns (CopyObjComObj COPY obj mut h).
Proof.
  intros Hi Him E0 Hn Ht H0w Hm.
  assert (structural_tnum (tnum (PTR_BAG b0))) as Hs by (right; by left).
  assert (T_COMOBJ ≠ T_POSOBJ) as Hcp by (pose proof tnums_com_pos; lia).
  unfold CopyObjComObj.
  apply (body_opening_returns mut true
           (λ copy h, len ← LEN_PREC h obj;
                      h ← CopyObjComObj_loop COPY obj copy mut (seq 1 (Z.to_nat len)) h;
                      Ret (copy, h)) obj h fwd b0); [done..|].
  intros k copy h1 h2 Ek Hk Hmk Hlf.
  assert (mutable_structural h0 obj) as Hms by (split; [done|]; eauto 6).
  destruct (mark_spec h0 Hreg mut true obj h fwd b0 k copy h1 h2 Hi Hms E0 Ek Hn Hmk Hlf)
    as (bc & -> & Hi2 & Hbrk & Hfr & Ec & _ & _ & Hlc & _).
  assert (<[obj := brk h]> fwd !! obj = Some (brk h)) as Hf2 by apply lookup_insert_eq.
  destruct (ch_sized _ Hch obj b0 Hms E0) as [Hws Hsz]. unfold well_sized in Hws.
  destruct (ch_comobj _ Hch obj b0 Hms E0 Ht) as [Hlen0 Hroom].
  unfold LEN_PREC.
  destruct (marked_get h2 _ obj (brk h) b0 1 Hi2 Hf2 E0 ltac:(lia)) as (len & -> & Elen).
  rewrite bind_Ret_l. rewrite (list_lookup_total_correct _ _ _ Elen) in Hlen0, Hroom.
  destruct (CopyObjComObj_loop_returns COPY mut n HCOPY HRET obj (brk h) b0 E0 Hms
              (seq 1 (Z.to_nat len)) Ht h2 (<[obj := brk h]> fwd) bc) as [h3 ->];
    [done|done|done|congruence| |by eapply marked_one_more|by eexists].
  intros i Hi'. apply elem_of_seq in Hi'. unfold child_slots.
  rewrite decide_False by congruence. rewrite decide_True by done.
  rewrite (list_lookup_total_correct _ _ _ Elen).
  split; [|lia]. apply elem_of_map_seq. exists i. split; [done|]. apply elem_of_seq. lia.
Qed.

Lemma CopyObjDatObj_returns (obj : Obj) (h : Heap) (fwd : gmap Z Z) (b0 : Bag) :
  copy_inv h0 h fwd → is_immediate obj = false → bags h0 !! obj = Some b0 →
  fwd !! obj = None → tnum (PTR_BAG b0) = T_DATOBJ →
  is_Some (data (PTR_BAG b0) !! 0%nat) →
  returns (CopyObjDatObj obj mut h).
Proof.
  intros Hi Him E0 Hn Ht H0w.
  assert (structural_tnum (tnum (PTR_BAG b0))) as Hs by (right; by right).
  unfold CopyObjDatObj.
  apply (body_opening_returns mut false
           (λ copy h, sz ← SIZE_OBJ h obj;
                      let n := wrap64 (sz - sizeof_Obj + sizeof_Obj - 1) / sizeof_Obj in
                      h ← CopyObjDatObj_loop obj copy (seq 1 (Z.to_nat n)) h;
                      Ret (copy, h)) obj h fwd b0); [done..|].
  intros k copy h1 h2 Ek Hk Hmk Hlf.
  assert (mutable_structural h0 obj) as Hms by (split; [done|]; eauto 6).
  destruct (mark_spec h0 Hreg mut false obj h fwd b0 k copy h1 h2 Hi Hms E0 Ek Hn Hmk Hlf)
    as (bc & -> & Hi2 & Hbrk & Hfr & Ec & _ & _ & Hlc & _).
  assert (<[obj := brk h]> fwd !! obj = Some (brk h)) as Hf2 by apply lookup_insert_eq.
  destruct (ch_sized _ Hch obj b0 Hms E0) as [Hws Hsz]. unfold well_sized in Hws.
  destruct (marked_bag _ _ _ _ _ _ Hi2 Hf2 E0) as [f Eb].
  rewrite (SIZE_OBJ_lookup _ _ _ Eb), bind_Ret_l. cbn [set_tnum set_word PTR_BAG size].
  cbv zeta. rewrite CopyObjDatObj_loop_shallow.
  assert (obj ≠ brk h) as Hne.
  { destruct (ci_brk _ _ _ Hi). apply (rh_dom _ Hreg) in E0. lia. }
  edestruct (ShallowCopyObjDefault_loop_spec obj (brk h) _
               (seq 1 (Z.to_nat (wrap64 (size (PTR_BAG b0) - sizeof_Obj + sizeof_Obj - 1)
                                 / sizeof_Obj)))
               Hne h2 bc Eb Ec) as (bn' & -> & _); [|by eexists].
  intros i Hi'. apply elem_of_seq in Hi'.
  cbn [set_tnum set_word PTR_BAG data]. rewrite length_insert, Hlc, Hws.
  assert (i < nwords (size (PTR_BAG b0)))%nat; [|lia].
  revert Hi'. unfold nwords, wrap64, sizeof_Obj in *.
  rewrite Z.mod_small by lia.
  replace (size (PTR_BAG b0) + 8 - 1) with (size (PTR_BAG b0) - 8 + 8 - 1 + 1 * 8) by lia.
  rewrite Z.div_add by lia.
  pose proof (Z.div_pos (size (PTR_BAG b0) - 8 + 8 - 1) 8). lia.
Qed.

End CopyBodiesReturn.

(** [COPY_OBJ] returns on an object it has a body for when it has more
    fuel than there are unmarked objects. *)
Lemma COPY_OBJ_returns (mut : bool) (n : nat) :
  ∀ (obj : Obj) (h : Heap) (fwd : gmap Z Z),
    copy_inv h0 h fwd → copy_target h0 obj →
    (base.size (bags h0) - base.size fwd < n)%nat →
    returns (COPY_OBJ n obj mut h).
Proof.
  induction n as [|n IH]; intros obj h fwd Hi Hct Hm; [lia|].
  destruct (fwd !! obj) as [c|] eqn:Ef.
  { destruct (forwarded_reads h0 h obj c) as (_ & b0 & f & _ & Ht & Hs & Hf & Hcc);
      [by apply (ci_fwd _ _ _ Hi)|].
    rewrite (COPY_OBJ_marked n obj mut h _ f c Ht) by done. by eexists. }
  cbn [COPY_OBJ].
  destruct (is_immediate obj) eqn:Him.
  { destruct (TNUM_OBJ_immediate h obj Him) as (t & -> & Hc). rewrite bind_Ret_l.
    rewrite CopyObjFuncs_constant by done. by eexists. }
  destruct Hct as [?|(b & Eb & Hcase)]; [congruence|].
  assert (bags h !! obj = Some b) as Eh.
  { rewrite (ci_old _ _ _ Hi); [done| |done]. apply (rh_dom _ Hreg) in Eb. lia. }
  rewrite (TNUM_OBJ_bag _ _ _ Him Eh), bind_Ret_l.
  destruct Hcase as [Hc|(Hs & _ & H0w)].
  { rewrite CopyObjFuncs_constant by done. by eexists. }
  rewrite CopyObjFuncs_structural by done.
  destruct (decide (tnum (PTR_BAG b) = T_POSOBJ)) as [Ht|Hnp].
  { eapply CopyObjPosObj_returns; try done. apply COPY_OBJ_ok; done. }
  destruct (decide (tnum (PTR_BAG b) = T_COMOBJ)) as [Ht|Hnc].
  { eapply CopyObjComObj_returns; try done. apply COPY_OBJ_ok; done. }
  eapply CopyObjDatObj_returns; try done. by destruct Hs as [?|[?|?]].
Qed.

Section CleanLoops.
Variable CLEAN : Obj → Heap → outcome Heap.
Variable n : nat.
Hypothesis HCLEAN : CLEAN_ok h0 CLEAN.
Hypothesis HRET : ∀ v h fwd,
  copy_inv h0 h fwd → copy_target h0 v → (base.size fwd < n)%nat → returns (CLEAN v h).
Variable obj : Obj.
Variable b0 : Bag.
Hypothesis E0 : bags h0 !! obj = Some b0.
Hypothesis Hms : mutable_structural h0 obj.

Lemma CleanObjPosObjCopy_loop_returns (idx : list nat) :
  ∀ (h : Heap) (fwd : gmap Z Z),
    copy_inv h0 h fwd → fwd !! obj = None →
    (∀ i, i ∈ idx → i ∈ child_slots (PTR_BAG b0)
                    ∧ (i < length (data (PTR_BAG b0)))%nat) →
    (base.size fwd < n)%nat →
    returns (CleanObjPosObjCopy_loop CLEAN obj idx h).
Proof.
  induction idx as [|i idx IH]; intros h fwd Hi Hn Hidx Hm; [by eexists|].
  cbn [CleanObjPosObjCopy_loop].
  destruct (Hidx i) as [Hslot Hlt]; [left|].
  destruct (unmarked_get h fwd obj b0 i Hi Hn E0 Hlt) as (v & -> & Ev).
  rewrite bind_Ret_l.
  assert (∀ j, j ∈ idx → j ∈ child_slots (PTR_BAG b0)
                         ∧ (j < length (data (PTR_BAG b0)))%nat) as Hidx'
    by (intros j Hj; apply Hidx; by right).
  destruct (decide (v = 0)) as [->|Hv].
  { rewrite bind_Ret_l. by eapply IH. }
  destruct (ch_children _ Hch obj b0 i v Hms E0 Hslot Ev) as [[-> _]|Hct]; [done|].
  destruct (HRET v h fwd Hi Hct Hm) as [h1 E1]. rewrite E1, bind_Ret_l.
  destruct (HCLEAN v h fwd h1 Hi (copy_target_old _ Hct) E1)
    as (fwd1 & (Hsub1 & Hi1 & _) & _).
  eapply (IH h1 fwd1); [done|by eapply lookup_weaken_None|done|].
  apply map_subseteq_size in Hsub1. lia.
Qed.

Lemma CleanObjComObjCopy_loop_returns (idx : list nat) :
  tnum (PTR_BAG b0) = T_COMOBJ →
  ∀ (h : Heap) (fwd : gmap Z Z),
    copy_inv h0 h fwd → fwd !! obj = None →
    (∀ i, i ∈ idx → (2 * i + 1)%nat ∈ child_slots (PTR_BAG b0)
                    ∧ (2 * i + 1 < length (data (PTR_BAG b0)))%nat) →
    (base.size fwd < n)%nat →
    returns (CleanObjComObjCopy_loop CLEAN obj idx h).
Proof.
  intros Tc.
  induction idx as [|i idx IH]; intros h fwd Hi Hn Hidx Hm; [by eexists|].
  cbn [CleanObjComObjCopy_loop]. unfold GET_ELM_PREC.
  destruct (Hidx i) as [Hslot Hlt]; [left|].
  destruct (unmarked_get h fwd obj b0 _ Hi Hn E0 Hlt) as (v & -> & Ev).
  rewrite bind_Ret_l.
  assert (∀ j, j ∈ idx → (2 * j + 1)%nat ∈ child_slots (PTR_BAG b0)
                         ∧ (2 * j + 1 < length (data (PTR_BAG b0)))%nat) as Hidx'
    by (intros j Hj; apply Hidx; by right).
  destruct (ch_children _ Hch obj b0 _ v Hms E0 Hslot Ev) as [[_ Tp]|Hct].
  { pose proof tnums_com_pos. congruence. }
  destruct (HRET v h fwd Hi Hct Hm) as [h1 E1]. rewrite E1, bind_Ret_l.
  destruct (HCLEAN v h fwd h1 Hi (copy_target_old _ Hct) E1)
    as (fwd1 & (Hsub1 & Hi1 & _) & _).
  eapply (IH h1 fwd1); [done|by eapply lookup_weaken_None|done|].
  apply map_subseteq_size in Hsub1. lia.
Qed.

End CleanLoops.

(** [CLEAN_OBJ] returns when it has more fuel than there are marked
    objects. *)
Lemma CLEAN_OBJ_returns (n : nat) :
  ∀ (obj : Obj) (h : Heap) (fwd : gmap Z Z),
    copy_inv h0 h fwd → copy_target h0 obj → (base.size fwd < n)%nat →
    returns (CLEAN_OBJ n obj h).
Proof.
  induction n as [|n IH]; intros obj h fwd Hi Hct Hm; [lia|].
  cbn [CLEAN_OBJ].
  destruct (fwd !! obj) as [c|] eqn:Ef.
  - pose proof (ci_fwd _ _ _ Hi _ _ Ef) as Hfw.
    destruct (forwarded_reads h0 h obj c Hfw) as (Him & b0 & f & E0 & Ht & Hs & _).
    rewrite Ht, bind_Ret_l. rewrite CleanObjFuncs_copying by done.
    destruct (remove_forwarding_returns h0 h obj c Hfw) as [h1 Hrm].
    destruct (unmark_spec h0 Hreg h fwd obj c h1 Hi Ef Hrm) as (b & Eb & Hms & -> & Hi1).
    assert (b = b0) as -> by congruence.
    assert (delete obj fwd !! obj = None) as Hn1 by apply lookup_delete_eq.
    assert (base.size (delete obj fwd) < n)%nat as Hm1.
    { rewrite map_size_delete_Some by (by eexists).
      pose proof (map_size_ne_0_lookup_2 fwd obj ltac:(by eexists)). lia. }
    destruct (ch_sized _ Hch obj b0 Hms E0) as [Hws Hsz]. unfold well_sized in Hws.
    destruct (decide (tnum (PTR_BAG b0) = T_POSOBJ)) as [Tp|Hnp];
      [|destruct (decide (tnum (PTR_BAG b0) = T_COMOBJ)) as [Tc|Hnc]].
    + unfold CleanObjPosObjCopy. rewrite Hrm, bind_Ret_l.
      rewrite (SIZE_OBJ_lookup _ _ b0), bind_Ret_l by apply bags_put_bag_eq.
      eapply (CleanObjPosObjCopy_loop_returns (CLEAN_OBJ n) n (CLEAN_OBJ_ok h0 Hreg n) IH
                obj b0 E0 Hms); [exact Hi1|exact Hn1| |exact Hm1].
      intros i Hi'. unfold child_slots. rewrite decide_True by done.
      split; [done|]. rewrite Hws. apply words_of_slots in Hi'. lia.
    + unfold CleanObjComObjCopy. rewrite Hrm, bind_Ret_l. unfold LEN_PREC.
      destruct (ch_comobj _ Hch obj b0 Hms E0 Tc) as [Hlen0 Hroom].
      rewrite (ADDR_OBJ_get_total _ obj b0 1), bind_Ret_l;
        [|apply bags_put_bag_eq|lia].
      eapply (CleanObjComObjCopy_loop_returns (CLEAN_OBJ n) n (CLEAN_OBJ_ok h0 Hreg n) IH
                obj b0 E0 Hms); [done|exact Hi1|exact Hn1| |exact Hm1].
      intros i Hi'. apply elem_of_seq in Hi'. unfold child_slots.
      rewrite decide_False by done. rewrite decide_True by done.
      split; [|lia]. apply elem_of_map_seq. exists i. split; [done|].
      apply elem_of_seq. lia.
    + unfold CleanObjDatObjCopy. by exists (put_bag h obj b0).
  - destruct (is_immediate obj) eqn:Him.
    { destruct (TNUM_OBJ_immediate h obj Him) as (t & -> & Hc). rewrite bind_Ret_l.
      rewrite CleanObjFuncs_constant by done. by eexists. }
    destruct Hct as [?|(b & Eb & Hcase)]; [congruence|].
    assert (bags h !! obj = Some b) as Eh.
    { rewrite (ci_old _ _ _ Hi); [done| |done]. apply (rh_dom _ Hreg) in Eb. lia. }
    rewrite (TNUM_OBJ_bag _ _ _ Him Eh), bind_Ret_l.
    destruct Hcase as [Hc|(Hs & _)].
    { rewrite CleanObjFuncs_constant by done. by eexists. }
    rewrite CleanObjFuncs_structural by done.
    destruct (decide _); [by eexists|]. destruct (decide _); by eexists.
Qed.

(** Both passes of [CopyObj] return. *)
Lemma CopyObj_run_returns (fuel : nat) (obj : Obj) (mut : bool) (tl : ThreadLocal) :
  copy_target h0 obj → (base.size (bags h0) < fuel)%nat →
  ∃ new h', CopyObj fuel obj mut tl h0 = Ret (new, mkThreadLocal 0, h').
Proof.
  intros Hct Hm. unfold CopyObj.
  destruct (COPY_OBJ_returns mut fuel obj h0 ∅ (copy_inv_start h0 Hreg) Hct)
    as [[new h1] Hcp]; [lia|].
  rewrite Hcp, bind_Ret_l. cbn iota beta.
  destruct (COPY_OBJ_ok h0 Hreg mut fuel obj h0 ∅ new h1 (copy_inv_start h0 Hreg)
              (copy_target_old _ Hct) Hcp) as (fwd & (_ & Hi1 & _) & _).
  destruct (CLEAN_OBJ_returns fuel obj h1 fwd Hi1 Hct) as [h2 Hcl].
  { apply marked_count in Hi1. lia. }
  rewrite Hcl, bind_Ret_l. by exists new, h2.
Qed.

End CopyReturns.

Section CopyTotal.
Context `{Tnums} `{!TnumsOK} `{Kinds} `{Threads}.

(** X18.  [CopyObj] returns on a copyable heap.  Let [h0] be a heap between
    two top-level copies in which every mutable object of a structural kind
    is copyable, has the words its size asks for and, if it is a component
    object, room for the components it counts, and in which the slots that
    the copy bodies follow hold immediate values, bags with a constant or a
    structural tag, or, in a positional object, null.  Then the structural
    copy of such a value, mutable or immutable, raises no error and reads
    or writes nothing outside a bag, however the objects share and refer
    back to each other: with more fuel than the heap has bags [CopyObj]
    returns a result, and the session pointer is null afterwards. *)
Theorem CopyObj_returns (fuel : nat) (obj : Obj) (mut : bool) (tl : ThreadLocal)
    (h0 : Heap) :
  regular_heap h0 → copyable_heap h0 → copy_target h0 obj →
  (base.size (bags h0) < fuel)%nat →
  ∃ new h', CopyObj fuel obj mut tl h0 = Ret (new, mkThreadLocal 0, h').
Proof. intros Hreg Hch Hct Hm. by apply CopyObj_run_returns. Qed.

End CopyTotal.

(** ** The heap after a copy is a heap for the next copy *)

Section Closed.
Context `{Tnums} `{!TnumsOK} `{Kinds} `{Threads}.

Lemma known_mono (h h' : Heap) (c : Obj) :
  (∀ k, is_Some (bags h !! k) → is_Some (bags h' !! k)) → known h c → known h' c.
Proof. intros Hm [?|[?|?]]; [by left|by right; left|right; right; by apply Hm]. Qed.

Lemma put_bag_grows (h : Heap) (o : Obj) (b : Bag) (k : Obj) :
  is_Some (bags h !! k) → is_Some (bags (put_bag h o b) !! k).
Proof.
  intros Hk. rewrite bags_put_bag. destruct (decide (o = k)); [by eexists|done].
Qed.

Lemma closed_next_handle (lo : Z) (h : Heap) :
  closed_from lo h → closed_from lo (next_handle h).
Proof. intros Hc k b i c. apply Hc. Qed.

(** A bag put into the heap keeps it closed if its own slots are known. *)
Lemma closed_put (lo : Z) (h : Heap) (o : Obj) (b : Bag) :
  closed_from lo h →
  (lo ≤ o → structural_tnum (tnum (PTR_BAG b)) →
   ∀ i c, i ∈ child_slots (PTR_BAG b) → data (PTR_BAG b) !! i = Some c →
          known (put_bag h o b) c) →
  closed_from lo (put_bag h o b).
Proof.
  intros Hc Hb k b' i c Hlo E Hs Hi Ec. rewrite bags_put_bag in E.
  destruct (decide (o = k)) as [<-|Hne].
  - injection E as <-. by eapply Hb.
  - eapply known_mono; [apply put_bag_grows|]. by eapply Hc.
Qed.

Lemma child_slots_set_word (b : Bag) (i : nat) (v : Z) :
  (tnum (PTR_BAG b) = T_COMOBJ → i ≠ 1%nat) →
  child_slots (PTR_BAG (set_word b i v)) = child_slots (PTR_BAG b).
Proof.
  intros Hi. unfold child_slots, set_word; simpl.
  destruct (decide (tnum (PTR_BAG b) = T_POSOBJ)); [done|].
  destruct (decide (tnum (PTR_BAG b) = T_COMOBJ)) as [Tc|]; [|done].
  rewrite list_lookup_total_insert_ne; [done|]. by apply Hi.
Qed.

(** A word written into a bag keeps the heap closed if the word is known,
    or if the slot is not followed. *)
Lemma closed_set_word (lo : Z) (h : Heap) (o : Obj) (b : Bag) (i : nat) (v : Z) :
  closed_from lo h → bags h !! o = Some b →
  (tnum (PTR_BAG b) = T_COMOBJ → i ≠ 1%nat) →
  (i ∈ child_slots (PTR_BAG b) → known (put_bag h o (set_word b i v)) v) →
  closed_from lo (put_bag h o (set_word b i v)).
Proof.
  intros Hc E Hi Hv. apply closed_put; [done|]. intros Hlo Hs j c.
  rewrite child_slots_set_word by done. intros Hj Ec.
  unfold set_word in Ec; simpl in Ec.
  destruct (decide (i = j)) as [<-|Hne].
  - apply list_lookup_insert_Some in Ec as [(_ & <- & _)|[? _]]; [|done]. by apply Hv.
  - rewrite list_lookup_insert_ne in Ec by done.
    eapply known_mono; [apply put_bag_grows|]. by eapply (Hc o b j c).
Qed.

End Closed.

Section CopyClosed.
Context `{Tnums} `{!TnumsOK} `{Kinds} `{Threads}.
Variable h0 : Heap.
Hypothesis Hreg : regular_heap h0.

(** The bags of [h0] stay bags during the copy, and no bag takes an old
    handle that was free. *)
Lemma old_bag_stays (h : Heap) (fwd : gmap Z Z) (c : Obj) :
  copy_inv h0 h fwd → is_Some (bags h0 !! c) → is_Some (bags h !! c).
Proof.
  intros Hi [b0 E0]. assert (c < brk h0) by (apply (rh_dom _ Hreg) in E0; lia).
  destruct (fwd !! c) as [w|] eqn:Ef.
  - destruct (marked_bag _ _ _ _ _ _ Hi Ef E0) as [f Eb]. by eexists.
  - rewrite (ci_old _ _ _ Hi) by done. by eexists.
Qed.

Lemma old_bag_was (h : Heap) (fwd : gmap Z Z) (c : Obj) :
  copy_inv h0 h fwd → c < brk h0 → is_Some (bags h !! c) → is_Some (bags h0 !! c).
Proof.
  intros Hi Hc Hb. destruct (fwd !! c) as [w|] eqn:Ef.
  - destruct (ci_fwd _ _ _ Hi _ _ Ef) as (b0 & ? & ? & ? & E0 & _). by eexists.
  - by rewrite <- (ci_old _ _ _ Hi) by done.
Qed.

(** What [COPY_OBJ] returns for a known word is a known word. *)
Lemma copied_known (h : Heap) (fwd : gmap Z Z) (v w : Obj) :
  copy_inv h0 h fwd → copied_to h0 fwd v w → known h0 v → known h w.
Proof.
  intros Hi [Ef|[_ ->]] Hv.
  - destruct (ci_fwd _ _ _ Hi _ _ Ef) as (?&?&?&bc&_&_&_&_&_&_&_&_&_&Ec&_).
    right; right. by eexists.
  - eapply known_mono; [|exact Hv]. intros k. by apply (old_bag_stays h fwd).
Qed.

Lemma closed_start : closed_from (brk h0) h0.
Proof. intros k b i c Hlo E. apply (rh_dom _ Hreg) in E. lia. Qed.

(** Marking an object keeps the heap closed: the copy is cleared, but for
    its kind and the number of its components. *)
Lemma closed_mark (mut with_len : bool) (obj : Obj) (h : Heap) (fwd : gmap Z Z)
    (b0 : Bag) (k : Z) (copy : Obj) (h1 h2 : Heap) :
  copy_inv h0 h fwd → is_immediate obj = false → bags h0 !! obj = Some b0 →
  structural_tnum (tnum (PTR_BAG b0)) → data (PTR_BAG b0) !! 0%nat = Some k →
  fwd !! obj = None → (tnum (PTR_BAG b0) = T_POSOBJ → with_len = false) →
  make_copy obj mut with_len h = Ret (copy, h1) →
  leave_forwarding obj copy h1 = Ret h2 →
  closed_from (brk h0) h → closed_from (brk h0) h2.
Proof.
  intros Hi Him E0 Hs Ek Hn Hwl Hmk Hlf Hc.
  assert (obj < brk h0) as Hlt by (apply (rh_dom _ Hreg) in E0; lia).
  assert (bags h !! obj = Some b0) as Eh by (by rewrite (ci_old _ _ _ Hi)).
  destruct (ci_brk _ _ _ Hi) as [Hbrk Hal].
  destruct (make_copy_spec obj mut with_len h b0 k copy h1)
    as (bc & -> & -> & Tc & Sc & Lc & _ & _ & Zc); [done|done|lia|done|done|done|done|].
  destruct (leave_forwarding_spec obj (brk h) (put_bag (next_handle h) (brk h) bc) b0 k h2
              Him) as (bf & -> & Tf & _);
    [by rewrite bags_put_bag_ne by lia|simpl; lia|done|done|].
  apply closed_put; [|intros; lia].
  apply closed_put; [|intros _ Hsf; rewrite Tf in Hsf; by destruct plist_real].
  apply closed_next_handle. apply closed_put; [by apply closed_next_handle|].
  intros _ _ i c Hslot Ec. left.
  assert (i < nwords (size (PTR_BAG b0)))%nat as Hlt' by (rewrite <- Lc; by eapply lookup_lt_Some).
  assert ((if with_len then 2 else 1) ≤ i)%nat as Hle.
  { unfold child_slots in Hslot. rewrite Tc in Hslot.
    destruct (decide (tnum (PTR_BAG b0) = T_POSOBJ)) as [Tp|_].
    - rewrite (Hwl Tp). apply elem_of_seq in Hslot. lia.
    - destruct (decide (tnum (PTR_BAG b0) = T_COMOBJ)); [|by apply elem_of_nil in Hslot].
      apply elem_of_map_seq in Hslot as (j & -> & Hj). apply elem_of_seq in Hj.
      destruct with_len; lia. }
  rewrite Zc in Ec by lia. by injection Ec.
Qed.

Section CopyLoopsClosed.
Variable COPY : Obj → bool → Heap → outcome (Obj * Heap).
Variable mut : bool.
Hypothesis HCOPY : COPY_ok h0 mut COPY.
Hypothesis HCLOSED : ∀ v h fwd new h',
  copy_inv h0 h fwd → old_value h0 v → closed_from (brk h0) h →
  COPY v mut h = Ret (new, h') → closed_from (brk h0) h'.
Variable obj copy : Obj.
Variable b0 : Bag.
Hypothesis E0 : bags h0 !! obj = Some b0.
Hypothesis Hms : mutable_structural h0 obj.

(** One slot of the copy filled with the copy of a subobject. *)
Lemma closed_slot (h : Heap) (fwd : gmap Z Z) (bc : Bag) (i : nat) (v tmp : Obj)
    (h1 h2 : Heap) :
  copy_inv h0 h fwd → fwd !! obj = Some copy → bags h !! copy = Some bc →
  i ∈ child_slots (PTR_BAG b0) → data (PTR_BAG b0) !! i = Some v →
  (tnum (PTR_BAG bc) = T_COMOBJ → i ≠ 1%nat) →
  closed_from (brk h0) h →
  COPY v mut h = Ret (tmp, h1) → ADDR_OBJ_set h1 copy i tmp = Ret h2 →
  ∃ fwd1, copy_inv h0 h2 fwd1 ∧ fwd1 !! obj = Some copy
        ∧ h2 = put_bag h1 copy (set_word bc i tmp)
        ∧ closed_from (brk h0) h2.
Proof.
  intros Hi Hf Ec Hslot Ev Hne Hc Hcp E2.
  assert (child h0 obj v) as Hch by (by exists i, b0).
  pose proof (child_old h0 Hreg obj v Hms Hch) as Hold.
  destruct (HCOPY v h fwd tmp h1 Hi Hold Hcp) as (fwd' & (_ & _ & _ & Hkeep & _) & _).
  destruct (forwarded_bounds h0 Hreg h fwd obj copy Hi Hf) as (_ & Hcb & _).
  assert (bags h1 !! copy = Some bc) as Ec1 by (by rewrite Hkeep by lia).
  destruct (copy_slot h0 Hreg COPY mut HCOPY obj copy b0 E0 Hms h fwd bc i v tmp h1 h2
              Hi Hf Ec Hslot Ev Hcp E2) as (fwd1 & (Hsub1 & Hi1 & _) & _ & -> & Hto).
  exists fwd1. split; [done|]. split; [by eapply lookup_weaken|]. split; [done|].
  apply closed_set_word; [exact (HCLOSED v h fwd tmp h1 Hi Hold Hc Hcp)|done|done|].
  intros _. eapply copied_known; [exact Hi1|exact Hto|].
  by apply (rh_closed _ Hreg obj).
Qed.

Lemma closed_CopyObjPosObj_loop (idx : list nat) :
  ∀ (h : Heap) (fwd : gmap Z Z) (bc : Bag) (h' : Heap),
    copy_inv h0 h fwd → fwd !! obj = Some copy → bags h !! copy = Some bc →
    tnum (PTR_BAG bc) ≠ T_COMOBJ →
    (∀ i, i ∈ idx → i ∈ child_slots (PTR_BAG b0) ∧ (1 ≤ i)%nat) →
    closed_from (brk h0) h →
    CopyObjPosObj_loop COPY obj copy mut idx h = Ret h' →
    closed_from (brk h0) h'.
Proof.
  induction idx as [|i idx IH]; intros h fwd bc h' Hi Hf Ec Tc Hidx Hc Hl.
  { by injection Hl as <-. }
  cbn [CopyObjPosObj_loop] in Hl. bind_inv Hl as v Ev.
  destruct (Hidx i) as [Hslot Hle]; [left|].
  apply (marked_read _ _ _ _ _ _ _ _ Hi Hf E0 Hle) in Ev.
  assert (∀ j, j ∈ idx → j ∈ child_slots (PTR_BAG b0) ∧ (1 ≤ j)%nat) as Hidx'.
  { intros j Hj. apply Hidx. by right. }
  bind_inv Hl as h2 E2. destruct (decide (v = 0)) as [->|Hv].
  { injection E2 as <-. by eapply IH. }
  bind_inv E2 as p Hcp. destruct p as [tmp h1].
  destruct (closed_slot h fwd bc i v tmp h1 h2 Hi Hf Ec Hslot Ev ltac:(done) Hc Hcp E2)
    as (fwd1 & Hi1 & Hf1 & -> & Hc2).
  eapply (IH _ fwd1); [done|done|apply bags_put_bag_eq|done|done|done|done].
Qed.

Lemma closed_CopyObjComObj_loop (idx : list nat) :
  ∀ (h : Heap) (fwd : gmap Z Z) (bc : Bag) (h' : Heap),
    copy_inv h0 h fwd → fwd !! obj = Some copy → bags h !! copy = Some bc →
    tnum (PTR_BAG bc) = T_COMOBJ →
    (∀ i, i ∈ idx → (2 * i + 1)%nat ∈ child_slots (PTR_BAG b0) ∧ (1 ≤ i)%nat) →
    closed_from (brk h0) h →
    CopyObjComObj_loop COPY obj copy mut idx h = Ret h' →
    closed_from (brk h0) h'.
Proof.
  induction idx as [|i idx IH]; intros h fwd bc h' Hi Hf Ec Tc Hidx Hc Hl.
  { by injection Hl as <-. }
  cbn [CopyObjComObj_loop] in Hl.
  unfold GET_RNAM_PREC, SET_RNAM_PREC, GET_ELM_PREC, SET_ELM_PREC in Hl.
  destruct (Hidx i) as [Hslot Hle]; [left|].
  assert (∀ j, j ∈ idx → (2 * j + 1)%nat ∈ child_slots (PTR_BAG b0) ∧ (1 ≤ j)%nat)
    as Hidx'.
  { intros j Hj. apply Hidx. by right. }
  bind_inv Hl as nm En. bind_inv Hl as ha Ea.
  destruct (ADDR_OBJ_set_inv _ _ _ _ _ _ Ec Ea) as [Hlt0 ->].
  set (bca := set_word bc (2 * i) nm) in *.
  assert (loop_step h0 mut obj copy h fwd (put_bag h copy bca) fwd) as LS0.
  { eapply loop_step_write; [done|by apply loop_step_refl|done|exact Ec|done]. }
  pose proof LS0 as (_ & Hia & _).
  assert (closed_from (brk h0) (put_bag h copy bca)) as Hca.
  { apply closed_set_word; [done|done|lia|]. intros Hin. exfalso.
    unfold child_slots in Hin. pose proof tnums_com_pos.
    rewrite decide_False, decide_True in Hin by congruence.
    apply elem_of_map_seq in Hin as (j & Hj & _). lia. }
  bind_inv Hl as v Ev.
  apply (marked_read _ _ _ _ _ _ _ _ Hia Hf E0) in Ev; [|lia].
  bind_inv Hl as p Hcp. destruct p as [tmp h1]. bind_inv Hl as h2 E2.
  destruct (closed_slot _ fwd bca _ v tmp h1 h2 Hia Hf (bags_put_bag_eq _ _ _) Hslot Ev
              ltac:(lia) Hca Hcp E2) as (fwd1 & Hi1 & Hf1 & -> & Hc2).
  eapply (IH _ fwd1); [done|done|apply bags_put_bag_eq|done|done|done|done].
Qed.

End CopyLoopsClosed.

(** The raw words of a data object are not followed. *)
Lemma closed_CopyObjDatObj_loop (obj copy : Obj) (idx : list nat) :
  ∀ (h : Heap) (bc : Bag) (h' : Heap),
    bags h !! copy = Some bc → tnum (PTR_BAG bc) = T_DATOBJ →
    closed_from (brk h0) h →
    CopyObjDatObj_loop obj copy idx h = Ret h' → closed_from (brk h0) h'.
Proof.
  induction idx as [|i idx IH]; intros h bc h' Ec Tc Hc Hl.
  { by injection Hl as <-. }
  cbn [CopyObjDatObj_loop] in Hl. bind_inv Hl as w Ew. bind_inv Hl as h1 E1.
  destruct (ADDR_OBJ_set_inv _ _ _ _ _ _ Ec E1) as [_ ->].
  eapply (IH _ (set_word bc i w)); [apply bags_put_bag_eq|done| |done].
  apply closed_put; [done|]. intros _ _ j c Hj. exfalso.
  unfold child_slots, set_word in Hj; simpl in Hj.
  pose proof tnums_pos_dat. pose proof tnums_com_dat.
  rewrite !decide_False in Hj by congruence. by apply elem_of_nil in Hj.
Qed.

Section CopyBodiesClosed.
Variable COPY : Obj → bool → Heap → outcome (Obj * Heap).
Variable mut : bool.
Hypothesis HCOPY : COPY_ok h0 mut COPY.
Hypothesis HCLOSED : ∀ v h fwd new h',
  copy_inv h0 h fwd → old_value h0 v → closed_from (brk h0) h →
  COPY v mut h = Ret (new, h') → closed_from (brk h0) h'.

Lemma closed_CopyObjPosObj (obj : Obj) (h : Heap) (fwd : gmap Z Z) (b0 : Bag)
    (new : Obj) (h' : Heap) :
  copy_inv h0 h fwd → is_immediate obj = false → bags h0 !! obj = Some b0 →
  fwd !! obj = None → tnum (PTR_BAG b0) = T_POSOBJ → closed_from (brk h0) h →
  CopyObjPosObj COPY obj mut h = Ret (new, h') → closed_from (brk h0) h'.
Proof.
  intros Hi Him E0 Hn Ht Hc Hb.
  assert (obj < brk h0) as Hlt by (apply (rh_dom _ Hreg) in E0; lia).
  assert (bags h !! obj = Some b0) as Eh by (by rewrite (ci_old _ _ _ Hi)).
  assert (structural_tnum (tnum (PTR_BAG b0))) as Hs by (by left).
  unfold CopyObjPosObj in Hb.
  apply (body_opening mut false
           (λ copy h, sz ← SIZE_OBJ h obj;
                      h ← CopyObjPosObj_loop COPY obj copy mut
                            (seq 1 (Z.to_nat (sz / sizeof_Obj) - 1)) h;
                      Ret (copy, h)) obj h b0) in Hb; [|done..].
  destruct Hb as (k & Ek & [(Hk & -> & ->)|(Hk & copy & h1 & h2 & Hmk & Hlf & Hrest)]);
    [done|].
  assert (mutable_structural h0 obj) as Hms by (split; [done|]; eauto 6).
  pose proof (closed_mark mut false obj h fwd b0 k copy h1 h2 Hi Him E0 Hs Ek Hn
                ltac:(done) Hmk Hlf Hc) as Hc2.
  destruct (mark_spec h0 Hreg mut false obj h fwd b0 k copy h1 h2 Hi Hms E0 Ek Hn Hmk Hlf)
    as (bc & -> & Hi2 & Hbrk & Hfr & Ec & Tc & _).
  assert (<[obj := brk h]> fwd !! obj = Some (brk h)) as Hf2 by apply lookup_insert_eq.
  bind_inv Hrest as sz Esz. apply (marked_size _ _ _ _ _ _ _ Hi2 Hf2 E0) in Esz as ->.
  bind_inv Hrest as hl Hl. injection Hrest as <- <-.
  eapply (closed_CopyObjPosObj_loop COPY mut HCOPY HCLOSED obj (brk h) b0 E0 Hms _
            h2 _ bc); [exact Hi2|exact Hf2|exact Ec| | |exact Hc2|exact Hl].
  - pose proof tnums_com_pos. congruence.
  - intros i Hi'. unfold child_slots. rewrite decide_True by done.
    split; [done|]. by apply words_of_slots in Hi' as [? _].
Qed.

Lemma closed_CopyObjComObj (obj : Obj) (h : Heap) (fwd : gmap Z Z) (b0 : Bag)
    (new : Obj) (h' : Heap) :
  copy_inv h0 h fwd → is_immediate obj = false → bags h0 !! obj = Some b0 →
  fwd !! obj = None → tnum (PTR_BAG b0) = T_COMOBJ → closed_from (brk h0) h →
  CopyObjComObj COPY obj mut h = Ret (new, h') → closed_from (brk h0) h'.
Proof.
  intros Hi Him E0 Hn Ht Hc Hb.
  assert (obj < brk h0) as Hlt by (apply (rh_dom _ Hreg) in E0; lia).
  assert (bags h !! obj = Some b0) as Eh by (by rewrite (ci_old _ _ _ Hi)).
  assert (structural_tnum (tnum (PTR_BAG b0))) as Hs by (right; by left).
  assert (T_COMOBJ ≠ T_POSOBJ) as Hcp by (pose proof tnums_com_pos; lia).
  unfold CopyObjComObj in Hb.
  apply (body_opening mut true
           (λ copy h, len ← LEN_PREC h obj;
                      h ← CopyObjComObj_loop COPY obj copy mut (seq 1 (Z.to_nat len)) h;
                      Ret (copy, h)) obj h b0) in Hb; [|done..].
  destruct Hb as (k & Ek & [(Hk & -> & ->)|(Hk & copy & h1 & h2 & Hmk & Hlf & Hrest)]);
    [done|].
  assert (mutable_structural h0 obj) as Hms by (split; [done|]; eauto 6).
  pose proof (closed_mark mut true obj h fwd b0 k copy h1 h2 Hi Him E0 Hs Ek Hn
                ltac:(congruence) Hmk Hlf Hc) as Hc2.
  destruct (mark_spec h0 Hreg mut true obj h fwd b0 k copy h1 h2 Hi Hms E0 Ek Hn Hmk Hlf)
    as (bc & -> & Hi2 & Hbrk & Hfr & Ec & Tc & _).
  assert (<[obj := brk h]> fwd !! obj = Some (brk h)) as Hf2 by apply lookup_insert_eq.
  bind_inv Hrest as len Elen. unfold LEN_PREC in Elen.
  apply (marked_read _ _ _ _ _ _ _ _ Hi2 Hf2 E0) in Elen; [|lia].
  bind_inv Hrest as hl Hl. injection Hrest as <- <-.
  eapply (closed_CopyObjComObj_loop COPY mut HCOPY HCLOSED obj (brk h) b0 E0 Hms _
            h2 _ bc); [exact Hi2|exact Hf2|exact Ec|congruence| |exact Hc2|exact Hl].
  intros i Hi'. unfold child_slots. rewrite decide_False by congruence.
  rewrite decide_True by done. rewrite (list_lookup_total_correct _ _ _ Elen).
  split; [|apply elem_of_seq in Hi'; lia]. apply elem_of_map_seq. eauto.
Qed.

Lemma closed_CopyObjDatObj (obj : Obj) (h : Heap) (fwd : gmap Z Z) (b0 : Bag)
    (new : Obj) (h' : Heap) :
  copy_inv h0 h fwd → is_immediate obj = false → bags h0 !! obj = Some b0 →
  fwd !! obj = None → tnum (PTR_BAG b0) = T_DATOBJ → closed_from (brk h0) h →
  CopyObjDatObj obj mut h = Ret (new, h') → closed_from (brk h0) h'.
Proof.
  intros Hi Him E0 Hn Ht Hc Hb.
  assert (obj < brk h0) as Hlt by (apply (rh_dom _ Hreg) in E0; lia).
  assert (bags h !! obj = Some b0) as Eh by (by rewrite (ci_old _ _ _ Hi)).
  assert (structural_tnum (tnum (PTR_BAG b0))) as Hs by (right; by right).
  assert (T_DATOBJ ≠ T_POSOBJ) as Hdp by (pose proof tnums_pos_dat; lia).
  unfold CopyObjDatObj in Hb.
  apply (body_opening mut false
           (λ copy h, sz ← SIZE_OBJ h obj;
                      let n := wrap64 (sz - sizeof_Obj + sizeof_Obj - 1) / sizeof_Obj in
                      h ← CopyObjDatObj_loop obj copy (seq 1 (Z.to_nat n)) h;
                      Ret (copy, h)) obj h b0) in Hb; [|done..].
  destruct Hb as (k & Ek & [(Hk & -> & ->)|(Hk & copy & h1 & h2 & Hmk & Hlf & Hrest)]);
    [done|].
  assert (mutable_structural h0 obj) as Hms by (split; [done|]; eauto 6).
  pose proof (closed_mark mut false obj h fwd b0 k copy h1 h2 Hi Him E0 Hs Ek Hn
                ltac:(done) Hmk Hlf Hc) as Hc2.
  destruct (mark_spec h0 Hreg mut false obj h fwd b0 k copy h1 h2 Hi Hms E0 Ek Hn Hmk Hlf)
    as (bc & -> & Hi2 & Hbrk & Hfr & Ec & Tc & _).
  bind_inv Hrest as sz Esz. cbv zeta in Hrest.
  bind_inv Hrest as hl Hl. injection Hrest as <- <-.
  eapply (closed_CopyObjDatObj_loop obj (brk h) _ h2 bc); [exact Ec|congruence|exact Hc2|].
  exact Hl.
Qed.

End CopyBodiesClosed.

(** [COPY_OBJ] keeps the new part of the heap closed. *)
Lemma closed_COPY_OBJ (mut : bool) (fuel : nat) :
  ∀ (obj : Obj) (h : Heap) (fwd : gmap Z Z) (new : Obj) (h' : Heap),
    copy_inv h0 h fwd → old_value h0 obj → closed_from (brk h0) h →
    COPY_OBJ fuel obj mut h = Ret (new, h') → closed_from (brk h0) h'.
Proof.
  induction fuel as [|fuel IH]; intros obj h fwd new h' Hi Hold Hc Hcp; [done|].
  destruct (fwd !! obj) as [c|] eqn:Ef.
  { destruct (forwarded_reads h0 h obj c) as (_ & b0 & f & _ & Ht & Hs & Hf & Hcc);
      [by apply (ci_fwd _ _ _ Hi)|].
    rewrite (COPY_OBJ_marked fuel obj mut h _ f c Ht) in Hcp by done.
    by injection Hcp as _ <-. }
  cbn [COPY_OBJ] in Hcp. bind_inv Hcp as t Et.
  apply TNUM_OBJ_Ret in Et as [[Him Hct]|[Him (b & Eb & <-)]].
  { rewrite CopyObjFuncs_constant in Hcp by done. by injection Hcp as _ <-. }
  destruct Hold as [Hlt|Him']; [|congruence].
  rewrite (ci_old _ _ _ Hi) in Eb by done.
  assert (tnum (PTR_BAG b) ≤ LAST_REAL_TNUM) as Hreal by (by eapply (rh_tags _ Hreg)).
  destruct (CopyObjFuncs (tnum (PTR_BAG b))) as [fn|] eqn:Efn; [|done].
  destruct (CopyObjFuncs_real _ _ Hreal Efn) as [->|[[-> Hct]|Hs]]; [done| |].
  { by injection Hcp as _ <-. }
  rewrite CopyObjFuncs_structural in Efn by done. injection Efn as <-.
  destruct (decide (tnum (PTR_BAG b) = T_POSOBJ)) as [Ht|Hnp].
  { eapply (closed_CopyObjPosObj (COPY_OBJ fuel) mut (COPY_OBJ_ok h0 Hreg mut fuel) IH);
      done. }
  destruct (decide (tnum (PTR_BAG b) = T_COMOBJ)) as [Ht|Hnc].
  { eapply (closed_CopyObjComObj (COPY_OBJ fuel) mut (COPY_OBJ_ok h0 Hreg mut fuel) IH);
      done. }
  eapply (closed_CopyObjDatObj mut); try done. by destruct Hs as [?|[?|?]].
Qed.

(** Cleaning touches no new bag and frees no handle. *)
Lemma known_clean_step (h : Heap) (fwd : gmap Z Z) (h' : Heap) (fwd' : gmap Z Z) (c : Obj) :
  copy_inv h0 h fwd → clean_step h0 h fwd h' fwd' → known h c → known h' c.
Proof.
  intros Hi (_ & Hi' & _ & Hfr & _). apply known_mono. intros k Hk.
  destruct (decide (brk h0 ≤ k)) as [Hlo|Hlo]; [by rewrite Hfr|].
  apply (old_bag_stays h' fwd' k Hi'). apply (old_bag_was h fwd k Hi); [lia|done].
Qed.

Lemma closed_clean_step (h : Heap) (fwd : gmap Z Z) (h' : Heap) (fwd' : gmap Z Z) :
  copy_inv h0 h fwd → clean_step h0 h fwd h' fwd' →
  closed_from (brk h0) h → closed_from (brk h0) h'.
Proof.
  intros Hi CS Hc k b i c Hlo E Hs Hslot Ec.
  pose proof CS as (_ & _ & _ & Hfr & _). rewrite Hfr in E by done.
  eapply known_clean_step; [exact Hi|exact CS|]. by eapply Hc.
Qed.

(** The heap that [CopyObj] returns is regular, and the result is a word
    of it. *)
Lemma CopyObj_run_regular (fuel : nat) (obj : Obj) (mut : bool) (tl : ThreadLocal)
    (new : Obj) (tl' : ThreadLocal) (h' : Heap) :
  CopyObj fuel obj mut tl h0 = Ret (new, tl', h') →
  regular_heap h' ∧ known h' new ∧ brk h0 ≤ brk h'.
Proof.
  intros Hrun.
  destruct (CopyObj_run h0 Hreg fuel obj mut tl new tl' h' Hrun)
    as (fwd & h1 & _ & Hstep & Hto & CS).
  pose proof Hstep as (_ & Hi1 & _). pose proof CS as (_ & Hi' & _).
  unfold CopyObj in Hrun. bind_inv Hrun as p Hcp. destruct p as [new' h1'].
  bind_inv Hrun as h2 Hcl. injection Hrun as -> _ ->.
  assert (known h0 obj ∧ old_value h0 obj) as [Hko Hold].
  { destruct fuel as [|fuel]; [done|]. cbn [COPY_OBJ] in Hcp. bind_inv Hcp as t Et.
    apply TNUM_OBJ_Ret in Et as [[Him _]|[_ (b & Eb & _)]].
    - split; [right; by left|by right].
    - split; [right; right; by eexists|left]. apply (rh_dom _ Hreg) in Eb. lia. }
  assert (closed_from (brk h0) h') as Hc.
  { destruct (COPY_OBJ_ok h0 Hreg mut fuel obj h0 ∅ new h1' (copy_inv_start h0 Hreg)
                Hold Hcp) as (fwda & (_ & Hia & _) & _).
    destruct (CLEAN_OBJ_ok h0 Hreg fuel obj h1' fwda h' Hia Hold Hcl) as (fwdb & CSa & _).
    eapply closed_clean_step; [exact Hia|exact CSa|].
    eapply closed_COPY_OBJ; [apply (copy_inv_start h0 Hreg)|done|apply closed_start|done]. }
  destruct (ci_brk _ _ _ Hi') as [Hbrk Hal]. destruct (rh_brk _ Hreg) as [Hpos _].
  assert (∀ k, k < brk h0 → bags h' !! k = bags h0 !! k) as Hsame.
  { intros k Hk. by apply (ci_old _ _ _ Hi'). }
  split; [|split; [|done]].
  - split.
    + split; [lia|done].
    + intros k b E. split; [|by eapply (ci_dom _ _ _ Hi')].
      destruct (decide (k < brk h0)) as [Hk|Hk]; [|lia].
      rewrite Hsame in E by done. apply (rh_dom _ Hreg) in E. lia.
    + intros k b E. destruct (decide (k < brk h0)) as [Hk|Hk].
      * rewrite Hsame in E by done. by eapply (rh_tags _ Hreg).
      * destruct (ci_new _ _ _ Hi' k b) as [->|Hs]; [lia|done|by destruct plist_real|].
        pose proof tnums_comobj_ext. pose proof tnums_posobj_ext.
        pose proof tnums_datobj_ext. pose proof tnums_real_last.
        unfold structural_tnum in Hs. lia.
    + intros x c Hms (i & b & Eb & Hslot & Ec).
      destruct (decide (x < brk h0)) as [Hx|Hx].
      * rewrite Hsame in Eb by done.
        assert (known h0 c) as Hk.
        { apply (rh_closed _ Hreg x); [|by exists i, b].
          eapply mutable_structural_ext; [|exact Hms]. by apply Hsame. }
        eapply known_mono; [|exact Hk]. intros k. by apply (old_bag_stays h' ∅).
      * destruct Hms as (_ & b' & k & Eb' & Hs & _).
        assert (b' = b) as -> by congruence.
        apply (Hc x b i c); [lia|done..].
  - eapply known_clean_step; [exact Hi1|exact CS|].
    exact (copied_known h1 fwd obj new Hi1 Hto Hko).
Qed.

End CopyClosed.

Section CopyRegular.
Context `{Tnums} `{!TnumsOK} `{Kinds} `{Threads}.

(** X19.  The heap that [CopyObj] returns is a heap for the next copy.  If
    [CopyObj] returns on a heap between two top-level copies, then the heap
    it leaves is such a heap again: the next free handle is a positive
    multiple of 4 and not below the old one, every bag lies below it, no
    tag is beyond [LAST_REAL_TNUM], and every slot that the copy bodies
    follow in a mutable structural object, old or new, holds null, an
    immediate value or the handle of a bag.  The result of the call is
    itself an immediate value or the handle of a bag of that heap.  So the
    statements about one copy hold for every copy of a sequence. *)
Theorem CopyObj_keeps_regular (fuel : nat) (obj : Obj) (mut : bool) (tl : ThreadLocal)
    (h0 : Heap) (new : Obj) (tl' : ThreadLocal) (h' : Heap) :
  regular_heap h0 → CopyObj fuel obj mut tl h0 = Ret (new, tl', h') →
  regular_heap h' ∧ known h' new ∧ brk h0 ≤ brk h'.
Proof. intros Hreg Hrun. by eapply CopyObj_run_regular. Qed.

End CopyRegular.

(** ** The example heap is copyable *)

Section CopyableExamples.
Import Example MoreExamples.

(** Take the bags of the example heap one by one. *)
Ltac each_bag E :=
  unfold heap in E; simpl in E;
  repeat (apply lookup_insert_Some in E as [[_ <-]|[_ E]]; [|]);
  [..|by rewrite lookup_empty in E].

Ltac each_slot Hslot :=
  match type of Hslot with
  | ?i ∈ ?l => let l' := eval vm_compute in l in change (i ∈ l') in Hslot
  end;
  repeat (apply elem_of_cons in Hslot as [->|Hslot]);
  [..|by apply elem_of_nil in Hslot].

Ltac is_target :=
  first [ left; reflexivity
        | right; eexists; split; [reflexivity|]; right;
          split; [unfold structural_tnum; simpl; lia|];
          split; [reflexivity|eexists; reflexivity] ].

Lemma heap_copyable : copyable_heap heap.
Proof.
  split.
  - intros x k (_ & b & k' & E & _ & Ek & Hm) (b' & E' & Ek').
    assert (b' = b) as -> by congruence. assert (k' = k) as -> by congruence.
    each_bag E; injection Ek as <-; done.
  - intros x b _ E. each_bag E; (split; [reflexivity|simpl; unfold sizeof_Obj; lia]).
  - intros x b _ E Ht. each_bag E; simpl in Ht; try discriminate.
    simpl. lia.
  - intros x b i c _ E Hslot Ec.
    each_bag E; each_slot Hslot; injection Ec as <-; right; is_target.
Qed.

(** The positional object [4], which contains itself and shares [8]. *)
Lemma CopyObj_returns_witness :
  ∃ new h', CopyObj 6 4 true (mkThreadLocal 7) heap = Ret (new, mkThreadLocal 0, h').
Proof.
  refine (CopyObj_returns 6 4 true (mkThreadLocal 7) heap heap_regular heap_copyable _ _).
  - right. exists (bag 77 40 1 [1000; 8; 8; 4; 5]). split; [reflexivity|]. right.
    split; [left; reflexivity|]. split; [reflexivity|]. by eexists.
  - vm_compute. lia.
Defined.

(** The heap that the copy of [4] leaves. *)
Lemma CopyObj_keeps_regular_witness :
  regular_heap copied_heap ∧ known copied_heap 24 ∧ brk heap ≤ brk copied_heap.
Proof.
  refine (CopyObj_keeps_regular 3 4 true (mkThreadLocal 7) heap 24 (mkThreadLocal 0)
            copied_heap heap_regular _).
  vm_compute. reflexivity.
Defined.

End CopyableExamples.
